(** * injects: argument injection and composition decorators

    A shallow embedding of [injects/decorators.py] together with the parts
    of the Python standard library it is written against
    ([inspect.Signature._bind], [inspect.BoundArguments.args] / [kwargs],
    [contextlib.ExitStack]; CPython 3.11), and the properties of the four
    decorator factories [injects], [injects.ctx], [composes] and
    [composes.ctx]. *)

From Stdlib Require Import List String ZArith Bool Arith Lia.
Import ListNotations.
Local Open Scope string_scope.
Local Open Scope list_scope.

Set Implicit Arguments.

(* ===================================================================== *)
(** ** Python objects *)
(* ===================================================================== *)

(** What the decorators can observe of an object: whether it is callable,
    whether it is a coroutine object ([inspect.iscoroutine]), and which of
    the context manager protocols its type implements.  A coroutine object
    is an instance of the final built-in type [types.CoroutineType]: it is
    not callable and implements neither protocol. *)
Inductive value : Type :=
  | VNone
  | VTrue
  | VFalse
  | Obj (oid : nat) (d : data)
with data : Type :=
  | Int (n : Z)
  | Str (s : string)
  | Tuple (items : list value)
  | Function
  | Coroutine
  | Instance (has_call has_enter has_aenter : bool).

(** [c is a]: object identity.  [None], [True] and [False] are singletons;
    every other object is identified by [oid], whatever it holds. *)
Definition is_ (c a : value) : bool :=
  match c, a with
  | VNone, VNone | VTrue, VTrue | VFalse, VFalse => true
  | Obj i _, Obj j _ => Nat.eqb i j
  | _, _ => false
  end.

Definition callable (v : value) : bool :=
  match v with
  | Obj _ Function => true
  | Obj _ (Instance c _ _) => c
  | _ => false
  end.

(** [inspect.iscoroutine] *)
Definition iscoroutine (v : value) : bool :=
  match v with Obj _ Coroutine => true | _ => false end.

(** [hasattr(v, '__enter__')] (with [__exit__]) *)
Definition has_enter (v : value) : bool :=
  match v with Obj _ (Instance _ e _) => e | _ => false end.

(** [hasattr(v, '__aenter__')] *)
Definition has_aenter (v : value) : bool :=
  match v with Obj _ (Instance _ _ a) => a | _ => false end.

Inductive exn : Type :=
  | TypeError (msg : string)
  | ValueError (msg : string)
  | UserError (code : nat).

Inductive result (A : Type) : Type :=
  | Ok (a : A)
  | Raise (e : exn).
Arguments Ok {A} a.
Arguments Raise {A} e.

(* ===================================================================== *)
(** ** Insertion-ordered dictionaries with string keys *)
(* ===================================================================== *)

Module Dict.
Section Dict.
Variable V : Type.

Definition t := list (string * V).

Fixpoint get (d : t) (k : string) : option V :=
  match d with
  | [] => None
  | (k', v) :: d' => if String.eqb k k' then Some v else get d' k
  end.

Definition mem (d : t) (k : string) : bool :=
  match get d k with Some _ => true | None => false end.

(** [d[k] = v]: replaces in place, or appends a new key. *)
Fixpoint set (d : t) (k : string) (v : V) : t :=
  match d with
  | [] => [(k, v)]
  | (k', v') :: d' =>
      if String.eqb k k' then (k', v) :: d' else (k', v') :: set d' k v
  end.

(** What is left of [d] after [d.pop(k)]. *)
Fixpoint pop (d : t) (k : string) : t :=
  match d with
  | [] => []
  | (k', v) :: d' => if String.eqb k k' then d' else (k', v) :: pop d' k
  end.

(** [d |= e] / [d.update(e)] *)
Fixpoint update (d e : t) : t :=
  match e with
  | [] => d
  | (k, v) :: e' => update (set d k v) e'
  end.

Definition keys (d : t) : list string := map fst d.
End Dict.
End Dict.

Arguments Dict.get {V} d k.
Arguments Dict.mem {V} d k.
Arguments Dict.set {V} d k v.
Arguments Dict.pop {V} d k.
Arguments Dict.update {V} d e.
Arguments Dict.keys {V} d.

(* ===================================================================== *)
(** ** inspect: signatures and argument binding *)
(* ===================================================================== *)

Module Inspect.

Inductive pkind : Type :=
  | POSITIONAL_ONLY
  | POSITIONAL_OR_KEYWORD
  | VAR_POSITIONAL
  | KEYWORD_ONLY
  | VAR_KEYWORD.

Definition pkind_eqb (a b : pkind) : bool :=
  match a, b with
  | POSITIONAL_ONLY, POSITIONAL_ONLY
  | POSITIONAL_OR_KEYWORD, POSITIONAL_OR_KEYWORD
  | VAR_POSITIONAL, VAR_POSITIONAL
  | KEYWORD_ONLY, KEYWORD_ONLY
  | VAR_KEYWORD, VAR_KEYWORD => true
  | _, _ => false
  end.

(** [inspect.Parameter]; [default = None] is [Parameter.empty]. *)
Record Param : Type := mkParam
  { name : string; kind : pkind; default : option value }.

(** [inspect.Signature]: the parameters in declaration order. *)
Definition Signature := list Param.

Section Binding.
(** The binder never looks inside the values it binds. *)
Variable V : Type.

(** An entry of [BoundArguments.arguments]: one value for an ordinary
    parameter, the tuple of the surplus positional values for [*args],
    the dict of the surplus keyword values for [**kwargs]. *)
Inductive argval : Type :=
  | One (v : V)
  | Star (vs : list V)
  | StarStar (kvs : Dict.t V).

Definition arguments := Dict.t argval.

(** First loop of [Signature._bind]: positional values against the
    parameters.  Returns the arguments bound so far and the parameters
    the second loop iterates ([parameters_ex] chained with what is left
    of [parameters]). *)
Fixpoint bind_positional (partial : bool) (params : list Param)
    (arg_vals : list V) (kwargs : Dict.t V) (acc : arguments)
  : result (arguments * list Param) :=
  match arg_vals with
  | [] =>
      match params with
      | [] => Ok (acc, [])
      | param :: rest =>
          match kind param with
          | VAR_POSITIONAL => Ok (acc, rest)
          | k =>
              if Dict.mem kwargs (name param) then
                match k with
                | POSITIONAL_ONLY =>
                    Raise (TypeError
                      "parameter is positional only, but was passed as a keyword")
                | _ => Ok (acc, param :: rest)
                end
              else
                match k, default param with
                | VAR_KEYWORD, _ | _, Some _ => Ok (acc, param :: rest)
                | _, None =>
                    if partial then Ok (acc, param :: rest)
                    else Raise (TypeError "missing a required argument")
                end
          end
      end
  | arg_val :: more =>
      match params with
      | [] => Raise (TypeError "too many positional arguments")
      | param :: rest =>
          match kind param with
          | VAR_KEYWORD | KEYWORD_ONLY =>
              Raise (TypeError "too many positional arguments")
          | VAR_POSITIONAL =>
              Ok (Dict.set acc (name param) (Star (arg_val :: more)), rest)
          | k =>
              if Dict.mem kwargs (name param)
                 && negb (pkind_eqb k POSITIONAL_ONLY)
              then Raise (TypeError "multiple values for argument")
              else bind_positional partial rest more kwargs
                     (Dict.set acc (name param) (One arg_val))
          end
      end
  end.

(** Second loop of [Signature._bind]: the remaining parameters against
    the keyword values, which are popped as they are used. *)
Fixpoint bind_keywords (partial : bool) (params : list Param)
    (kwargs : Dict.t V) (acc : arguments) (kwargs_param : option Param)
  : result (arguments * Dict.t V * option Param) :=
  match params with
  | [] => Ok (acc, kwargs, kwargs_param)
  | param :: rest =>
      match kind param with
      | VAR_KEYWORD => bind_keywords partial rest kwargs acc (Some param)
      | VAR_POSITIONAL => bind_keywords partial rest kwargs acc kwargs_param
      | k =>
          match Dict.get kwargs (name param) with
          | None =>
              match partial, default param with
              | false, None => Raise (TypeError "missing a required argument")
              | _, _ => bind_keywords partial rest kwargs acc kwargs_param
              end
          | Some arg_val =>
              match k with
              | POSITIONAL_ONLY =>
                  Raise (TypeError
                    "parameter is positional only, but was passed as a keyword")
              | _ =>
                  bind_keywords partial rest (Dict.pop kwargs (name param))
                    (Dict.set acc (name param) (One arg_val)) kwargs_param
              end
          end
      end
  end.

(** [Signature._bind(args, kwargs, partial=...)], returning the
    [arguments] mapping of the [BoundArguments] it builds. *)
Definition _bind (sig : Signature) (args : list V) (kwargs : Dict.t V)
    (partial : bool) : result arguments :=
  match bind_positional partial sig args kwargs [] with
  | Raise e => Raise e
  | Ok (arguments, parameters) =>
      match bind_keywords partial parameters kwargs arguments None with
      | Raise e => Raise e
      | Ok (arguments, kwargs, kwargs_param) =>
          match kwargs with
          | [] => Ok arguments
          | _ :: _ =>
              match kwargs_param with
              | Some p => Ok (Dict.set arguments (name p) (StarStar kwargs))
              | None => Raise (TypeError "got an unexpected keyword argument")
              end
          end
      end
  end.

Definition bind (sig : Signature) (args : list V) (kwargs : Dict.t V) :=
  _bind sig args kwargs false.

Definition bind_partial (sig : Signature) (args : list V) (kwargs : Dict.t V) :=
  _bind sig args kwargs true.

(** [BoundArguments.args].  [_bind] stores a [Star] under a
    [VAR_POSITIONAL] name and a [One] under an ordinary name; an entry
    of another shape contributes no positional value. *)
Fixpoint args (sig : Signature) (a : arguments) : list V :=
  match sig with
  | [] => []
  | param :: rest =>
      match kind param with
      | VAR_KEYWORD | KEYWORD_ONLY => []
      | k =>
          match Dict.get a (name param) with
          | None => []
          | Some arg =>
              match k, arg with
              | VAR_POSITIONAL, Star vs => vs ++ args rest a
              | VAR_POSITIONAL, _ => args rest a
              | _, One v => v :: args rest a
              | _, _ => args rest a
              end
          end
      end
  end.

(** The loop of [BoundArguments.kwargs], from the state
    ([kwargs_started], [kwargs]).  An entry whose shape cannot be passed
    by name (that [_bind] never builds) is skipped. *)
Fixpoint kwargs_loop (sig : Signature) (a : arguments)
    (kwargs_started : bool) (kwargs : Dict.t V) : Dict.t V :=
  match sig with
  | [] => kwargs
  | param :: rest =>
      let store started :=
        match Dict.get a (name param) with
        | None => kwargs_loop rest a started kwargs
        | Some arg =>
            match kind param, arg with
            | VAR_KEYWORD, StarStar kvs =>
                kwargs_loop rest a started (Dict.update kwargs kvs)
            | VAR_KEYWORD, _ => kwargs_loop rest a started kwargs
            | _, One v =>
                kwargs_loop rest a started (Dict.set kwargs (name param) v)
            | _, _ => kwargs_loop rest a started kwargs
            end
        end in
      if kwargs_started then store true
      else
        match kind param with
        | VAR_KEYWORD | KEYWORD_ONLY => store true
        | _ =>
            if Dict.mem a (name param)
            then kwargs_loop rest a false kwargs
            else kwargs_loop rest a true kwargs
        end
  end.

Definition kwargs (sig : Signature) (a : arguments) : Dict.t V :=
  kwargs_loop sig a false [].

End Binding.

Arguments One {V} v.
Arguments Star {V} vs.
Arguments StarStar {V} kvs.

End Inspect.

Import Inspect.

(* ===================================================================== *)
(** ** Effects: what a call of a wrapped function does, in order *)
(* ===================================================================== *)

(** The observable steps of one call, each with its outcome.
    [EvEnter]/[EvExit] carry whether the synchronous protocol
    ([__enter__]/[__exit__], [true]) or the asynchronous one
    ([__aenter__]/[__aexit__], [false]) was used; [EvInvoke] is the call of
    the decorated function itself, with the arguments its body receives. *)
Inductive event : Type :=
  | EvCall (f : value) (args : list value) (r : result value)
  | EvAwait (c : value) (r : result value)
  | EvEnter (is_sync : bool) (cm : value) (r : result value)
  | EvExit (is_sync : bool) (cm : value) (exc : option exn) (r : result bool)
  | EvInvoke (env : arguments value) (r : result value).

Definition trace := list event.

(** How the objects of the program behave.  Each behaviour may depend on
    everything that happened before it (the trace), so callables and
    context managers may be stateful. *)
Record world : Type := mkWorld
  { call_ : trace -> value -> list value -> result value;
    await_ : trace -> value -> result value;
    enter_ : trace -> bool -> value -> result value;
    exit_ : trace -> bool -> value -> option exn -> result bool }.

(** The state of a running call: the trace so far and the
    [_exit_callbacks] of the exit stack in scope, last pushed first. *)
Record state : Type := mkState
  { log : trace; exits : list (bool * value) }.

Definition M (A : Type) : Type := state -> result A * state.

Definition ret {A} (a : A) : M A := fun s => (Ok a, s).
Definition raise {A} (e : exn) : M A := fun s => (Raise e, s).
Definition bindM {A B} (m : M A) (f : A -> M B) : M B :=
  fun s => match m s with
           | (Ok a, s') => f a s'
           | (Raise e, s') => (Raise e, s')
           end.
Definition lift {A} (r : result A) : M A := fun s => (r, s).

Declare Scope py_scope.
Delimit Scope py_scope with py.
Notation "x <- m ;; k" := (bindM m (fun x => k))
  (at level 61, m at next level, right associativity) : py_scope.
Notation "' p <- m ;; k" := (bindM m (fun p => k))
  (at level 61, p pattern, m at next level, right associativity) : py_scope.
Local Open Scope py_scope.

Definition emit (e : event) : M unit :=
  fun s => (Ok tt, mkState (log s ++ [e]) (exits s)).

(** Runs the computations of a list in order and collects their results,
    as a list comprehension over a generator does. *)
Fixpoint sequence {A} (ms : list (M A)) : M (list A) :=
  match ms with
  | [] => ret []
  | m :: ms' => a <- m ;; rest <- sequence ms' ;; ret (a :: rest)
  end.

(** [{k: v for k, v in items}] *)
Fixpoint dict_of {V} (items : list (string * V)) (acc : Dict.t V) : Dict.t V :=
  match items with
  | [] => acc
  | (k, v) :: items' => dict_of items' (Dict.set acc k v)
  end.

Section World.
Variable w : world.

(** the call [f args] *)
Definition py_call (f : value) (args : list value) : M value :=
  if callable f then
    fun s => let r := call_ w (log s) f args in
             (r, mkState (log s ++ [EvCall f args r]) (exits s))
  else raise (TypeError "object is not callable").

(** [await c] *)
Definition py_await (c : value) : M value :=
  if iscoroutine c then
    fun s => let r := await_ w (log s) c in
             (r, mkState (log s ++ [EvAwait c r]) (exits s))
  else raise (TypeError "object can't be used in 'await' expression").

(** [stack.enter_context(cm)]: the exit is pushed only when [__enter__]
    returned. *)
Definition enter_context (cm : value) : M value :=
  if has_enter cm then
    fun s =>
      let r := enter_ w (log s) true cm in
      let t := log s ++ [EvEnter true cm r] in
      match r with
      | Ok _ => (r, mkState t ((true, cm) :: exits s))
      | Raise _ => (r, mkState t (exits s))
      end
  else raise (TypeError "object does not support the context manager protocol").

(** [await stack.enter_async_context(cm)] *)
Definition enter_async_context (cm : value) : M value :=
  if has_aenter cm then
    fun s =>
      let r := enter_ w (log s) false cm in
      let t := log s ++ [EvEnter false cm r] in
      match r with
      | Ok _ => (r, mkState t ((false, cm) :: exits s))
      | Raise _ => (r, mkState t (exits s))
      end
  else raise (TypeError
         "object does not support the asynchronous context manager protocol").

(** The loop of [ExitStack.__exit__] / [AsyncExitStack.__aexit__]: pops
    the callbacks last in, first out; one that returns a true value
    swallows the exception in flight, one that raises replaces it. *)
Fixpoint unwind (cbs : list (bool * value)) (exc : option exn)
    (suppressed_exc pending_raise : bool) (t : trace)
  : (option exn * bool * bool) * trace :=
  match cbs with
  | [] => ((exc, suppressed_exc, pending_raise), t)
  | (is_sync, cm) :: cbs' =>
      let r := exit_ w t is_sync cm exc in
      let t' := t ++ [EvExit is_sync cm exc r] in
      match r with
      | Ok true => unwind cbs' None true false t'
      | Ok false => unwind cbs' exc suppressed_exc pending_raise t'
      | Raise e => unwind cbs' (Some e) suppressed_exc true t'
      end
  end.

(** [with contextlib.ExitStack() as stack: return body] (and its
    [async with] sibling): a body that raised and whose exception was
    swallowed makes the function fall through and return [None]. *)
Definition with_exit_stack (body : M value) : M value :=
  fun s =>
    let '(r, s1) := body (mkState (log s) []) in
    let received := match r with Ok _ => None | Raise e => Some e end in
    let '((exc, suppressed_exc, pending_raise), t) :=
      unwind (exits s1) received false false (log s1) in
    let s2 := mkState t (exits s) in
    if pending_raise then
      match exc with
      | Some e => (Raise e, s2)
      | None => (r, s2)
      end
    else
      match r with
      | Ok v => (Ok v, s2)
      | Raise e => if suppressed_exc then (Ok VNone, s2) else (Raise e, s2)
      end.

(* =================================================================== *)
(** ** The decorated function *)
(* =================================================================== *)

(** A Python function: its signature, whether it is an [async def]
    ([asyncio.iscoroutinefunction]), and what its body does with the
    arguments it receives. *)
Record pyfunc : Type := mkFunc
  { signature : Signature;
    iscoroutinefunction : bool;
    body : trace -> arguments value -> result value }.

(** What the body sees: the bound arguments in declaration order, with
    the defaults, the empty tuple and the empty dict filled in. *)
Fixpoint apply_defaults (sig : Signature) (a : arguments value)
  : arguments value :=
  match sig with
  | [] => []
  | param :: rest =>
      match Dict.get a (name param) with
      | Some arg => (name param, arg) :: apply_defaults rest a
      | None =>
          match kind param, default param with
          | VAR_POSITIONAL, _ => (name param, Star []) :: apply_defaults rest a
          | VAR_KEYWORD, _ => (name param, StarStar []) :: apply_defaults rest a
          | _, Some d => (name param, One d) :: apply_defaults rest a
          | _, None => apply_defaults rest a
          end
      end
  end.

(** The call of [fn] on [ba.args] and [ba.kwargs] that ends every
    wrapper (awaited, for an [async def]): the interpreter binds the values to
    the parameters, which fails with [TypeError] on a mismatch, and runs
    the body.  The binding is written with [Signature.bind]: on the
    [args] and [kwargs] of a [BoundArguments], which is all the
    wrappers call [fn] on, the interpreter binds as [Signature.bind]
    does.  On other arguments the two may differ (a keyword named like
    a positional-only parameter goes to [**kwargs] in a call and is
    rejected by [Signature.bind]), so [invoke] is not the call of [fn]
    on arbitrary arguments. *)
Definition invoke (fn : pyfunc) (args : list value) (kwargs : Dict.t value)
  : M value :=
  match bind (signature fn) args kwargs with
  | Raise e => raise e
  | Ok a =>
      let env := apply_defaults (signature fn) a in
      fun s => let r := body fn (log s) env in
               (r, mkState (log s ++ [EvInvoke env r]) (exits s))
  end.

Definition wrapped := list value -> Dict.t value -> M value.

End World.

(* ===================================================================== *)
(** ** decorators.py *)
(* ===================================================================== *)

(** An element of a merged inject binding: a value the caller passed, or an
    instance of the module's private class [_bindwrap], which the
    decorators build around each decoration-time value and nothing else
    does. *)
Inductive slot : Type :=
  | Arg (v : value)
  | _bindwrap (val : value).

Section Decorators.
Variable w : world.

(** A generator item: the triple [(value, called, callable)]. *)
Definition triple : Type := (value * bool * value)%type.

(** [[f(x) for x in b_args]]: the generator [b_args] is consumed item by
    item, so the steps of an item and of [f] on it are interleaved. *)
Definition for_args (b_args : list (M triple)) (f : triple -> M value)
  : M (list value) :=
  sequence (map (fun item => x <- item ;; f x) b_args).

(** [{k: f(x) for k, x in b_kwargs}] *)
Definition for_kwargs (b_kwargs : list (string * M triple))
    (f : triple -> M value) : M (Dict.t value) :=
  items <- sequence
             (map (fun ki => x <- snd ki ;; v <- f x ;; ret (fst ki, v))
                  b_kwargs) ;;
  ret (dict_of items []).

(** [sig.bind(...)] / [sig.bind_partial(...)] inside a wrapper: a
    [TypeError] of the binder propagates. *)
Definition try {A} (r : result A) : M A := lift r.

(** [d.get(k)] *)
Definition get_or_None (d : Dict.t value) (k : string) : value :=
  match Dict.get d k with Some v => v | None => VNone end.

(* ------------------------------------------------------------------- *)
(** *** composes *)

Definition _call (c a : value) : M triple :=
  if is_ c a || is_ c VNone then ret (a, false, VFalse)
  else r <- py_call w c [a] ;; ret (r, true, c).

Definition _build_bound_compose (sig : Signature) (ba bc : arguments value)
  : list (M triple) * list (string * M triple) :=
  let bb := Dict.update ba bc in
  let args_ := map (fun ca => _call (fst ca) (snd ca))
                   (combine (args sig bb) (args sig ba)) in
  let kwargs_ := map (fun ka => (fst ka,
                                 _call (get_or_None (kwargs sig bb) (fst ka))
                                       (snd ka)))
                     (kwargs sig ba) in
  (args_, kwargs_).

Definition _compose (sig : Signature) (bc : arguments value)
    (args_ : list value) (kwargs_ : Dict.t value)
  : M (list (M triple) * list (string * M triple)) :=
  ba <- try (bind sig args_ kwargs_) ;;
  ret (_build_bound_compose sig ba bc).

(** The synchronous [_fn] of [composes]. *)
Definition composes_fn (fn : pyfunc) (bc : arguments value) : wrapped :=
  fun args_ kwargs_ =>
    let sig := signature fn in
    '(b_args, b_kwargs) <- _compose sig bc args_ kwargs_ ;;
    args_ <- for_args b_args (fun '(v, _, _) => ret v) ;;
    kwargs_ <- for_kwargs b_kwargs (fun '(v, _, _) => ret v) ;;
    ba <- try (bind sig args_ kwargs_) ;;
    invoke fn (args sig ba) (kwargs sig ba).

(** The [async def _fn] of [composes]. *)
Definition composes_async_fn (fn : pyfunc) (bc : arguments value) : wrapped :=
  fun args_ kwargs_ =>
    let sig := signature fn in
    let resolve := fun '(v, _, awt) =>
      if iscoroutine awt then py_await w v else ret v in
    '(b_args, b_kwargs) <- _compose sig bc args_ kwargs_ ;;
    args_ <- for_args b_args resolve ;;
    kwargs_ <- for_kwargs b_kwargs resolve ;;
    ba <- try (bind sig args_ kwargs_) ;;
    invoke fn (args sig ba) (kwargs sig ba).

(** The [_decorator] of [composes] applied to [fn]: fails at decoration
    time when the composers do not fit the signature. *)
Definition composes (composer_args : list value)
    (composer_kwargs : Dict.t value) (fn : pyfunc) : result wrapped :=
  match bind_partial (signature fn) composer_args composer_kwargs with
  | Raise e => Raise e
  | Ok bc =>
      if negb (iscoroutinefunction fn) then Ok (composes_fn fn bc)
      else Ok (composes_async_fn fn bc)
  end.

(* ------------------------------------------------------------------- *)
(** *** composes.ctx *)

(** The synchronous [_fn] of [composes_ctx]. *)
Definition composes_ctx_fn (fn : pyfunc) (bc : arguments value) : wrapped :=
  fun args_ kwargs_ =>
    let sig := signature fn in
    let scoped := fun '(v, ctx, _) =>
      if (ctx : bool) then enter_context w v else ret v in
    with_exit_stack w (
      '(b_args, b_kwargs) <- _compose sig bc args_ kwargs_ ;;
      args_ <- for_args b_args scoped ;;
      kwargs_ <- for_kwargs b_kwargs scoped ;;
      ba <- try (bind sig args_ kwargs_) ;;
      invoke fn (args sig ba) (kwargs sig ba)).

(** The inner [async def _call(v, ctx, awt)] of [composes_ctx]. *)
Definition composes_ctx__call : triple -> M value :=
  fun '(v, ctx, awt) =>
    if negb ctx then ret v
    else if negb (has_aenter v) then enter_context w v
    else enter_async_context w v.

(** The [async def _fn] of [composes_ctx]. *)
Definition composes_ctx_async_fn (fn : pyfunc) (bc : arguments value)
  : wrapped :=
  fun args_ kwargs_ =>
    let sig := signature fn in
    with_exit_stack w (
      '(b_args, b_kwargs) <- _compose sig bc args_ kwargs_ ;;
      args_ <- for_args b_args composes_ctx__call ;;
      kwargs_ <- for_kwargs b_kwargs composes_ctx__call ;;
      ba <- try (bind sig args_ kwargs_) ;;
      invoke fn (args sig ba) (kwargs sig ba)).

Definition composes_ctx (composer_args : list value)
    (composer_kwargs : Dict.t value) (fn : pyfunc) : result wrapped :=
  match bind_partial (signature fn) composer_args composer_kwargs with
  | Raise e => Raise e
  | Ok bc =>
      if negb (iscoroutinefunction fn) then Ok (composes_ctx_fn fn bc)
      else Ok (composes_ctx_async_fn fn bc)
  end.

(* ------------------------------------------------------------------- *)
(** *** injects *)

Definition _call_bound_inject (a : slot) : M triple :=
  match a with
  | Arg v => ret (v, false, VFalse)
  | _bindwrap val =>
      if negb (callable val) then ret (val, false, VFalse)
      else r <- py_call w val [] ;; ret (r, true, val)
  end.

Definition _build_bound_inject (sig : Signature) (ba bc : arguments slot)
  : list (M triple) * list (string * M triple) :=
  let bb := Dict.update bc ba in
  let b_args := map _call_bound_inject (args sig bb) in
  let b_kwargs := map (fun kv => (fst kv, _call_bound_inject (snd kv)))
                      (kwargs sig bb) in
  (b_args, b_kwargs).

(** The values of a call enter the merge as they are. *)
Definition call_args (args_ : list value) : list slot := map Arg args_.
Definition call_kwargs (kwargs_ : Dict.t value) : Dict.t slot :=
  map (fun kv => (fst kv, Arg (snd kv))) kwargs_.

(** The table of [injects] and [injects_ctx]: [sig.bind_partial] on the
    decoration-time values, each wrapped in a [_bindwrap]. *)
Definition bind_injectors (sig : Signature) (injector_args : list value)
    (injector_kwargs : Dict.t value) : result (arguments slot) :=
  bind_partial sig (map _bindwrap injector_args)
    (dict_of (map (fun kv => (fst kv, _bindwrap (snd kv))) injector_kwargs) []).

(** The synchronous [_fn] of [injects]. *)
Definition injects_fn (fn : pyfunc) (bc : arguments slot) : wrapped :=
  fun args_ kwargs_ =>
    let sig := signature fn in
    ba <- try (bind_partial sig (call_args args_) (call_kwargs kwargs_)) ;;
    let '(b_args, b_kwargs) := _build_bound_inject sig ba bc in
    args_ <- for_args b_args (fun '(v, _, _) => ret v) ;;
    kwargs_ <- for_kwargs b_kwargs (fun '(v, _, _) => ret v) ;;
    ba <- try (bind_partial sig args_ kwargs_) ;;
    invoke fn (args sig ba) (kwargs sig ba).

(** The [async def _fn] of [injects]. *)
Definition injects_async_fn (fn : pyfunc) (bc : arguments slot) : wrapped :=
  fun args_ kwargs_ =>
    let sig := signature fn in
    let resolve := fun '(v, _, awt) =>
      if iscoroutine awt then py_await w v else ret v in
    ba <- try (bind_partial sig (call_args args_) (call_kwargs kwargs_)) ;;
    let '(b_args, b_kwargs) := _build_bound_inject sig ba bc in
    args_ <- for_args b_args resolve ;;
    kwargs_ <- for_kwargs b_kwargs resolve ;;
    ba <- try (bind_partial sig args_ kwargs_) ;;
    invoke fn (args sig ba) (kwargs sig ba).

Definition injects (injector_args : list value)
    (injector_kwargs : Dict.t value) (fn : pyfunc) : result wrapped :=
  match bind_injectors (signature fn) injector_args injector_kwargs with
  | Raise e => Raise e
  | Ok bc =>
      if negb (iscoroutinefunction fn) then Ok (injects_fn fn bc)
      else Ok (injects_async_fn fn bc)
  end.

(* ------------------------------------------------------------------- *)
(** *** injects.ctx *)

(** [async def _enter(stack, r, called, awt)] *)
Definition _enter : triple -> M value :=
  fun '(r, called, awt) =>
    if negb called then ret r
    else if negb (has_aenter r) then enter_context w r
    else enter_async_context w r.

(** The keyword comprehension of the synchronous [_fn] of [injects_ctx],
    [{k: ... for v, cld, _ in b_kwargs}]: every item of [b_kwargs] is a
    pair [(k, triple)], and unpacking a pair into the three targets
    [v, cld, _] raises [ValueError]. *)
Definition injects_ctx_kwargs (b_kwargs : list (string * M triple))
  : M (Dict.t value) :=
  items <- sequence
             (map (fun ki : string * M triple =>
                     _ <- snd ki ;;
                     raise (A := string * value)
                       (ValueError "not enough values to unpack (expected 3, got 2)"))
                  b_kwargs) ;;
  ret (dict_of items []).

(** The synchronous [_fn] of [injects_ctx]. *)
Definition injects_ctx_fn (fn : pyfunc) (bc : arguments slot) : wrapped :=
  fun args_ kwargs_ =>
    let sig := signature fn in
    with_exit_stack w (
      ba <- try (bind_partial sig (call_args args_) (call_kwargs kwargs_)) ;;
      let '(b_args, b_kwargs) := _build_bound_inject sig ba bc in
      args_ <- for_args b_args
                 (fun '(v, cld, _) =>
                    if (cld : bool) then enter_context w v else ret v) ;;
      kwargs_ <- injects_ctx_kwargs b_kwargs ;;
      ba <- try (bind_partial sig args_ kwargs_) ;;
      invoke fn (args sig ba) (kwargs sig ba)).

(** The [async def _fn] of [injects_ctx]. *)
Definition injects_ctx_async_fn (fn : pyfunc) (bc : arguments slot)
  : wrapped :=
  fun args_ kwargs_ =>
    let sig := signature fn in
    with_exit_stack w (
      ba <- try (bind_partial sig (call_args args_) (call_kwargs kwargs_)) ;;
      let '(b_args, b_kwargs) := _build_bound_inject sig ba bc in
      args_ <- for_args b_args _enter ;;
      kwargs_ <- for_kwargs b_kwargs _enter ;;
      ba <- try (bind_partial sig args_ kwargs_) ;;
      invoke fn (args sig ba) (kwargs sig ba)).

Definition injects_ctx (injector_args : list value)
    (injector_kwargs : Dict.t value) (fn : pyfunc) : result wrapped :=
  match bind_injectors (signature fn) injector_args injector_kwargs with
  | Raise e => Raise e
  | Ok bc =>
      if negb (iscoroutinefunction fn) then Ok (injects_ctx_fn fn bc)
      else Ok (injects_ctx_async_fn fn bc)
  end.

End Decorators.

(* ===================================================================== *)
(** ** Well-formed signatures and bindings *)
(* ===================================================================== *)

Module Wf.
Import Inspect.

(** Parameters are declared positional-only first, then
    positional-or-keyword, [*args], keyword-only, [**kwargs]. *)
Definition rank (k : pkind) : nat :=
  match k with
  | POSITIONAL_ONLY => 0
  | POSITIONAL_OR_KEYWORD => 1
  | VAR_POSITIONAL => 2
  | KEYWORD_ONLY => 3
  | VAR_KEYWORD => 4
  end.

Definition variadic (k : pkind) : bool :=
  match k with VAR_POSITIONAL | VAR_KEYWORD => true | _ => false end.

(** The kinds never go back, and a variadic kind occurs at most once. *)
Fixpoint ordered_from (lo : nat) (sig : Signature) : bool :=
  match sig with
  | [] => true
  | p :: rest =>
      Nat.leb lo (rank (kind p)) &&
      ordered_from (if variadic (kind p) then S (rank (kind p))
                    else rank (kind p)) rest
  end.

Fixpoint mem_str (x : string) (l : list string) : bool :=
  match l with
  | [] => false
  | y :: l' => String.eqb x y || mem_str x l'
  end.

Fixpoint nodupb (l : list string) : bool :=
  match l with
  | [] => true
  | x :: l' => negb (mem_str x l') && nodupb l'
  end.

(** What [inspect.Signature] (and the [def] statement) enforce. *)
Definition wf_sig (sig : Signature) : bool :=
  nodupb (map name sig) && ordered_from 0 sig.

(** A keyword dictionary has each key once. *)
Definition wf_kwargs {V} (kwargs : Dict.t V) : bool := nodupb (Dict.keys kwargs).

(** A parameter that a complete call has to give a value. *)
Definition required (p : Param) : bool :=
  match kind p, default p with
  | (POSITIONAL_ONLY | POSITIONAL_OR_KEYWORD | KEYWORD_ONLY), None => true
  | _, _ => false
  end.

Section V.
Variable V : Type.
Implicit Types (a : arguments V).

Definition entry_at a (p : Param) : arguments V :=
  match Dict.get a (name p) with
  | Some x => [(name p, x)]
  | None => []
  end.

(** The entries of [a] for the parameters of [sig], in declaration
    order. *)
Definition restrict (sig : Signature) a : arguments V :=
  flat_map (entry_at a) sig.

(** What a parameter contributes to [BoundArguments.kwargs] once the
    keyword part has started. *)
Definition kw_entry a (p : Param) : Dict.t V :=
  match Dict.get a (name p) with
  | None => []
  | Some arg =>
      match kind p, arg with
      | VAR_KEYWORD, StarStar kvs => kvs
      | VAR_KEYWORD, _ => []
      | _, One v => [(name p, v)]
      | _, _ => []
      end
  end.

Definition kw_entries (params : list Param) a : Dict.t V :=
  flat_map (kw_entry a) params.

(** The parameters whose values [BoundArguments.args] lists, and the
    parameters left to the keyword part. *)
Fixpoint pos_split (params : list Param) a : list Param * list Param :=
  match params with
  | [] => ([], [])
  | p :: rest =>
      match kind p with
      | VAR_KEYWORD | KEYWORD_ONLY => ([], p :: rest)
      | k =>
          match Dict.get a (name p) with
          | None => ([], match k with VAR_POSITIONAL => rest | _ => p :: rest end)
          | Some _ => let (c, r) := pos_split rest a in (p :: c, r)
          end
      end
  end.

Definition is_vk (p : Param) : bool := pkind_eqb (kind p) VAR_KEYWORD.
Definition nonvk (params : list Param) := filter (fun p => negb (is_vk p)) params.
Definition vks (params : list Param) := filter is_vk params.

Definition shape (k : pkind) (x : argval V) : Prop :=
  match k with
  | VAR_POSITIONAL => exists v vs, x = Star (v :: vs)
  | VAR_KEYWORD => exists kvs, x = StarStar kvs
  | _ => exists v, x = One v
  end.

(** The bindings [_bind] builds for [params]: every entry has the shape
    of its parameter; a positional-only or [*args] entry is there only if
    every earlier parameter has one; a [**kwargs] dict is not empty, has
    each key once, and none of its keys names a parameter that could
    take the value itself. *)
Record ok (params : list Param) a : Prop := mkOk
  { ok_shape : forall p x, In p params ->
      Dict.get a (name p) = Some x -> shape (kind p) x;
    ok_closed : forall pre p post, params = pre ++ p :: post ->
      Dict.get a (name p) = None ->
      forall q, In q post ->
      kind q = POSITIONAL_ONLY \/ kind q = VAR_POSITIONAL ->
      Dict.get a (name q) = None;
    ok_ss : forall vk kvs, In vk params -> kind vk = VAR_KEYWORD ->
      Dict.get a (name vk) = Some (StarStar kvs) ->
      kvs <> [] /\ NoDup (Dict.keys kvs) /\
      forall q, In q params -> In (name q) (Dict.keys kvs) ->
        kind q = VAR_POSITIONAL \/ kind q = VAR_KEYWORD \/
        (kind q = POSITIONAL_ONLY /\ Dict.get a (name q) <> None) }.

(** Every required parameter has an entry. *)
Definition complete (params : list Param) a : Prop :=
  forall p, In p params -> required p = true -> Dict.get a (name p) <> None.

(** A parameter with the entry bound to it. *)
Definition ent (b : Param * argval V) : string * argval V :=
  (name (fst b), snd b).

(** Two bindings with the same entries for the parameters of [sig]. *)
Definition same_on (sig : list Param) a b : Prop :=
  forall p, In p sig -> Dict.get a (name p) = Dict.get b (name p).

End V.

Arguments ent {V} b.

(** [f] applied to every value of a binding. *)
Definition map_argval {V W} (f : V -> W) (x : argval V) : argval W :=
  match x with
  | One v => One (f v)
  | Star vs => Star (map f vs)
  | StarStar kvs => StarStar (map (fun kv => (fst kv, f (snd kv))) kvs)
  end.

Definition map_values {V W} (f : V -> W) (d : Dict.t V) : Dict.t W :=
  map (fun kv => (fst kv, f (snd kv))) d.

Definition map_arguments {V W} (f : V -> W) (a : arguments V) : arguments W :=
  map_values (map_argval f) a.

Definition map_result {A B} (f : A -> B) (r : result A) : result B :=
  match r with Ok a => Ok (f a) | Raise e => Raise e end.

End Wf.

(** Pairs of values in relation: an element of a binding together with
    what a wrapper made of it. *)
Module Related.
Section R.
Variables (V W : Type) (R : V -> W -> Prop).
Definition t : Type := { z : V * W | R (fst z) (snd z) }.
Definition before (z : t) : V := fst (proj1_sig z).
Definition after (z : t) : W := snd (proj1_sig z).
End R.
End Related.

Section InjectShape.
Variable w : world.
Local Open Scope py_scope.

(** The four [_fn] of [injects] and [injects_ctx] differ in what they do
    with a generator item ([finish]) and in how they walk the keyword
    items ([walk]). *)
Definition inject_body (finish : triple -> M value)
    (walk : list (string * M triple) -> M (Dict.t value))
    (fn : pyfunc) (bc : arguments slot) : wrapped :=
  fun args_ kwargs_ =>
    let sig := signature fn in
    ba <- try (bind_partial sig (call_args args_) (call_kwargs kwargs_)) ;;
    let '(b_args, b_kwargs) := _build_bound_inject w sig ba bc in
    args_ <- for_args b_args finish ;;
    kwargs_ <- walk b_kwargs ;;
    ba <- try (bind_partial sig args_ kwargs_) ;;
    invoke fn (args sig ba) (kwargs sig ba).

(** The two [_fn] of [composes], and the bodies of those of
    [composes_ctx]. *)
Definition compose_body (finish : triple -> M value)
    (fn : pyfunc) (bc : arguments value) : wrapped :=
  fun args_ kwargs_ =>
    let sig := signature fn in
    '(b_args, b_kwargs) <- _compose w sig bc args_ kwargs_ ;;
    args_ <- for_args b_args finish ;;
    kwargs_ <- for_kwargs b_kwargs finish ;;
    ba <- try (bind sig args_ kwargs_) ;;
    invoke fn (args sig ba) (kwargs sig ba).
End InjectShape.

(** What a wrapper makes of an element of the merged inject binding, as
    far as it is fixed: a value of the call is passed on as it is, and so
    is a decoration-time value that is not callable. *)
Definition passes (a : slot) (v : value) : Prop :=
  match a with
  | Arg u => v = u
  | _bindwrap val => callable val = false -> v = val
  end.

Definition is_invoke (e : event) : Prop :=
  match e with EvInvoke _ _ => True | _ => False end.

Definition not_invoke (e : event) : Prop := ~ is_invoke e.

(** [m] only appends to the trace, and every step it appends satisfies
    [P]. *)
Definition emits {A} (P : event -> Prop) (m : M A) : Prop :=
  forall s r s', m s = (r, s') ->
    exists evs, log s' = log s ++ evs /\ Forall P evs.

(** What a way of walking the keyword items of the merged inject binding
    has to guarantee. *)
Definition walks (w : world)
    (walk : list (string * M triple) -> M (Dict.t value)) : Prop :=
  forall slots : Dict.t slot,
    let items := map (fun kv => (fst kv, _call_bound_inject w (snd kv))) slots in
    emits not_invoke (walk items) /\
    (NoDup (Dict.keys slots) -> forall s kvs s',
       walk items s = (Ok kvs, s') ->
       Forall2 (fun kv kw => fst kv = fst kw /\ passes (snd kv) (snd kw))
         slots kvs).

(* ===================================================================== *)
(** ** The examples of the docstrings *)
(* ===================================================================== *)

Module Examples.
Import Inspect.

(** Small integers are cached by the interpreter: equal ones are the same
    object. *)
Definition int (n : Z) : value := Obj (1000 + Z.abs_nat n) (Int n).
Definition str (oid : nat) (s : string) : value := Obj oid (Str s).
Definition lam (oid : nat) : value := Obj oid Function.

(** [lambda: 7], [lambda x: x+1], [lambda y: y+2], [lambda x: 'bye'] *)
Definition lambda_7 := lam 1.
Definition lambda_x_plus_1 := lam 2.
Definition lambda_y_plus_2 := lam 3.
Definition lambda_bye := lam 4.

(** An [async def] with no parameter, and the coroutine object a call of
    it returns, which resolves to [42]. *)
Definition async_answer := lam 5.
Definition pending_answer : value := Obj 6 Coroutine.

(** [ctx], a function made by [contextlib.contextmanager], and the context
    manager a call of it returns, whose [__enter__] gives [7]. *)
Definition ctx := lam 7.
Definition ctx_manager : value := Obj 8 (Instance true true false).

(** [ctx_failing], which returns a context manager whose [__enter__]
    raises. *)
Definition ctx_failing := lam 9.
Definition failing_manager : value := Obj 10 (Instance false true false).

Definition ex_world : world :=
  {| call_ := fun _ f args_ =>
       match f, args_ with
       | Obj 1 _, [] => Ok (int 7)
       | Obj 2 _, [Obj _ (Int n)] => Ok (int (n + 1))
       | Obj 3 _, [Obj _ (Int n)] => Ok (int (n + 2))
       | Obj 4 _, [_] => Ok (str 50 "bye")
       | Obj 5 _, [] => Ok pending_answer
       | Obj 7 _, [] => Ok ctx_manager
       | Obj 9 _, [] => Ok failing_manager
       | _, _ => Raise (TypeError "bad call")
       end;
     await_ := fun _ c =>
       match c with
       | Obj 6 _ => Ok (int 42)
       | _ => Raise (TypeError "bad await")
       end;
     enter_ := fun _ _ cm =>
       match cm with
       | Obj 8 _ => Ok (int 7)
       | _ => Raise (UserError 1)
       end;
     exit_ := fun _ _ _ _ => Ok false |}.

Definition one_of (a : option (argval value)) : value :=
  match a with Some (One v) => v | _ => VNone end.

Definition pok (n : string) (d : option value) : Param :=
  mkParam n POSITIONAL_OR_KEYWORD d.

(** [def foo(arg1, arg2, arg3='ignored'): return arg1, arg2, arg3] *)
Definition foo3 : pyfunc :=
  {| signature := [pok "arg1" None; pok "arg2" None;
                   pok "arg3" (Some (str 60 "ignored"))];
     iscoroutinefunction := false;
     body := fun _ env =>
       Ok (Obj 900 (Tuple [one_of (Dict.get env "arg1");
                           one_of (Dict.get env "arg2");
                           one_of (Dict.get env "arg3")])) |}.

Definition triple_of (a b c : value) : value := Obj 900 (Tuple [a; b; c]).
Definition pair_of (a b : value) : value := Obj 900 (Tuple [a; b]).

(** [def foo(x, y=2): return x, y] *)
Definition foo2 : pyfunc :=
  {| signature := [pok "x" None; pok "y" (Some (int 2))];
     iscoroutinefunction := false;
     body := fun _ env =>
       Ok (pair_of (one_of (Dict.get env "x")) (one_of (Dict.get env "y"))) |}.

(** [def foo(x=0, y=2): return x, y] *)
Definition foo2d : pyfunc :=
  {| signature := [pok "x" (Some (int 0)); pok "y" (Some (int 2))];
     iscoroutinefunction := false;
     body := fun _ env =>
       Ok (pair_of (one_of (Dict.get env "x")) (one_of (Dict.get env "y"))) |}.

(** [async def foo(arg): return arg] *)
Definition afoo : pyfunc :=
  {| signature := [pok "arg" None];
     iscoroutinefunction := true;
     body := fun _ env => Ok (one_of (Dict.get env "arg")) |}.

(** [foo] with the single, keyword-only parameter [arg1], which it returns. *)
Definition foo_kwonly : pyfunc :=
  {| signature := [mkParam "arg1" KEYWORD_ONLY None];
     iscoroutinefunction := false;
     body := fun _ env => Ok (one_of (Dict.get env "arg1")) |}.

(** [def foo(arg1): return arg1] *)
Definition foo1 : pyfunc :=
  {| signature := [pok "arg1" None];
     iscoroutinefunction := false;
     body := fun _ env => Ok (one_of (Dict.get env "arg1")) |}.

(** [def foo(a, b): return a, b] *)
Definition foo_ab : pyfunc :=
  {| signature := [pok "a" None; pok "b" None];
     iscoroutinefunction := false;
     body := fun _ env =>
       Ok (pair_of (one_of (Dict.get env "a")) (one_of (Dict.get env "b"))) |}.

Definition start : state := mkState [] [].

(** The outcome of calling a decorated function in a fresh state, [None]
    when the decoration itself failed. *)
Definition run (decorated : result wrapped) (args_ : list value)
    (kwargs_ : Dict.t value) : option (result value * state) :=
  match decorated with
  | Ok f => Some (f args_ kwargs_ start)
  | Raise _ => None
  end.

Definition outcome (decorated : result wrapped) (args_ : list value)
    (kwargs_ : Dict.t value) : option (result value) :=
  option_map fst (run decorated args_ kwargs_).

Definition trace_of (decorated : result wrapped) (args_ : list value)
    (kwargs_ : Dict.t value) : trace :=
  match run decorated args_ kwargs_ with
  | Some (_, s) => log s
  | None => []
  end.

(** [@injects(arg1=lambda: 7, arg2=6, arg3=5)] on [foo3] *)
Definition injected_foo3 : result wrapped :=
  injects ex_world []
    [("arg1", lambda_7); ("arg2", int 6); ("arg3", int 5)] foo3.

(** [@composes(lambda x: x+1, y=lambda y: y+2)] on [foo2] *)
Definition composed_foo2 : result wrapped :=
  composes ex_world [lambda_x_plus_1] [("y", lambda_y_plus_2)] foo2.

End Examples.

(** The steps a wrapper of [composes] may take before it invokes the
    function: a composer applied to one of the values [vals], or an
    [await]. *)
Definition composed_on (vals : list value) (e : event) : Prop :=
  match e with
  | EvCall _ [a] _ => In a vals
  | EvAwait _ _ => True
  | _ => False
  end.

(* ===================================================================== *)
(** ** Reading a trace *)
(* ===================================================================== *)

(** The context managers a run of steps entered, in the order in which
    their [__enter__] / [__aenter__] returned, and those it released, in
    the order of the calls of [__exit__] / [__aexit__]. *)
Definition entered (evs : trace) : list (bool * value) :=
  flat_map (fun ev => match ev with
                      | EvEnter is_sync cm (Ok _) => [(is_sync, cm)]
                      | _ => []
                      end) evs.

Definition exited (evs : trace) : list (bool * value) :=
  flat_map (fun ev => match ev with
                      | EvExit is_sync cm _ _ => [(is_sync, cm)]
                      | _ => []
                      end) evs.

Definition is_exit (ev : event) : Prop :=
  match ev with EvExit _ _ _ _ => True | _ => False end.

Definition not_exit (ev : event) : Prop := ~ is_exit ev.

(** The step [ev] ended by raising [e]. *)
Definition raised (e : exn) (ev : event) : Prop :=
  match ev with
  | EvCall _ _ (Raise e') | EvAwait _ (Raise e') | EvEnter _ _ (Raise e')
  | EvInvoke _ (Raise e') => e' = e
  | EvExit _ _ _ (Raise e') => e' = e
  | _ => False
  end.

(** Where an exception that left a run of steps comes from: it is a
    [TypeError], or the last step raised it. *)
Definition blamed (e : exn) (evs : trace) : Prop :=
  (exists msg, e = TypeError msg) \/
  (exists pre ev, evs = pre ++ [ev] /\ raised e ev).

(** [m] appends steps [evs] to the trace, pushes on the exit stack what it
    entered, and [Q] holds of the steps, [B] of an exception it raises. *)
Definition runs {A} (Q : trace -> Prop) (B : exn -> trace -> Prop) (m : M A)
  : Prop :=
  forall s r s', m s = (r, s') ->
    exists evs, log s' = log s ++ evs /\
      exits s' = rev (entered evs) ++ exits s /\
      Q evs /\ (forall e, r = Raise e -> B e evs).

(** The values a binding holds. *)
Definition values_of {V} (x : argval V) : list V :=
  match x with
  | One v => [v]
  | Star vs => vs
  | StarStar kvs => map snd kvs
  end.

Definition all_values {V} (a : arguments V) : list V :=
  flat_map (fun kv => values_of (snd kv)) a.



(** An element of a merged inject binding that is a value of the call, or
    wraps a decoration-time value of [table]. *)
Definition from_table (table : list value) (a : slot) : Prop :=
  match a with
  | Arg _ => True
  | _bindwrap val => In val table
  end.


(* ===================================================================== *)
(** ** The merge on mutable dictionaries *)
(* ===================================================================== *)

(** [BoundArguments.arguments] is a dict object, and the dict of the
    surplus keyword values it may hold is another: the decorators copy
    and update them in place.  Objects live in a heap and are named by
    their address. *)
Module Heap.
Import Inspect Wf.

Section V.
Variable V : Type.

(** An entry of an [arguments] dict: the [**kwargs] dict is held by
    reference. *)
Inductive entry : Type :=
  | EOne (v : V)
  | EStar (vs : list V)
  | ERef (a : nat).

Inductive object : Type :=
  | Arguments (d : Dict.t entry)
  | Kwargs (d : Dict.t V).

Definition heap := list object.

Definition read (h : heap) (a : nat) : option object := nth_error h a.

Definition alloc (h : heap) (o : object) : nat * heap :=
  (List.length h, h ++ [o]).

Fixpoint write (h : heap) (a : nat) (o : object) : heap :=
  match h, a with
  | [], _ => []
  | _ :: h', 0 => o :: h'
  | x :: h', S a' => x :: write h' a' o
  end.

(** [copy.copy(d)]: a new dict with the entries of [d]; what they refer
    to is shared. *)
Definition copy_copy (h : heap) (a : nat) : option (nat * heap) :=
  match read h a with
  | Some o => Some (alloc h o)
  | None => None
  end.

(** [d |= e], in place *)
Definition ior (h : heap) (a b : nat) : option heap :=
  match read h a, read h b with
  | Some (Arguments d), Some (Arguments e) =>
      Some (write h a (Arguments (Dict.update d e)))
  | _, _ => None
  end.

(** The binding an [arguments] dict holds. *)
Definition load_entry (h : heap) (e : entry) : argval V :=
  match e with
  | EOne v => One v
  | EStar vs => Star vs
  | ERef a =>
      match read h a with
      | Some (Kwargs d) => StarStar d
      | _ => StarStar []
      end
  end.

Definition load (h : heap) (a : nat) : arguments V :=
  match read h a with
  | Some (Arguments d) => map_values (load_entry h) d
  | _ => []
  end.

(** What [Signature._bind] allocates for a binding: the dict of the
    surplus keyword values, if there is one, and the [arguments] dict. *)
Fixpoint store_entries (a : arguments V) (h : heap) : Dict.t entry * heap :=
  match a with
  | [] => ([], h)
  | (k, x) :: a' =>
      let '(e, h1) :=
        match x with
        | One v => (EOne v, h)
        | Star vs => (EStar vs, h)
        | StarStar kvs => (ERef (List.length h), h ++ [Kwargs kvs])
        end in
      let '(d, h2) := store_entries a' h1 in
      ((k, e) :: d, h2)
  end.

Definition store_binding (a : arguments V) (h : heap) : nat * heap :=
  let '(d, h1) := store_entries a h in alloc h1 (Arguments d).

End V.

Arguments EOne {V} v.
Arguments EStar {V} vs.
Arguments ERef {V} a.
Arguments Arguments {V} d.
Arguments Kwargs {V} d.

Section Merge.
Variable w : world.

(** [_build_bound_inject(ba, bc)], with [ba] and [bc] the addresses of
    the two [arguments] dicts: [bb.arguments] is a copy of
    [bc.arguments], updated in place. *)
Definition _build_bound_inject (sig : Signature) (ba bc : nat)
    (h : heap slot)
  : option ((list (M triple) * list (string * M triple)) * heap slot) :=
  match copy_copy h bc with
  | None => None
  | Some (bb, h1) =>
      match ior h1 bb ba with
      | None => None
      | Some h2 =>
          let bb_ := load h2 bb in
          Some ((map (_call_bound_inject w) (args sig bb_),
                 map (fun kv => (fst kv, _call_bound_inject w (snd kv)))
                     (kwargs sig bb_)),
                h2)
      end
  end.

(** [_build_bound_compose(ba, bc)]: [bb.arguments] is a copy of
    [ba.arguments], updated in place. *)
Definition _build_bound_compose (sig : Signature) (ba bc : nat)
    (h : heap value)
  : option ((list (M triple) * list (string * M triple)) * heap value) :=
  match copy_copy h ba with
  | None => None
  | Some (bb, h1) =>
      match ior h1 bb bc with
      | None => None
      | Some h2 =>
          let bb_ := load h2 bb in
          let ba_ := load h2 ba in
          Some ((map (fun ca => _call w (fst ca) (snd ca))
                     (combine (args sig bb_) (args sig ba_)),
                 map (fun ka => (fst ka,
                                 _call w (get_or_None (kwargs sig bb_) (fst ka))
                                         (snd ka)))
                     (kwargs sig ba_)),
                h2)
      end
  end.

(** What a call of a wrapper of [injects] or [injects_ctx] does to the
    heap, the table being at [bc]: it binds the arguments of the call,
    unless they do not fit, and merges. *)
Definition inject_call (sig : Signature) (bc : nat)
    (call : list value * Dict.t value) (h : heap slot)
  : option (heap slot) :=
  match bind_partial sig (call_args (fst call)) (call_kwargs (snd call)) with
  | Raise _ => Some h
  | Ok a =>
      let '(ba, h1) := store_binding a h in
      option_map snd (_build_bound_inject sig ba bc h1)
  end.

(** The same for [composes] and [composes_ctx]. *)
Definition compose_call (sig : Signature) (bc : nat)
    (call : list value * Dict.t value) (h : heap value)
  : option (heap value) :=
  match bind sig (fst call) (snd call) with
  | Raise _ => Some h
  | Ok a =>
      let '(ba, h1) := store_binding a h in
      option_map snd (_build_bound_compose sig ba bc h1)
  end.

(** One call after the other. *)
Fixpoint calls {H} (step : list value * Dict.t value -> H -> option H)
    (cs : list (list value * Dict.t value)) (h : H) : option H :=
  match cs with
  | [] => Some h
  | c :: cs' =>
      match step c h with
      | Some h' => calls step cs' h'
      | None => None
      end
  end.

End Merge.
End Heap.

(* ===================================================================== *)
(** ** What the function receives, and what a call returns *)
(* ===================================================================== *)

(** What a wrapper of [injects] makes of an element [a] of the merge, the
    steps [evs] having been taken: a value of the call is the value, a
    decoration-time value that is callable is what a call of it returned,
    one that is not callable is the value. *)
Definition received_from (evs : trace) (a : slot) (v : value) : Prop :=
  match a with
  | Arg u => v = u
  | _bindwrap val =>
      if callable val then In (EvCall val [] (Ok v)) evs else v = val
  end.

(** The same for a wrapper of [injects_ctx]: what a call of a callable
    decoration-time value returned is entered, and [v] is what entering it
    gave. *)
Definition entered_from (evs : trace) (a : slot) (v : value) : Prop :=
  match a with
  | Arg u => v = u
  | _bindwrap val =>
      if callable val then
        exists cm is_sync,
          In (EvCall val [] (Ok cm)) evs /\ In (EvEnter is_sync cm (Ok v)) evs
      else v = val
  end.

(** The last release of [xs] that did not return a false value, [acc] if
    there is none. *)
Fixpoint verdict (xs : trace) (acc : option (result bool))
  : option (result bool) :=
  match xs with
  | [] => acc
  | EvExit _ _ _ (Ok false) :: xs' => verdict xs' acc
  | EvExit _ _ _ r :: xs' => verdict xs' (Some r)
  | _ :: xs' => verdict xs' acc
  end.

(** What a [with] block whose body ended in [r1] ends in, given the
    verdict of the releases: a release that raised decides; one that
    returned a true value swallows an exception of the body, and the
    function falls through to return [None]. *)
Definition settle (r1 : result value) (v : option (result bool))
  : result value :=
  match v with
  | None | Some (Ok false) => r1
  | Some (Ok true) => match r1 with Ok x => Ok x | Raise _ => Ok VNone end
  | Some (Raise e) => Raise e
  end.

(** The calls among the steps [evs], in order. *)
Definition called (evs : trace) : list (value * list value) :=
  flat_map (fun ev => match ev with
                      | EvCall f args_ _ => [(f, args_)]
                      | _ => []
                      end) evs.

(** The calls the elements [slots] of a merged inject binding stand for:
    one, without arguments, for each wrapped value that is callable. *)
Definition injector_calls (slots : list slot) : list (value * list value) :=
  flat_map (fun a => match a with
                     | _bindwrap val => if callable val then [(val, [])] else []
                     | Arg _ => []
                     end) slots.

(** The calls the pairs [(c, a)] of a composer and a value stand for: one
    of [c] on [a], unless [c] is [a] or [None]. *)
Definition composer_calls (pairs : list (value * value))
  : list (value * list value) :=
  flat_map (fun ca => if is_ (fst ca) (snd ca) || is_ (fst ca) VNone then []
                      else [(fst ca, [snd ca])]) pairs.

Definition not_call (ev : event) : Prop :=
  match ev with EvCall _ _ _ => False | _ => True end.

(** A step that is a call of a table entry or the call of the decorated
    function: no [await], no context entered or released. *)
Definition call_or_invoke (ev : event) : Prop :=
  match ev with EvCall _ _ _ | EvInvoke _ _ => True | _ => False end.

(** How a wrapper of [injects_ctx] or [composes_ctx] enters a context
    manager: the asynchronous [_fn] with the asynchronous protocol when the
    manager has [__aenter__], with the synchronous one otherwise; the
    synchronous [_fn] always with the synchronous one. *)
Definition entered_as (async : bool) (ev : event) : Prop :=
  match ev with
  | EvEnter is_sync cm _ => is_sync = negb (async && has_aenter cm)
  | _ => True
  end.

Module MoreExamples.
Import Inspect Examples.

(** [def foo(x): raise ...], which fails with an exception of its own. *)
Definition foo_raising : pyfunc :=
  {| signature := [pok "x" None];
     iscoroutinefunction := false;
     body := fun _ _ => Raise (UserError 2) |}.



End MoreExamples.

(** A parameter that takes one positional value. *)
Definition ordinary (p : Inspect.Param) : bool :=
  match Inspect.kind p with
  | Inspect.POSITIONAL_ONLY | Inspect.POSITIONAL_OR_KEYWORD => true
  | _ => false
  end.

(** What a wrapper of [composes] makes of a pair [(c, a)] of a composer and
    a value of the call, the steps [evs] having been taken: the value, when
    [c] is the value or [None]; what the call [c(a)] returned,
    otherwise. *)
Definition composed_from (evs : trace) (ca : value * value) (v : value)
  : Prop :=
  if is_ (fst ca) (snd ca) || is_ (fst ca) VNone then v = snd ca
  else In (EvCall (fst ca) [snd ca] (Ok v)) evs.


(* ===================================================================== *)
(** ** When a wrapper reaches the function *)
(* ===================================================================== *)

(** The elements of the merge of the table binding [bc] with the binding
    [ba] of a call, in the order in which the wrappers of [injects] and
    [injects_ctx] walk them: the positional part, then the keyword
    part. *)
Definition merged (sig : Signature) (bc : arguments slot)
    (ba : arguments value) : list slot :=
  let bb := Dict.update bc (Wf.map_arguments Arg ba) in
  args sig bb ++ map snd (kwargs sig bb).

(** The call and the table together give every required parameter a
    value. *)
Definition covered (sig : Signature) (ba : arguments value)
    (bc : arguments slot) : Prop :=
  forall p, In p sig -> Wf.required p = true ->
    Dict.mem ba (name p) || Dict.mem bc (name p) = true.

(** The callable decoration-time values among [slots] return when they
    are called without arguments, whatever happened before. *)
Definition injectors_return (w : world) (slots : list slot) : Prop :=
  forall t val, In (_bindwrap val) slots -> callable val = true ->
    exists v, call_ w t val [] = Ok v.




Module Swallowing.
Import Examples.


End Swallowing.

(* ===================================================================== *)
(** ** Facts about dictionaries *)
(* ===================================================================== *)

Module DictFacts.
Section Facts.
Variable V : Type.
Implicit Types (d e : Dict.t V) (k : string) (v : V).

Lemma keys_app d e : Dict.keys (d ++ e) = Dict.keys d ++ Dict.keys e.
Proof. unfold Dict.keys. apply map_app. Qed.

Lemma get_app d e k :
  Dict.get (d ++ e) k =
  match Dict.get d k with Some v => Some v | None => Dict.get e k end.
Proof.
  induction d as [|[k' v'] d IH]; simpl; auto.
  destruct (String.eqb k k'); auto.
Qed.

Lemma get_None_iff d k : Dict.get d k = None <-> ~ In k (Dict.keys d).
Proof.
  induction d as [|[k' v'] d IH]; simpl.
  - tauto.
  - destruct (String.eqb_spec k k') as [->|Hne].
    + split; [discriminate | intros H; exfalso; apply H; auto].
    + rewrite IH. split; intros H; [intros [E|I]; [congruence | tauto] | tauto].
Qed.

Lemma get_Some_In d k v : Dict.get d k = Some v -> In (k, v) d.
Proof.
  induction d as [|[k' v'] d IH]; simpl; [discriminate|].
  destruct (String.eqb_spec k k') as [->|Hne].
  - intros [= ->]. auto.
  - auto.
Qed.

Lemma get_Some_keys d k v : Dict.get d k = Some v -> In k (Dict.keys d).
Proof.
  intros H. apply get_Some_In in H.
  unfold Dict.keys. change k with (fst (k, v)). now apply in_map.
Qed.

Lemma In_get d k v :
  NoDup (Dict.keys d) -> In (k, v) d -> Dict.get d k = Some v.
Proof.
  induction d as [|[k' v'] d IH]; simpl; [tauto|].
  intros Hnd [E|I].
  - inversion E; subst. now rewrite String.eqb_refl.
  - inversion Hnd; subst.
    destruct (String.eqb_spec k k') as [->|Hne]; auto.
    exfalso. apply H1. unfold Dict.keys.
    change k' with (fst (k', v)). now apply in_map.
Qed.

Lemma mem_true_iff d k : Dict.mem d k = true <-> In k (Dict.keys d).
Proof.
  unfold Dict.mem. destruct (Dict.get d k) eqn:E.
  - split; auto. intros _. eapply get_Some_keys; eauto.
  - apply get_None_iff in E. split; [discriminate | tauto].
Qed.

Lemma mem_false_iff d k : Dict.mem d k = false <-> ~ In k (Dict.keys d).
Proof.
  rewrite <- mem_true_iff. destruct (Dict.mem d k); split; congruence.
Qed.

Lemma set_fresh d k v :
  ~ In k (Dict.keys d) -> Dict.set d k v = d ++ [(k, v)].
Proof.
  induction d as [|[k' v'] d IH]; simpl; auto.
  intros H. destruct (String.eqb_spec k k') as [->|Hne].
  - exfalso. auto.
  - f_equal. apply IH. tauto.
Qed.

Lemma get_set_eq d k v : Dict.get (Dict.set d k v) k = Some v.
Proof.
  induction d as [|[k' v'] d IH]; simpl.
  - now rewrite String.eqb_refl.
  - destruct (String.eqb k k') eqn:E; simpl; rewrite E; auto.
Qed.

Lemma get_set_neq d k k' v :
  k <> k' -> Dict.get (Dict.set d k v) k' = Dict.get d k'.
Proof.
  intros Hne. induction d as [|[k0 v0] d IH]; simpl.
  - destruct (String.eqb_spec k' k); congruence.
  - destruct (String.eqb_spec k k0) as [->|Hne0]; simpl.
    + destruct (String.eqb_spec k' k0); congruence.
    + destruct (String.eqb k' k0); auto.
Qed.

Lemma keys_set d k v :
  forall x, In x (Dict.keys (Dict.set d k v)) <-> x = k \/ In x (Dict.keys d).
Proof.
  induction d as [|[k0 v0] d IH]; simpl; intros x.
  - intuition.
  - destruct (String.eqb_spec k k0) as [->|Hne]; simpl.
    + intuition.
    + rewrite IH. intuition.
Qed.

Lemma NoDup_set d k v : NoDup (Dict.keys d) -> NoDup (Dict.keys (Dict.set d k v)).
Proof.
  induction d as [|[k0 v0] d IH]; simpl; intros H.
  - constructor; [simpl; tauto | constructor].
  - inversion H; subst.
    destruct (String.eqb_spec k k0) as [->|Hne]; simpl.
    + constructor; auto.
    + constructor; auto. rewrite keys_set. intros [E|I]; congruence.
Qed.

Lemma update_fresh e : forall d,
  NoDup (Dict.keys d ++ Dict.keys e) -> Dict.update d e = d ++ e.
Proof.
  induction e as [|[k v] e IH]; simpl; intros d H.
  - now rewrite app_nil_r.
  - rewrite set_fresh.
    + rewrite IH.
      * now rewrite <- app_assoc.
      * unfold Dict.keys in *. rewrite map_app. simpl.
        rewrite <- app_assoc. exact H.
    + apply NoDup_remove_2 in H. intros I. apply H.
      apply in_or_app. auto.
Qed.

Lemma get_update e : forall d k,
  NoDup (Dict.keys e) ->
  Dict.get (Dict.update d e) k =
  match Dict.get e k with Some v => Some v | None => Dict.get d k end.
Proof.
  induction e as [|[k0 v0] e IH]; simpl; intros d k H; auto.
  inversion H; subst. rewrite IH by assumption.
  destruct (String.eqb_spec k k0) as [->|Hne].
  - apply get_None_iff in H2. rewrite H2. apply get_set_eq.
  - rewrite get_set_neq by congruence. reflexivity.
Qed.

Lemma NoDup_update e : forall d,
  NoDup (Dict.keys d) -> NoDup (Dict.keys (Dict.update d e)).
Proof.
  induction e as [|[k v] e IH]; simpl; intros d H; auto.
  apply IH. now apply NoDup_set.
Qed.

Lemma pop_incl d k : incl (Dict.pop d k) d.
Proof.
  induction d as [|[k0 v0] d IH]; simpl; intros x Hx; auto.
  destruct (String.eqb k k0); simpl in *; intuition.
Qed.

Lemma incl_keys d e : incl d e -> incl (Dict.keys d) (Dict.keys e).
Proof.
  intros H k I. unfold Dict.keys in *.
  apply in_map_iff in I as ([k' v] & E & I). simpl in E. subst.
  apply in_map_iff. exists (k, v). split; auto.
Qed.

Lemma keys_pop_incl d k : incl (Dict.keys (Dict.pop d k)) (Dict.keys d).
Proof.
  induction d as [|[k0 v0] d IH]; simpl; intros x Hx; auto.
  destruct (String.eqb k k0); simpl in *; intuition.
Qed.

Lemma NoDup_pop d k : NoDup (Dict.keys d) -> NoDup (Dict.keys (Dict.pop d k)).
Proof.
  induction d as [|[k0 v0] d IH]; simpl; intros H; auto.
  inversion H; subst. destruct (String.eqb k k0); simpl; auto.
  constructor; auto. intros I. apply H2. eapply keys_pop_incl; eauto.
Qed.

Lemma get_pop_neq d k k' :
  k <> k' -> Dict.get (Dict.pop d k) k' = Dict.get d k'.
Proof.
  intros Hne. induction d as [|[k0 v0] d IH]; simpl; auto.
  destruct (String.eqb_spec k k0) as [->|Hne0]; simpl.
  - destruct (String.eqb_spec k' k0); congruence.
  - destruct (String.eqb k' k0); auto.
Qed.

Lemma get_pop_eq d k :
  NoDup (Dict.keys d) -> Dict.get (Dict.pop d k) k = None.
Proof.
  induction d as [|[k0 v0] d IH]; simpl; intros H; auto.
  inversion H; subst.
  destruct (String.eqb_spec k k0) as [->|Hne]; simpl.
  - now apply get_None_iff.
  - destruct (String.eqb_spec k k0); [congruence | auto].
Qed.

(** A comprehension over items with distinct keys keeps their order. *)
Lemma dict_of_fresh (items : list (string * V)) : forall acc,
  NoDup (Dict.keys acc ++ map fst items) -> dict_of items acc = acc ++ items.
Proof.
  induction items as [|[k v] items IH]; simpl; intros acc H.
  - now rewrite app_nil_r.
  - rewrite set_fresh.
    + rewrite IH.
      * now rewrite <- app_assoc.
      * unfold Dict.keys in *. rewrite map_app. simpl.
        rewrite <- app_assoc. exact H.
    + apply NoDup_remove_2 in H. intros I. apply H.
      apply in_or_app. auto.
Qed.

End Facts.
End DictFacts.

(* ===================================================================== *)
(** ** Facts about signatures and the binder *)
(* ===================================================================== *)

Module BinderFacts.
Import Inspect Wf DictFacts.

Lemma mem_str_In x l : mem_str x l = true <-> In x l.
Proof.
  induction l as [|y l IH]; simpl.
  - split; [discriminate | tauto].
  - rewrite orb_true_iff, IH. destruct (String.eqb_spec x y); subst; intuition congruence.
Qed.

Lemma nodupb_NoDup l : nodupb l = true -> NoDup l.
Proof.
  induction l as [|y l IH]; simpl; intros H; constructor.
  - apply andb_true_iff in H as [H _]. apply negb_true_iff in H.
    intros I. apply mem_str_In in I. congruence.
  - apply IH. now apply andb_true_iff in H as [_ H].
Qed.

Lemma NoDup_app_disjoint {A} (l1 l2 : list A) x :
  NoDup (l1 ++ l2) -> In x l1 -> In x l2 -> False.
Proof.
  induction l1 as [|y l1 IH]; simpl; intros Hnd I1 I2; [contradiction|].
  apply NoDup_cons_iff in Hnd as [Hn Hnd]. destruct I1 as [->|I1].
  - apply Hn. apply in_or_app. now right.
  - now apply IH.
Qed.

Lemma ordered_from_weaken sig : forall lo lo',
  lo' <= lo -> ordered_from lo sig = true -> ordered_from lo' sig = true.
Proof.
  destruct sig as [|p rest]; simpl; auto.
  intros lo lo' Hle H. apply andb_true_iff in H as [H1 H2].
  apply Nat.leb_le in H1. apply andb_true_iff. split; auto.
  apply Nat.leb_le. lia.
Qed.

Lemma ordered_from_rank sig : forall lo,
  ordered_from lo sig = true -> forall p, In p sig -> lo <= rank (kind p).
Proof.
  induction sig as [|q rest IH]; simpl; intros lo H p I; [contradiction|].
  apply andb_true_iff in H as [H1 H2]. apply Nat.leb_le in H1.
  destruct I as [E|I].
  - now subst.
  - specialize (IH _ H2 p I). destruct (variadic (kind q)); lia.
Qed.

Lemma ordered_tail lo p rest :
  ordered_from lo (p :: rest) = true ->
  ordered_from (if variadic (kind p) then S (rank (kind p)) else rank (kind p)) rest = true.
Proof. simpl. intros H. now apply andb_true_iff in H as [_ H]. Qed.

Lemma ordered_after_vk lo p rest :
  ordered_from lo (p :: rest) = true -> kind p = VAR_KEYWORD -> rest = [].
Proof.
  intros H Hk. apply ordered_tail in H. rewrite Hk in H. simpl in H.
  destruct rest as [|q rest]; auto.
  pose proof (@ordered_from_rank _ _ H q (or_introl eq_refl)) as Hr.
  destruct (kind q); simpl in Hr; lia.
Qed.

Section V.
Variable V : Type.
Implicit Types (a acc : arguments V) (params sig : list Param).

Lemma args_high params a lo :
  ordered_from lo params = true -> 3 <= lo -> args params a = [].
Proof.
  destruct params as [|p rest]; simpl; auto.
  intros H Hlo. apply andb_true_iff in H as [H _]. apply Nat.leb_le in H.
  destruct (kind p); simpl in H; try lia; reflexivity.
Qed.

Lemma pos_split_high params a lo :
  ordered_from lo params = true -> 3 <= lo -> pos_split params a = ([], params).
Proof.
  destruct params as [|p rest]; simpl; auto.
  intros H Hlo. apply andb_true_iff in H as [H _]. apply Nat.leb_le in H.
  destruct (kind p); simpl in H; try lia; reflexivity.
Qed.

Lemma NoDup_name_neq p rest :
  NoDup (map name (p :: rest)) -> forall q, In q rest -> name q <> name p.
Proof.
  intros Hnd q Iq E. inversion Hnd; subst. apply H1.
  rewrite <- E. now apply in_map.
Qed.

Lemma ok_tail p rest a : ok (p :: rest) a -> ok rest a.
Proof.
  intros [Hs Hc Hk]. constructor.
  - intros q x I. apply Hs. now right.
  - intros pre q post E. apply (Hc (p :: pre) q post). now rewrite E.
  - intros vk kvs I Hkind Hget.
    destruct (Hk vk kvs (or_intror I) Hkind Hget) as (H1 & H2 & H3).
    repeat split; auto. intros q Iq. apply H3. now right.
Qed.

Lemma complete_tail p rest a : complete (p :: rest) a -> complete rest a.
Proof. intros H q I. apply H. now right. Qed.

Lemma pos_split_incl params a : incl (snd (pos_split params a)) params.
Proof.
  induction params as [|p rest IH]; simpl.
  - apply incl_refl.
  - destruct (kind p); try apply incl_refl;
      (destruct (Dict.get a (name p));
       [ destruct (pos_split rest a) as [c r]; simpl in *;
         now apply incl_tl
       | try apply incl_refl; try (apply incl_tl, incl_refl) ]).
Qed.

Lemma keys_kw_entries params a k :
  In k (Dict.keys (kw_entries params a)) ->
  exists q, In q params /\ In k (Dict.keys (kw_entry a q)).
Proof.
  unfold kw_entries, Dict.keys. rewrite in_map_iff.
  intros ([k' v] & E & I). simpl in E. subst k'.
  apply in_flat_map in I as (q & Iq & I).
  exists q. split; auto. apply in_map_iff. now exists (k, v).
Qed.

Lemma keys_kw_entry a q k :
  In k (Dict.keys (kw_entry a q)) ->
  (kind q <> VAR_KEYWORD /\ k = name q /\ Dict.get a (name q) <> None) \/
  (kind q = VAR_KEYWORD /\
   exists kvs, Dict.get a (name q) = Some (StarStar kvs) /\ In k (Dict.keys kvs)).
Proof.
  unfold kw_entry. destruct (Dict.get a (name q)) as [x|] eqn:E; simpl; [|tauto].
  destruct (kind q) eqn:Hk, x; simpl; try tauto;
    try (intros [<-|[]]; left; repeat split; congruence).
  intros I. right. split; auto. eauto.
Qed.

(** The name of a parameter that is not passed by keyword is not a key
    of the keyword part. *)
Lemma name_not_in_kw p params rest a :
  ok params a -> (forall q, In q rest -> name q <> name p) ->
  In p params -> incl rest params ->
  (kind p = POSITIONAL_OR_KEYWORD \/ kind p = KEYWORD_ONLY \/
   (kind p = POSITIONAL_ONLY /\ Dict.get a (name p) = None)) ->
  ~ In (name p) (Dict.keys (kw_entries rest a)).
Proof.
  intros Hok Hnd Ip Hincl Hp I.
  apply keys_kw_entries in I as (q & Iq & I).
  apply keys_kw_entry in I as [(_ & E & _) | (Hk & kvs & Hget & I)].
  - apply (Hnd q Iq). congruence.
  - destruct (@ok_ss _ _ _ Hok q _ (Hincl q Iq) Hk Hget) as (_ & _ & H).
    specialize (H p Ip I).
    destruct Hp as [Hp | [Hp | [Hp Hn]]], H as [H | [H | [H Hn']]]; congruence.
Qed.

Lemma ok_split_absent params a lo :
  ordered_from lo params = true -> ok params a ->
  forall q, In q (snd (pos_split params a)) ->
  kind q = POSITIONAL_ONLY \/ kind q = VAR_POSITIONAL ->
  Dict.get a (name q) = None.
Proof.
  revert lo. induction params as [|p rest IH]; simpl; intros lo Hord Hok q Iq Hq.
  - contradiction.
  - pose proof (@ordered_tail _ _ _ Hord) as Hord'.
    assert (Hhigh : 3 <= rank (kind p) -> In q (p :: rest) -> False).
    { intros Hp [<-|I].
      - destruct Hq as [Hq|Hq]; rewrite Hq in Hp; simpl in Hp; lia.
      - pose proof (@ordered_from_rank _ _ Hord' q I) as Hr.
        destruct (variadic (kind p)), Hq as [Hq|Hq];
          rewrite Hq in Hr; simpl in Hr; lia. }
    assert (Hpres : forall x, Dict.get a (name p) = Some x ->
              In q (snd (pos_split rest a)) -> Dict.get a (name q) = None).
    { intros x _ I. eapply IH; eauto using ok_tail. }
    assert (Habs : Dict.get a (name p) = None -> In q (p :: rest) ->
              Dict.get a (name q) = None).
    { intros Hn [<-|I]; auto.
      eapply (@ok_closed _ _ _ Hok [] p rest); eauto. }
    destruct (kind p) eqn:Hk.
    + destruct (Dict.get a (name p)) eqn:Hg.
      * destruct (pos_split rest a) as [c r] eqn:Hs. simpl in *. eauto.
      * simpl in Iq. auto.
    + destruct (Dict.get a (name p)) eqn:Hg.
      * destruct (pos_split rest a) as [c r] eqn:Hs. simpl in *. eauto.
      * simpl in Iq. auto.
    + destruct (Dict.get a (name p)) eqn:Hg.
      * destruct (pos_split rest a) as [c r] eqn:Hs. simpl in *. eauto.
      * simpl in Iq. apply Habs; auto. now right.
    + exfalso. simpl in Iq. apply Hhigh; auto; simpl; lia.
    + exfalso. simpl in Iq. apply Hhigh; auto; simpl; lia.
Qed.

End V.
End BinderFacts.

(* ===================================================================== *)
(** ** Binding the [args] and [kwargs] of a binding again *)
(* ===================================================================== *)

Module Rebind.
Import Inspect Wf DictFacts BinderFacts.

Section V.
Variable V : Type.
Implicit Types (a acc : arguments V) (params sig : list Param).

Lemma restrict_cons p params a :
  restrict (p :: params) a = entry_at a p ++ restrict params a.
Proof. reflexivity. Qed.

Lemma kw_entries_cons p params a :
  kw_entries (p :: params) a = kw_entry a p ++ kw_entries params a.
Proof. reflexivity. Qed.

Lemma fresh_after_set acc p rest x :
  NoDup (map name (p :: rest)) ->
  (forall q, In q (p :: rest) -> ~ In (name q) (Dict.keys acc)) ->
  forall q, In q rest -> ~ In (name q) (Dict.keys (Dict.set acc (name p) x)).
Proof.
  intros Hnd Hf q Iq I. apply keys_set in I as [E|I].
  - inversion Hnd; subst. apply H1. rewrite <- E. now apply in_map.
  - apply (Hf q); auto. now right.
Qed.

Lemma phase1 partial : forall params lo acc a,
  ordered_from lo params = true -> NoDup (map name params) -> ok params a ->
  (partial = false -> complete params a) ->
  (forall p, In p params -> ~ In (name p) (Dict.keys acc)) ->
  bind_positional partial params (args params a)
    (kw_entries (snd (pos_split params a)) a) acc
  = Ok (acc ++ restrict (fst (pos_split params a)) a, snd (pos_split params a)).
Proof.
  induction params as [|p rest IH]; intros lo acc a Hord Hnd Hok Hfull Hfresh.
  - simpl. now rewrite app_nil_r.
  - pose proof (@ordered_tail _ _ _ Hord) as Hord'.
    assert (Hnd' : NoDup (map name rest)) by (now inversion Hnd).
    pose proof (ok_tail Hok) as Hok'.
    assert (Hfull' : partial = false -> complete rest a)
      by (intros E; eapply complete_tail; eauto).
    (* the name of [p] is not a key of the keyword part, unless [p] is
       there to take it *)
    assert (Hnokw : forall r, incl r rest ->
              kind p = POSITIONAL_OR_KEYWORD \/ kind p = KEYWORD_ONLY \/
              (kind p = POSITIONAL_ONLY /\ Dict.get a (name p) = None) ->
              Dict.mem (kw_entries r a) (name p) = false).
    { intros r Hr Hp. apply mem_false_iff.
      eapply (@name_not_in_kw _ p (p :: rest) r a); eauto.
      - intros q Iq. apply (NoDup_name_neq Hnd). auto.
      - now left.
      - now apply incl_tl. }
    assert (Hset : forall x, Dict.set acc (name p) x = acc ++ [(name p, x)]).
    { intros x. apply set_fresh. apply Hfresh. now left. }
    assert (Hentry : forall x, Dict.get a (name p) = Some x ->
              entry_at a p = [(name p, x)]).
    { intros x E. unfold entry_at. now rewrite E. }
    assert (Hstep : forall v, Dict.get a (name p) = Some (One v) ->
              bind_positional partial rest (args rest a)
                (kw_entries (snd (pos_split rest a)) a)
                (Dict.set acc (name p) (One v)) =
              Ok (acc ++ restrict (p :: fst (pos_split rest a)) a,
                  snd (pos_split rest a))).
    { intros v E. erewrite IH; eauto.
      - rewrite Hset, restrict_cons, (Hentry _ E), <- app_assoc. reflexivity.
      - eapply fresh_after_set; eauto. }
    pose proof (@ok_shape _ _ _ Hok p) as Hshape.
    pose proof (@pos_split_incl _ rest a) as Hincl.
    simpl args. simpl pos_split.
    destruct (kind p) eqn:Hk; destruct (Dict.get a (name p)) as [x|] eqn:Hg.
    + destruct (Hshape x (or_introl eq_refl) eq_refl) as [v ->].
      specialize (Hstep v eq_refl).
      destruct (pos_split rest a) as [c r]. simpl in *. rewrite Hk. simpl.
      rewrite andb_false_r. exact Hstep.
    + (* positional-only, absent *)
      simpl. rewrite Hk. unfold kw_entry at 1. rewrite Hg. simpl.
      rewrite (Hnokw rest) by (auto using incl_refl).
      rewrite app_nil_r.
      destruct (default p) eqn:Hd; auto. destruct partial; auto.
      exfalso. apply (Hfull eq_refl p); auto. now left.
      unfold required. now rewrite Hk, Hd.
    + destruct (Hshape x (or_introl eq_refl) eq_refl) as [v ->].
      specialize (Hstep v eq_refl).
      destruct (pos_split rest a) as [c r]. simpl in *. rewrite Hk. simpl.
      rewrite (Hnokw r) by auto. simpl. exact Hstep.
    + (* positional-or-keyword, absent *)
      simpl. rewrite Hk. unfold kw_entry at 1. rewrite Hg. simpl.
      rewrite (Hnokw rest) by (auto using incl_refl).
      rewrite app_nil_r.
      destruct (default p) eqn:Hd; auto. destruct partial; auto.
      exfalso. apply (Hfull eq_refl p); auto. now left.
      unfold required. now rewrite Hk, Hd.
    + (* *args, present *)
      destruct (Hshape x (or_introl eq_refl) eq_refl) as (v & vs & ->).
      simpl in Hord'.
      rewrite (@args_high _ rest a 3), (@pos_split_high _ rest a 3) by auto.
      simpl. rewrite Hk, app_nil_r, Hset.
      rewrite (Hentry _ eq_refl), app_nil_r. reflexivity.
    + (* *args, absent *)
      simpl. rewrite Hk, app_nil_r. reflexivity.
    + (* keyword-only, present *)
      destruct (Hshape x (or_introl eq_refl) eq_refl) as [v ->].
      simpl. rewrite Hk. unfold kw_entry at 1. rewrite Hg, Hk. simpl.
      unfold Dict.mem. simpl. rewrite String.eqb_refl, app_nil_r. reflexivity.
    + (* keyword-only, absent *)
      simpl. rewrite Hk. unfold kw_entry at 1. rewrite Hg. simpl.
      rewrite (Hnokw rest) by (auto using incl_refl).
      rewrite app_nil_r.
      destruct (default p) eqn:Hd; auto. destruct partial; auto.
      exfalso. apply (Hfull eq_refl p); auto. now left.
      unfold required. now rewrite Hk, Hd.
    + simpl. rewrite Hk, app_nil_r.
      destruct (Dict.mem _ _); reflexivity.
    + simpl. rewrite Hk, app_nil_r.
      destruct (Dict.mem _ _); reflexivity.
Qed.

Lemma phase2 partial : forall params lo acc a kp,
  ordered_from lo params = true -> NoDup (map name params) -> ok params a ->
  (forall q, In q params ->
     kind q = POSITIONAL_ONLY \/ kind q = VAR_POSITIONAL ->
     Dict.get a (name q) = None) ->
  (partial = false -> complete params a) ->
  (forall p, In p params -> ~ In (name p) (Dict.keys acc)) ->
  bind_keywords partial params (kw_entries params a) acc kp
  = Ok (acc ++ restrict (nonvk params) a, kw_entries (vks params) a,
        match vks params with [] => kp | vk :: _ => Some vk end).
Proof.
  induction params as [|p rest IH]; intros lo acc a kp Hord Hnd Hok Habs Hfull Hfresh.
  - simpl. now rewrite app_nil_r.
  - pose proof (@ordered_tail _ _ _ Hord) as Hord'.
    assert (Hnd' : NoDup (map name rest)) by (now inversion Hnd).
    pose proof (ok_tail Hok) as Hok'.
    assert (Hfull' : partial = false -> complete rest a)
      by (intros E; eapply complete_tail; eauto).
    assert (Habs' : forall q, In q rest ->
              kind q = POSITIONAL_ONLY \/ kind q = VAR_POSITIONAL ->
              Dict.get a (name q) = None) by (intros q I; apply Habs; now right).
    assert (Hnokw : kind p <> VAR_POSITIONAL -> kind p <> VAR_KEYWORD ->
              Dict.get a (name p) = None ->
              Dict.get (kw_entries rest a) (name p) = None).
    { intros H1 H2 Hg. apply get_None_iff.
      eapply (@name_not_in_kw _ p (p :: rest) rest a); eauto.
      - apply (NoDup_name_neq Hnd).
      - now left.
      - apply incl_tl, incl_refl.
      - destruct (kind p); try congruence; auto. }
    assert (Hset : forall x, Dict.set acc (name p) x = acc ++ [(name p, x)]).
    { intros x. apply set_fresh. apply Hfresh. now left. }
    assert (Hreq : partial = false -> default p = None ->
              kind p <> VAR_POSITIONAL -> kind p <> VAR_KEYWORD ->
              Dict.get a (name p) = None -> False).
    { intros E Hd H1 H2 Hg. apply (Hfull E p); auto. now left.
      unfold required. rewrite Hd. destruct (kind p); congruence. }
    pose proof (@ok_shape _ _ _ Hok p) as Hshape.
    rewrite kw_entries_cons. unfold kw_entry, nonvk, vks, is_vk. simpl.
    fold is_vk. fold (nonvk rest). fold (vks rest).
    assert (Hrc : forall l, restrict (p :: l) a = entry_at a p ++ restrict l a)
      by reflexivity.
    assert (Hfresh' : forall q, In q rest -> ~ In (name q) (Dict.keys acc))
      by (intros q I; apply Hfresh; now right).
    destruct (kind p) eqn:Hk; destruct (Dict.get a (name p)) as [x|] eqn:Hg;
      cbn [negb pkind_eqb app bind_keywords]; rewrite ?Hk;
      try (rewrite (Habs p (or_introl eq_refl)) in Hg by auto; discriminate);
      rewrite ?Hrc; unfold entry_at; rewrite ?Hg.
    + rewrite Hnokw by congruence.
      destruct partial, (default p) eqn:Hd;
        try (exfalso; apply Hreq; congruence); erewrite IH; eauto.
    + destruct (Hshape x (or_introl eq_refl) eq_refl) as [v ->].
      simpl. rewrite String.eqb_refl.
      erewrite IH; eauto using fresh_after_set.
      now rewrite Hset, <- app_assoc.
    + rewrite Hnokw by congruence.
      destruct partial, (default p) eqn:Hd;
        try (exfalso; apply Hreq; congruence); erewrite IH; eauto.
    + erewrite IH; eauto.
    + destruct (Hshape x (or_introl eq_refl) eq_refl) as [v ->].
      simpl. rewrite String.eqb_refl.
      erewrite IH; eauto using fresh_after_set.
      now rewrite Hset, <- app_assoc.
    + rewrite Hnokw by congruence.
      destruct partial, (default p) eqn:Hd;
        try (exfalso; apply Hreq; congruence); erewrite IH; eauto.
    + rewrite (@ordered_after_vk _ _ _ Hord Hk). simpl.
      unfold kw_entry. rewrite Hg, Hk. now rewrite !app_nil_r.
    + rewrite (@ordered_after_vk _ _ _ Hord Hk). simpl.
      unfold kw_entry. rewrite Hg. now rewrite !app_nil_r.
Qed.

(** *** [BoundArguments.kwargs], in closed form *)

Lemma kwargs_loop_true a : forall params kw,
  NoDup (Dict.keys kw ++ Dict.keys (kw_entries params a)) ->
  kwargs_loop params a true kw = kw ++ kw_entries params a.
Proof.
  induction params as [|p rest IH]; intros kw Hnd.
  - simpl. now rewrite app_nil_r.
  - rewrite kw_entries_cons in *. rewrite keys_app, app_assoc in Hnd.
    pose proof (NoDup_app_remove_r _ _ Hnd) as Hhead.
    rewrite <- keys_app in Hnd.
    rewrite app_assoc, <- (IH _ Hnd).
    simpl. unfold kw_entry in *.
    destruct (Dict.get a (name p)) as [x|]; [|now rewrite app_nil_r].
    destruct (kind p), x; rewrite ?app_nil_r; auto;
      try (rewrite set_fresh; [reflexivity|];
           apply NoDup_remove_2 in Hhead; now rewrite app_nil_r in Hhead).
    now rewrite update_fresh.
Qed.

Lemma kwargs_loop_false a : forall params kw,
  kwargs_loop params a false kw =
  kwargs_loop (snd (pos_split params a)) a true kw.
Proof.
  induction params as [|p rest IH]; intros kw; [reflexivity|].
  simpl. unfold Dict.mem.
  destruct (kind p) eqn:Hk; try (simpl; rewrite Hk; reflexivity);
    (destruct (Dict.get a (name p)) eqn:Hg; cbv iota;
     [ rewrite IH; now destruct (pos_split rest a)
     | simpl; rewrite ?Hk, ?Hg; reflexivity ]).
Qed.

Lemma split_ok a : forall params lo,
  ordered_from lo params = true -> NoDup (map name params) -> ok params a ->
  (exists lo', ordered_from lo' (snd (pos_split params a)) = true) /\
  NoDup (map name (snd (pos_split params a))) /\
  ok (snd (pos_split params a)) a.
Proof.
  induction params as [|p rest IH]; intros lo Hord Hnd Hok.
  - simpl. eauto.
  - pose proof (@ordered_tail _ _ _ Hord) as Hord'.
    assert (Hnd' : NoDup (map name rest)) by (now inversion Hnd).
    pose proof (ok_tail Hok) as Hok'.
    specialize (IH _ Hord' Hnd' Hok').
    simpl. destruct (kind p); eauto;
      (destruct (Dict.get a (name p));
       [ now destruct (pos_split rest a) | simpl; eauto ]).
Qed.

Lemma nodup_kw_entries a : forall params lo,
  ordered_from lo params = true -> NoDup (map name params) -> ok params a ->
  (forall q, In q params ->
     kind q = POSITIONAL_ONLY \/ kind q = VAR_POSITIONAL ->
     Dict.get a (name q) = None) ->
  NoDup (Dict.keys (kw_entries params a)).
Proof.
  induction params as [|p rest IH]; intros lo Hord Hnd Hok Habs.
  - constructor.
  - pose proof (@ordered_tail _ _ _ Hord) as Hord'.
    assert (Hnd' : NoDup (map name rest)) by (now inversion Hnd).
    pose proof (ok_tail Hok) as Hok'.
    assert (IH' : NoDup (Dict.keys (kw_entries rest a))).
    { eapply IH; eauto. intros q I. apply Habs. now right. }
    rewrite kw_entries_cons. unfold kw_entry.
    destruct (Dict.get a (name p)) as [x|] eqn:Hg; auto.
    pose proof (@ok_shape _ _ _ Hok p x (or_introl eq_refl) Hg) as Hs.
    assert (Hone : forall v, kind p <> VAR_KEYWORD ->
              NoDup (Dict.keys ([(name p, v)] ++ kw_entries rest a))).
    { intros v Hk. simpl. constructor; auto.
      eapply (@name_not_in_kw _ p (p :: rest) rest a); eauto.
      - apply (NoDup_name_neq Hnd).
      - now left.
      - apply incl_tl, incl_refl.
      - destruct (kind p) eqn:Hkp; auto; try congruence.
        + rewrite (Habs p) in Hg; [discriminate | now left | now left].
        + rewrite (Habs p) in Hg; [discriminate | now left | now right]. }
    destruct (kind p) eqn:Hk, x; auto; try (apply Hone; congruence).
    rewrite (@ordered_after_vk _ _ _ Hord Hk). simpl. rewrite app_nil_r.
    now destruct (@ok_ss _ _ _ Hok p kvs (or_introl eq_refl) Hk Hg) as (_ & H & _).
Qed.

Lemma kwargs_closed sig a lo :
  ordered_from lo sig = true -> NoDup (map name sig) -> ok sig a ->
  kwargs sig a = kw_entries (snd (pos_split sig a)) a.
Proof.
  intros Hord Hnd Hok. unfold kwargs.
  rewrite kwargs_loop_false, kwargs_loop_true; auto.
  destruct (@split_ok a _ _ Hord Hnd Hok) as ([lo' Ho] & Hn & Hk).
  simpl. eapply nodup_kw_entries; eauto.
  eapply ok_split_absent; eauto.
Qed.

Lemma kwargs_nodup sig a :
  wf_sig sig = true -> ok sig a -> NoDup (Dict.keys (kwargs sig a)).
Proof.
  intros Hwf Hok. unfold wf_sig in Hwf.
  apply andb_true_iff in Hwf as [Hnd Hord]. apply nodupb_NoDup in Hnd.
  rewrite (@kwargs_closed sig a 0 Hord Hnd Hok).
  destruct (@split_ok a _ _ Hord Hnd Hok) as ([lo' Ho] & Hn & Hk).
  eapply nodup_kw_entries; eauto.
  eapply ok_split_absent; eauto.
Qed.

(** *** Binding the [args] and [kwargs] of a binding again *)

Lemma restrict_app l1 l2 a : restrict (l1 ++ l2) a = restrict l1 a ++ restrict l2 a.
Proof. unfold restrict. apply flat_map_app. Qed.

Lemma restrict_split a : forall params,
  restrict params a =
  restrict (fst (pos_split params a)) a ++ restrict (snd (pos_split params a)) a.
Proof.
  induction params as [|p rest IH]; [reflexivity|].
  rewrite restrict_cons. simpl pos_split.
  destruct (kind p); try reflexivity;
    (destruct (Dict.get a (name p)) eqn:Hg;
     [ destruct (pos_split rest a) as [c r]; cbn [fst snd] in *;
       rewrite restrict_cons, IH, app_assoc; reflexivity
     | cbn [fst snd]; rewrite ?restrict_cons; unfold entry_at; rewrite ?Hg;
       reflexivity ]).
Qed.

Lemma nonvk_vks : forall params lo,
  ordered_from lo params = true ->
  params = nonvk params ++ vks params /\
  (vks params = [] \/
   exists vk, vks params = [vk] /\ kind vk = VAR_KEYWORD /\ In vk params).
Proof.
  induction params as [|p rest IH]; intros lo Hord.
  - simpl. auto.
  - pose proof (@ordered_tail _ _ _ Hord) as Hord'.
    destruct (IH _ Hord') as [E H]. unfold nonvk, vks, is_vk in *. simpl.
    destruct (kind p) eqn:Hk; simpl;
      try (split; [now f_equal|];
           destruct H as [H|(vk & H1 & H2 & H3)]; [now left|];
           right; exists vk; auto).
    rewrite (@ordered_after_vk _ _ _ Hord Hk). simpl.
    split; auto. right. exists p. auto.
Qed.

Lemma keys_restrict params a k :
  In k (Dict.keys (restrict params a)) -> In k (map name params).
Proof.
  induction params as [|p rest IH]; [simpl; auto|].
  rewrite restrict_cons, keys_app, in_app_iff. unfold entry_at.
  destruct (Dict.get a (name p)); simpl; intuition.
Qed.

Lemma split_names_disjoint a : forall params,
  NoDup (map name params) ->
  forall q, In q (snd (pos_split params a)) ->
  ~ In (name q) (map name (fst (pos_split params a))).
Proof.
  induction params as [|p rest IH]; intros Hnd q Iq; [auto|].
  assert (Hnd' : NoDup (map name rest)) by (now inversion Hnd).
  pose proof (@pos_split_incl _ rest a) as Hi.
  simpl in *. destruct (kind p); auto;
    (destruct (Dict.get a (name p)); [|auto]);
    specialize (IH Hnd' q); destruct (pos_split rest a) as [c r];
    simpl in *; intros [E|I]; try (now apply IH);
    apply (NoDup_name_neq Hnd q); auto.
Qed.

Theorem rebind partial sig a :
  wf_sig sig = true -> ok sig a -> (partial = false -> complete sig a) ->
  _bind sig (args sig a) (kwargs sig a) partial = Ok (restrict sig a).
Proof.
  intros Hwf Hok Hfull. unfold wf_sig in Hwf.
  apply andb_true_iff in Hwf as [Hnd Hord]. apply nodupb_NoDup in Hnd.
  unfold _bind. rewrite (@kwargs_closed sig a 0 Hord Hnd Hok).
  rewrite (@phase1 partial sig 0 [] a) by auto.
  destruct (@split_ok a _ _ Hord Hnd Hok) as ([lo' Ho] & Hn & Hk).
  pose proof (@ok_split_absent _ _ a _ Hord Hok) as Habs.
  pose proof (@split_names_disjoint a _ Hnd) as Hdis.
  pose proof (@pos_split_incl _ sig a) as Hincl.
  rewrite (@restrict_split a sig).
  destruct (pos_split sig a) as [c r]. cbn [fst snd app] in *.
  rewrite (@phase2 partial r lo' (restrict c a) a None); auto.
  - destruct (@nonvk_vks r lo' Ho) as [Er Hv].
    replace (restrict r a) with (restrict (nonvk r) a ++ restrict (vks r) a)
      by (now rewrite <- restrict_app, <- Er).
    destruct Hv as [Hv|(vk & Hv & Hkind & Ivk)]; rewrite Hv.
    + simpl. now rewrite app_nil_r.
    + unfold kw_entries, restrict. cbn [flat_map]. rewrite !app_nil_r.
      unfold entry_at, kw_entry.
      destruct (Dict.get a (name vk)) as [x|] eqn:Hg; [|now rewrite app_nil_r].
      pose proof (@ok_shape _ _ _ Hk vk x Ivk Hg) as Hx.
      rewrite Hkind in *. destruct Hx as [kvs ->].
      destruct (@ok_ss _ _ _ Hk vk kvs Ivk Hkind Hg) as (Hne & _ & _).
      destruct kvs as [|e kvs]; [congruence|].
      rewrite set_fresh; [now rewrite <- app_assoc|].
      rewrite keys_app, in_app_iff. intros [I|I]; apply keys_restrict in I.
      * now apply (Hdis vk Ivk).
      * rewrite Er in Hn. rewrite Hv, map_app in Hn. simpl in Hn.
        apply NoDup_remove_2 in Hn. apply Hn. now rewrite app_nil_r.
  - intros E p Ip. apply (Hfull E). auto.
  - intros p Ip I. apply keys_restrict in I. now apply (Hdis p Ip).
Qed.

End V.
End Rebind.

(* ===================================================================== *)
(** ** What [Signature._bind] builds *)
(* ===================================================================== *)

Module BindSpec.
Import Inspect Wf DictFacts BinderFacts.

Section V.
Variable V : Type.
Implicit Types (a acc : arguments V) (params sig : list Param).

Lemma fresh_tail p rest acc x :
  NoDup (map name (p :: rest)) ->
  (forall q, In q (p :: rest) -> ~ In (name q) (Dict.keys acc)) ->
  forall q, In q rest -> ~ In (name q) (Dict.keys (acc ++ [(name p, x)])).
Proof.
  intros Hnd Hf q Iq. rewrite keys_app, in_app_iff. simpl.
  intros [I|[E|[]]].
  - apply (Hf q); auto. now right.
  - apply (NoDup_name_neq Hnd q Iq). congruence.
Qed.

(** What the positional loop has done when it succeeds. *)
Lemma bp_spec partial kw : forall params arg_vals acc acc' rem,
  NoDup (map name params) ->
  (forall p, In p params -> ~ In (name p) (Dict.keys acc)) ->
  bind_positional partial params arg_vals kw acc = Ok (acc', rem) ->
  exists bs,
    (params = map fst bs ++ rem \/
     exists vp, kind vp = VAR_POSITIONAL /\ params = map fst bs ++ vp :: rem) /\
    acc' = acc ++ map (@ent V) bs /\
    Forall (fun b => shape (kind (fst b)) (snd b) /\
                     kind (fst b) <> KEYWORD_ONLY /\
                     kind (fst b) <> VAR_KEYWORD /\
                     (kind (fst b) = POSITIONAL_OR_KEYWORD ->
                      ~ In (name (fst b)) (Dict.keys kw))) bs /\
    (Forall (fun b => kind (fst b) <> VAR_POSITIONAL) bs ->
     List.length arg_vals = List.length bs) /\
    List.length bs <= List.length arg_vals.
Proof.
  induction params as [|p rest IH]; intros arg_vals acc acc' rem Hnd Hf H.
  - destruct arg_vals; simpl in H; [|discriminate].
    inversion H; subst. exists []. simpl. rewrite app_nil_r. auto.
  - assert (Hnd' : NoDup (map name rest)) by (now inversion Hnd).
    assert (Hset : forall x, Dict.set acc (name p) x = acc ++ [(name p, x)]).
    { intros x. apply set_fresh. apply Hf. now left. }
    destruct arg_vals as [|v more]; simpl in H.
    + exists []. simpl. rewrite app_nil_r.
      destruct (kind p) eqn:Hk;
        try (destruct (Dict.mem kw (name p)); try discriminate);
        try (destruct (default p); try destruct partial; try discriminate);
        inversion H; subst; repeat split; auto.
      all: right; exists p; auto.
    + destruct (kind p) eqn:Hk; try discriminate.
      * simpl in H. rewrite andb_false_r in H.
        apply IH in H as (bs & Hp & Ha & Hb & Hl & Hle); auto.
        2:{ rewrite Hset. eapply fresh_tail; eauto. }
        exists ((p, One v) :: bs). simpl. repeat split.
        -- destruct Hp as [->|(vp & Hv & ->)]; [now left|right; eauto].
        -- rewrite Ha, Hset, <- app_assoc. reflexivity.
        -- constructor; auto. simpl. rewrite Hk.
           repeat split; try congruence. now exists v.
        -- intros HF. inversion HF; subst. f_equal. auto.
        -- lia.
      * simpl in H. rewrite andb_true_r in H.
        destruct (Dict.mem kw (name p)) eqn:Hm; [discriminate|].
        apply IH in H as (bs & Hp & Ha & Hb & Hl & Hle); auto.
        2:{ rewrite Hset. eapply fresh_tail; eauto. }
        exists ((p, One v) :: bs). simpl. repeat split.
        -- destruct Hp as [->|(vp & Hv & ->)]; [now left|right; eauto].
        -- rewrite Ha, Hset, <- app_assoc. reflexivity.
        -- constructor; auto. simpl. rewrite Hk.
           repeat split; try congruence. now exists v.
           intros _. now apply mem_false_iff.
        -- intros HF. inversion HF; subst. f_equal. auto.
        -- lia.
      * inversion H; subst. exists [(p, Star (v :: more))]. simpl.
        repeat split; auto.
        -- constructor; auto. simpl. rewrite Hk.
           repeat split; try congruence. now exists v, more.
        -- intros HF. inversion HF; subst. simpl in *. congruence.
        -- lia.
Qed.

(** What the keyword loop has done when it succeeds. *)
Lemma bk_spec partial : forall params kw acc kp acc' kw' kp',
  NoDup (map name params) ->
  (forall p, In p params -> ~ In (name p) (Dict.keys acc)) ->
  NoDup (Dict.keys kw) ->
  bind_keywords partial params kw acc kp = Ok (acc', kw', kp') ->
  exists bs,
    acc' = acc ++ map (@ent V) bs /\ incl (map fst bs) params /\
    Forall (fun b => (exists v, snd b = One v /\ In (name (fst b), v) kw) /\
                     (kind (fst b) = POSITIONAL_OR_KEYWORD \/
                      kind (fst b) = KEYWORD_ONLY)) bs /\
    NoDup (Dict.keys kw') /\ incl kw' kw /\
    (forall q, In q params ->
       kind q = POSITIONAL_ONLY \/ kind q = POSITIONAL_OR_KEYWORD \/
       kind q = KEYWORD_ONLY -> ~ In (name q) (Dict.keys kw')) /\
    (forall k, In k (Dict.keys kw) -> ~ In k (map name params) ->
       In k (Dict.keys kw')) /\
    (partial = false -> forall q, In q params -> required q = true ->
       In q (map fst bs)) /\
    (kp' = kp \/ exists vk, In vk params /\ kind vk = VAR_KEYWORD /\ kp' = Some vk).
Proof.
  induction params as [|p rest IH]; intros kw acc kp acc' kw' kp' Hnd Hf Hkw H.
  - simpl in H. inversion H; subst. exists []. simpl. rewrite app_nil_r.
    repeat split; auto using incl_refl; tauto.
  - assert (Hnd' : NoDup (map name rest)) by (now inversion Hnd).
    assert (Hf' : forall q, In q rest -> ~ In (name q) (Dict.keys acc))
      by (intros q I; apply Hf; now right).
    assert (Hset : forall x, Dict.set acc (name p) x = acc ++ [(name p, x)]).
    { intros x. apply set_fresh. apply Hf. now left. }
    (* the parameter is skipped *)
    assert (Hskip : forall kp0,
              bind_keywords partial rest kw acc kp0 = Ok (acc', kw', kp') ->
              (kind p = VAR_POSITIONAL \/ kind p = VAR_KEYWORD \/
               (Dict.get kw (name p) = None /\
                (partial = false -> required p = false))) ->
              (kp0 = kp \/ (kind p = VAR_KEYWORD /\ kp0 = Some p)) ->
              exists bs,
                acc' = acc ++ map (@ent V) bs /\ incl (map fst bs) (p :: rest) /\
                Forall (fun b => (exists v, snd b = One v /\
                                    In (name (fst b), v) kw) /\
                     (kind (fst b) = POSITIONAL_OR_KEYWORD \/
                      kind (fst b) = KEYWORD_ONLY)) bs /\
                NoDup (Dict.keys kw') /\ incl kw' kw /\
                (forall q, In q (p :: rest) ->
                   kind q = POSITIONAL_ONLY \/ kind q = POSITIONAL_OR_KEYWORD \/
                   kind q = KEYWORD_ONLY -> ~ In (name q) (Dict.keys kw')) /\
                (forall k, In k (Dict.keys kw) -> ~ In k (map name (p :: rest)) ->
                   In k (Dict.keys kw')) /\
                (partial = false -> forall q, In q (p :: rest) ->
                   required q = true -> In q (map fst bs)) /\
                (kp' = kp \/ exists vk, In vk (p :: rest) /\
                   kind vk = VAR_KEYWORD /\ kp' = Some vk)).
    { intros kp0 H0 Hp Hkp.
      apply IH in H0 as (bs & Ha & Hi & Hb & Hn & Hik & Hq & Hk & Hr & Hv); auto.
      exists bs. repeat split; auto.
      - now apply incl_tl.
      - intros q [<-|Iq] Hkq; [|now apply Hq].
        destruct Hp as [Hp|[Hp|[Hp _]]];
          try (destruct Hkq as [Hkq|[Hkq|Hkq]]; congruence).
        intros I. apply (incl_keys Hik) in I. now apply get_None_iff in Hp.
      - intros k Ik Hnk. apply Hk; auto. simpl in Hnk. tauto.
      - intros E q [<-|Iq] Hreq; [|now apply Hr].
        exfalso. unfold required in Hreq.
        destruct Hp as [Hp|[Hp|[_ Hp]]].
        + rewrite Hp in Hreq. discriminate.
        + rewrite Hp in Hreq. discriminate.
        + specialize (Hp E). unfold required in Hp. congruence.
      - destruct Hv as [->|(vk & I1 & I2 & ->)].
        + destruct Hkp as [->|[Hkv ->]]; [now left|].
          right. exists p. repeat split; auto. now left.
        + right. exists vk. repeat split; auto. now right. }
    simpl in H.
    destruct (kind p) eqn:Hk.
    all: try (eapply Hskip; eauto; fail).
    all: destruct (Dict.get kw (name p)) as [v|] eqn:Hg;
      [| apply (Hskip kp); auto;
         [ destruct partial, (default p) eqn:Hd; try discriminate; auto
         | right; right; split; auto; intros ->; unfold required; rewrite Hk;
           destruct (default p); [reflexivity | discriminate] ] ].
    all: try discriminate.
    all: apply IH in H as (bs & Ha & Hi & Hb & Hn & Hik & Hq & Hkk & Hr & Hv);
      auto using NoDup_pop;
      [| rewrite Hset; eapply fresh_tail; eauto ].
    all: exists ((p, One v) :: bs); repeat split; auto.
    all: try (rewrite Ha, Hset, <- app_assoc; reflexivity).
    all: try (simpl; intros q [<-|I]; [now left | right; now apply Hi]).
    all: try (constructor;
              [ simpl; split; auto; exists v; split; auto using get_Some_In
              | eapply Forall_impl; [|exact Hb];
                intros b [(v0 & E0 & I0) Hk0]; split; auto;
                exists v0; split; auto; eapply pop_incl; eauto ]; fail).
    all: try (intros e Ie; eapply pop_incl; eauto; fail).
    all: try (intros q [<-|Iq] Hkq; [|now apply Hq]; intros I;
              apply (incl_keys Hik) in I;
              apply get_None_iff in I; auto; now apply get_pop_eq).
    all: try (intros k Ik Hnk; apply Hkk; [|simpl in Hnk; tauto];
              destruct (Dict.get kw k) eqn:Hgk;
              [ apply (@get_Some_keys _ _ k v0);
                rewrite get_pop_neq; auto; simpl in Hnk; intros E; apply Hnk; auto
              | apply get_None_iff in Hgk; tauto ]).
    all: try (intros E q [<-|Iq] Hreq; [now left | right; now apply Hr]).
    all: try (destruct Hv as [->|(vk & I1 & I2 & ->)];
              [now left | right; exists vk; repeat split; auto; now right]).
Qed.

Lemma bp_nodup partial kw : forall params arg_vals acc acc' rem,
  NoDup (Dict.keys acc) ->
  bind_positional partial params arg_vals kw acc = Ok (acc', rem) ->
  NoDup (Dict.keys acc').
Proof.
  induction params as [|p rest IH]; intros arg_vals acc acc' rem Hn H.
  - destruct arg_vals; simpl in H; inversion H; now subst.
  - destruct arg_vals as [|v more]; simpl in H.
    + destruct (kind p);
        try (destruct (Dict.mem kw (name p)); try discriminate);
        try (destruct (default p); try destruct partial; try discriminate);
        inversion H; now subst.
    + destruct (kind p); try discriminate;
        try (destruct (Dict.mem kw (name p) && _); try discriminate;
             apply IH in H; auto using NoDup_set).
      inversion H; subst. now apply NoDup_set.
Qed.

Lemma bk_nodup partial : forall params kw acc kp acc' kw' kp',
  NoDup (Dict.keys acc) ->
  bind_keywords partial params kw acc kp = Ok (acc', kw', kp') ->
  NoDup (Dict.keys acc').
Proof.
  induction params as [|p rest IH]; intros kw acc kp acc' kw' kp' Hn H.
  - simpl in H. inversion H; now subst.
  - simpl in H. destruct (kind p); eauto;
      (destruct (Dict.get kw (name p));
       [ try discriminate; apply IH in H; auto using NoDup_set
       | destruct partial, (default p); try discriminate; eauto ]).
Qed.

Lemma name_inj sig p q :
  NoDup (map name sig) -> In p sig -> In q sig -> name p = name q -> p = q.
Proof.
  induction sig as [|r sig IH]; simpl; [tauto|].
  intros Hnd [<-|Ip] [<-|Iq] E; auto; inversion Hnd; subst.
  - exfalso. apply H1. rewrite E. now apply in_map.
  - exfalso. apply H1. rewrite <- E. now apply in_map.
  - auto.
Qed.

Lemma prefix_closed (c stop pre post : list Param) p q :
  NoDup (c ++ stop) -> c ++ stop = pre ++ p :: post ->
  In q post -> In q c -> In p c.
Proof.
  revert pre. induction c as [|x c IH]; intros pre Hnd E Iq Ic; [contradiction|].
  destruct pre as [|y pre]; simpl in E; injection E as -> E'; [now left|].
  right. simpl in Hnd. apply NoDup_cons_iff in Hnd as [Hnotin Hnd'].
  destruct Ic as [<-|Ic].
  - exfalso. apply Hnotin. rewrite E'. apply in_or_app. right. now right.
  - eapply IH; eauto.
Qed.

Lemma NoDup_of_names sig : NoDup (map name sig) -> NoDup sig.
Proof. apply NoDup_map_inv. Qed.

(** The shape of a successful binding: the parameters bound by position,
    those bound by keyword, and the [**kwargs] entry if one is needed. *)
Lemma bind_entries partial sig arg_vals kwargs A :
  wf_sig sig = true -> NoDup (Dict.keys kwargs) ->
  _bind sig arg_vals kwargs partial = Ok A ->
  exists bs1 bs2 tl rem,
    A = map (@ent V) (bs1 ++ bs2 ++ tl) /\ NoDup (Dict.keys A) /\
    (sig = map fst bs1 ++ rem \/
     exists vp, kind vp = VAR_POSITIONAL /\ sig = map fst bs1 ++ vp :: rem) /\
    Forall (fun b => shape (kind (fst b)) (snd b) /\
                     kind (fst b) <> KEYWORD_ONLY /\
                     kind (fst b) <> VAR_KEYWORD /\
                     (kind (fst b) = POSITIONAL_OR_KEYWORD ->
                      ~ In (name (fst b)) (Dict.keys kwargs))) bs1 /\
    (Forall (fun b => kind (fst b) <> VAR_POSITIONAL) bs1 ->
     List.length arg_vals = List.length bs1) /\
    List.length bs1 <= List.length arg_vals /\
    incl (map fst bs2) rem /\
    Forall (fun b => (exists v, snd b = One v /\
                                 In (name (fst b), v) kwargs) /\
                     (kind (fst b) = POSITIONAL_OR_KEYWORD \/
                      kind (fst b) = KEYWORD_ONLY)) bs2 /\
    (partial = false -> forall q, In q rem -> required q = true ->
       In q (map fst bs2)) /\
    (exists kw', NoDup (Dict.keys kw') /\ incl kw' kwargs /\
       (forall q, In q rem ->
          kind q = POSITIONAL_ONLY \/ kind q = POSITIONAL_OR_KEYWORD \/
          kind q = KEYWORD_ONLY -> ~ In (name q) (Dict.keys kw')) /\
       (forall k, In k (Dict.keys kwargs) -> ~ In k (map name rem) ->
          In k (Dict.keys kw')) /\
       ((kw' = [] /\ tl = []) \/
        exists vk, In vk rem /\ kind vk = VAR_KEYWORD /\ kw' <> [] /\
                   tl = [(vk, StarStar kw')])).
Proof.
  intros Hwf Hkw H. unfold wf_sig in Hwf.
  apply andb_true_iff in Hwf as [Hnd Hord]. apply nodupb_NoDup in Hnd.
  unfold _bind in H.
  destruct (bind_positional partial sig arg_vals kwargs [])
    as [[acc1 rem]|] eqn:H1; [|discriminate].
  destruct (bind_keywords partial rem kwargs acc1 None)
    as [[[acc2 kw'] kp']|] eqn:H2; [|discriminate].
  assert (Hn1 : NoDup (Dict.keys acc1)).
  { eapply bp_nodup; [|exact H1]. constructor. }
  assert (Hn2 : NoDup (Dict.keys acc2)).
  { eapply bk_nodup; [|exact H2]. exact Hn1. }
  apply bp_spec in H1 as (bs1 & Hp & Ha1 & Hb1 & Hl & Hle); auto.
  simpl in Ha1. subst acc1.
  assert (Hsig : exists mid, sig = map fst bs1 ++ mid ++ rem).
  { destruct Hp as [->|(vp & _ & ->)]; [now exists [] | now exists [vp]]. }
  destruct Hsig as [mid Hsig].
  assert (Hndr : NoDup (map name rem)).
  { rewrite Hsig, !map_app in Hnd.
    now apply NoDup_app_remove_l, NoDup_app_remove_l in Hnd. }
  assert (Hkeys : forall bs : list (Param * argval V),
            Dict.keys (map (@ent V) bs) = map name (map fst bs)).
  { intros bs. unfold Dict.keys. rewrite !map_map. reflexivity. }
  assert (Hfr : forall q, In q rem -> ~ In (name q) (Dict.keys (map (@ent V) bs1))).
  { intros q Iq I. rewrite Hkeys in I.
    rewrite Hsig, map_app in Hnd.
    apply (@NoDup_app_disjoint _ _ _ (name q) Hnd); [exact I|].
    rewrite map_app. apply in_or_app. right. now apply in_map. }
  apply bk_spec in H2
    as (bs2 & Ha2 & Hi & Hb2 & Hnk & Hik & Hq & Hk & Hr & Hv); auto.
  subst acc2.
  assert (Hrem : incl rem sig).
  { intros q Iq. rewrite Hsig. apply in_or_app. right.
    apply in_or_app. now right. }
  destruct kw' as [|e kw'].
  - inversion H; subst A.
    exists bs1, bs2, [], rem. rewrite app_nil_r, map_app.
    repeat split; auto. exists []. repeat split; auto.
  - destruct kp' as [vk|]; [|discriminate].
    destruct Hv as [Hv|(vk' & Ivk & Hkv & Hvk)]; [discriminate|].
    injection Hvk as <-. inversion H; subst A. clear H.
    assert (Hfresh : ~ In (name vk) (Dict.keys (map (@ent V) bs1 ++ map (@ent V) bs2))).
    { rewrite <- map_app, Hkeys, map_app.
      intros I. apply in_map_iff in I as (q & E & Iq).
      assert (In q sig).
      { apply in_app_or in Iq as [Iq|Iq].
        - rewrite Hsig. apply in_or_app. now left.
        - apply Hrem. now apply Hi. }
      assert (Isig : In vk sig) by now apply Hrem.
      assert (q = vk) by (apply (@name_inj sig q vk Hnd); auto). subst q.
      apply in_app_or in Iq as [Iq|Iq];
        apply in_map_iff in Iq as (b & E' & Ib).
      - rewrite Forall_forall in Hb1. destruct (Hb1 b Ib) as (_ & _ & Hx & _).
        congruence.
      - rewrite Forall_forall in Hb2. destruct (Hb2 b Ib) as (_ & [Hx|Hx]);
          congruence. }
    exists bs1, bs2, [(vk, StarStar (e :: kw'))], rem.
    pose proof (@NoDup_set _ _ (name vk) (StarStar (e :: kw')) Hn2) as Hn3.
    rewrite set_fresh in * by auto.
    repeat split; auto.
    + rewrite !map_app. now rewrite app_assoc.
    + exists (e :: kw'). repeat split; auto.
      right. exists vk. repeat split; auto. discriminate.
Qed.

(** Every binding [_bind] returns is well formed. *)
Theorem bind_ok partial sig arg_vals kwargs (A : arguments V) :
  wf_sig sig = true -> NoDup (Dict.keys kwargs) ->
  _bind sig arg_vals kwargs partial = Ok A ->
  ok sig A /\ NoDup (Dict.keys A) /\ (partial = false -> complete sig A).
Proof.
  intros Hwf Hkw H.
  destruct (@bind_entries _ _ _ _ _ Hwf Hkw H)
    as (bs1 & bs2 & tl & rem & HA & HnA & Hp & Hb1 & _ & _ & Hi & Hb2 & Hr &
        kw' & Hnk & Hik & Hq & _ & Htl).
  unfold wf_sig in Hwf.
  apply andb_true_iff in Hwf as [Hnd Hord]. apply nodupb_NoDup in Hnd.
  rewrite Forall_forall in Hb1, Hb2.
  assert (Hsig : exists mid, sig = map fst bs1 ++ mid ++ rem /\
            forall q, In q mid -> kind q = VAR_POSITIONAL).
  { destruct Hp as [->|(vp & Hv & ->)].
    - exists []. split; auto. intros q [].
    - exists [vp]. split; auto. intros q [<-|[]]. auto. }
  destruct Hsig as (mid & Hsig & Hmid).
  assert (Hrem : incl rem sig).
  { intros q Iq. rewrite Hsig. apply in_or_app. right.
    apply in_or_app. now right. }
  assert (Hc : incl (map fst bs1) sig).
  { intros q Iq. rewrite Hsig. apply in_or_app. now left. }
  assert (Htl' : forall b, In b tl ->
            In (fst b) rem /\ kind (fst b) = VAR_KEYWORD /\
            snd b = StarStar kw' /\ kw' <> []).
  { intros b Ib. destruct Htl as [[_ ->]|(vk & I1 & I2 & I3 & ->)];
      [contradiction|].
    destruct Ib as [<-|[]]. auto. }
  assert (HinB : forall b, In b (bs1 ++ bs2 ++ tl) -> In (fst b) sig).
  { intros b Ib. apply in_app_or in Ib as [Ib|Ib];
      [|apply in_app_or in Ib as [Ib|Ib]].
    - apply Hc. now apply in_map.
    - apply Hrem, Hi. now apply in_map.
    - apply Hrem. now apply Htl'. }
  assert (Hget : forall p x, In p sig -> Dict.get A (name p) = Some x ->
            In (p, x) (bs1 ++ bs2 ++ tl)).
  { intros p x Ip Hg. apply get_Some_In in Hg. rewrite HA in Hg.
    apply in_map_iff in Hg as ([q y] & E & Ib). unfold ent in E. simpl in E.
    injection E as E ->.
    assert (q = p) by (apply (@name_inj sig q p Hnd); auto; apply (HinB _ Ib)).
    now subst. }
  assert (Hget' : forall b, In b (bs1 ++ bs2 ++ tl) ->
            Dict.get A (name (fst b)) = Some (snd b)).
  { intros b Ib. apply In_get; auto. rewrite HA.
    apply in_map_iff. exists b. auto. }
  assert (Hpos : forall p x, In (p, x) (bs1 ++ bs2 ++ tl) ->
            kind p = POSITIONAL_ONLY \/ kind p = VAR_POSITIONAL ->
            In (p, x) bs1).
  { intros p x Ib Hk. apply in_app_or in Ib as [Ib|Ib]; auto.
    exfalso. apply in_app_or in Ib as [Ib|Ib].
    - destruct (Hb2 _ Ib) as [_ [H2|H2]]; simpl in H2;
        destruct Hk; congruence.
    - destruct (Htl' _ Ib) as (_ & H2 & _); simpl in H2;
        destruct Hk; congruence. }
  split; [|split; auto].
  - constructor.
    + intros p x Ip Hg. apply Hget in Hg; auto.
      apply in_app_or in Hg as [Ib|Ib]; [|apply in_app_or in Ib as [Ib|Ib]].
      * now destruct (Hb1 _ Ib).
      * destruct (Hb2 _ Ib) as [(v & Hv & _) [Hk|Hk]]; simpl in *;
          rewrite Hk, Hv; now exists v.
      * destruct (Htl' _ Ib) as (_ & Hk & Hv & _). simpl in *.
        rewrite Hk, Hv. now exists kw'.
    + intros pre p post E Hg q Iq Hk.
      destruct (Dict.get A (name q)) as [x|] eqn:Hgq; auto. exfalso.
      assert (Isig : In q sig).
      { rewrite E. apply in_or_app. right. now right. }
      apply Hget in Hgq; auto. apply Hpos in Hgq; auto.
      assert (Ip : In p (map fst bs1)).
      { apply (@prefix_closed (map fst bs1) (mid ++ rem) pre post p q).
        - rewrite <- Hsig. now apply NoDup_of_names.
        - now rewrite <- Hsig.
        - exact Iq.
        - apply in_map_iff. now exists (q, x). }
      apply in_map_iff in Ip as (b & <- & Ib).
      rewrite Hget' in Hg; [discriminate|]. apply in_or_app. now left.
    + intros vk kvs Ivk Hk Hg. apply Hget in Hg; auto.
      assert (Itl : In (vk, StarStar kvs) tl).
      { apply in_app_or in Hg as [Ib|Ib]; [|apply in_app_or in Ib as [Ib|Ib]];
          auto; exfalso.
        - destruct (Hb1 _ Ib) as (_ & _ & H2 & _). simpl in H2. congruence.
        - destruct (Hb2 _ Ib) as [_ [H2|H2]]; simpl in H2; congruence. }
      destruct (Htl' _ Itl) as (_ & _ & Hv & Hne). simpl in Hv.
      injection Hv as ->. repeat split; auto.
      intros q Iq Ikq. rewrite Hsig in Iq.
      apply in_app_or in Iq as [Iq|Iq]; [|apply in_app_or in Iq as [Iq|Iq]].
      * apply in_map_iff in Iq as (b & <- & Ib).
        destruct (Hb1 _ Ib) as (_ & H1 & H2 & H3).
        destruct (kind (fst b)) eqn:Hkb; auto; try congruence.
        -- right. right. split; auto.
           rewrite Hget'; [discriminate|]. apply in_or_app. now left.
        -- exfalso. apply H3; auto. now apply (incl_keys Hik).
      * left. now apply Hmid.
      * destruct (kind q) eqn:Hkq; auto; exfalso; apply (Hq q Iq); auto.
  - intros E q Iq Hreq. rewrite Hsig in Iq.
    apply in_app_or in Iq as [Iq|Iq]; [|apply in_app_or in Iq as [Iq|Iq]].
    + apply in_map_iff in Iq as (b & <- & Ib).
      rewrite Hget'; [discriminate|]. apply in_or_app. now left.
    + apply Hmid in Iq. unfold required in Hreq. rewrite Iq in Hreq.
      discriminate.
    + apply (Hr E) in Iq; auto.
      apply in_map_iff in Iq as (b & <- & Ib).
      rewrite Hget'; [discriminate|]. apply in_or_app. right.
      apply in_or_app. now left.
Qed.

(** Every key of a binding names a parameter. *)
Lemma bind_keys partial sig arg_vals kwargs (A : arguments V) :
  wf_sig sig = true -> NoDup (Dict.keys kwargs) ->
  _bind sig arg_vals kwargs partial = Ok A ->
  incl (Dict.keys A) (map name sig).
Proof.
  intros Hwf Hkw H.
  destruct (@bind_entries _ _ _ _ _ Hwf Hkw H)
    as (bs1 & bs2 & tl & rem & HA & HnA & Hp & Hb1 & _ & _ & Hi & Hb2 & Hr &
        kw' & Hnk & Hik & Hq & _ & Htl).
  assert (Hrem : incl rem sig).
  { intros q Iq. destruct Hp as [->|(vp & _ & ->)]; apply in_or_app; right;
      auto. now right. }
  intros k Ik. rewrite HA in Ik. unfold Dict.keys in Ik.
  rewrite map_map in Ik. apply in_map_iff in Ik as (b & <- & Ib).
  unfold ent. simpl. apply in_map.
  apply in_app_or in Ib as [Ib|Ib]; [|apply in_app_or in Ib as [Ib|Ib]].
  - destruct Hp as [->|(vp & _ & ->)]; apply in_or_app; left;
      now apply in_map.
  - apply Hrem, Hi. now apply in_map.
  - destruct Htl as [[_ ->]|(vk & I1 & I2 & I3 & ->)]; [contradiction|].
    destruct Ib as [<-|[]]. now apply Hrem.
Qed.

End V.
End BindSpec.

(* ===================================================================== *)
(** ** The binder is natural in the values it binds *)
(* ===================================================================== *)

Module Natural.
Import Inspect Wf DictFacts BinderFacts.

Section MapValues.
Variables (V W : Type) (f : V -> W).

Lemma get_map_values (d : Dict.t V) k :
  Dict.get (map_values f d) k = option_map f (Dict.get d k).
Proof.
  induction d as [|[k' v] d IH]; simpl; auto.
  destruct (String.eqb k k'); auto.
Qed.

Lemma mem_map_values (d : Dict.t V) k :
  Dict.mem (map_values f d) k = Dict.mem d k.
Proof. unfold Dict.mem. rewrite get_map_values. now destruct (Dict.get d k). Qed.

Lemma keys_map_values (d : Dict.t V) : Dict.keys (map_values f d) = Dict.keys d.
Proof. unfold Dict.keys, map_values. rewrite map_map. reflexivity. Qed.

Lemma set_map_values (d : Dict.t V) k v :
  Dict.set (map_values f d) k (f v) = map_values f (Dict.set d k v).
Proof.
  induction d as [|[k' v'] d IH]; simpl; auto.
  destruct (String.eqb k k'); simpl; auto. now rewrite IH.
Qed.

Lemma pop_map_values (d : Dict.t V) k :
  Dict.pop (map_values f d) k = map_values f (Dict.pop d k).
Proof.
  induction d as [|[k' v'] d IH]; simpl; auto.
  destruct (String.eqb k k'); simpl; auto. now rewrite IH.
Qed.

Lemma update_map_values (e : Dict.t V) : forall d : Dict.t V,
  Dict.update (map_values f d) (map_values f e) = map_values f (Dict.update d e).
Proof.
  induction e as [|[k v] e IH]; simpl; intros d; auto.
  now rewrite set_map_values, IH.
Qed.
End MapValues.

Section Bind.
Variables (V W : Type) (f : V -> W).
Implicit Types (a acc : arguments V).

Lemma bind_positional_natural partial kw : forall params arg_vals acc,
  bind_positional partial params (map f arg_vals) (map_values f kw)
    (map_arguments f acc) =
  map_result (fun ar => (map_arguments f (fst ar), snd ar))
    (bind_positional partial params arg_vals kw acc).
Proof.
  induction params as [|p rest IH]; intros arg_vals acc.
  - destruct arg_vals; reflexivity.
  - destruct arg_vals as [|v more]; simpl.
    + rewrite mem_map_values.
      destruct (kind p), (Dict.mem kw (name p)), (default p), partial;
        reflexivity.
    + rewrite mem_map_values.
      destruct (kind p); try reflexivity;
        try (destruct (Dict.mem kw (name p) && _); [reflexivity|];
             rewrite <- IH; f_equal; unfold map_arguments;
             now rewrite <- set_map_values).
      simpl. unfold map_arguments.
      now rewrite <- (set_map_values (map_argval f)).
Qed.

Lemma bind_keywords_natural partial : forall params kw acc kp,
  bind_keywords partial params (map_values f kw) (map_arguments f acc) kp =
  map_result (fun r => (map_arguments f (fst (fst r)),
                        map_values f (snd (fst r)), snd r))
    (bind_keywords partial params kw acc kp).
Proof.
  induction params as [|p rest IH]; intros kw acc kp; [reflexivity|].
  simpl. rewrite get_map_values.
  destruct (kind p); auto;
    (destruct (Dict.get kw (name p)) as [v|]; simpl;
     [ try reflexivity; rewrite pop_map_values; rewrite <- IH; f_equal;
       unfold map_arguments; now rewrite <- set_map_values
     | destruct partial, (default p); auto ]).
Qed.

Theorem bind_natural sig arg_vals kwargs partial :
  _bind sig (map f arg_vals) (map_values f kwargs) partial =
  map_result (map_arguments f) (_bind sig arg_vals kwargs partial).
Proof.
  unfold _bind.
  change (@nil (string * argval W)) with (map_arguments f []).
  rewrite bind_positional_natural.
  destruct (bind_positional partial sig arg_vals kwargs []) as [[acc rem]|];
    [|reflexivity].
  simpl. rewrite bind_keywords_natural.
  destruct (bind_keywords partial rem kwargs acc None) as [[[acc' kw'] kp']|];
    [|reflexivity].
  simpl. destruct kw' as [|e kw']; [reflexivity|]. simpl.
  destruct kp'; [|reflexivity]. simpl. unfold map_arguments.
  now rewrite <- (set_map_values (map_argval f)).
Qed.

Lemma get_map_arguments a k :
  Dict.get (map_arguments f a) k = option_map (map_argval f) (Dict.get a k).
Proof. apply get_map_values. Qed.

Lemma args_natural a : forall sig,
  args sig (map_arguments f a) = map f (args sig a).
Proof.
  induction sig as [|p rest IH]; [reflexivity|].
  simpl. rewrite get_map_arguments.
  destruct (kind p); auto;
    (destruct (Dict.get a (name p)) as [[v|vs|kvs]|]; simpl; auto;
     rewrite ?map_app; now rewrite IH).
Qed.

Lemma kwargs_loop_natural a : forall sig started kw,
  kwargs_loop sig (map_arguments f a) started (map_values f kw) =
  map_values f (kwargs_loop sig a started kw).
Proof.
  induction sig as [|p rest IH]; intros started kw; [reflexivity|].
  simpl. unfold map_arguments. rewrite ?get_map_values, ?mem_map_values.
  change (map_values (map_argval f) a) with (map_arguments f a).
  destruct started, (kind p); auto;
    try (destruct (Dict.mem a (name p)); now rewrite IH);
    (destruct (Dict.get a (name p)) as [[v|vs|kvs]|]; simpl; auto;
     rewrite <- ?IH; f_equal;
     rewrite ?set_map_values; auto;
     now rewrite <- update_map_values).
Qed.

Lemma kwargs_natural a sig :
  kwargs sig (map_arguments f a) = map_values f (kwargs sig a).
Proof. apply (kwargs_loop_natural a sig false []). Qed.

End Bind.
End Natural.

(* ===================================================================== *)
(** ** Failures of the binder, and bindings that agree on a signature *)
(* ===================================================================== *)

Module BindMore.
Import Inspect Wf DictFacts BinderFacts Rebind BindSpec.

Section V.
Variable V : Type.
Implicit Types (a b acc A : arguments V) (params sig : list Param)
  (arg_vals : list V) (kwargs kw : Dict.t V).

(** A complete binding is also a partial one. *)
Lemma bind_positional_full_partial kw : forall params arg_vals acc r,
  bind_positional false params arg_vals kw acc = Ok r ->
  bind_positional true params arg_vals kw acc = Ok r.
Proof.
  induction params as [|p rest IH]; intros arg_vals acc r H.
  - destruct arg_vals; simpl in *; auto.
  - destruct arg_vals as [|v more]; simpl in *.
    + destruct (kind p), (Dict.mem kw (name p)), (default p);
        auto; discriminate.
    + destruct (kind p); auto;
        destruct (Dict.mem kw (name p) && _); auto.
Qed.

Lemma bind_keywords_full_partial : forall params kw acc kp r,
  bind_keywords false params kw acc kp = Ok r ->
  bind_keywords true params kw acc kp = Ok r.
Proof.
  induction params as [|p rest IH]; intros kw acc kp r H; simpl in *; auto.
  destruct (kind p); auto;
    (destruct (Dict.get kw (name p)); auto;
     destruct (default p); auto; discriminate).
Qed.

Lemma bind_full_partial sig arg_vals kwargs A :
  _bind sig arg_vals kwargs false = Ok A ->
  _bind sig arg_vals kwargs true = Ok A.
Proof.
  unfold _bind. intros H.
  destruct (bind_positional false sig arg_vals kwargs [])
    as [[acc rem]|] eqn:H1; [|discriminate].
  rewrite (bind_positional_full_partial _ _ _ _ H1).
  destruct (bind_keywords false rem kwargs acc None)
    as [r|] eqn:H2; [|discriminate].
  now rewrite (bind_keywords_full_partial _ _ _ _ H2).
Qed.

(** The binder raises nothing but [TypeError]. *)
Lemma bind_positional_TypeError partial kw : forall params arg_vals acc e,
  bind_positional partial params arg_vals kw acc = Raise e ->
  exists msg, e = TypeError msg.
Proof.
  induction params as [|p rest IH]; intros arg_vals acc e H.
  - destruct arg_vals; simpl in H; inversion H; eauto.
  - destruct arg_vals as [|v more]; simpl in H.
    + destruct (kind p), (Dict.mem kw (name p)), (default p), partial;
        inversion H; eauto.
    + destruct (kind p); try (inversion H; eauto; fail);
        destruct (Dict.mem kw (name p) && _); inversion H; eauto.
Qed.

Lemma bind_keywords_TypeError partial : forall params kw acc kp e,
  bind_keywords partial params kw acc kp = Raise e ->
  exists msg, e = TypeError msg.
Proof.
  induction params as [|p rest IH]; intros kw acc kp e H; simpl in H.
  - discriminate.
  - destruct (kind p); eauto;
      (destruct (Dict.get kw (name p)); [try (inversion H; eauto; fail); eauto|];
       destruct partial, (default p); eauto; inversion H; eauto).
Qed.

Lemma bind_TypeError sig arg_vals kwargs partial e :
  _bind sig arg_vals kwargs partial = Raise e -> exists msg, e = TypeError msg.
Proof.
  unfold _bind. intros H.
  destruct (bind_positional partial sig arg_vals kwargs [])
    as [[acc rem]|] eqn:H1.
  - destruct (bind_keywords partial rem kwargs acc None)
      as [[[acc' kw'] kp']|] eqn:H2.
    + destruct kw'; [discriminate|]. destruct kp'; inversion H; eauto.
    + inversion H; subst. eapply bind_keywords_TypeError; eauto.
  - inversion H; subst. eapply bind_positional_TypeError; eauto.
Qed.

(** *** Lookups in the normalised binding *)

Lemma get_restrict sig a p :
  NoDup (map name sig) -> In p sig ->
  Dict.get (restrict sig a) (name p) = Dict.get a (name p).
Proof.
  induction sig as [|q sig IH]; intros Hnd Ip; [contradiction|].
  rewrite restrict_cons, get_app. unfold entry_at at 1.
  apply NoDup_cons_iff in Hnd as [Hn Hnd].
  destruct Ip as [->|Ip].
  - destruct (Dict.get a (name p)) eqn:Hg; simpl.
    + now rewrite String.eqb_refl.
    + apply get_None_iff. intros I. apply keys_restrict in I. contradiction.
  - assert (name p <> name q).
    { intros E. apply Hn. rewrite <- E. now apply in_map. }
    destruct (Dict.get a (name q)); simpl; auto.
    destruct (String.eqb_spec (name p) (name q)); [contradiction|auto].
Qed.

Lemma ok_same_on sig a b : same_on sig a b -> ok sig a -> ok sig b.
Proof.
  intros Hs [H1 H2 H3]. constructor.
  - intros p x Ip Hg. rewrite <- Hs in Hg; eauto.
  - intros pre p post E Hg q Iq Hk.
    assert (Ip : In p sig) by (rewrite E; apply in_or_app; right; now left).
    assert (Iq' : In q sig) by (rewrite E; apply in_or_app; right; now right).
    rewrite <- Hs in *; eauto.
  - intros vk kvs Ivk Hk Hg. rewrite <- Hs in Hg by auto.
    destruct (H3 vk kvs Ivk Hk Hg) as (A1 & A2 & A3).
    repeat split; auto. intros q Iq Ikq.
    destruct (A3 q Iq Ikq) as [?|[?|[? ?]]]; auto.
    right. right. split; auto. now rewrite <- Hs.
Qed.

Lemma complete_same_on sig a b :
  same_on sig a b -> complete sig a -> complete sig b.
Proof. intros Hs H p Ip Hr. rewrite <- Hs; auto. Qed.

Lemma same_on_restrict sig a :
  NoDup (map name sig) -> same_on sig a (restrict sig a).
Proof. intros Hnd p Ip. symmetry. now apply get_restrict. Qed.

Lemma args_same_on a b : forall sig,
  same_on sig a b -> args sig a = args sig b.
Proof.
  induction sig as [|p rest IH]; intros Hs; [reflexivity|].
  simpl. rewrite (Hs p (or_introl eq_refl)).
  rewrite IH; [reflexivity|]. intros q Iq. apply Hs. now right.
Qed.

Lemma kwargs_loop_same_on a b : forall sig started kw,
  same_on sig a b -> kwargs_loop sig a started kw = kwargs_loop sig b started kw.
Proof.
  induction sig as [|p rest IH]; intros started kw Hs; [reflexivity|].
  assert (Hs' : same_on rest a b) by (intros q Iq; apply Hs; now right).
  simpl. unfold Dict.mem. rewrite (Hs p (or_introl eq_refl)).
  destruct started, (kind p); auto;
    try (destruct (Dict.get b (name p)) as [[v|vs|kvs]|]; auto).
Qed.

Lemma kwargs_same_on a b sig : same_on sig a b -> kwargs sig a = kwargs sig b.
Proof. apply kwargs_loop_same_on. Qed.

Lemma restrict_same_on a b : forall sig,
  same_on sig a b -> restrict sig a = restrict sig b.
Proof.
  induction sig as [|p rest IH]; intros Hs; [reflexivity|].
  rewrite !restrict_cons. unfold entry_at.
  rewrite (Hs p (or_introl eq_refl)). f_equal. apply IH.
  intros q Iq. apply Hs. now right.
Qed.

(** *** Merging two bindings: [a |= b] *)

Lemma ok_update sig a b :
  ok sig a -> ok sig b -> NoDup (Dict.keys b) -> ok sig (Dict.update a b).
Proof.
  intros [A1 A2 A3] [B1 B2 B3] Hnd.
  assert (Hget : forall k, Dict.get (Dict.update a b) k =
            match Dict.get b k with Some x => Some x | None => Dict.get a k end)
    by (intros k; now apply get_update).
  constructor.
  - intros p x Ip Hg. rewrite Hget in Hg.
    destruct (Dict.get b (name p)) eqn:Hb; [injection Hg as <-|]; eauto.
  - intros pre p post E Hg q Iq Hk. rewrite Hget in *.
    destruct (Dict.get b (name p)) eqn:Hb; [discriminate|].
    rewrite (B2 pre p post E Hb q Iq Hk). eauto.
  - intros vk kvs Ivk Hk Hg. rewrite Hget in Hg.
    assert (Hin : forall q, Dict.get a (name q) <> None \/
                             Dict.get b (name q) <> None ->
              Dict.get (Dict.update a b) (name q) <> None).
    { intros q Hq. rewrite Hget. destruct (Dict.get b (name q)); [discriminate|].
      destruct Hq; auto. }
    destruct (Dict.get b (name vk)) eqn:Hb.
    + injection Hg as ->. destruct (B3 vk kvs Ivk Hk Hb) as (X1 & X2 & X3).
      repeat split; auto. intros q Iq Ikq.
      destruct (X3 q Iq Ikq) as [?|[?|[? ?]]]; auto.
      right. right. split; auto.
    + destruct (A3 vk kvs Ivk Hk Hg) as (X1 & X2 & X3).
      repeat split; auto. intros q Iq Ikq.
      destruct (X3 q Iq Ikq) as [?|[?|[? ?]]]; auto.
      right. right. split; auto.
Qed.

End V.

Section Map.
Variables (V W : Type) (f : V -> W).

Lemma ok_map_arguments sig (a : arguments V) :
  ok sig a -> ok sig (map_arguments f a).
Proof.
  intros [A1 A2 A3]. constructor.
  - intros p x Ip Hg. rewrite Natural.get_map_arguments in Hg.
    destruct (Dict.get a (name p)) as [y|] eqn:Ha; [|discriminate].
    injection Hg as <-. specialize (A1 p y Ip Ha).
    unfold shape in *. destruct (kind p).
    all: try (destruct A1 as [v ->]; simpl; eauto).
    destruct A1 as (v & vs & ->). simpl. eauto.
  - intros pre p post E Hg q Iq Hk. rewrite Natural.get_map_arguments in *.
    destruct (Dict.get a (name p)) eqn:Ha; [discriminate|].
    now rewrite (A2 pre p post E Ha q Iq Hk).
  - intros vk kvs Ivk Hk Hg. rewrite Natural.get_map_arguments in Hg.
    destruct (Dict.get a (name vk)) as [y|] eqn:Ha; [|discriminate].
    injection Hg as Hy. destruct y as [v|vs|kvs0]; try discriminate.
    injection Hy as <-.
    destruct (A3 vk kvs0 Ivk Hk Ha) as (X1 & X2 & X3).
    change (map (fun kv : string * V => (fst kv, f (snd kv))) kvs0)
      with (map_values f kvs0).
    rewrite Natural.keys_map_values. repeat split; auto.
    + destruct kvs0; [congruence | discriminate].
    + intros q Iq Ikq. rewrite Natural.get_map_arguments.
      destruct (X3 q Iq Ikq) as [?|[?|[? ?]]]; auto.
      right. right. split; auto. destruct (Dict.get a (name q)); [discriminate|auto].
Qed.
End Map.

End BindMore.

(* ===================================================================== *)
(** ** Running the steps of a call *)
(* ===================================================================== *)

Module Run.
Local Open Scope py_scope.

(** A callable object is never a coroutine object. *)
Lemma callable_not_coroutine v : callable v = true -> iscoroutine v = false.
Proof. destruct v as [| | |oid []]; simpl; congruence. Qed.

Lemma bindM_inv {A B} (m : M A) (f : A -> M B) s r s' :
  bindM m f s = (r, s') ->
  (exists e, m s = (Raise e, s') /\ r = Raise e) \/
  (exists a s1, m s = (Ok a, s1) /\ f a s1 = (r, s')).
Proof.
  unfold bindM. destruct (m s) as [[a|e] s1]; intros H.
  - right. eauto.
  - left. inversion H; subst. eauto.
Qed.

Lemma bindM_ok {A B} (m : M A) (f : A -> M B) s a s1 :
  m s = (Ok a, s1) -> bindM m f s = f a s1.
Proof. unfold bindM. now intros ->. Qed.

Lemma bindM_raise {A B} (m : M A) (f : A -> M B) s e s1 :
  m s = (Raise e, s1) -> bindM m f s = (Raise e, s1).
Proof. unfold bindM. now intros ->. Qed.

Section Emits.
Variable P : event -> Prop.

Lemma emits_ret {A} (a : A) : emits P (ret a).
Proof. intros s r s' H. inversion H; subst. exists []. now rewrite app_nil_r. Qed.

Lemma emits_raise {A} e : emits P (raise (A := A) e).
Proof. intros s r s' H. inversion H; subst. exists []. now rewrite app_nil_r. Qed.

Lemma emits_lift {A} (x : result A) : emits P (lift x).
Proof. intros s r s' H. inversion H; subst. exists []. now rewrite app_nil_r. Qed.

Lemma emits_bind {A B} (m : M A) (f : A -> M B) :
  emits P m -> (forall a, emits P (f a)) -> emits P (bindM m f).
Proof.
  intros Hm Hf s r s' H.
  apply bindM_inv in H as [(e & H & ->)|(a & s1 & H1 & H2)].
  - eauto.
  - destruct (Hm _ _ _ H1) as (e1 & L1 & F1).
    destruct (Hf a _ _ _ H2) as (e2 & L2 & F2).
    exists (e1 ++ e2). rewrite L2, L1, app_assoc. split; auto.
    apply Forall_app. auto.
Qed.

Lemma emits_sequence {A} (ms : list (M A)) :
  Forall (emits P) ms -> emits P (sequence ms).
Proof.
  induction 1 as [|m ms Hm _ IH]; simpl.
  - apply emits_ret.
  - apply emits_bind; auto. intros a. apply emits_bind; auto.
    intros rest. apply emits_ret.
Qed.

Lemma emits_py_call w f args_ :
  (forall r, P (EvCall f args_ r)) -> emits P (py_call w f args_).
Proof.
  intros HP s r s' H. unfold py_call in H.
  destruct (callable f); [|eapply emits_raise; eauto].
  inversion H; subst. simpl. eexists. split; eauto.
Qed.

Lemma emits_py_await w c :
  (forall r, P (EvAwait c r)) -> emits P (py_await w c).
Proof.
  intros HP s r s' H. unfold py_await in H.
  destruct (iscoroutine c); [|eapply emits_raise; eauto].
  inversion H; subst. simpl. eexists. split; eauto.
Qed.

Lemma emits_enter_context w cm :
  (forall r, P (EvEnter true cm r)) -> emits P (enter_context w cm).
Proof.
  intros HP s r s' H. unfold enter_context in H.
  destruct (has_enter cm); [|eapply emits_raise; eauto].
  destruct (enter_ w (log s) true cm) eqn:E; inversion H; subst; simpl;
    eexists; split; eauto.
Qed.

Lemma emits_enter_async_context w cm :
  (forall r, P (EvEnter false cm r)) -> emits P (enter_async_context w cm).
Proof.
  intros HP s r s' H. unfold enter_async_context in H.
  destruct (has_aenter cm); [|eapply emits_raise; eauto].
  destruct (enter_ w (log s) false cm) eqn:E; inversion H; subst; simpl;
    eexists; split; eauto.
Qed.
End Emits.

(** What the items of a comprehension produce, item by item. *)
Lemma sequence_Forall2 {A B} (Q : B -> A -> Prop) (step : B -> M A) :
  (forall b s a s', step b s = (Ok a, s') -> Q b a) ->
  forall bs s vs s', sequence (map step bs) s = (Ok vs, s') -> Forall2 Q bs vs.
Proof.
  intros Hstep. induction bs as [|b bs IH]; simpl; intros s vs s' H.
  - inversion H; subst. constructor.
  - apply bindM_inv in H as [(e & _ & [=])|(a & s1 & H1 & H2)].
    apply bindM_inv in H2 as [(e & _ & [=])|(rest & s2 & H2 & H3)].
    inversion H3; subst. constructor; eauto.
Qed.

Lemma sequence_length {A} (ms : list (M A)) : forall s vs s',
  sequence ms s = (Ok vs, s') -> List.length vs = List.length ms.
Proof.
  induction ms as [|m ms IH]; simpl; intros s vs s' H.
  - now inversion H.
  - apply bindM_inv in H as [(e & _ & [=])|(a & s1 & H1 & H2)].
    apply bindM_inv in H2 as [(e & _ & [=])|(rest & s2 & H2 & H3)].
    inversion H3; subst. simpl. f_equal. eauto.
Qed.

End Run.

(* ===================================================================== *)
(** ** Binding again values that stand for the values of a binding *)
(* ===================================================================== *)

Module RebindRelated.
Import Inspect Wf DictFacts BinderFacts Rebind BindSpec BindMore Natural.

Section R.
Variables (V W : Type) (R : V -> W -> Prop).

Lemma Forall2_sig l vs :
  Forall2 R l vs -> exists ts : list (Related.t R), map (@Related.before V W R) ts = l /\ map (@Related.after V W R) ts = vs.
Proof.
  induction 1 as [|x y l vs Hxy _ (ts & E1 & E2)].
  - now exists [].
  - exists (exist _ (x, y) Hxy :: ts). simpl. now rewrite E1, E2.
Qed.

Lemma Forall2_sig_kw (d : Dict.t V) (e : Dict.t W) :
  Forall2 (fun kv kw => fst kv = fst kw /\ R (snd kv) (snd kw)) d e ->
  exists tk : Dict.t (Related.t R), map_values (@Related.before V W R) tk = d /\ map_values (@Related.after V W R) tk = e.
Proof.
  induction 1 as [|[k x] [k' y] d e [Hk Hxy] _ (tk & E1 & E2)].
  - now exists [].
  - simpl in *. subst k'.
    exists ((k, exist _ (x, y) Hxy) :: tk). simpl. now rewrite E1, E2.
Qed.

(** Binding values that stand where the [args] and [kwargs] of a well
    formed binding stood gives the same binding, with each value replaced
    by the one that stands for it. *)
Theorem rebind_related sig (a : arguments V) vs kvs :
  wf_sig sig = true -> ok sig a ->
  Forall2 R (args sig a) vs ->
  Forall2 (fun kv kw => fst kv = fst kw /\ R (snd kv) (snd kw))
    (kwargs sig a) kvs ->
  exists Z : arguments (Related.t R),
    bind_partial sig vs kvs = Ok (map_arguments (@Related.after V W R) Z) /\
    restrict sig a = map_arguments (@Related.before V W R) Z.
Proof.
  intros Hwf Hok Ha Hk.
  destruct (Forall2_sig Ha) as (ts & E1 & E2).
  destruct (Forall2_sig_kw Hk) as (tk & K1 & K2).
  pose proof (@rebind V true sig a Hwf Hok) as Hr.
  rewrite <- E1, <- K1 in Hr.
  rewrite (bind_natural (@Related.before V W R)) in Hr by discriminate.
  unfold bind_partial. rewrite <- E2, <- K2, (bind_natural (@Related.after V W R)).
  destruct (_bind sig ts tk true) as [Z|e]; simpl in *.
  - exists Z. split; auto. injection Hr; auto. discriminate.
  - specialize (Hr ltac:(discriminate)). discriminate.
Qed.
End R.
End RebindRelated.

(* ===================================================================== *)
(** ** injects: one call of a wrapper *)
(* ===================================================================== *)

Module InjectFacts.
Import Inspect Wf DictFacts BinderFacts Rebind BindSpec BindMore Natural Run
  RebindRelated.
Local Open Scope py_scope.

Lemma wf_kwargs_NoDup {V} (kw : Dict.t V) : wf_kwargs kw = true -> NoDup (Dict.keys kw).
Proof. apply nodupb_NoDup. Qed.

Lemma NoDup_dict_of {V} (items : list (string * V)) : forall acc,
  NoDup (Dict.keys acc) -> NoDup (Dict.keys (dict_of items acc)).
Proof.
  induction items as [|[k v] items IH]; simpl; intros acc H; auto.
  apply IH. now apply NoDup_set.
Qed.

Lemma get_apply_defaults a : forall sig p,
  NoDup (map name sig) -> In p sig ->
  Dict.get (apply_defaults sig a) (name p) =
  match Dict.get a (name p) with
  | Some x => Some x
  | None =>
      match kind p, default p with
      | VAR_POSITIONAL, _ => Some (Star [])
      | VAR_KEYWORD, _ => Some (StarStar [])
      | _, Some d => Some (One d)
      | _, None => None
      end
  end.
Proof.
  induction sig as [|q sig IH]; intros p Hnd Ip; [contradiction|].
  apply NoDup_cons_iff in Hnd as [Hn Hnd].
  assert (Hkeys : forall k, In k (Dict.keys (apply_defaults sig a)) ->
            In k (map name sig)).
  { clear. induction sig as [|r sig IH]; simpl; [tauto|]. intros k.
    destruct (Dict.get a (name r)); [simpl; intuition|].
    destruct (kind r), (default r); simpl; intuition. }
  destruct Ip as [->|Ip].
  - simpl. destruct (Dict.get a (name p)); simpl.
    + now rewrite String.eqb_refl.
    + destruct (kind p), (default p); simpl; rewrite ?String.eqb_refl; auto;
        apply get_None_iff; intros I; apply Hkeys in I; contradiction.
  - assert (Hne : name p <> name q).
    { intros E. apply Hn. rewrite <- E. now apply in_map. }
    assert (Hskip : forall x, Dict.get ((name q, x) :: apply_defaults sig a) (name p)
                              = Dict.get (apply_defaults sig a) (name p)).
    { intros x. simpl. destruct (String.eqb_spec (name p) (name q)); congruence. }
    simpl. destruct (Dict.get a (name q)); [rewrite Hskip; auto|].
    destruct (kind q), (default q); rewrite ?Hskip; auto.
Qed.

Lemma apply_defaults_same_on a b : forall sig,
  same_on sig a b -> apply_defaults sig a = apply_defaults sig b.
Proof.
  induction sig as [|p rest IH]; intros Hs; [reflexivity|].
  simpl. rewrite (Hs p (or_introl eq_refl)).
  rewrite IH; [reflexivity|]. intros q Iq. apply Hs. now right.
Qed.

Section W.
Variable w : world.

(** What [invoke] does: it raises the binder's [TypeError] and leaves no
    trace, or runs the body once on the arguments with their defaults. *)
Lemma invoke_run fn (A : arguments value) s r s' :
  wf_sig (signature fn) = true -> ok (signature fn) A ->
  invoke fn (args (signature fn) A) (kwargs (signature fn) A) s = (r, s') ->
  (complete (signature fn) A /\
   r = body fn (log s) (apply_defaults (signature fn) A) /\
   log s' = log s ++ [EvInvoke (apply_defaults (signature fn) A) r] /\
   exits s' = exits s) \/
  (~ complete (signature fn) A /\ (exists msg, r = Raise (TypeError msg)) /\
   s' = s).
Proof.
  intros Hwf Hok H. unfold invoke, bind in H.
  destruct (_bind (signature fn) (args (signature fn) A)
              (kwargs (signature fn) A) false) as [E|e] eqn:Hb.
  - pose proof (@bind_full_partial _ _ _ _ _ Hb) as Hp.
    rewrite (@rebind _ true (signature fn) A Hwf Hok) in Hp by discriminate.
    injection Hp as <-.
    assert (Hnd : NoDup (map name (signature fn))).
    { unfold wf_sig in Hwf. apply andb_true_iff in Hwf as [Hwf _].
      now apply nodupb_NoDup. }
    pose proof (@same_on_restrict _ (signature fn) A Hnd) as Hs.
    rewrite <- (@apply_defaults_same_on _ _ (signature fn) Hs) in H.
    left. inversion H; subst. simpl. repeat split; auto.
    destruct (@bind_ok _ false _ _ _ _ Hwf (kwargs_nodup Hwf Hok) Hb)
      as (_ & _ & Hc).
    intros p Ip Hr. rewrite (Hs p Ip). now apply Hc.
  - right. inversion H; subst. repeat split.
    + intros Hc. rewrite (@rebind _ false (signature fn) A Hwf Hok) in Hb;
        [discriminate | auto].
    + destruct (bind_TypeError _ _ _ _ Hb) as [msg ->]. eauto.
Qed.

Lemma not_invoke_call f a r : not_invoke (EvCall f a r).
Proof. intros []. Qed.
Lemma not_invoke_await c r : not_invoke (EvAwait c r).
Proof. intros []. Qed.
Lemma not_invoke_enter b c r : not_invoke (EvEnter b c r).
Proof. intros []. Qed.

Lemma emits_call_bound_inject P a :
  (forall f r, P (EvCall f [] r)) -> emits P (_call_bound_inject w a).
Proof.
  intros HP. destruct a as [v|val]; simpl.
  - apply emits_ret.
  - destruct (callable val); simpl.
    + apply emits_bind; [now apply emits_py_call|]. intros x. apply emits_ret.
    + apply emits_ret.
Qed.

(** A value of the call, and a decoration-time value that is not
    callable, reach the end of an item unchanged. *)
Lemma item_passes (finish : triple -> M value) a s v s' :
  (forall u, finish (u, false, VFalse) = ret u) ->
  (x <- _call_bound_inject w a ;; finish x) s = (Ok v, s') -> passes a v.
Proof.
  intros Hf H. destruct a as [u|val]; simpl in *.
  - unfold bindM, ret in H. simpl in H. rewrite Hf in H.
    now inversion H.
  - intros Hc. rewrite Hc in H. simpl in H.
    unfold bindM, ret in H. simpl in H. rewrite Hf in H. now inversion H.
Qed.

Lemma for_kwargs_walks (finish : triple -> M value) :
  (forall u, finish (u, false, VFalse) = ret u) ->
  (forall x, emits not_invoke (finish x)) ->
  walks w (fun items => for_kwargs items finish).
Proof.
  intros Hf He slots. split.
  - unfold for_kwargs. apply emits_bind; [|intros; apply emits_ret].
    apply emits_sequence. rewrite map_map. apply Forall_forall.
    intros m Im. apply in_map_iff in Im as (kv & <- & _). simpl.
    apply emits_bind;
      [apply emits_call_bound_inject; intros; apply not_invoke_call|].
    intros x. apply emits_bind; auto. intros v. apply emits_ret.
  - intros Hnd s kvs s' H. unfold for_kwargs in H. rewrite map_map in H.
    apply bindM_inv in H as [(e & _ & [=])|(items & s1 & H1 & H2)].
    inversion H2; subst. clear H2.
    apply (sequence_Forall2
             (fun kv (kw : string * value) =>
                fst kv = fst kw /\ passes (snd kv) (snd kw))) in H1.
    + rewrite dict_of_fresh; auto. simpl.
      replace (map fst items) with (Dict.keys slots); auto.
      clear -H1. induction H1 as [|x y l l' [E _] _ IH]; simpl; congruence.
    + intros kv s0 [k v] s0' Hs. simpl in Hs.
      apply bindM_inv in Hs as [(e & _ & [=])|(x & s2 & Hx & Hs)].
      apply bindM_inv in Hs as [(e & _ & [=])|(v' & s3 & Hv & Hs)].
      assert (Hrun : (x <- _call_bound_inject w (snd kv) ;; finish x) s0
                     = (Ok v', s3))
        by (unfold bindM; rewrite Hx; exact Hv).
      inversion Hs; subst. simpl. split; auto.
      eapply item_passes; eauto.
Qed.

Lemma call_binding sig (args_ : list value) (kwargs_ : Dict.t value) :
  bind_partial sig (call_args args_) (call_kwargs kwargs_) =
  map_result (map_arguments Arg) (bind_partial sig args_ kwargs_).
Proof. apply (bind_natural Arg). Qed.

(** One call of a wrapper of [injects] or [injects_ctx], up to the exit
    stack: it raises without having invoked the function, or it invokes
    it once, last, on the merged binding, in which every value stands
    for the element of the merge it was made from. *)
Theorem inject_body_run finish walk fn bc args_ kwargs_ ba s r s' :
  let sig := signature fn in
  wf_sig sig = true -> wf_kwargs kwargs_ = true -> ok sig bc ->
  (forall u, finish (u, false, VFalse) = ret u) ->
  (forall x, emits not_invoke (finish x)) ->
  walks w walk ->
  bind_partial sig args_ kwargs_ = Ok ba ->
  inject_body w finish walk fn bc args_ kwargs_ s = (r, s') ->
  exists evs, log s' = log s ++ evs /\
    ((exists e, r = Raise e /\ Forall not_invoke evs) \/
     (exists pre (Z : arguments (Related.t passes)),
        evs = pre ++ [EvInvoke
                        (apply_defaults sig (map_arguments (@Related.after _ _ passes) Z))
                        r] /\
        Forall not_invoke pre /\
        r = body fn (log s ++ pre)
              (apply_defaults sig (map_arguments (@Related.after _ _ passes) Z)) /\
        restrict sig (Dict.update bc (map_arguments Arg ba)) =
          map_arguments (@Related.before _ _ passes) Z /\
        complete sig (map_arguments (@Related.after _ _ passes) Z))).
Proof.
  intros sig Hwf Hkw Hbc Hf He Hw Hba H.
  apply wf_kwargs_NoDup in Hkw.
  unfold inject_body in H. fold sig in H.
  rewrite call_binding, Hba in H. simpl in H.
  unfold bindM at 1, try, lift in H. simpl in H.
  destruct (@bind_ok _ true sig args_ kwargs_ ba Hwf Hkw Hba) as (Hoa & Hna & _).
  set (bb := Dict.update bc (map_arguments Arg ba)) in *.
  assert (Hbb : ok sig bb).
  { apply ok_update; auto.
    - now apply ok_map_arguments.
    - unfold map_arguments. now rewrite keys_map_values. }
  (* the positional items *)
  apply bindM_inv in H as [(e & H & ->)|(vs & s1 & H1 & H)].
  { assert (Hem : emits not_invoke
              (for_args (map (_call_bound_inject w) (args sig bb)) finish)).
    { unfold for_args. apply emits_sequence. rewrite map_map.
      apply Forall_forall. intros m Im.
      apply in_map_iff in Im as (a & <- & _).
      apply emits_bind; auto.
      apply emits_call_bound_inject; intros; apply not_invoke_call. }
    destruct (Hem _ _ _ H) as (evs & L & F). exists evs. split; eauto. }
  assert (Hem1 : exists ev1, log s1 = log s ++ ev1 /\ Forall not_invoke ev1).
  { assert (Hem : emits not_invoke
              (for_args (map (_call_bound_inject w) (args sig bb)) finish)).
    { unfold for_args. apply emits_sequence. rewrite map_map.
      apply Forall_forall. intros m Im.
      apply in_map_iff in Im as (a & <- & _).
      apply emits_bind; auto.
      apply emits_call_bound_inject; intros; apply not_invoke_call. }
    exact (Hem _ _ _ H1). }
  destruct Hem1 as (ev1 & L1 & F1).
  assert (Hvs : Forall2 passes (args sig bb) vs).
  { unfold for_args in H1. rewrite map_map in H1.
    eapply (sequence_Forall2 passes); [|exact H1].
    intros a s0 v s0' Hs. exact (@item_passes finish a s0 v s0' Hf Hs). }
  (* the keyword items *)
  destruct (Hw (kwargs sig bb)) as [Hwe Hwp].
  apply bindM_inv in H as [(e & H & ->)|(kvs & s2 & H2 & H)].
  { destruct (Hwe _ _ _ H) as (ev2 & L2 & F2).
    exists (ev1 ++ ev2). rewrite L2, L1, app_assoc. split; auto.
    left. eexists. split; eauto. apply Forall_app. auto. }
  destruct (Hwe _ _ _ H2) as (ev2 & L2 & F2).
  pose proof (Hwp (kwargs_nodup Hwf Hbb) _ _ _ H2) as Hkvs.
  (* binding the merged values again *)
  destruct (rebind_related Hwf Hbb Hvs Hkvs) as (Z & HZ & HR).
  unfold bindM at 1, try, lift in H. rewrite HZ in H.
  assert (HokA : ok sig (map_arguments (@Related.after _ _ passes) Z)).
  { assert (Hkk : NoDup (Dict.keys kvs)).
    { replace (Dict.keys kvs) with (Dict.keys (kwargs sig bb)).
      - now apply kwargs_nodup.
      - clear -Hkvs. unfold Dict.keys.
        induction Hkvs as [|x y l l' [E _] _ IH]; simpl; congruence. }
    now destruct (@bind_ok _ true sig vs kvs _ Hwf Hkk HZ). }
  apply invoke_run in H; auto.
  assert (L : log s2 = log s ++ (ev1 ++ ev2)) by (now rewrite L2, L1, app_assoc).
  assert (F : Forall not_invoke (ev1 ++ ev2)) by (apply Forall_app; auto).
  destruct H as [(Hc & Hr & Hl & _)|(Hc & (msg & ->) & ->)].
  - eexists. split; [rewrite Hl, L, <- app_assoc; reflexivity|].
    right. exists (ev1 ++ ev2), Z. rewrite <- L. repeat split; auto.
  - exists (ev1 ++ ev2). split; auto. left. eauto.
Qed.

End W.
End InjectFacts.

(* ===================================================================== *)
(** ** injects: what the decorated function receives *)
(* ===================================================================== *)

Module InjectClaims.
Import Inspect Wf DictFacts BinderFacts Rebind BindSpec BindMore Natural Run
  RebindRelated InjectFacts.
Local Open Scope py_scope.

Lemma bind_injectors_ok sig injector_args injector_kwargs bc :
  wf_sig sig = true ->
  bind_injectors sig injector_args injector_kwargs = Ok bc -> ok sig bc.
Proof.
  intros Hwf H. unfold bind_injectors, bind_partial in H.
  eapply bind_ok in H; eauto; [tauto|].
  apply NoDup_dict_of. constructor.
Qed.

(** The two [_fn] of [injects] are instances of the common shape. *)
Lemma injects_shape w injector_args injector_kwargs fn wr :
  injects w injector_args injector_kwargs fn = Ok wr ->
  exists bc finish,
    bind_injectors (signature fn) injector_args injector_kwargs = Ok bc /\
    wr = inject_body w finish (fun items => for_kwargs items finish) fn bc /\
    (forall u, finish (u, false, VFalse) = ret u) /\
    (forall x, emits not_invoke (finish x)).
Proof.
  unfold injects. intros H.
  destruct (bind_injectors (signature fn) injector_args injector_kwargs)
    as [bc|] eqn:Hbc; [|discriminate].
  exists bc. destruct (iscoroutinefunction fn); simpl in H; injection H as <-.
  - exists (fun '(v, _, awt) => if iscoroutine awt then py_await w v else ret v).
    repeat split; auto.
    intros [[v c] awt]. destruct (iscoroutine awt).
    + apply emits_py_await. intros; apply not_invoke_await.
    + apply emits_ret.
  - exists (fun '(v, _, _) => ret v). repeat split; auto.
    intros [[v c] awt]. apply emits_ret.
Qed.

(** A value that stands for a value of the call is that value. *)
Lemma related_passes (z : argval (Related.t passes)) (x : argval value) :
  map_argval (@Related.before _ _ passes) z = map_argval Arg x ->
  map_argval (@Related.after _ _ passes) z = x.
Proof.
  assert (Hone : forall (t : Related.t passes) u,
            Related.before t = Arg u -> Related.after t = u).
  { intros [[a v] H] u E. unfold Related.before, Related.after in *. simpl in *.
    subst a. exact H. }
  destruct z as [t|ts|kts], x as [u|us|kus]; simpl; try discriminate.
  - intros [= E]. f_equal. auto.
  - intros [= E]. f_equal. revert us E.
    induction ts as [|t ts IH]; intros [|u us] E; simpl in *; try discriminate;
      auto.
    injection E as E1 E2. f_equal; auto.
  - intros [= E]. f_equal. revert kus E.
    induction kts as [|[k t] kts IH]; intros [|[k' u] kus] E; simpl in *;
      try discriminate; auto.
    injection E as E0 E1 E2. subst. f_equal; auto. f_equal. auto.
Qed.

(** A value the call gives for a parameter [p] ([None] included) is what
    the function receives for [p] if it is invoked, whatever the table
    holds for [p]: a call of the wrapper either raises without having
    invoked the function, or invokes it once, as its last step, on
    arguments in which [p] has the value of the call. *)
Lemma call_time_value_if_invoked
    (w : world) (fn : pyfunc) (injector_args : list value)
    (injector_kwargs : Dict.t value) (wr : wrapped)
    (args_ : list value) (kwargs_ : Dict.t value) (ba : arguments value)
    (p : Param) (x : argval value) (s s' : state) (r : result value) :
  wf_sig (signature fn) = true ->
  wf_kwargs kwargs_ = true ->
  injects w injector_args injector_kwargs fn = Ok wr ->
  bind_partial (signature fn) args_ kwargs_ = Ok ba ->
  In p (signature fn) ->
  Dict.get ba (name p) = Some x ->
  wr args_ kwargs_ s = (r, s') ->
  exists evs, log s' = log s ++ evs /\
    ((exists e, r = Raise e /\ Forall not_invoke evs) \/
     (exists pre env,
        evs = pre ++ [EvInvoke env r] /\ Forall not_invoke pre /\
        r = body fn (log s ++ pre) env /\
        Dict.get env (name p) = Some x)).
Proof.
  intros Hwf Hkw Hinj Hba Ip Hx Hrun.
  destruct (injects_shape _ _ _ _ Hinj) as (bc & finish & Hbc & -> & Hf & He).
  pose proof (bind_injectors_ok _ _ _ Hwf Hbc) as Hokbc.
  destruct (@inject_body_run w finish _ fn bc args_ kwargs_ ba s r s'
              Hwf Hkw Hokbc Hf He (@for_kwargs_walks w finish Hf He) Hba Hrun)
    as (evs & L & [Hr|(pre & Z & E & F & Hr & HZ & Hc)]).
  - exists evs. auto.
  - exists evs. split; auto. right. do 2 eexists. repeat split; eauto.
    assert (Hnd : NoDup (map name (signature fn))).
    { unfold wf_sig in Hwf. apply andb_true_iff in Hwf as [Hwf _].
      now apply nodupb_NoDup. }
    rewrite get_apply_defaults by auto.
    rewrite get_map_arguments.
    assert (Hg : Dict.get (restrict (signature fn)
                             (Dict.update bc (map_arguments Arg ba))) (name p)
                 = Some (map_argval Arg x)).
    { rewrite get_restrict by auto. rewrite get_update.
      - now rewrite get_map_arguments, Hx.
      - unfold map_arguments. rewrite keys_map_values.
        apply wf_kwargs_NoDup in Hkw.
        now destruct (@bind_ok _ true _ _ _ _ Hwf Hkw Hba) as (_ & ? & _). }
    rewrite HZ, get_map_arguments in Hg.
    destruct (Dict.get Z (name p)) as [z|]; [|discriminate].
    simpl in *. injection Hg as Hg. now rewrite (related_passes _ _ Hg).
Qed.

End InjectClaims.

(* ===================================================================== *)
(** ** composes: what is composed and what is not *)
(* ===================================================================== *)

Module ComposeFacts.
Import Inspect Wf DictFacts BinderFacts Rebind BindSpec BindMore Natural Run
  InjectFacts.
Local Open Scope py_scope.

Section V.
Variable V : Type.
Implicit Types (a A : arguments V) (sig : list Param).

(** Where an entry of a binding comes from. *)
Lemma bind_source partial sig (arg_vals : list V) (kwargs : Dict.t V) A p x :
  wf_sig sig = true -> NoDup (Dict.keys kwargs) ->
  _bind sig arg_vals kwargs partial = Ok A ->
  In p sig -> Dict.get A (name p) = Some x ->
  (exists pre post, sig = pre ++ p :: post /\
     List.length pre < List.length arg_vals /\
     kind p <> KEYWORD_ONLY /\ kind p <> VAR_KEYWORD) \/
  (In (name p) (Dict.keys kwargs) /\
   (kind p = POSITIONAL_OR_KEYWORD \/ kind p = KEYWORD_ONLY)) \/
  (kind p = VAR_KEYWORD /\
   exists k, In k (Dict.keys kwargs) /\
     forall q, In q sig -> name q = k ->
       kind q <> POSITIONAL_OR_KEYWORD /\ kind q <> KEYWORD_ONLY).
Proof.
  intros Hwf Hkw H Ip Hg.
  destruct (@bind_entries _ _ _ _ _ _ Hwf Hkw H)
    as (bs1 & bs2 & tl & rem & HA & HnA & Hp & Hb1 & _ & Hle & Hi & Hb2 & Hr &
        kw' & Hnk & Hik & Hq & _ & Htl).
  unfold wf_sig in Hwf.
  apply andb_true_iff in Hwf as [Hnd Hord]. apply nodupb_NoDup in Hnd.
  rewrite Forall_forall in Hb1, Hb2.
  assert (Hsig : exists mid, sig = map fst bs1 ++ mid ++ rem /\
            forall q, In q mid -> kind q = VAR_POSITIONAL).
  { destruct Hp as [->|(vp & Hv & ->)].
    - exists []. split; auto. intros q [].
    - exists [vp]. split; auto. intros q [<-|[]]. auto. }
  destruct Hsig as (mid & Hsig & Hmid).
  assert (Hrem : incl rem sig).
  { intros q Iq. rewrite Hsig. apply in_or_app. right.
    apply in_or_app. now right. }
  assert (HinB : forall b, In b (bs1 ++ bs2 ++ tl) -> In (fst b) sig).
  { intros b Ib. apply in_app_or in Ib as [Ib|Ib];
      [|apply in_app_or in Ib as [Ib|Ib]].
    - rewrite Hsig. apply in_or_app. left. now apply in_map.
    - apply Hrem, Hi. now apply in_map.
    - destruct Htl as [[_ ->]|(vk & I1 & I2 & I3 & ->)]; [contradiction|].
      destruct Ib as [<-|[]]. now apply Hrem. }
  apply get_Some_In in Hg. rewrite HA in Hg.
  apply in_map_iff in Hg as ([q y] & E & Ib). unfold ent in E. simpl in E.
  injection E as E ->.
  assert (q = p) by (apply (@name_inj sig q p Hnd); auto; apply (HinB _ Ib)).
  subst q.
  apply in_app_or in Ib as [Ib|Ib]; [|apply in_app_or in Ib as [Ib|Ib]].
  - left. destruct (Hb1 _ Ib) as (_ & H1 & H2 & _). simpl in *.
    apply in_split in Ib as (l1 & l2 & ->).
    exists (map fst l1), (map fst l2 ++ mid ++ rem). repeat split; auto.
    + rewrite Hsig, map_app. simpl. now rewrite <- app_assoc.
    + rewrite length_map. rewrite length_app in Hle. simpl in Hle. lia.
  - right. left. destruct (Hb2 _ Ib) as ((v & _ & Iv) & Hk). simpl in *.
    split; auto. unfold Dict.keys. apply in_map_iff. now exists (name p, v).
  - right. right.
    destruct Htl as [[_ ->]|(vk & I1 & I2 & I3 & ->)]; [contradiction|].
    destruct Ib as [[= <- <-]|[]]. split; auto.
    destruct kw' as [|[k v] kw']; [congruence|].
    exists k. split.
    + apply (incl_keys Hik). now left.
    + intros q Iq En. rewrite Hsig in Iq.
      apply in_app_or in Iq as [Iq|Iq]; [|apply in_app_or in Iq as [Iq|Iq]].
      * apply in_map_iff in Iq as (b & <- & Ib).
        destruct (Hb1 _ Ib) as (_ & H1 & H2 & H3). split; auto.
        intros Hk. apply (H3 Hk). rewrite En.
        apply (incl_keys Hik). now left.
      * apply Hmid in Iq. rewrite Iq. split; discriminate.
      * split; intros Hk; apply (Hq q Iq); auto; rewrite En; now left.
Qed.

(** A parameter whose position [BoundArguments.args] covers is bound. *)
Lemma args_length_present a : forall sig lo pre p post,
  ordered_from lo sig = true -> sig = pre ++ p :: post ->
  List.length pre < List.length (args sig a) ->
  kind p <> KEYWORD_ONLY -> kind p <> VAR_KEYWORD ->
  Dict.get a (name p) <> None.
Proof.
  induction sig as [|q rest IH]; intros lo pre p post Hord E Hl Hk1 Hk2.
  - destruct pre; discriminate.
  - pose proof (@ordered_tail _ _ _ Hord) as Hord'.
    assert (Hhigh : kind q = VAR_POSITIONAL -> pre <> [] -> False).
    { intros Hq Hpre. destruct pre as [|q' pre]; [congruence|].
      injection E as _ E. rewrite Hq in Hord'. simpl in Hord'.
      assert (Ip : In p rest) by (rewrite E; apply in_or_app; right; now left).
      pose proof (@ordered_from_rank _ _ Hord' p Ip) as Hr.
      destruct (kind p); simpl in Hr; try lia; congruence. }
    assert (Hnext : forall pre', pre = q :: pre' ->
              List.length pre' < List.length (args rest a) ->
              Dict.get a (name p) <> None).
    { intros pre' -> Hl'. injection E as E. eapply IH; eauto. }
    simpl in Hl.
    destruct (kind q) eqn:Hq; simpl in Hl; try lia;
      (destruct (Dict.get a (name q)) as [y|] eqn:Hg; simpl in Hl; [|lia]).
    all: destruct pre as [|q' pre];
      [ injection E as <- _; congruence | ].
    all: try (exfalso; apply Hhigh; auto; discriminate).
    all: injection E as <- E; apply (Hnext pre eq_refl).
    all: destruct y; simpl in Hl; lia.
Qed.

(** A key of [BoundArguments.kwargs] names a bound parameter, or is a
    key of the [**kwargs] dict. *)
Lemma kwargs_key_source sig a k :
  wf_sig sig = true -> ok sig a -> In k (Dict.keys (kwargs sig a)) ->
  (exists q, In q sig /\ name q = k /\
             (kind q = POSITIONAL_OR_KEYWORD \/ kind q = KEYWORD_ONLY) /\
             Dict.get a (name q) <> None) \/
  (exists vk kvs, In vk sig /\ kind vk = VAR_KEYWORD /\
     Dict.get a (name vk) = Some (StarStar kvs) /\ In k (Dict.keys kvs)).
Proof.
  intros Hwf Hok I. unfold wf_sig in Hwf.
  apply andb_true_iff in Hwf as [Hnd Hord]. apply nodupb_NoDup in Hnd.
  rewrite (@kwargs_closed _ sig a 0 Hord Hnd Hok) in I.
  apply keys_kw_entries in I as (q & Iq & I).
  pose proof (@ok_split_absent _ _ a _ Hord Hok q Iq) as Habs.
  apply (@pos_split_incl _ sig a) in Iq.
  apply keys_kw_entry in I as [(H1 & H2 & H3)|(H1 & kvs & H2 & H3)].
  - left. exists q. repeat split; auto.
    destruct (kind q); auto; try congruence;
      exfalso; apply H3; apply Habs; auto.
  - right. exists q, kvs. auto.
Qed.

Lemma vk_unique : forall sig lo p q,
  ordered_from lo sig = true -> In p sig -> In q sig ->
  kind p = VAR_KEYWORD -> kind q = VAR_KEYWORD -> p = q.
Proof.
  induction sig as [|r rest IH]; intros lo p q Hord Ip Iq Hp Hq;
    [contradiction|].
  pose proof (@ordered_tail _ _ _ Hord) as Hord'.
  assert (Hlast : forall x, x = r -> kind x = VAR_KEYWORD -> rest = []).
  { intros x -> Hx. eapply ordered_after_vk; eauto. }
  destruct Ip as [Ep|Ip], Iq as [Eq|Iq]; try congruence.
  - rewrite (Hlast p) in Iq by auto. contradiction.
  - rewrite (Hlast q) in Ip by auto. contradiction.
  - eapply IH; eauto.
Qed.

(** Binding again at most the positional values and exactly the keys of
    a binding binds no parameter the binding leaves out. *)
Lemma rebind_absent partial sig a (vs : list V) (kvs : Dict.t V) A p :
  wf_sig sig = true -> ok sig a ->
  List.length vs <= List.length (args sig a) ->
  Dict.keys kvs = Dict.keys (kwargs sig a) ->
  _bind sig vs kvs partial = Ok A ->
  In p sig -> Dict.get a (name p) = None -> Dict.get A (name p) = None.
Proof.
  intros Hwf Hok Hl Hk H Ip Hg.
  destruct (Dict.get A (name p)) as [y|] eqn:HA; auto. exfalso.
  assert (Hnk : NoDup (Dict.keys kvs)) by (rewrite Hk; now apply kwargs_nodup).
  pose proof Hwf as Hwf'. unfold wf_sig in Hwf'.
  apply andb_true_iff in Hwf' as [Hnd Hord]. apply nodupb_NoDup in Hnd.
  destruct (@bind_source partial sig vs kvs A p y Hwf Hnk H Ip HA)
    as [(pre & post & E & Hlt & K1 & K2)|[(Ik & Hkind)|(Hkind & k & Ik & Hq)]].
  - apply (@args_length_present a sig 0 pre p post); auto. lia.
  - rewrite Hk in Ik.
    destruct (@kwargs_key_source sig a _ Hwf Hok Ik)
      as [(q & Iq & En & _ & Hpres)|(vk & d & Ivk & Kvk & Gvk & Id)].
    + assert (q = p) by (apply (@name_inj sig q p Hnd); auto). now subst.
    + destruct (@ok_ss _ _ _ Hok vk d Ivk Kvk Gvk) as (_ & _ & X).
      destruct (X p Ip Id) as [?|[?|[? ?]]]; destruct Hkind; congruence.
  - rewrite Hk in Ik.
    destruct (@kwargs_key_source sig a _ Hwf Hok Ik)
      as [(q & Iq & En & Kq & _)|(vk & d & Ivk & Kvk & Gvk & Id)].
    + destruct (Hq q Iq En) as [N1 N2]. destruct Kq; contradiction.
    + assert (vk = p) by (eapply vk_unique; eauto). subst. congruence.
Qed.
End V.

Section W.
Variable w : world.

Lemma emits_call P c a :
  (forall r, P (EvCall c [a] r)) -> emits P (_call w c a).
Proof.
  intros HP. unfold _call. destruct (is_ c a || is_ c VNone).
  - apply emits_ret.
  - apply emits_bind; [now apply emits_py_call|]. intros x. apply emits_ret.
Qed.

(** One call of a wrapper of [composes] or [composes_ctx], up to the exit
    stack: the composers are applied to values of the call only; the
    function is invoked at most once, last, and a parameter the call
    gave no value receives what its declaration alone gives it. *)
Theorem compose_body_run (P : event -> Prop) finish fn bc args_ kwargs_ ba
    s r s' :
  let sig := signature fn in
  wf_sig sig = true -> wf_kwargs kwargs_ = true ->
  (forall x, emits P (finish x)) ->
  (forall c a r0, In a (args sig ba ++ map snd (kwargs sig ba)) ->
     P (EvCall c [a] r0)) ->
  bind sig args_ kwargs_ = Ok ba ->
  compose_body w finish fn bc args_ kwargs_ s = (r, s') ->
  exists evs, log s' = log s ++ evs /\
    ((exists e, r = Raise e /\ Forall P evs) \/
     (exists pre env,
        evs = pre ++ [EvInvoke env r] /\ Forall P pre /\
        r = body fn (log s ++ pre) env /\
        forall p, In p sig -> Dict.get ba (name p) = None ->
          Dict.get env (name p) = Dict.get (apply_defaults sig []) (name p))).
Proof.
  intros sig Hwf Hkw He HP Hba H.
  apply wf_kwargs_NoDup in Hkw.
  destruct (@bind_ok _ false sig args_ kwargs_ ba Hwf Hkw Hba) as (Hoa & Hna & _).
  unfold compose_body, _compose in H. fold sig in H.
  rewrite Hba in H. unfold try, lift in H.
  unfold bindM at 1 2 in H. simpl in H.
  set (bb := Dict.update ba bc) in *.
  set (b_args := map (fun ca : value * value => _call w (fst ca) (snd ca))
                     (combine (args sig bb) (args sig ba))) in *.
  set (b_kwargs := map (fun ka : string * value =>
                     (fst ka, _call w (get_or_None (kwargs sig bb) (fst ka))
                                      (snd ka)))
                     (kwargs sig ba)) in *.
  assert (Hem1 : emits P (for_args b_args finish)).
  { unfold for_args. apply emits_sequence. unfold b_args. rewrite map_map.
    apply Forall_forall. intros m Im.
    apply in_map_iff in Im as ([c a] & <- & Ica). simpl.
    apply emits_bind; auto. apply emits_call. intros r0. apply HP.
    apply in_or_app. left. eapply in_combine_r; eauto. }
  assert (Hem2 : emits P (for_kwargs b_kwargs finish)).
  { unfold for_kwargs. apply emits_bind; [|intros; apply emits_ret].
    apply emits_sequence. unfold b_kwargs. rewrite map_map.
    apply Forall_forall. intros m Im.
    apply in_map_iff in Im as ([k a] & <- & Ika). simpl.
    apply emits_bind.
    - apply emits_call. intros r0. apply HP.
      apply in_or_app. right. apply in_map_iff. now exists (k, a).
    - intros x. apply emits_bind; auto. intros v. apply emits_ret. }
  apply bindM_inv in H as [(e & H & ->)|(vs & s1 & H1 & H)].
  { destruct (Hem1 _ _ _ H) as (evs & L & F). exists evs. split; eauto. }
  destruct (Hem1 _ _ _ H1) as (ev1 & L1 & F1).
  assert (Hlen : List.length vs <= List.length (args sig ba)).
  { unfold for_args in H1. apply sequence_length in H1.
    rewrite H1, length_map. unfold b_args.
    rewrite length_map, length_combine. lia. }
  apply bindM_inv in H as [(e & H & ->)|(kvs & s2 & H2 & H)].
  { destruct (Hem2 _ _ _ H) as (ev2 & L2 & F2).
    exists (ev1 ++ ev2). rewrite L2, L1, app_assoc. split; auto.
    left. eexists. split; eauto. apply Forall_app. auto. }
  destruct (Hem2 _ _ _ H2) as (ev2 & L2 & F2).
  assert (Hkeys : Dict.keys kvs = Dict.keys (kwargs sig ba)).
  { unfold for_kwargs in H2.
    apply bindM_inv in H2 as [(e & _ & [=])|(items & s3 & H3 & H4)].
    inversion H4; subst. clear H4.
    assert (Hk : map fst items = Dict.keys (kwargs sig ba)).
    { unfold b_kwargs in H3. rewrite map_map in H3.
      apply (sequence_Forall2
               (fun (ka : string * value) (kw : string * value) =>
                  fst kw = fst ka)) in H3.
      - clear -H3. induction H3 as [|x y l l' E _ IH]; simpl; congruence.
      - intros ka s0 [k v] s0' Hs. simpl in Hs.
        apply bindM_inv in Hs as [(e & _ & [=])|(x & s4 & Hx & Hs)].
        apply bindM_inv in Hs as [(e & _ & [=])|(v' & s5 & Hv & Hs)].
        now inversion Hs. }
    rewrite dict_of_fresh.
    - simpl. exact Hk.
    - simpl. rewrite Hk. now apply kwargs_nodup. }
  assert (L : log s2 = log s ++ (ev1 ++ ev2)) by (now rewrite L2, L1, app_assoc).
  assert (F : Forall P (ev1 ++ ev2)) by (apply Forall_app; auto).
  apply bindM_inv in H as [(e & H & ->)|(A' & s3 & H3 & H)].
  { inversion H; subst. exists (ev1 ++ ev2). split; auto. left. eauto. }
  unfold bind in H3. inversion H3 as [[HA Hs3]]. subst s3.
  destruct (_bind sig vs kvs false) as [A0|] eqn:Hb; [|discriminate].
  injection HA as ->.
  assert (Hnk : NoDup (Dict.keys kvs)) by (rewrite Hkeys; now apply kwargs_nodup).
  destruct (@bind_ok _ false sig vs kvs A' Hwf Hnk Hb) as (HokA & _ & _).
  apply invoke_run in H; auto.
  destruct H as [(Hc & Hr & Hl & _)|(Hc & (msg & ->) & ->)].
  - eexists. split; [rewrite Hl, L, <- app_assoc; reflexivity|].
    right. do 2 eexists. rewrite <- L. repeat split; eauto.
    intros p Ip Hg.
    assert (Hnd : NoDup (map name sig)).
    { unfold wf_sig in Hwf. apply andb_true_iff in Hwf as [Hwf _].
      now apply nodupb_NoDup. }
    rewrite !get_apply_defaults by auto.
    now rewrite (@rebind_absent _ false sig ba vs kvs A' p Hwf Hoa Hlen Hkeys Hb Ip Hg).
  - exists (ev1 ++ ev2). split; auto. left. eauto.
Qed.
End W.

End ComposeFacts.

(* ===================================================================== *)
(** ** composes: what the decorated function receives *)
(* ===================================================================== *)

Module ComposeClaims.
Import Inspect Wf DictFacts BinderFacts Rebind BindSpec BindMore Natural Run
  InjectFacts ComposeFacts Examples.
Local Open Scope py_scope.

(** The two [_fn] of [composes] are instances of the common shape. *)
Lemma composes_shape w composer_args composer_kwargs fn wr vals :
  composes w composer_args composer_kwargs fn = Ok wr ->
  exists bc finish,
    wr = compose_body w finish fn bc /\
    (forall x, emits (composed_on vals) (finish x)).
Proof.
  unfold composes. intros H.
  destruct (bind_partial (signature fn) composer_args composer_kwargs)
    as [bc|] eqn:Hbc; [|discriminate].
  exists bc. destruct (iscoroutinefunction fn); simpl in H; injection H as <-.
  - exists (fun '(v, _, awt) => if iscoroutine awt then py_await w v else ret v).
    split; auto.
    intros [[v c] awt]. destruct (iscoroutine awt).
    + apply emits_py_await. intros; exact I.
    + apply emits_ret.
  - exists (fun '(v, _, _) => ret v). split; auto.
    intros [[v c] awt]. apply emits_ret.
Qed.

(** C2.  For every function decorated with [composes], a composer is only
    ever applied to a value the caller supplied, and a parameter the call
    gives no value (so that its declared default applies) reaches the
    function as its declaration alone gives it.  With
    [composes(lambda x: x+1, y=lambda y: y+2)] on [foo(x, y=2)]:
    [foo(0, 1) == (1, 3)] and [foo(1) == (2, 2)]. *)
Theorem composes_only_supplied_values
    (w : world) (fn : pyfunc) (composer_args : list value)
    (composer_kwargs : Dict.t value) (wr : wrapped)
    (args_ : list value) (kwargs_ : Dict.t value) (ba : arguments value)
    (s s' : state) (r : result value) :
  let sig := signature fn in
  let supplied := args sig ba ++ map snd (kwargs sig ba) in
  wf_sig sig = true ->
  wf_kwargs kwargs_ = true ->
  composes w composer_args composer_kwargs fn = Ok wr ->
  bind sig args_ kwargs_ = Ok ba ->
  wr args_ kwargs_ s = (r, s') ->
  (exists evs, log s' = log s ++ evs /\
     ((exists e, r = Raise e /\ Forall (composed_on supplied) evs) \/
      (exists pre env,
         evs = pre ++ [EvInvoke env r] /\ Forall (composed_on supplied) pre /\
         r = body fn (log s ++ pre) env /\
         forall p, In p sig -> Dict.get ba (name p) = None ->
           Dict.get env (name p) = Dict.get (apply_defaults sig []) (name p))))
  /\ outcome composed_foo2 [int 0; int 1] [] = Some (Ok (pair_of (int 1) (int 3)))
  /\ outcome composed_foo2 [int 1] [] = Some (Ok (pair_of (int 2) (int 2))).
Proof.
  intros sig supplied Hwf Hkw Hc Hba Hrun.
  split; [|split; reflexivity].
  destruct (composes_shape _ _ _ _ supplied Hc) as (bc & finish & -> & He).
  eapply (@compose_body_run w (composed_on supplied)); eauto.
Qed.

Lemma composes_only_supplied_values_witness :
  let wr := composes_fn ex_world foo2
              [("x", One lambda_x_plus_1); ("y", One lambda_y_plus_2)] in
  let ba := [("x", One (int 1))] in
  let sig := signature foo2 in
  let supplied := args sig ba ++ map snd (kwargs sig ba) in
  let r := Ok (pair_of (int 2) (int 2)) in
  let s' := mkState [EvCall lambda_x_plus_1 [int 1] (Ok (int 2));
                     EvInvoke [("x", One (int 2)); ("y", One (int 2))] r] [] in
  wf_sig sig = true /\
  wf_kwargs (@nil (string * value)) = true /\
  composed_foo2 = Ok wr /\
  bind sig [int 1] [] = Ok ba /\
  wr [int 1] [] start = (r, s') /\
  (exists evs, log s' = log start ++ evs /\
     ((exists e, r = Raise e /\ Forall (composed_on supplied) evs) \/
      (exists pre env,
         evs = pre ++ [EvInvoke env r] /\ Forall (composed_on supplied) pre /\
         r = body foo2 (log start ++ pre) env /\
         forall p, In p sig -> Dict.get ba (name p) = None ->
           Dict.get env (name p) = Dict.get (apply_defaults sig []) (name p)))).
Proof.
  intros wr ba sig supplied r s'.
  assert (Hwr : composed_foo2 = Ok wr) by reflexivity.
  assert (Hrun : wr [int 1] [] start = (r, s')) by reflexivity.
  repeat (split; [first [reflexivity | exact Hwr | exact Hrun]|]).
  exact (proj1 (@composes_only_supplied_values ex_world foo2
                  [lambda_x_plus_1] [("y", lambda_y_plus_2)] wr
                  [int 1] [] ba start s' r
                  eq_refl eq_refl Hwr eq_refl Hrun)).
Defined.

End ComposeClaims.

(* ===================================================================== *)
(** ** The documented examples, and where the code departs from them *)
(* ===================================================================== *)

Module Evaluated.
Import Inspect Examples Run.
Local Open Scope py_scope.

(** C3.  With [injects(arg1=lambda: 7, arg2=6, arg3=5)] on
    [foo(arg1, arg2, arg3='ignored')]: [foo()] returns [(7, 6, 5)], having
    called the injector of [arg1] exactly once, and the table beats the
    declared default of [arg3]; [foo(9)] returns [(9, 6, 5)];
    [foo(arg2=88)] returns [(7, 88, 5)]. *)
Theorem injects_docstring_example :
  outcome injected_foo3 [] [] = Some (Ok (triple_of (int 7) (int 6) (int 5)))
  /\ trace_of injected_foo3 [] [] =
       [EvCall lambda_7 [] (Ok (int 7));
        EvInvoke [("arg1", One (int 7)); ("arg2", One (int 6));
                  ("arg3", One (int 5))]
                 (Ok (triple_of (int 7) (int 6) (int 5)))]
  /\ outcome injected_foo3 [int 9] [] =
       Some (Ok (triple_of (int 9) (int 6) (int 5)))
  /\ outcome injected_foo3 [] [("arg2", int 88)] =
       Some (Ok (triple_of (int 7) (int 88) (int 5))).
Proof. repeat split; reflexivity. Qed.

(** C4, on the code.  [injects(arg=async_answer)] on an [async def foo(arg)]:
    the injector returns a coroutine object, which the wrapper hands to
    [foo] as it is, without awaiting it ([inspect.iscoroutine] is asked
    about the injector, not about what it returned). *)
Theorem async_injects_passes_coroutine_unresolved :
  run (injects ex_world [] [("arg", async_answer)] afoo) [] [] =
  Some (Ok pending_answer,
        mkState [EvCall async_answer [] (Ok pending_answer);
                 EvInvoke [("arg", One pending_answer)] (Ok pending_answer)]
                []).
Proof. reflexivity. Qed.

(** The [await] of the asynchronous [_fn] of [injects] is never reached:
    on every item it returns the value as it is. *)
Lemma async_inject_item_never_awaits w a s x s' :
  _call_bound_inject w a s = (Ok x, s') ->
  (let '(v, _, awt) := x in
   if iscoroutine awt then py_await w v else ret v) s' = (Ok (fst (fst x)), s').
Proof.
  destruct a as [v|val]; simpl.
  - intros H. inversion H; subst. reflexivity.
  - destruct (callable val) eqn:Hc; simpl.
    + intros H. apply bindM_inv in H as [(e & _ & [=])|(r & s1 & _ & H)].
      inversion H; subst. now rewrite (callable_not_coroutine _ Hc).
    + intros H. inversion H; subst. reflexivity.
Qed.

(** The same for the asynchronous [_fn] of [composes]. *)
Lemma async_compose_item_never_awaits w c a s x s' :
  _call w c a s = (Ok x, s') ->
  (let '(v, _, awt) := x in
   if iscoroutine awt then py_await w v else ret v) s' = (Ok (fst (fst x)), s').
Proof.
  unfold _call. destruct (is_ c a || is_ c VNone).
  - intros H. inversion H; subst. reflexivity.
  - intros H. apply bindM_inv in H as [(e & _ & [=])|(r & s1 & Hc & H)].
    inversion H; subst. unfold py_call in Hc.
    destruct (callable c) eqn:E; [|discriminate].
    now rewrite (callable_not_coroutine _ E).
Qed.

(** C6, on the code.  The synchronous [_fn] of [injects_ctx] raises
    [ValueError] as soon as the merged binding has a keyword part: with
    [injects.ctx(arg1=ctx)] on a [foo] whose [arg1] is keyword-only,
    [foo()] calls [ctx] and then fails, without entering the context it
    made and without calling [foo]; where [arg1] can be passed by
    position, and in the asynchronous [_fn], the context is entered, [foo]
    receives [7] and the context is released. *)
Theorem sync_injects_ctx_keyword_raises :
  run (injects_ctx ex_world [] [("arg1", ctx)] foo_kwonly) [] [] =
    Some (Raise (ValueError "not enough values to unpack (expected 3, got 2)"),
          mkState [EvCall ctx [] (Ok ctx_manager)] [])
  /\ run (injects_ctx ex_world [] [("arg1", ctx)] foo1) [] [] =
    Some (Ok (int 7),
          mkState [EvCall ctx [] (Ok ctx_manager);
                   EvEnter true ctx_manager (Ok (int 7));
                   EvInvoke [("arg1", One (int 7))] (Ok (int 7));
                   EvExit true ctx_manager None (Ok false)] [])
  /\ run (injects_ctx ex_world [] [("arg1", ctx)]
            (mkFunc (signature foo_kwonly) true (body foo_kwonly))) [] [] =
    Some (Ok (int 7),
          mkState [EvCall ctx [] (Ok ctx_manager);
                   EvEnter true ctx_manager (Ok (int 7));
                   EvInvoke [("arg1", One (int 7))] (Ok (int 7));
                   EvExit true ctx_manager None (Ok false)] []).
Proof. repeat split; reflexivity. Qed.

(** Whatever the keyword part holds, its first item is evaluated and the
    comprehension fails. *)
Lemma injects_ctx_kwargs_raises k item rest s r s' :
  injects_ctx_kwargs ((k, item) :: rest) s = (r, s') ->
  exists e, r = Raise e /\
    (item s = (Raise e, s') \/
     exists x, item s = (Ok x, s') /\
       e = ValueError "not enough values to unpack (expected 3, got 2)").
Proof.
  unfold injects_ctx_kwargs. cbn [map sequence snd]. unfold bindM at 1 2 3.
  destruct (item s) as [[x|e] s1]; cbn; intros H; inversion H; subst.
  - eexists. split; [reflexivity|]. right. eauto.
  - eexists. split; [reflexivity|]. left. reflexivity.
Qed.

(** C9, on the code.  With [composes(lambda x: x+1, y=lambda y: y+2)] on
    [foo(x=0, y=2)], the call [foo(y=5)] passes [5] on as it is: the
    composer of [y] is neither [None] nor the value of the call, and yet
    it is not called; [foo(0, y=5)] does call it. *)
Theorem composes_keyword_lookup_misses :
  run (composes ex_world [lambda_x_plus_1] [("y", lambda_y_plus_2)] foo2d)
      [] [("y", int 5)] =
    Some (Ok (pair_of (int 0) (int 5)),
          mkState [EvInvoke [("x", One (int 0)); ("y", One (int 5))]
                            (Ok (pair_of (int 0) (int 5)))] [])
  /\ outcome
       (composes ex_world [lambda_x_plus_1] [("y", lambda_y_plus_2)] foo2d)
       [int 0] [("y", int 5)] = Some (Ok (pair_of (int 1) (int 7))).
Proof. split; reflexivity. Qed.

(** What [_call] itself does: the value is passed on, marked not composed,
    exactly when the composer it is given is the value or is [None];
    any other composer is called, whether or not it equals the value. *)
Lemma call_passes_iff w c a s :
  (is_ c a || is_ c VNone = true ->
   _call w c a s = (Ok (a, false, VFalse), s)) /\
  (is_ c a || is_ c VNone = false ->
   _call w c a s =
   (x <- py_call w c [a] ;; ret (x, true, c)) s).
Proof. unfold _call. split; intros ->; reflexivity. Qed.

End Evaluated.

(* ===================================================================== *)
(** ** Steps, exit stack and exceptions of a run *)
(* ===================================================================== *)

Module Steps.
Import Inspect Wf DictFacts BinderFacts BindMore Run.
Local Open Scope py_scope.

Lemma entered_app a b : entered (a ++ b) = entered a ++ entered b.
Proof. apply flat_map_app. Qed.

Lemma exited_app a b : exited (a ++ b) = exited a ++ exited b.
Proof. apply flat_map_app. Qed.

Lemma bindM_assoc {A B C} (m : M A) (f : A -> M B) (g : B -> M C) s :
  bindM (bindM m f) g s = bindM m (fun x => bindM (f x) g) s.
Proof. unfold bindM. destruct (m s) as [[a|e] s1]; reflexivity. Qed.

Lemma blamed_app e a b : blamed e b -> blamed e (a ++ b).
Proof.
  intros [H|(pre & ev & -> & H)]; [now left|].
  right. exists (a ++ pre), ev. now rewrite app_assoc.
Qed.

Lemma blamed_TypeError msg evs : blamed (TypeError msg) evs.
Proof. left. eauto. Qed.

Lemma blamed_raised e ev : raised e ev -> blamed e [ev].
Proof. intros H. right. exists [], ev. auto. Qed.

Section Runs.
Variables (P : event -> Prop) (Q : trace -> Prop) (B : exn -> trace -> Prop).
Hypothesis Qnil : Q [].
Hypothesis Qapp : forall a b, Q a -> Q b -> Q (a ++ b).
Hypothesis Q1 : forall ev, P ev -> Q [ev].
Hypothesis Bt : forall msg, B (TypeError msg) [].
Hypothesis Br : forall e ev, raised e ev -> B e [ev].
Hypothesis Bapp : forall e a b, B e b -> B e (a ++ b).

Lemma runs_ext {A} (m m' : M A) :
  (forall s, m s = m' s) -> runs Q B m -> runs Q B m'.
Proof. intros E H s r s' Hr. rewrite <- E in Hr. eauto. Qed.

Lemma runs_ret {A} (a : A) : runs Q B (ret a).
Proof.
  intros s r s' H. inversion H; subst. exists [].
  rewrite app_nil_r. repeat split; auto. discriminate.
Qed.

Lemma runs_lift {A} (x : result A) :
  (forall e, x = Raise e -> B e []) -> runs Q B (lift x).
Proof.
  intros Hx s r s' H. inversion H; subst. exists [].
  rewrite app_nil_r. repeat split; auto.
Qed.

Lemma runs_raise {A} e : B e [] -> runs Q B (raise (A := A) e).
Proof.
  intros He. apply (@runs_lift A (Raise e)). now intros e' [= <-].
Qed.

Lemma runs_try {V} sig (args_ : list V) kwargs_ partial :
  runs Q B (try (_bind sig args_ kwargs_ partial)).
Proof.
  apply runs_lift. intros e He.
  destruct (bind_TypeError _ _ _ _ He) as [msg ->]. apply Bt.
Qed.

Lemma runs_bind {A C} (m : M A) (f : A -> M C) :
  runs Q B m -> (forall a, runs Q B (f a)) -> runs Q B (bindM m f).
Proof.
  intros Hm Hf s r s' H.
  apply bindM_inv in H as [(e & H & ->)|(a & s1 & H1 & H2)].
  - destruct (Hm _ _ _ H) as (e1 & L1 & X1 & Q1' & B1).
    exists e1. repeat split; auto. intros e0 [= <-]. now apply B1.
  - destruct (Hm _ _ _ H1) as (e1 & L1 & X1 & Q1' & _).
    destruct (Hf a _ _ _ H2) as (e2 & L2 & X2 & Q2' & B2).
    exists (e1 ++ e2). rewrite L2, L1, X2, X1, entered_app, rev_app_distr.
    rewrite !app_assoc. repeat split; auto.
Qed.

Lemma runs_sequence {A} (ms : list (M A)) :
  Forall (runs Q B) ms -> runs Q B (sequence ms).
Proof.
  induction 1 as [|m ms Hm _ IH]; simpl.
  - apply runs_ret.
  - apply runs_bind; auto. intros a. apply runs_bind; auto.
    intros rest. apply runs_ret.
Qed.

(** A step that leaves one event and no exit callback. *)
Lemma runs_event {A} (m : M A) :
  (forall s, exists ev r, P ev /\ entered [ev] = [] /\
     (forall e, r = Raise e -> raised e ev) /\
     m s = (r, mkState (log s ++ [ev]) (exits s))) ->
  runs Q B m.
Proof.
  intros Hm s r s' H. destruct (Hm s) as (ev & r0 & HP & He & Hr & E).
  rewrite E in H. inversion H; subst. exists [ev].
  rewrite He. simpl. repeat split; auto.
Qed.

Variable w : world.

Lemma runs_py_call f args_ :
  (forall r, P (EvCall f args_ r)) -> runs Q B (py_call w f args_).
Proof.
  intros HP. unfold py_call. destruct (callable f); [|now apply runs_raise].
  apply runs_event. intros s.
  exists (EvCall f args_ (call_ w (log s) f args_)), (call_ w (log s) f args_).
  repeat split; auto. intros e E. simpl. now rewrite E.
Qed.

Lemma runs_py_await c :
  (forall r, P (EvAwait c r)) -> runs Q B (py_await w c).
Proof.
  intros HP. unfold py_await. destruct (iscoroutine c); [|now apply runs_raise].
  apply runs_event. intros s.
  exists (EvAwait c (await_ w (log s) c)), (await_ w (log s) c).
  repeat split; auto. intros e E. simpl. now rewrite E.
Qed.

Lemma runs_enter_context cm :
  (forall r, P (EvEnter true cm r)) -> runs Q B (enter_context w cm).
Proof.
  intros HP. unfold enter_context.
  destruct (has_enter cm); [|now apply runs_raise].
  intros s r s' H.
  exists [EvEnter true cm (enter_ w (log s) true cm)].
  destruct (enter_ w (log s) true cm) as [v|e] eqn:E;
    inversion H; subst; simpl; repeat split; auto; try discriminate.
  intros e' [= <-]. apply Br. reflexivity.
Qed.

Lemma runs_enter_async_context cm :
  (forall r, P (EvEnter false cm r)) -> runs Q B (enter_async_context w cm).
Proof.
  intros HP. unfold enter_async_context.
  destruct (has_aenter cm); [|now apply runs_raise].
  intros s r s' H.
  exists [EvEnter false cm (enter_ w (log s) false cm)].
  destruct (enter_ w (log s) false cm) as [v|e] eqn:E;
    inversion H; subst; simpl; repeat split; auto; try discriminate.
  intros e' [= <-]. apply Br. reflexivity.
Qed.

Lemma runs_invoke fn args_ kwargs_ :
  (forall env r, P (EvInvoke env r)) -> runs Q B (invoke fn args_ kwargs_).
Proof.
  intros HP. unfold invoke.
  destruct (bind (signature fn) args_ kwargs_) as [a|e] eqn:E.
  - apply runs_event. intros s.
    exists (EvInvoke (apply_defaults (signature fn) a)
              (body fn (log s) (apply_defaults (signature fn) a))),
           (body fn (log s) (apply_defaults (signature fn) a)).
    repeat split; auto. intros e0 E0. simpl. now rewrite E0.
  - apply runs_raise. destruct (bind_TypeError _ _ _ _ E) as [msg ->]. apply Bt.
Qed.

Lemma runs_for_args (items : list (M triple)) (f : triple -> M value) :
  Forall (fun item => runs Q B (x <- item ;; f x)) items ->
  runs Q B (for_args items f).
Proof.
  intros H. unfold for_args. apply runs_sequence.
  apply Forall_map. exact H.
Qed.

Lemma runs_for_kwargs (items : list (string * M triple))
    (f : triple -> M value) :
  Forall (fun ki => runs Q B (x <- snd ki ;; f x)) items ->
  runs Q B (for_kwargs items f).
Proof.
  intros H. unfold for_kwargs. apply runs_bind; [|intros; apply runs_ret].
  apply runs_sequence. apply Forall_map.
  eapply Forall_impl; [|exact H]. intros [k item] Hi. simpl in *.
  apply (@runs_ext _ (v <- (x <- item ;; f x) ;; ret (k, v))).
  - intros s. apply bindM_assoc.
  - apply runs_bind; auto. intros v. apply runs_ret.
Qed.

Lemma runs_call c a :
  (forall r, P (EvCall c [a] r)) -> runs Q B (_call w c a).
Proof.
  intros HP. unfold _call. destruct (is_ c a || is_ c VNone).
  - apply runs_ret.
  - apply runs_bind; [now apply runs_py_call|]. intros x. apply runs_ret.
Qed.

(** The end of every wrapper: the values are bound again and the
    function is invoked. *)
Lemma runs_rebind_invoke fn partial (m1 : M (list value))
    (m2 : M (Dict.t value)) :
  runs Q B m1 -> runs Q B m2 ->
  (forall env r, P (EvInvoke env r)) ->
  runs Q B
    (args_ <- m1 ;; kwargs_ <- m2 ;;
     ba <- try (_bind (signature fn) args_ kwargs_ partial) ;;
     invoke fn (args (signature fn) ba) (kwargs (signature fn) ba)).
Proof.
  intros H1 H2 Hi. apply runs_bind; auto. intros args_.
  apply runs_bind; auto. intros kwargs_.
  apply runs_bind; [apply runs_try|]. intros ba. now apply runs_invoke.
Qed.

(** The body shared by the wrappers of [composes] and [composes_ctx]. *)
Lemma runs_compose_body finish fn bc args_ kwargs_ :
  (forall x, runs Q B (finish x)) ->
  (forall c a r, P (EvCall c [a] r)) ->
  (forall env r, P (EvInvoke env r)) ->
  runs Q B (compose_body w finish fn bc args_ kwargs_).
Proof.
  intros Hf Hc Hi.
  destruct (bind (signature fn) args_ kwargs_) as [ba|e] eqn:E.
  - apply (@runs_ext _
      (args_0 <- for_args (fst (_build_bound_compose w (signature fn) ba bc))
                   finish ;;
       kwargs_0 <- for_kwargs
                     (snd (_build_bound_compose w (signature fn) ba bc))
                     finish ;;
       ba0 <- try (_bind (signature fn) args_0 kwargs_0 false) ;;
       invoke fn (args (signature fn) ba0) (kwargs (signature fn) ba0))).
    + intros s. unfold compose_body, _compose, bindM at 5 6, try, lift.
      rewrite E. reflexivity.
    + apply runs_rebind_invoke; auto.
      * apply runs_for_args. unfold _build_bound_compose. simpl.
        apply Forall_map. apply Forall_forall. intros ca _.
        apply runs_bind; auto. now apply runs_call.
      * apply runs_for_kwargs. unfold _build_bound_compose. simpl.
        apply Forall_map. apply Forall_forall. intros ka _. simpl.
        apply runs_bind; auto. now apply runs_call.
  - apply (@runs_ext _ (raise e)).
    + intros s. unfold compose_body, _compose, bindM, try, lift.
      rewrite E. reflexivity.
    + apply runs_raise. destruct (bind_TypeError _ _ _ _ E) as [msg ->].
      apply Bt.
Qed.

(** The body shared by the wrappers of [injects] and [injects_ctx], for
    items that are [good]. *)
Lemma runs_inject_body (good : slot -> Prop) finish walk fn bc args_ kwargs_ :
  (forall a, good a -> runs Q B (x <- _call_bound_inject w a ;; finish x)) ->
  (forall slots : Dict.t slot, Forall good (map snd slots) ->
     runs Q B (walk (map (fun kv => (fst kv, _call_bound_inject w (snd kv)))
                      slots))) ->
  (forall ba,
     bind_partial (signature fn) (call_args args_) (call_kwargs kwargs_)
       = Ok ba ->
     Forall good (args (signature fn) (Dict.update bc ba)) /\
     Forall good (map snd (kwargs (signature fn) (Dict.update bc ba)))) ->
  (forall env r, P (EvInvoke env r)) ->
  runs Q B (inject_body w finish walk fn bc args_ kwargs_).
Proof.
  intros Hitem Hwalk Hgood Hi.
  destruct (bind_partial (signature fn) (call_args args_) (call_kwargs kwargs_))
    as [ba|e] eqn:E.
  - destruct (Hgood ba eq_refl) as [Ga Gk].
    apply (@runs_ext _
      (args_0 <- for_args
                   (map (_call_bound_inject w)
                      (args (signature fn) (Dict.update bc ba))) finish ;;
       kwargs_0 <- walk
                     (map (fun kv => (fst kv, _call_bound_inject w (snd kv)))
                        (kwargs (signature fn) (Dict.update bc ba))) ;;
       ba0 <- try (_bind (signature fn) args_0 kwargs_0 true) ;;
       invoke fn (args (signature fn) ba0) (kwargs (signature fn) ba0))).
    + intros s. unfold inject_body, bindM at 4, try, lift.
      rewrite E. reflexivity.
    + apply runs_rebind_invoke; auto.
      apply runs_for_args. apply Forall_map.
      eapply Forall_impl; [|exact Ga]. auto.
  - apply (@runs_ext _ (raise e)).
    + intros s. unfold inject_body, bindM, try, lift.
      rewrite E. reflexivity.
    + apply runs_raise. destruct (bind_TypeError _ _ _ _ E) as [msg ->].
      apply Bt.
Qed.

Lemma runs_call_bound_inject a :
  (forall f r, P (EvCall f [] r)) -> runs Q B (_call_bound_inject w a).
Proof.
  intros HP. destruct a as [v|val]; simpl; [apply runs_ret|].
  destruct (callable val); simpl; [|apply runs_ret].
  apply runs_bind; [now apply runs_py_call|]. intros x. apply runs_ret.
Qed.

Lemma runs_walk_for_kwargs (good : slot -> Prop) finish :
  (forall a, good a -> runs Q B (x <- _call_bound_inject w a ;; finish x)) ->
  forall slots : Dict.t slot, Forall good (map snd slots) ->
    runs Q B (for_kwargs
                (map (fun kv => (fst kv, _call_bound_inject w (snd kv))) slots)
                finish).
Proof.
  intros Hitem slots Hg. apply runs_for_kwargs. apply Forall_map.
  rewrite Forall_forall in Hg. apply Forall_forall. intros kv Ikv. simpl.
  apply Hitem. apply Hg. now apply in_map.
Qed.

End Runs.
End Steps.

(* ===================================================================== *)
(** ** injects.ctx and composes.ctx: the exit stack *)
(* ===================================================================== *)

Module ExitStack.
Import Inspect Wf Run Steps.
Local Open Scope py_scope.

(** The loop of [__exit__] calls every callback it is given, in order, and
    does nothing else. *)
Lemma unwind_exits w : forall cbs exc suppressed_exc pending_raise t x t',
  unwind w cbs exc suppressed_exc pending_raise t = (x, t') ->
  exists xs, t' = t ++ xs /\ Forall is_exit xs /\ exited xs = cbs.
Proof.
  induction cbs as [|[is_sync cm] cbs IH]; simpl; intros exc se pr t x t' H.
  - inversion H; subst. exists []. rewrite app_nil_r. auto.
  - assert (Hstep : exists exc' se' pr',
              unwind w cbs exc' se' pr'
                (t ++ [EvExit is_sync cm exc (exit_ w t is_sync cm exc)])
              = (x, t')).
    { destruct (exit_ w t is_sync cm exc) as [[|]|e]; eauto. }
    destruct Hstep as (exc' & se' & pr' & Hu).
    apply IH in Hu as (xs & -> & F & E).
    exists (EvExit is_sync cm exc (exit_ w t is_sync cm exc) :: xs).
    rewrite <- app_assoc. simpl. repeat split; auto.
    + constructor; simpl; auto.
    + now rewrite E.
Qed.

(** [with ExitStack() as stack: body]: after the steps of the body, every
    context manager the body entered is released, last entered first, and
    the stack in scope before is in scope again. *)
Lemma with_exit_stack_run w Q B (body : M value) s r s' :
  runs Q B body ->
  with_exit_stack w body s = (r, s') ->
  exists evs xs,
    log s' = log s ++ evs ++ xs /\ Q evs /\ Forall is_exit xs /\
    exited xs = rev (entered evs) /\ exits s' = exits s.
Proof.
  intros Hb H. unfold with_exit_stack in H.
  destruct (body (mkState (log s) [])) as [r1 s1] eqn:E.
  apply Hb in E as (evs & L & X & HQ & _). simpl in L, X.
  rewrite app_nil_r in X.
  destruct (unwind w (exits s1)
              match r1 with Ok _ => None | Raise e => Some e end
              false false (log s1)) as [[[exc se] pr] t] eqn:U.
  apply unwind_exits in U as (xs & -> & F & Hx).
  exists evs, xs.
  assert (Hs : s' = mkState (log s1 ++ xs) (exits s)).
  { destruct pr, exc, r1, se; inversion H; reflexivity. }
  subst s'. simpl. rewrite L, <- app_assoc, Hx, X. auto.
Qed.

(** The two [_fn] of [injects_ctx] are the common body inside an exit
    stack. *)
Lemma injects_ctx_shape w injector_args injector_kwargs fn wr :
  injects_ctx w injector_args injector_kwargs fn = Ok wr ->
  exists bc finish walk,
    bind_injectors (signature fn) injector_args injector_kwargs = Ok bc /\
    wr = (fun args_ kwargs_ =>
            with_exit_stack w (inject_body w finish walk fn bc args_ kwargs_)) /\
    ((finish = (fun '(v, cld, _) =>
                  if (cld : bool) then enter_context w v else ret v) /\
      walk = injects_ctx_kwargs) \/
     (finish = _enter w /\ walk = (fun items => for_kwargs items (_enter w)))).
Proof.
  unfold injects_ctx. intros H.
  destruct (bind_injectors (signature fn) injector_args injector_kwargs)
    as [bc|] eqn:Hbc; [|discriminate].
  exists bc. destruct (iscoroutinefunction fn); simpl in H; injection H as <-.
  - exists (_enter w), (fun items => for_kwargs items (_enter w)). auto.
  - exists (fun '(v, cld, _) => if (cld : bool) then enter_context w v else ret v),
      injects_ctx_kwargs. auto.
Qed.

(** Those of [composes_ctx] likewise. *)
Lemma composes_ctx_shape w composer_args composer_kwargs fn wr :
  composes_ctx w composer_args composer_kwargs fn = Ok wr ->
  exists bc finish,
    bind_partial (signature fn) composer_args composer_kwargs = Ok bc /\
    wr = (fun args_ kwargs_ =>
            with_exit_stack w (compose_body w finish fn bc args_ kwargs_)) /\
    (finish = (fun '(v, ctx, _) =>
                 if (ctx : bool) then enter_context w v else ret v) \/
     finish = composes_ctx__call w).
Proof.
  unfold composes_ctx. intros H.
  destruct (bind_partial (signature fn) composer_args composer_kwargs)
    as [bc|] eqn:Hbc; [|discriminate].
  exists bc. destruct (iscoroutinefunction fn); simpl in H; injection H as <-.
  - exists (composes_ctx__call w). auto.
  - exists (fun '(v, ctx, _) => if (ctx : bool) then enter_context w v else ret v).
    auto.
Qed.

Section NoExit.
Variable w : world.

Lemma not_exit_app a b :
  Forall not_exit a -> Forall not_exit b -> Forall not_exit (a ++ b).
Proof. intros Ha Hb. apply Forall_app. auto. Qed.

Lemma not_exit_one ev : not_exit ev -> Forall not_exit [ev].
Proof. intros H. constructor; auto. Qed.

Ltac no_exit_side :=
  repeat match goal with |- forall _, _ => intro end;
  first [ exact I
        | apply Forall_nil
        | apply Forall_app; split; assumption
        | apply not_exit_one; assumption
        | (let H := fresh in intros H; exact H)
        | idtac ].

Lemma sync_step_no_exit (x : triple) :
  runs (Forall not_exit) (fun _ _ => True) (let '(v, cld, _) := x in
            if (cld : bool) then enter_context w v else ret v).
Proof.
  destruct x as [[v cld] c]. destruct cld.
  - apply (@runs_enter_context not_exit); no_exit_side.
  - apply runs_ret; no_exit_side.
Qed.

Lemma async_step_no_exit (v : value) (called : bool) :
  runs (Forall not_exit) (fun _ _ => True) (if negb called then ret v
            else if negb (has_aenter v) then enter_context w v
                 else enter_async_context w v).
Proof.
  destruct called; simpl; [|apply runs_ret; no_exit_side].
  destruct (has_aenter v); simpl.
  - apply (@runs_enter_async_context not_exit); no_exit_side.
  - apply (@runs_enter_context not_exit); no_exit_side.
Qed.

Lemma inject_item_no_exit a : runs (Forall not_exit) (fun _ _ => True) (_call_bound_inject w a).
Proof.
  destruct a as [v|val]; simpl; [apply runs_ret; no_exit_side|].
  destruct (callable val); simpl; [|apply runs_ret; no_exit_side].
  apply runs_bind; no_exit_side.
  - apply (@runs_py_call not_exit); no_exit_side.
  - apply runs_ret; no_exit_side.
Qed.

Lemma inject_ctx_body_no_exit finish walk fn bc args_ kwargs_ :
  (finish = (fun '(v, cld, _) =>
               if (cld : bool) then enter_context w v else ret v) /\
   walk = injects_ctx_kwargs) \/
  (finish = _enter w /\ walk = (fun items => for_kwargs items (_enter w))) ->
  runs (Forall not_exit) (fun _ _ => True) (inject_body w finish walk fn bc args_ kwargs_).
Proof.
  intros Hfw.
  assert (Hfin : forall x, runs (Forall not_exit) (fun _ _ => True) (finish x)).
  { destruct Hfw as [[-> _]|[-> _]]; intros [[v cld] c].
    - apply (sync_step_no_exit (v, cld, c)).
    - apply async_step_no_exit. }
  assert (Hitem : forall a, True ->
            runs (Forall not_exit) (fun _ _ => True) (x <- _call_bound_inject w a ;; finish x)).
  { intros a _. apply runs_bind; no_exit_side; auto.
    apply inject_item_no_exit. }
  apply (@runs_inject_body not_exit (Forall not_exit) (fun _ _ => True)) with (good := fun _ => True);
    no_exit_side; auto.
  - destruct Hfw as [[-> ->]|[-> ->]].
    + unfold injects_ctx_kwargs.
      apply runs_bind; no_exit_side; [|intros; apply runs_ret; no_exit_side].
      apply runs_sequence; no_exit_side.
      rewrite map_map. apply Forall_map. apply Forall_forall. intros ki _.
      simpl. apply runs_bind; no_exit_side.
      * apply inject_item_no_exit.
      * apply runs_raise; no_exit_side.
    + apply (@runs_walk_for_kwargs (Forall not_exit) (fun _ _ => True)) with (good := fun _ => True);
        no_exit_side; auto.
  - split; apply Forall_forall; auto.
Qed.

Lemma compose_ctx_body_no_exit finish fn bc args_ kwargs_ :
  finish = (fun '(v, ctx, _) =>
              if (ctx : bool) then enter_context w v else ret v) \/
  finish = composes_ctx__call w ->
  runs (Forall not_exit) (fun _ _ => True) (compose_body w finish fn bc args_ kwargs_).
Proof.
  intros Hf.
  apply (@runs_compose_body not_exit (Forall not_exit) (fun _ _ => True)); no_exit_side.
  destruct Hf as [->| ->]; destruct x as [[v cld] c].
  - apply (sync_step_no_exit (v, cld, c)).
  - apply async_step_no_exit.
Qed.

End NoExit.
End ExitStack.

(* ===================================================================== *)
(** ** injects.ctx and composes.ctx: what is released *)
(* ===================================================================== *)

Module CtxClaims.
Import Inspect Wf Run Steps ExitStack Examples.
Local Open Scope py_scope.

(** C5.  A call of a function decorated with [injects.ctx] or
    [composes.ctx], however it ends (the function returned, it raised, or
    a step before it raised, such as the [__enter__] of a later context
    manager): the steps of the call are steps [evs], none of them a
    release, followed by the releases [xs], which are those of the context
    managers entered in [evs], each once, the last entered first; the exit
    stack in scope before the call is in scope again after it. *)
Theorem ctx_releases_entered_in_reverse
    (w : world) (decoration_args : list value)
    (decoration_kwargs : Dict.t value) (fn : pyfunc) (wr : wrapped)
    (args_ : list value) (kwargs_ : Dict.t value)
    (s s' : state) (r : result value) :
  injects_ctx w decoration_args decoration_kwargs fn = Ok wr \/
  composes_ctx w decoration_args decoration_kwargs fn = Ok wr ->
  wr args_ kwargs_ s = (r, s') ->
  exists evs xs,
    log s' = log s ++ evs ++ xs /\
    Forall not_exit evs /\
    Forall is_exit xs /\
    exited xs = rev (entered evs) /\
    exits s' = exits s.
Proof.
  intros [H|H] Hrun.
  - destruct (injects_ctx_shape _ _ _ _ H) as (bc & finish & walk & _ & -> & Hfw).
    eapply with_exit_stack_run; [|exact Hrun].
    now apply inject_ctx_body_no_exit.
  - destruct (composes_ctx_shape _ _ _ _ H) as (bc & finish & _ & -> & Hf).
    eapply with_exit_stack_run; [|exact Hrun].
    now apply compose_ctx_body_no_exit.
Qed.

(** With [injects.ctx(ctx, ctx_failing)] on [foo(a, b)], the call [foo()]
    enters the context of [a], fails to enter that of [b], releases the
    context of [a] and raises the failure. *)
Example partial_entry_failure :
  run (injects_ctx ex_world [ctx; ctx_failing] [] foo_ab) [] [] =
  Some (Raise (UserError 1),
        mkState [EvCall ctx [] (Ok ctx_manager);
                 EvEnter true ctx_manager (Ok (int 7));
                 EvCall ctx_failing [] (Ok failing_manager);
                 EvEnter true failing_manager (Raise (UserError 1));
                 EvExit true ctx_manager (Some (UserError 1)) (Ok false)]
                []).
Proof. reflexivity. Qed.

Lemma ctx_releases_entered_in_reverse_witness :
  let wr := injects_ctx_fn ex_world foo_ab
              [("a", One (_bindwrap ctx)); ("b", One (_bindwrap ctx_failing))] in
  let s' := mkState [EvCall ctx [] (Ok ctx_manager);
                     EvEnter true ctx_manager (Ok (int 7));
                     EvCall ctx_failing [] (Ok failing_manager);
                     EvEnter true failing_manager (Raise (UserError 1));
                     EvExit true ctx_manager (Some (UserError 1)) (Ok false)]
                    [] in
  (injects_ctx ex_world [ctx; ctx_failing] [] foo_ab = Ok wr \/
   composes_ctx ex_world [ctx; ctx_failing] [] foo_ab = Ok wr) /\
  wr [] [] start = (Raise (UserError 1), s') /\
  exists evs xs,
    log s' = log start ++ evs ++ xs /\
    Forall not_exit evs /\ Forall is_exit xs /\
    exited xs = rev (entered evs) /\ exits s' = exits start.
Proof.
  intros wr s'.
  assert (H1 : injects_ctx ex_world [ctx; ctx_failing] [] foo_ab = Ok wr \/
               composes_ctx ex_world [ctx; ctx_failing] [] foo_ab = Ok wr)
    by (left; reflexivity).
  assert (H2 : wr [] [] start = (Raise (UserError 1), s')) by reflexivity.
  split; [exact H1|]. split; [exact H2|].
  exact (@ctx_releases_entered_in_reverse ex_world [ctx; ctx_failing] []
           foo_ab wr [] [] start s' (Raise (UserError 1)) H1 H2).
Defined.

End CtxClaims.

(* ===================================================================== *)
(** ** Arguments that do not fit the signature *)
(* ===================================================================== *)

Module Mismatch.
Import Inspect Wf DictFacts BinderFacts BindMore Natural Run Steps.
Local Open Scope py_scope.

Section V.
Variable V : Type.
Implicit Types (acc : arguments V) (kw : Dict.t V).







End V.
End Mismatch.

(* ===================================================================== *)
(** ** Where a mismatch surfaces *)
(* ===================================================================== *)

Module MismatchClaims.
Import Inspect Wf DictFacts BinderFacts Rebind BindSpec BindMore Natural Run
  RebindRelated InjectFacts InjectClaims ComposeClaims Steps ExitStack Mismatch
  Examples.
Local Open Scope py_scope.

Section W.
Variable w : world.



Lemma compose_body_bind_failure finish fn bc args_ kwargs_ e s :
  bind (signature fn) args_ kwargs_ = Raise e ->
  compose_body w finish fn bc args_ kwargs_ s = (Raise e, s).
Proof.
  intros H. unfold compose_body, _compose, bindM, try, lift.
  now rewrite H.
Qed.



(** The two [_fn] of [injects], by cases. *)
Lemma injects_cases injector_args injector_kwargs fn wr :
  injects w injector_args injector_kwargs fn = Ok wr ->
  exists bc finish,
    bind_injectors (signature fn) injector_args injector_kwargs = Ok bc /\
    wr = inject_body w finish (fun items => for_kwargs items finish) fn bc /\
    (finish = (fun '(v, _, _) => ret v) \/
     finish = (fun '(v, _, awt) =>
                 if iscoroutine awt then py_await w v else ret v)).
Proof.
  unfold injects. intros H.
  destruct (bind_injectors (signature fn) injector_args injector_kwargs)
    as [bc|] eqn:Hbc; [|discriminate].
  exists bc. destruct (iscoroutinefunction fn); simpl in H; injection H as <-.
  - exists (fun '(v, _, awt) => if iscoroutine awt then py_await w v else ret v).
    auto.
  - exists (fun '(v, _, _) => ret v). auto.
Qed.

Ltac blame_side :=
  repeat match goal with |- forall _, _ => intro end;
  first [ exact I
        | apply blamed_TypeError
        | apply blamed_raised; assumption
        | apply blamed_app; assumption
        | idtac ].

(** An exception that leaves a wrapper of [injects] is a [TypeError] or
    was raised by the last step. *)
Lemma injects_blamed finish fn bc args_ kwargs_ :
  finish = (fun '(v, _, _) => ret v) \/
  finish = (fun '(v, _, awt) =>
              if iscoroutine awt then py_await w v else ret v) ->
  runs (fun _ => True) blamed
    (inject_body w finish (fun items => for_kwargs items finish) fn bc
       args_ kwargs_).
Proof.
  intros Hf.
  assert (Hfin : forall x, runs (fun _ => True) blamed (finish x)).
  { intros [[v c] awt]. destruct Hf as [->| ->].
    - apply runs_ret; blame_side.
    - destruct (iscoroutine awt); [|apply runs_ret; blame_side].
      apply (@runs_py_await (fun _ => True)); blame_side. }
  assert (Hitem : forall a, True ->
            runs (fun _ => True) blamed
              (x <- _call_bound_inject w a ;; finish x)).
  { intros a _. apply runs_bind; blame_side; auto.
    apply (@runs_call_bound_inject (fun _ => True)); blame_side. }
  apply (@runs_inject_body (fun _ => True) (fun _ => True) blamed)
    with (good := fun _ => True); blame_side; auto.
  - apply (@runs_walk_for_kwargs (fun _ => True) blamed)
      with (good := fun _ => True); blame_side; auto.
  - split; apply Forall_forall; auto.
Qed.


End W.

End MismatchClaims.

(* ===================================================================== *)
(** ** Where the values of a binding come from *)
(* ===================================================================== *)

Module Origin.
Import Inspect Wf DictFacts.

Section Dicts.
Variable W : Type.
Implicit Types (d e : Dict.t W).

Lemma In_set d k x : forall kv,
  In kv (Dict.set d k x) -> In kv d \/ kv = (k, x).
Proof.
  induction d as [|[k0 x0] d IH]; simpl; intros kv H.
  - destruct H as [<-|[]]. auto.
  - destruct (String.eqb_spec k k0) as [->|Hne]; simpl in H.
    + destruct H as [<-|H]; auto.
    + destruct H as [<-|H]; auto. apply IH in H. tauto.
Qed.

Lemma In_update e : forall d kv,
  In kv (Dict.update d e) -> In kv d \/ In kv e.
Proof.
  induction e as [|[k x] e IH]; simpl; intros d kv H; auto.
  apply IH in H as [H|H]; auto. apply In_set in H as [H| ->]; auto.
Qed.

Lemma In_dict_of (items : list (string * W)) : forall d kv,
  In kv (dict_of items d) -> In kv d \/ In kv items.
Proof.
  induction items as [|[k x] items IH]; simpl; intros d kv H; auto.
  apply IH in H as [H|H]; auto. apply In_set in H as [H| ->]; auto.
Qed.
End Dicts.

Section V.
Variable V : Type.
Implicit Types (a acc : arguments V) (kw : Dict.t V).

Lemma In_all_values a v :
  In v (all_values a) <-> exists k x, In (k, x) a /\ In v (values_of x).
Proof.
  unfold all_values. rewrite in_flat_map. split.
  - intros ([k x] & H1 & H2). eauto.
  - intros (k & x & H1 & H2). exists (k, x). auto.
Qed.

Lemma all_values_set acc k x v :
  In v (all_values (Dict.set acc k x)) ->
  In v (all_values acc) \/ In v (values_of x).
Proof.
  rewrite !In_all_values. intros (k' & x' & H1 & H2).
  apply In_set in H1 as [H1|[= -> ->]]; eauto.
Qed.

Lemma all_values_update a b v :
  In v (all_values (Dict.update a b)) ->
  In v (all_values a) \/ In v (all_values b).
Proof.
  rewrite !In_all_values. intros (k' & x' & H1 & H2).
  apply In_update in H1 as [H1|H1]; eauto.
Qed.

Lemma bind_positional_values partial kw : forall params arg_vals acc acc' rem v,
  bind_positional partial params arg_vals kw acc = Ok (acc', rem) ->
  In v (all_values acc') -> In v (all_values acc) \/ In v arg_vals.
Proof.
  induction params as [|p params IH]; intros [|u us] acc acc' rem v H Hv;
    simpl in H.
  - injection H as <- _. auto.
  - discriminate.
  - destruct (kind p) eqn:Hk;
      try (destruct (Dict.mem kw (name p)); [|destruct (default p), partial]);
      try discriminate; injection H as <- _; auto.
  - destruct (kind p) eqn:Hk; try discriminate.
    + destruct (Dict.mem kw (name p) && _); [discriminate|].
      eapply IH in H; eauto. destruct H as [H|H]; [|simpl; auto].
      apply all_values_set in H as [H|[<-|[]]]; simpl; auto.
    + destruct (Dict.mem kw (name p) && _); [discriminate|].
      eapply IH in H; eauto. destruct H as [H|H]; [|simpl; auto].
      apply all_values_set in H as [H|[<-|[]]]; simpl; auto.
    + injection H as <- _. apply all_values_set in Hv as [H|H]; auto.
Qed.

Lemma bind_keywords_values partial :
  forall params kw acc kp acc' kw' kp' v,
  bind_keywords partial params kw acc kp = Ok (acc', kw', kp') ->
  (In v (all_values acc') -> In v (all_values acc) \/ In v (map snd kw)) /\
  incl kw' kw.
Proof.
  induction params as [|p params IH]; intros kw acc kp acc' kw' kp' v H;
    simpl in H.
  - injection H as <- <- _. split; auto. apply incl_refl.
  - destruct (kind p) eqn:Ek.
    + destruct (Dict.get kw (name p)); [discriminate|].
      destruct partial, (default p); try discriminate; eauto.
    + destruct (Dict.get kw (name p)) as [u|] eqn:Eg.
      * apply (IH _ _ _ _ _ _ v) in H as [H1 H2]. split.
        -- intros Hv. apply H1 in Hv as [Hv|Hv].
           ++ apply all_values_set in Hv as [Hv|[<-|[]]]; auto.
              right. apply get_Some_In in Eg.
              apply in_map_iff. exists (name p, u). auto.
           ++ right. eapply incl_map; [apply pop_incl|]. exact Hv.
        -- eapply incl_tran; [exact H2|apply pop_incl].
      * destruct partial, (default p); try discriminate; eauto.
    + eauto.
    + destruct (Dict.get kw (name p)) as [u|] eqn:Eg.
      * apply (IH _ _ _ _ _ _ v) in H as [H1 H2]. split.
        -- intros Hv. apply H1 in Hv as [Hv|Hv].
           ++ apply all_values_set in Hv as [Hv|[<-|[]]]; auto.
              right. apply get_Some_In in Eg.
              apply in_map_iff. exists (name p, u). auto.
           ++ right. eapply incl_map; [apply pop_incl|]. exact Hv.
        -- eapply incl_tran; [exact H2|apply pop_incl].
      * destruct partial, (default p); try discriminate; eauto.
    + eauto.
Qed.

(** A binding holds nothing but the values it was given. *)
Lemma bind_values sig arg_vals kw partial (A : arguments V) v :
  _bind sig arg_vals kw partial = Ok A ->
  In v (all_values A) -> In v arg_vals \/ In v (map snd kw).
Proof.
  unfold _bind. intros H Hv.
  destruct (bind_positional partial sig arg_vals kw [])
    as [[acc rem]|] eqn:H1; [|discriminate].
  destruct (bind_keywords partial rem kw acc None)
    as [[[acc' kw'] kp']|] eqn:H2; [|discriminate].
  destruct (bind_keywords_values _ _ _ _ _ v H2) as [Hk Hincl].
  assert (Hacc : In v (all_values acc') -> In v arg_vals \/ In v (map snd kw)).
  { intros Hv'. apply Hk in Hv' as [Hv'|Hv']; auto.
    eapply bind_positional_values in Hv'; eauto.
    destruct Hv' as [Hv'|Hv']; [simpl in Hv'; contradiction|auto]. }
  destruct kw' as [|kv kw']; [injection H as <-; auto|].
  destruct kp' as [vk|]; [|discriminate]. injection H as <-.
  apply all_values_set in Hv as [Hv|Hv]; auto.
  right. simpl in Hv. eapply incl_map; [exact Hincl|]. exact Hv.
Qed.

Lemma get_values a k x v :
  Dict.get a k = Some x -> In v (values_of x) -> In v (all_values a).
Proof.
  intros Hg Hv. apply In_all_values. exists k, x. split; auto.
  now apply get_Some_In.
Qed.

(** [BoundArguments.args] and [BoundArguments.kwargs] hold nothing but
    values of the binding. *)
Lemma args_values a : forall sig, incl (args sig a) (all_values a).
Proof.
  induction sig as [|p sig IH]; simpl; [apply incl_nil_l|].
  destruct (kind p); try apply incl_nil_l;
    destruct (Dict.get a (name p)) as [[u|us|kus]|] eqn:Eg;
    try apply incl_nil_l; auto.
  - intros v [<-|H]; [eapply get_values; eauto; now left|auto].
  - intros v [<-|H]; [eapply get_values; eauto; now left|auto].
  - intros v H. apply in_app_or in H as [H|H]; [eapply get_values; eauto|auto].
Qed.

Lemma kwargs_loop_values a : forall sig started kw v,
  In v (map snd (kwargs_loop sig a started kw)) ->
  In v (map snd kw) \/ In v (all_values a).
Proof.
  assert (Hset : forall kw k u v, In v (map snd (Dict.set kw k u)) ->
            In v (map snd kw) \/ v = u).
  { intros kw k u v H. apply in_map_iff in H as ([k' u'] & <- & H).
    apply In_set in H as [H|[= -> ->]]; auto.
    left. apply in_map_iff. exists (k', u'). auto. }
  assert (Hupd : forall kw kvs v, In v (map snd (Dict.update kw kvs)) ->
            In v (map snd kw) \/ In v (map snd kvs)).
  { intros kw kvs v H. apply in_map_iff in H as ([k' u'] & <- & H).
    apply In_update in H as [H|H]; [left|right];
      apply in_map_iff; exists (k', u'); auto. }
  induction sig as [|p sig IH]; intros started kw v H; simpl in H; auto.
  assert (Hstore : forall st,
    In v (map snd
      match Dict.get a (name p) with
      | None => kwargs_loop sig a st kw
      | Some arg =>
          match kind p, arg with
          | VAR_KEYWORD, StarStar kvs =>
              kwargs_loop sig a st (Dict.update kw kvs)
          | VAR_KEYWORD, _ => kwargs_loop sig a st kw
          | _, One u => kwargs_loop sig a st (Dict.set kw (name p) u)
          | _, _ => kwargs_loop sig a st kw
          end
      end) -> In v (map snd kw) \/ In v (all_values a)).
  { intros st Hs.
    destruct (Dict.get a (name p)) as [[u|us|kus]|] eqn:Eg; auto;
      destruct (kind p); auto;
      apply IH in Hs as [Hs|Hs]; auto.
    all: try (apply Hset in Hs as [Hs| ->]; auto; right;
              eapply get_values; eauto; now left).
    apply Hupd in Hs as [Hs|Hs]; auto. right. eapply get_values; eauto. }
  destruct started; [exact (Hstore true H)|].
  destruct (kind p); try exact (Hstore true H);
    destruct (Dict.mem a (name p)); eauto.
Qed.

Lemma kwargs_values sig a : incl (map snd (kwargs sig a)) (all_values a).
Proof.
  intros v H. apply kwargs_loop_values in H as [[]|H]. exact H.
Qed.

End V.
End Origin.

(* ===================================================================== *)
(** ** injects and injects.ctx: what is called and what is entered *)
(* ===================================================================== *)

Module Justified.
Import Inspect Wf DictFacts Run Steps ExitStack Origin.
Local Open Scope py_scope.

Section Table.
Variable table : list value.





Variable w : world.









(** The merged binding holds values of the call and wrapped values of
    the table, and nothing else. *)
Lemma merged_from_table sig injector_args injector_kwargs bc
    args_ kwargs_ ba a :
  table = injector_args ++ map snd injector_kwargs ->
  bind_injectors sig injector_args injector_kwargs = Ok bc ->
  bind_partial sig (call_args args_) (call_kwargs kwargs_) = Ok ba ->
  In a (all_values (Dict.update bc ba)) -> from_table table a.
Proof.
  intros -> Hbc Hba Hin.
  apply all_values_update in Hin as [Hin|Hin].
  - eapply bind_values in Hin; [|exact Hbc].
    destruct Hin as [Hin|Hin].
    + apply in_map_iff in Hin as (val & <- & Hin). simpl.
      apply in_or_app. auto.
    + apply in_map_iff in Hin as ([k x] & <- & Hin).
      apply In_dict_of in Hin as [[]|Hin].
      apply in_map_iff in Hin as ([k' val] & [= <- <-] & Hin). simpl.
      apply in_or_app. right. apply in_map_iff. exists (k', val). auto.
  - eapply bind_values in Hin; [|exact Hba].
    destruct Hin as [Hin|Hin].
    + apply in_map_iff in Hin as (v & <- & _). exact I.
    + apply in_map_iff in Hin as ([k x] & <- & Hin).
      apply in_map_iff in Hin as ([k' v] & [= <- <-] & _). exact I.
Qed.



End Table.
End Justified.

(* ===================================================================== *)
(** ** injects and injects.ctx: the table entries *)
(* ===================================================================== *)

Module TableClaims.
Import Inspect Wf DictFacts BinderFacts Rebind BindSpec BindMore Natural Run
  RebindRelated InjectFacts InjectClaims Steps ExitStack Origin Justified
  MismatchClaims Examples.
Local Open Scope py_scope.


End TableClaims.

(* ===================================================================== *)
(** ** The table is not written to *)
(* ===================================================================== *)

Module HeapFacts.
Import Inspect Wf DictFacts Natural.

Section V.
Variable V : Type.
Implicit Types (h new : Heap.heap V) (o : Heap.object V).

Lemma read_old h new a o :
  Heap.read h a = Some o -> Heap.read (h ++ new) a = Some o.
Proof.
  unfold Heap.read. intros H. rewrite nth_error_app1; auto.
  apply nth_error_Some. congruence.
Qed.

Lemma read_new h o : Heap.read (h ++ [o]) (List.length h) = Some o.
Proof.
  unfold Heap.read. rewrite nth_error_app2 by lia.
  now rewrite Nat.sub_diag.
Qed.

Lemma write_new h o o' :
  Heap.write (h ++ [o]) (List.length h) o' = h ++ [o'].
Proof. induction h as [|x h IH]; simpl; [reflexivity|now rewrite IH]. Qed.

(** A new [arguments] dict changes what no entry refers to. *)
Lemma load_entry_new h (d : Dict.t (Heap.entry V)) e :
  Heap.load_entry (h ++ [Heap.Arguments d]) e = Heap.load_entry h e.
Proof.
  destruct e as [v|vs|a]; simpl; auto.
  destruct (Nat.lt_ge_cases a (List.length h)) as [Hlt|Hge].
  - unfold Heap.read. now rewrite nth_error_app1.
  - unfold Heap.read. rewrite nth_error_app2 by lia.
    replace (nth_error h a) with (@None (Heap.object V))
      by (symmetry; now apply nth_error_None).
    destruct (a - List.length h) as [|[|n]]; reflexivity.
Qed.

Lemma map_values_ext {A B} (f g : A -> B) (d : Dict.t A) :
  (forall x, f x = g x) -> map_values f d = map_values g d.
Proof.
  intros E. unfold map_values. apply map_ext. intros [k x]. simpl.
  now rewrite E.
Qed.

(** Copying the dict at [src] and updating the copy with the dict at
    [upd]: the heap gets one object more, which holds the merge. *)
Lemma copy_then_ior h src upd (d e : Dict.t (Heap.entry V)) :
  Heap.read h src = Some (Heap.Arguments d) ->
  Heap.read h upd = Some (Heap.Arguments e) ->
  Heap.copy_copy h src = Some (List.length h, h ++ [Heap.Arguments d]) /\
  Heap.ior (h ++ [Heap.Arguments d]) (List.length h) upd
    = Some (h ++ [Heap.Arguments (Dict.update d e)]) /\
  Heap.load (h ++ [Heap.Arguments (Dict.update d e)]) (List.length h)
    = Dict.update (Heap.load h src) (Heap.load h upd) /\
  forall a, a < List.length h ->
    Heap.load (h ++ [Heap.Arguments (Dict.update d e)]) a = Heap.load h a.
Proof.
  intros Hs Hu. repeat split.
  - unfold Heap.copy_copy. now rewrite Hs.
  - unfold Heap.ior. rewrite read_new, (@read_old h _ upd _ Hu), write_new.
    reflexivity.
  - unfold Heap.load. rewrite read_new, Hs, Hu.
    rewrite (map_values_ext _ (Heap.load_entry h)) by apply load_entry_new.
    symmetry. apply update_map_values.
  - intros a Ha. unfold Heap.load, Heap.read.
    rewrite nth_error_app1 by auto.
    destruct (nth_error h a) as [[d'|d']|]; auto.
    apply map_values_ext, load_entry_new.
Qed.

Lemma read_lt h a o : Heap.read h a = Some o -> a < List.length h.
Proof. unfold Heap.read. intros H. apply nth_error_Some. congruence. Qed.

(** Storing a binding adds objects to the heap, and the binding can be
    read back. *)
Lemma store_entries_spec (a : arguments V) : forall h d h1,
  Heap.store_entries a h = (d, h1) ->
  exists new, h1 = h ++ new /\
    forall more, map_values (Heap.load_entry (h1 ++ more)) d = a.
Proof.
  induction a as [|[k x] a IH]; simpl; intros h d h1 H.
  - injection H as <- <-. exists []. now rewrite app_nil_r.
  - destruct x as [v|vs|kvs];
      destruct (Heap.store_entries a _) as [d' h2] eqn:E;
      injection H as <- <-;
      destruct (IH _ _ _ E) as (new & -> & Hl).
    + exists new. split; auto. intros more. simpl. now rewrite Hl.
    + exists new. split; auto. intros more. simpl. now rewrite Hl.
    + exists (Heap.Kwargs kvs :: new). split; [now rewrite <- app_assoc|].
      intros more. simpl. rewrite Hl. do 2 f_equal.
      unfold Heap.read. rewrite <- !app_assoc. simpl.
      rewrite nth_error_app2 by lia. now rewrite Nat.sub_diag.
Qed.

Lemma store_binding_spec (a : arguments V) h ba h1 :
  Heap.store_binding a h = (ba, h1) ->
  (exists new, h1 = h ++ new) /\
  (exists d, Heap.read h1 ba = Some (Heap.Arguments d)) /\
  Heap.load h1 ba = a.
Proof.
  unfold Heap.store_binding, Heap.alloc.
  destruct (Heap.store_entries a h) as [d h0] eqn:E. intros [= <- <-].
  destruct (store_entries_spec _ _ E) as (new & -> & Hl).
  repeat split.
  - exists (new ++ [Heap.Arguments d]). now rewrite app_assoc.
  - exists d. apply read_new.
  - unfold Heap.load. rewrite read_new. apply Hl.
Qed.

End V.
End HeapFacts.

(* ===================================================================== *)
(** ** The calls of a wrapper and the table *)
(* ===================================================================== *)

Module HeapClaims.
Import Inspect Wf DictFacts Natural HeapFacts Examples.

Section W.
Variable w : world.
Variable sig : Signature.

(** The merge of [injects] on the heap: it computes what the merge on
    values computes, and the heap gets one object more. *)
Lemma build_inject_spec (h : Heap.heap slot) ba bc d e :
  Heap.read h ba = Some (Heap.Arguments d) ->
  Heap.read h bc = Some (Heap.Arguments e) ->
  Heap._build_bound_inject w sig ba bc h =
  Some (_build_bound_inject w sig (Heap.load h ba) (Heap.load h bc),
        h ++ [Heap.Arguments (Dict.update e d)]).
Proof.
  intros Ha Hc.
  destruct (copy_then_ior _ _ _ Hc Ha) as (Hcopy & Hior & Hload & _).
  unfold Heap._build_bound_inject, _build_bound_inject.
  now rewrite Hcopy, Hior, Hload.
Qed.

(** That of [composes] likewise. *)
Lemma build_compose_spec (h : Heap.heap value) ba bc d e :
  Heap.read h ba = Some (Heap.Arguments d) ->
  Heap.read h bc = Some (Heap.Arguments e) ->
  Heap._build_bound_compose w sig ba bc h =
  Some (_build_bound_compose w sig (Heap.load h ba) (Heap.load h bc),
        h ++ [Heap.Arguments (Dict.update d e)]).
Proof.
  intros Ha Hc.
  destruct (copy_then_ior _ _ _ Ha Hc) as (Hcopy & Hior & Hload & Hold).
  unfold Heap._build_bound_compose, _build_bound_compose.
  rewrite Hcopy, Hior, Hload.
  now rewrite (Hold ba (@read_lt _ h ba _ Ha)).
Qed.

Lemma inject_call_extends (h : Heap.heap slot) bc e call :
  Heap.read h bc = Some (Heap.Arguments e) ->
  exists new, Heap.inject_call w sig bc call h = Some (h ++ new).
Proof.
  intros Hc. unfold Heap.inject_call.
  destruct (bind_partial sig (call_args (fst call)) (call_kwargs (snd call)))
    as [a|err].
  - destruct (Heap.store_binding a h) as [ba h1] eqn:E.
    destruct (store_binding_spec _ _ E) as ((new & ->) & (d & Hd) & _).
    rewrite (@build_inject_spec (h ++ new) ba bc d e Hd
               (@read_old _ h new bc _ Hc)). simpl.
    eexists. now rewrite <- app_assoc.
  - exists []. now rewrite app_nil_r.
Qed.

Lemma compose_call_extends (h : Heap.heap value) bc e call :
  Heap.read h bc = Some (Heap.Arguments e) ->
  exists new, Heap.compose_call w sig bc call h = Some (h ++ new).
Proof.
  intros Hc. unfold Heap.compose_call.
  destruct (bind sig (fst call) (snd call)) as [a|err].
  - destruct (Heap.store_binding a h) as [ba h1] eqn:E.
    destruct (store_binding_spec _ _ E) as ((new & ->) & (d & Hd) & _).
    rewrite (@build_compose_spec (h ++ new) ba bc d e Hd
               (@read_old _ h new bc _ Hc)). simpl.
    eexists. now rewrite <- app_assoc.
  - exists []. now rewrite app_nil_r.
Qed.

(** Calls that each only add objects only add objects. *)
Lemma calls_extend {V}
    (step : list value * Dict.t value -> Heap.heap V -> option (Heap.heap V))
    bc e :
  (forall h call, Heap.read h bc = Some (Heap.Arguments e) ->
     exists new, step call h = Some (h ++ new)) ->
  forall cs h, Heap.read h bc = Some (Heap.Arguments e) ->
    exists new, Heap.calls step cs h = Some (h ++ new).
Proof.
  intros Hstep. induction cs as [|c cs IH]; intros h Hc; simpl.
  - exists []. now rewrite app_nil_r.
  - destruct (Hstep h c Hc) as (new & ->).
    destruct (IH (h ++ new) (@read_old _ h new bc _ Hc)) as (new' & ->).
    exists (new ++ new'). now rewrite app_assoc.
Qed.

End W.

(** C8.  The table is the [arguments] dict at address [bc].  Whatever the
    calls and their arguments, the calls of a wrapper leave every object
    that existed before them as it was, the table among them, and only
    add objects to the heap: each merge copies a dict ([bc.arguments] for
    [injects], [ba.arguments] for [composes]), updates the copy, and
    computes from it what the merge on values computes. *)
Theorem table_unchanged_by_calls (w : world) (sig : Signature) (bc : nat) :
  (forall (h : Heap.heap slot) e cs,
     Heap.read h bc = Some (Heap.Arguments e) ->
     exists new,
       Heap.calls (Heap.inject_call w sig bc) cs h = Some (h ++ new) /\
       Heap.read (h ++ new) bc = Some (Heap.Arguments e)) /\
  (forall (h : Heap.heap value) e cs,
     Heap.read h bc = Some (Heap.Arguments e) ->
     exists new,
       Heap.calls (Heap.compose_call w sig bc) cs h = Some (h ++ new) /\
       Heap.read (h ++ new) bc = Some (Heap.Arguments e)) /\
  (forall (h : Heap.heap slot) ba d e,
     Heap.read h ba = Some (Heap.Arguments d) ->
     Heap.read h bc = Some (Heap.Arguments e) ->
     exists new,
       Heap._build_bound_inject w sig ba bc h =
       Some (_build_bound_inject w sig (Heap.load h ba) (Heap.load h bc),
             h ++ new)) /\
  (forall (h : Heap.heap value) ba d e,
     Heap.read h ba = Some (Heap.Arguments d) ->
     Heap.read h bc = Some (Heap.Arguments e) ->
     exists new,
       Heap._build_bound_compose w sig ba bc h =
       Some (_build_bound_compose w sig (Heap.load h ba) (Heap.load h bc),
             h ++ new)).
Proof.
  repeat split.
  - intros h e cs Hc.
    destruct (@calls_extend _ (Heap.inject_call w sig bc) bc e
                (fun h0 call H0 => @inject_call_extends w sig h0 bc e call H0)
                cs h Hc) as (new & ->).
    exists new. split; auto. now apply read_old.
  - intros h e cs Hc.
    destruct (@calls_extend _ (Heap.compose_call w sig bc) bc e
                (fun h0 call H0 => @compose_call_extends w sig h0 bc e call H0)
                cs h Hc) as (new & ->).
    exists new. split; auto. now apply read_old.
  - intros h ba d e Ha Hc. eexists.
    exact (@build_inject_spec w sig h ba bc d e Ha Hc).
  - intros h ba d e Ha Hc. eexists.
    exact (@build_compose_spec w sig h ba bc d e Ha Hc).
Qed.

Lemma table_unchanged_by_calls_witness :
  let table := Heap.Arguments [("arg1", Heap.EOne (_bindwrap lambda_7));
                               ("arg2", Heap.EOne (_bindwrap (int 6)));
                               ("arg3", Heap.EOne (_bindwrap (int 5)))] in
  let h := [table] in
  let cs := [([int 9], []); ([], [("arg2", int 88)])] in
  Heap.read h 0 = Some table /\
  exists new,
    Heap.calls (Heap.inject_call ex_world (signature foo3) 0) cs h
      = Some (h ++ new) /\
    Heap.read (h ++ new) 0 = Some table.
Proof.
  intros table h cs.
  assert (H : Heap.read h 0 = Some table) by reflexivity.
  split; [exact H|].
  exact (proj1 (@table_unchanged_by_calls ex_world (signature foo3) 0)
           h _ cs H).
Defined.

End HeapClaims.

(* ===================================================================== *)
(** ** injects and injects.ctx: one call, with what each value is *)
(* ===================================================================== *)

Module InjectRun.
Import Inspect Wf DictFacts BinderFacts Rebind BindSpec BindMore Natural Run
  RebindRelated InjectFacts.
Local Open Scope py_scope.

(** The results of a list of steps, each related to what it was made
    from by a relation that more steps around do not break. *)
Lemma sequence_Forall2_events {A B} (Q : trace -> B -> A -> Prop)
    (step : B -> M A) :
  (forall l t r b a, Q t b a -> Q (l ++ t ++ r) b a) ->
  (forall b s a s', step b s = (Ok a, s') ->
     exists evs, log s' = log s ++ evs /\ Q evs b a) ->
  forall bs s xs s', sequence (map step bs) s = (Ok xs, s') ->
    exists evs, log s' = log s ++ evs /\ Forall2 (Q evs) bs xs.
Proof.
  intros Hmono Hstep. induction bs as [|b bs IH]; simpl; intros s xs s' H.
  - inversion H; subst. exists []. rewrite app_nil_r. auto.
  - apply bindM_inv in H as [(e & _ & [=])|(a & s1 & Ha & H)].
    apply bindM_inv in H as [(e & _ & [=])|(rest & s2 & Hr & H)].
    inversion H; subst. clear H.
    destruct (Hstep _ _ _ _ Ha) as (ev1 & L1 & Q1).
    destruct (IH _ _ _ Hr) as (ev2 & L2 & Q2).
    exists (ev1 ++ ev2). split; [now rewrite L2, L1, app_assoc|].
    constructor.
    + apply (Hmono [] ev1 ev2). exact Q1.
    + eapply Forall2_impl; [|exact Q2]. intros b' a' Hq.
      pose proof (Hmono ev1 ev2 [] _ _ Hq) as Hq'.
      now rewrite app_nil_r in Hq'.
Qed.

Section Body.
Variable w : world.
Variable R : trace -> slot -> value -> Prop.
Variable finish : triple -> M value.
Variable walk : list (string * M triple) -> M (Dict.t value).

Hypothesis Rmono : forall l t r a v, R t a v -> R (l ++ t ++ r) a v.
Hypothesis Hitem : forall a s v s',
  (x <- _call_bound_inject w a ;; finish x) s = (Ok v, s') ->
  exists evs, log s' = log s ++ evs /\ R evs a v.
Hypothesis Hquiet : forall x, emits not_invoke (finish x).
Hypothesis Hwalk : forall slots : Dict.t slot,
  let items := map (fun kv => (fst kv, _call_bound_inject w (snd kv))) slots in
  emits not_invoke (walk items) /\
  (NoDup (Dict.keys slots) -> forall s kvs s',
     walk items s = (Ok kvs, s') ->
     exists evs, log s' = log s ++ evs /\
       Forall2 (fun kv kw => fst kv = fst kw /\ R evs (snd kv) (snd kw))
         slots kvs).

(** One call of a wrapper of [injects] or [injects_ctx], up to the exit
    stack: it raises without having invoked the function, or it invokes
    it once, last, on the merged binding, in which every value is what
    the steps before made of the element of the merge it stands for. *)
Theorem inject_body_received fn bc args_ kwargs_ ba s r s' :
  let sig := signature fn in
  wf_sig sig = true -> wf_kwargs kwargs_ = true -> ok sig bc ->
  bind_partial sig args_ kwargs_ = Ok ba ->
  inject_body w finish walk fn bc args_ kwargs_ s = (r, s') ->
  exists evs, log s' = log s ++ evs /\
    ((exists e, r = Raise e /\ Forall not_invoke evs) \/
     (exists pre (Z : arguments (Related.t (R pre))),
        evs = pre ++ [EvInvoke
                        (apply_defaults sig
                           (map_arguments (@Related.after _ _ (R pre)) Z))
                        r] /\
        Forall not_invoke pre /\
        restrict sig (Dict.update bc (map_arguments Arg ba)) =
          map_arguments (@Related.before _ _ (R pre)) Z)).
Proof.
  intros sig Hwf Hkw Hbc Hba H.
  apply wf_kwargs_NoDup in Hkw.
  unfold inject_body in H. fold sig in H.
  rewrite call_binding, Hba in H. simpl in H.
  unfold bindM at 1, try, lift in H. simpl in H.
  destruct (@bind_ok _ true sig args_ kwargs_ ba Hwf Hkw Hba) as (Hoa & Hna & _).
  set (bb := Dict.update bc (map_arguments Arg ba)) in *.
  assert (Hbb : ok sig bb).
  { apply ok_update; auto.
    - now apply ok_map_arguments.
    - unfold map_arguments. now rewrite keys_map_values. }
  assert (Hem : emits not_invoke
            (for_args (map (_call_bound_inject w) (args sig bb)) finish)).
  { unfold for_args. apply emits_sequence. rewrite map_map.
    apply Forall_forall. intros m Im.
    apply in_map_iff in Im as (a & <- & _).
    apply emits_bind; auto.
    apply emits_call_bound_inject; intros; apply not_invoke_call. }
  apply bindM_inv in H as [(e & H & ->)|(vs & s1 & H1 & H)].
  { destruct (Hem _ _ _ H) as (evs & L & F). exists evs. split; eauto. }
  destruct (Hem _ _ _ H1) as (ev1 & L1 & F1).
  assert (Hvs : Forall2 (R ev1) (args sig bb) vs).
  { unfold for_args in H1. rewrite map_map in H1.
    destruct (@sequence_Forall2_events _ _ R
                (fun a => x <- _call_bound_inject w a ;; finish x)
                Rmono Hitem _ _ _ _ H1) as (ev1' & L1' & Hq).
    rewrite L1 in L1'. apply app_inv_head in L1'. now subst ev1'. }
  destruct (Hwalk (kwargs sig bb)) as [Hwe Hwp].
  apply bindM_inv in H as [(e & H & ->)|(kvs & s2 & H2 & H)].
  { destruct (Hwe _ _ _ H) as (ev2 & L2 & F2).
    exists (ev1 ++ ev2). rewrite L2, L1, app_assoc. split; auto.
    left. eexists. split; eauto. apply Forall_app. auto. }
  destruct (Hwe _ _ _ H2) as (ev2 & L2 & F2).
  destruct (Hwp (kwargs_nodup Hwf Hbb) _ _ _ H2) as (ev2' & L2' & Hkvs).
  rewrite L2 in L2'. apply app_inv_head in L2'. subst ev2'.
  assert (Hvs' : Forall2 (R (ev1 ++ ev2)) (args sig bb) vs).
  { eapply Forall2_impl; [|exact Hvs]. intros a v Hq.
    exact (@Rmono [] ev1 ev2 _ _ Hq). }
  assert (Hkvs' : Forall2 (fun kv kw => fst kv = fst kw /\
                             R (ev1 ++ ev2) (snd kv) (snd kw))
                    (kwargs sig bb) kvs).
  { eapply Forall2_impl; [|exact Hkvs]. intros kv kw [E Hq]. split; auto.
    pose proof (@Rmono ev1 ev2 [] _ _ Hq) as Hq'.
    now rewrite app_nil_r in Hq'. }
  destruct (rebind_related Hwf Hbb Hvs' Hkvs') as (Z & HZ & HR).
  unfold bindM at 1, try, lift in H. rewrite HZ in H.
  assert (HokA : ok sig (map_arguments (@Related.after _ _ (R (ev1 ++ ev2))) Z)).
  { assert (Hkk : NoDup (Dict.keys kvs)).
    { replace (Dict.keys kvs) with (Dict.keys (kwargs sig bb)).
      - now apply kwargs_nodup.
      - clear -Hkvs. unfold Dict.keys.
        induction Hkvs as [|x y l l' [E _] _ IH]; simpl; congruence. }
    now destruct (@bind_ok _ true sig vs kvs _ Hwf Hkk HZ). }
  apply invoke_run in H; auto.
  assert (L : log s2 = log s ++ (ev1 ++ ev2)) by (now rewrite L2, L1, app_assoc).
  assert (F : Forall not_invoke (ev1 ++ ev2)) by (apply Forall_app; auto).
  destruct H as [(Hc & Hr & Hl & _)|(Hc & (msg & ->) & ->)].
  - eexists. split; [rewrite Hl, L, <- app_assoc; reflexivity|].
    right. exists (ev1 ++ ev2), Z. repeat split; auto.
  - exists (ev1 ++ ev2). split; auto. left. eauto.
Qed.

End Body.
End InjectRun.

Module InjectReceives.
Import Inspect Wf DictFacts BinderFacts Rebind BindSpec BindMore Natural Run
  RebindRelated InjectFacts InjectClaims InjectRun Steps ExitStack
  MismatchClaims.
Local Open Scope py_scope.

Lemma received_from_mono l t r a v :
  received_from t a v -> received_from (l ++ t ++ r) a v.
Proof.
  destruct a as [u|val]; simpl; auto.
  destruct (callable val); auto.
  intros H. apply in_or_app. right. apply in_or_app. now left.
Qed.

Lemma entered_from_mono l t r a v :
  entered_from t a v -> entered_from (l ++ t ++ r) a v.
Proof.
  destruct a as [u|val]; simpl; auto.
  destruct (callable val); auto.
  intros (cm & b & H1 & H2). exists cm, b.
  split; apply in_or_app; right; apply in_or_app; now left.
Qed.

Section W.
Variable w : world.

(** An item of a wrapper of [injects]. *)
Lemma inject_item_received finish a s v s' :
  finish = (fun '(v, _, _) => ret v) \/
  finish = (fun '(v, _, awt) =>
              if iscoroutine awt then py_await w v else ret v) ->
  (x <- _call_bound_inject w a ;; finish x) s = (Ok v, s') ->
  exists evs, log s' = log s ++ evs /\ received_from evs a v.
Proof.
  intros Hf H.
  assert (Hfin : forall u c, iscoroutine c = false -> forall b s0,
            finish (u, b, c) s0 = (Ok u, s0)).
  { intros u c Hc b s0. destruct Hf as [->| ->]; simpl; [reflexivity|].
    now rewrite Hc. }
  destruct a as [u|val]; simpl in H.
  - unfold bindM, ret in H. rewrite Hfin in H by reflexivity.
    inversion H; subst. exists []. rewrite app_nil_r. simpl. auto.
  - simpl. destruct (callable val) eqn:Hc; simpl in H.
    + unfold bindM, ret, py_call in H. rewrite Hc in H.
      destruct (call_ w (log s) val []) as [x|e] eqn:Ecall; [|discriminate].
      rewrite Hfin in H by (now apply callable_not_coroutine).
      inversion H; subst. exists [EvCall val [] (Ok v)]. simpl. auto.
    + unfold bindM, ret in H. rewrite Hfin in H by reflexivity.
      inversion H; subst. exists []. rewrite app_nil_r. auto.
Qed.

(** An item of a wrapper of [injects_ctx]. *)
Lemma inject_ctx_item_entered finish a s v s' :
  finish = (fun '(v, cld, _) =>
              if (cld : bool) then enter_context w v else ret v) \/
  finish = _enter w ->
  (x <- _call_bound_inject w a ;; finish x) s = (Ok v, s') ->
  exists evs, log s' = log s ++ evs /\ entered_from evs a v.
Proof.
  intros Hf H.
  assert (Hlit : forall u c s0, finish (u, false, c) s0 = (Ok u, s0)).
  { intros u c s0. destruct Hf as [->| ->]; reflexivity. }
  assert (Hent : forall cm c s0 s1,
            finish (cm, true, c) s0 = (Ok v, s1) ->
            exists is_sync, log s1 = log s0 ++ [EvEnter is_sync cm (Ok v)]).
  { intros cm c s0 s1 He.
    assert (He' : enter_context w cm s0 = (Ok v, s1) \/
                  enter_async_context w cm s0 = (Ok v, s1)).
    { destruct Hf as [->| ->]; simpl in He; auto.
      destruct (has_aenter cm); simpl in He; auto. }
    destruct He' as [He'|He'].
    - unfold enter_context in He'. destruct (has_enter cm); [|discriminate].
      exists true.
      destruct (enter_ w (log s0) true cm); inversion He'; subst. reflexivity.
    - unfold enter_async_context in He'.
      destruct (has_aenter cm); [|discriminate].
      exists false.
      destruct (enter_ w (log s0) false cm); inversion He'; subst.
      reflexivity. }
  destruct a as [u|val]; simpl in H.
  - unfold bindM, ret in H. rewrite Hlit in H.
    inversion H; subst. exists []. rewrite app_nil_r. simpl. auto.
  - simpl. destruct (callable val) eqn:Hc; simpl in H.
    + unfold bindM, ret, py_call in H. rewrite Hc in H.
      destruct (call_ w (log s) val []) as [cm|e] eqn:Ecall; [|discriminate].
      apply Hent in H as [is_sync L]. simpl in L.
      exists [EvCall val [] (Ok cm); EvEnter is_sync cm (Ok v)].
      split; [rewrite L, <- app_assoc; reflexivity|].
      exists cm, is_sync. simpl. auto.
    + unfold bindM, ret in H. rewrite Hlit in H.
      inversion H; subst. exists []. rewrite app_nil_r. auto.
Qed.

Section Walk.
Variable R : trace -> slot -> value -> Prop.
Variable finish : triple -> M value.
Hypothesis Rmono : forall l t r a v, R t a v -> R (l ++ t ++ r) a v.
Hypothesis Hitem : forall a s v s',
  (x <- _call_bound_inject w a ;; finish x) s = (Ok v, s') ->
  exists evs, log s' = log s ++ evs /\ R evs a v.
Hypothesis Hquiet : forall x, emits not_invoke (finish x).

(** The keyword items, walked by [for_kwargs]. *)
Lemma for_kwargs_received (slots : Dict.t slot) :
  let items := map (fun kv => (fst kv, _call_bound_inject w (snd kv))) slots in
  emits not_invoke (for_kwargs items finish) /\
  (NoDup (Dict.keys slots) -> forall s kvs s',
     for_kwargs items finish s = (Ok kvs, s') ->
     exists evs, log s' = log s ++ evs /\
       Forall2 (fun kv kw => fst kv = fst kw /\ R evs (snd kv) (snd kw))
         slots kvs).
Proof.
  intros items. split.
  - unfold for_kwargs. apply emits_bind; [|intros; apply emits_ret].
    apply emits_sequence. unfold items. rewrite map_map.
    apply Forall_forall. intros m Im.
    apply in_map_iff in Im as (kv & <- & _). simpl.
    apply emits_bind;
      [apply emits_call_bound_inject; intros; apply not_invoke_call|].
    intros x. apply emits_bind; auto. intros v. apply emits_ret.
  - intros Hnd s kvs s' H. unfold for_kwargs, items in H.
    rewrite map_map in H.
    apply bindM_inv in H as [(e & _ & [=])|(its & s1 & H1 & H2)].
    inversion H2; subst. clear H2.
    destruct (@sequence_Forall2_events _ _
                (fun evs kv (kw : string * value) =>
                   fst kv = fst kw /\ R evs (snd kv) (snd kw))
                (fun kv : string * slot =>
                   x <- _call_bound_inject w (snd kv) ;;
                   v <- finish x ;; ret (fst kv, v))) with
      (bs := slots) (s := s) (xs := its) (s' := s')
      as (evs & L & Hq); auto.
    + intros l t r kv kw [E Hr]. split; auto.
    + intros kv s0 [k v] s0' Hs.
      apply bindM_inv in Hs as [(e & _ & [=])|(x & s2 & Hx & Hs)].
      apply bindM_inv in Hs as [(e & _ & [=])|(v' & s3 & Hv & Hs)].
      assert (Hrun : (x <- _call_bound_inject w (snd kv) ;; finish x) s0
                     = (Ok v', s3))
        by (unfold bindM; rewrite Hx; exact Hv).
      destruct (Hitem _ _ Hrun) as (evs & L & Hr).
      inversion Hs; subst. exists evs. simpl. auto.
    + exists evs. split; auto.
      rewrite dict_of_fresh; auto. simpl.
      replace (map fst its) with (Dict.keys slots); auto.
      clear -Hq. induction Hq as [|x y l l' [E _] _ IH]; simpl; congruence.
Qed.

(** The keyword items, walked by the keyword comprehension of the
    synchronous [_fn] of [injects_ctx], which ends well only when
    there is none. *)
Lemma injects_ctx_kwargs_received (slots : Dict.t slot) :
  let items := map (fun kv => (fst kv, _call_bound_inject w (snd kv))) slots in
  emits not_invoke (injects_ctx_kwargs items) /\
  (NoDup (Dict.keys slots) -> forall s kvs s',
     injects_ctx_kwargs items s = (Ok kvs, s') ->
     exists evs, log s' = log s ++ evs /\
       Forall2 (fun kv kw => fst kv = fst kw /\ R evs (snd kv) (snd kw))
         slots kvs).
Proof.
  intros items. split.
  - unfold injects_ctx_kwargs.
    apply emits_bind; [|intros; apply emits_ret].
    apply emits_sequence. unfold items. rewrite map_map.
    apply Forall_forall. intros m Im.
    apply in_map_iff in Im as (kv & <- & _). simpl.
    apply emits_bind;
      [apply emits_call_bound_inject; intros; apply not_invoke_call|].
    intros x. apply emits_raise.
  - intros _ s kvs s' H. destruct slots as [|[k a] slots].
    + inversion H; subst. exists []. rewrite app_nil_r. auto.
    + exfalso. unfold items in H. simpl in H.
      unfold injects_ctx_kwargs in H. simpl in H.
      unfold bindM at 1 2 3 in H.
      destruct (_call_bound_inject w a s) as [[x|e] s1]; discriminate.
Qed.

End Walk.
End W.
End InjectReceives.

(* ===================================================================== *)
(** ** injects.ctx and composes.ctx: what a call returns *)
(* ===================================================================== *)

Module CtxOutcome.
Import Inspect Wf DictFacts Run InjectFacts ComposeFacts Steps ExitStack.
Local Open Scope py_scope.

Lemma verdict_app xs ys acc :
  verdict (xs ++ ys) acc = verdict ys (verdict xs acc).
Proof.
  revert acc. induction xs as [|ev xs IH]; intros acc; simpl; auto.
  destruct ev as [| | |b cm exc [[|]|e]|]; auto.
Qed.

(** The flags the loop of [__exit__] ends with are those of the verdict
    of the releases. *)
Lemma unwind_verdict w : forall cbs exc se pr t exc' se' pr' t' acc,
  unwind w cbs exc se pr t = ((exc', se', pr'), t') ->
  match acc with
  | None => pr = false /\ se = false
  | Some (Ok true) => pr = false /\ se = true
  | Some (Ok false) => False
  | Some (Raise e) => pr = true /\ exc = Some e
  end ->
  exists xs, t' = t ++ xs /\ Forall is_exit xs /\ exited xs = cbs /\
    match verdict xs acc with
    | None => pr' = false /\ se' = false
    | Some (Ok true) => pr' = false /\ se' = true
    | Some (Ok false) => False
    | Some (Raise e) => pr' = true /\ exc' = Some e
    end.
Proof.
  induction cbs as [|[is_sync cm] cbs IH]; simpl;
    intros exc se pr t exc' se' pr' t' acc H Hinv.
  - inversion H; subst. exists []. rewrite app_nil_r. simpl. auto.
  - destruct (exit_ w t is_sync cm exc) as [[|]|e] eqn:E.
    + apply (IH _ _ _ _ _ _ _ _ (Some (Ok true))) in H; [|auto].
      destruct H as (xs & -> & F & Ex & Hv).
      exists (EvExit is_sync cm exc (Ok true) :: xs).
      rewrite <- app_assoc. simpl. repeat split; auto.
      * constructor; simpl; auto.
      * now rewrite Ex.
    + apply (IH _ _ _ _ _ _ _ _ acc) in H; [|auto].
      destruct H as (xs & -> & F & Ex & Hv).
      exists (EvExit is_sync cm exc (Ok false) :: xs).
      rewrite <- app_assoc. simpl. repeat split; auto.
      * constructor; simpl; auto.
      * now rewrite Ex.
    + apply (IH _ _ _ _ _ _ _ _ (Some (Raise e))) in H; [|auto].
      destruct H as (xs & -> & F & Ex & Hv).
      exists (EvExit is_sync cm exc (Raise e) :: xs).
      rewrite <- app_assoc. simpl. repeat split; auto.
      * constructor; simpl; auto.
      * now rewrite Ex.
Qed.

(** [with ExitStack() as stack: body]: the body runs on an empty stack;
    what it entered is released, last entered first; the releases decide
    what becomes of the outcome of the body. *)
Lemma with_exit_stack_inv w (body : M value) s r s' :
  with_exit_stack w body s = (r, s') ->
  exists r1 s1 xs,
    body (mkState (log s) []) = (r1, s1) /\
    log s' = log s1 ++ xs /\ Forall is_exit xs /\ exited xs = exits s1 /\
    exits s' = exits s /\ r = settle r1 (verdict xs None).
Proof.
  intros H. unfold with_exit_stack in H.
  destruct (body (mkState (log s) [])) as [r1 s1] eqn:E.
  destruct (unwind w (exits s1)
              match r1 with Ok _ => None | Raise e => Some e end
              false false (log s1)) as [[[exc se] pr] t] eqn:U.
  apply (@unwind_verdict w _ _ _ _ _ _ _ _ _ None) in U; [|auto].
  destruct U as (xs & -> & F & Hx & Hv).
  exists r1, s1, xs.
  destruct (verdict xs None) as [[[|]|e]|]; try contradiction;
    destruct Hv as [-> Hv]; subst; simpl;
    destruct r1; inversion H; subst; simpl; auto 10.
Qed.

(** A step that takes no step of the function, followed by the call of
    the function: the function is invoked at most once, last, and its
    outcome is the outcome. *)
Lemma then_invoke {A} (m : M A) fn
    (f : A -> list value) (g : A -> Dict.t value) s r s' :
  emits not_invoke m ->
  (x <- m ;; invoke fn (f x) (g x)) s = (r, s') ->
  exists evs, log s' = log s ++ evs /\ exits s' = exits (snd (m s)) /\
    ((exists pre env, evs = pre ++ [EvInvoke env r] /\ Forall not_invoke pre) \/
     ((exists e, r = Raise e) /\ Forall not_invoke evs)).
Proof.
  intros Hm H. unfold bindM in H.
  destruct (m s) as [[x|e] s1] eqn:E.
  - destruct (Hm _ _ _ E) as (pre & L & F). simpl.
    unfold invoke in H.
    destruct (bind (signature fn) (f x) (g x)) as [a|e].
    + inversion H; subst. simpl. eexists. rewrite L, <- app_assoc.
      split; [reflexivity|]. split; [reflexivity|]. left. eauto.
    + inversion H; subst. exists pre. repeat split; auto. right. eauto.
  - destruct (Hm _ _ _ E) as (pre & L & F). inversion H; subst.
    exists pre. repeat split; auto. right. eauto.
Qed.

Lemma bindM_cong {A B} (m : M A) (f g : A -> M B) s :
  (forall a s1, m s = (Ok a, s1) -> f a s1 = g a s1) ->
  bindM m f s = bindM m g s.
Proof. unfold bindM. destruct (m s) as [[a|e] s1]; auto. Qed.

Lemma emits_for_args P (items : list (M triple)) (finish : triple -> M value) :
  Forall (emits P) items -> (forall x, emits P (finish x)) ->
  emits P (for_args items finish).
Proof.
  intros Hi Hf. unfold for_args. apply emits_sequence. apply Forall_map.
  eapply Forall_impl; [|exact Hi]. intros m Hm. now apply emits_bind.
Qed.

Lemma emits_for_kwargs P (items : list (string * M triple))
    (finish : triple -> M value) :
  Forall (fun ki => emits P (snd ki)) items -> (forall x, emits P (finish x)) ->
  emits P (for_kwargs items finish).
Proof.
  intros Hi Hf. unfold for_kwargs.
  apply emits_bind; [|intros; apply emits_ret].
  apply emits_sequence. apply Forall_map.
  eapply Forall_impl; [|exact Hi]. intros [k m] Hm. simpl in *.
  apply emits_bind; auto. intros x.
  apply emits_bind; auto. intros v. apply emits_ret.
Qed.

Section W.
Variable w : world.

(** The body of the wrappers of [injects] and [injects_ctx] ends with
    the call of the function. *)
Lemma inject_body_invokes_last finish walk fn bc args_ kwargs_ s r s' :
  (forall x, emits not_invoke (finish x)) ->
  (forall slots : Dict.t slot,
     emits not_invoke
       (walk (map (fun kv => (fst kv, _call_bound_inject w (snd kv))) slots))) ->
  inject_body w finish walk fn bc args_ kwargs_ s = (r, s') ->
  exists evs, log s' = log s ++ evs /\
    ((exists pre env, evs = pre ++ [EvInvoke env r] /\ Forall not_invoke pre) \/
     ((exists e, r = Raise e) /\ Forall not_invoke evs)).
Proof.
  intros Hf Hw H.
  set (sig := signature fn) in *.
  set (pre_ :=
    ba <- try (bind_partial sig (call_args args_) (call_kwargs kwargs_)) ;;
    args_0 <- for_args
                (map (_call_bound_inject w) (args sig (Dict.update bc ba)))
                finish ;;
    kwargs_0 <- walk
                  (map (fun kv => (fst kv, _call_bound_inject w (snd kv)))
                     (kwargs sig (Dict.update bc ba))) ;;
    try (bind_partial sig args_0 kwargs_0)).
  assert (E : inject_body w finish walk fn bc args_ kwargs_ s =
              (ba <- pre_ ;; invoke fn (args sig ba) (kwargs sig ba)) s).
  { unfold inject_body, pre_, _build_bound_inject. fold sig.
    rewrite !bindM_assoc. unfold bindM at 1 5.
    destruct (try (bind_partial sig (call_args args_) (call_kwargs kwargs_)) s)
      as [[ba|e] s1]; [|reflexivity].
    rewrite !bindM_assoc. unfold bindM at 1 4.
    destruct (for_args _ finish s1) as [[vs|e] s2]; [|reflexivity].
    now rewrite !bindM_assoc. }
  rewrite E in H.
  apply (@then_invoke _ pre_ fn (args sig) (kwargs sig)) in H.
  - destruct H as (evs & L & _ & Hc). eauto.
  - unfold pre_. apply emits_bind; [apply emits_lift|]. intros ba.
    apply emits_bind.
    { apply emits_for_args; auto. apply Forall_map. apply Forall_forall.
      intros a _. apply emits_call_bound_inject.
      intros; apply not_invoke_call. }
    intros vs. apply emits_bind; auto. intros kvs. apply emits_lift.
Qed.

(** That of the wrappers of [composes] and [composes_ctx] likewise. *)
Lemma compose_body_invokes_last finish fn bc args_ kwargs_ s r s' :
  (forall x, emits not_invoke (finish x)) ->
  compose_body w finish fn bc args_ kwargs_ s = (r, s') ->
  exists evs, log s' = log s ++ evs /\
    ((exists pre env, evs = pre ++ [EvInvoke env r] /\ Forall not_invoke pre) \/
     ((exists e, r = Raise e) /\ Forall not_invoke evs)).
Proof.
  intros Hf H.
  set (sig := signature fn) in *.
  destruct (bind sig args_ kwargs_) as [ba|e] eqn:Eb.
  - set (pre_ :=
      args_0 <- for_args (fst (_build_bound_compose w sig ba bc)) finish ;;
      kwargs_0 <- for_kwargs (snd (_build_bound_compose w sig ba bc)) finish ;;
      try (bind sig args_0 kwargs_0)).
    assert (E : compose_body w finish fn bc args_ kwargs_ s =
                (ba0 <- pre_ ;; invoke fn (args sig ba0) (kwargs sig ba0)) s).
    { unfold compose_body, pre_, _compose. fold sig. rewrite Eb.
      rewrite (@bindM_ok _ _ _ _ s (_build_bound_compose w sig ba bc) s)
        by reflexivity.
      cbv beta iota zeta delta [_build_bound_compose fst snd].
      rewrite bindM_assoc. apply bindM_cong. intros vs s1 _.
      rewrite bindM_assoc. apply bindM_cong. intros kvs s2 _.
      reflexivity. }
    rewrite E in H.
    apply (@then_invoke _ pre_ fn (args sig) (kwargs sig)) in H.
    + destruct H as (evs & L & _ & Hc). eauto.
    + unfold pre_, _build_bound_compose. simpl.
      apply emits_bind.
      { apply emits_for_args; auto. apply Forall_map. apply Forall_forall.
        intros ca _. apply emits_call. intros; apply not_invoke_call. }
      intros vs. apply emits_bind; [|intros; apply emits_lift].
      apply emits_for_kwargs; auto. apply Forall_map. apply Forall_forall.
      intros ka _. simpl. apply emits_call. intros; apply not_invoke_call.
  - assert (E : compose_body w finish fn bc args_ kwargs_ s = (Raise e, s)).
    { unfold compose_body, _compose, bindM, try, lift. fold sig.
      now rewrite Eb. }
    rewrite E in H. inversion H; subst. exists []. rewrite app_nil_r.
    split; auto. right. eauto.
Qed.

Lemma ctx_finish_quiet finish :
  finish = (fun '(v, cld, _) =>
              if (cld : bool) then enter_context w v else ret v) \/
  finish = _enter w \/ finish = composes_ctx__call w ->
  forall x, emits not_invoke (finish x).
Proof.
  intros Hf [[v cld] c].
  assert (He : emits not_invoke (enter_context w v) /\
               emits not_invoke (enter_async_context w v)).
  { split; [apply emits_enter_context|apply emits_enter_async_context];
      intros; apply not_invoke_enter. }
  destruct He as [He Ha].
  destruct Hf as [->|[->| ->]]; simpl; destruct cld; simpl;
    try apply emits_ret; auto; destruct (has_aenter v); simpl; auto.
Qed.

Lemma injects_ctx_kwargs_quiet (slots : Dict.t slot) :
  emits not_invoke
    (injects_ctx_kwargs
       (map (fun kv => (fst kv, _call_bound_inject w (snd kv))) slots)).
Proof.
  unfold injects_ctx_kwargs. apply emits_bind; [|intros; apply emits_ret].
  apply emits_sequence. rewrite map_map.
  apply Forall_forall. intros m Im.
  apply in_map_iff in Im as (kv & <- & _). simpl.
  apply emits_bind;
    [apply emits_call_bound_inject; intros; apply not_invoke_call|].
  intros x. apply emits_raise.
Qed.

Lemma for_kwargs_quiet finish (slots : Dict.t slot) :
  (forall x, emits not_invoke (finish x)) ->
  emits not_invoke
    (for_kwargs
       (map (fun kv => (fst kv, _call_bound_inject w (snd kv))) slots) finish).
Proof.
  intros Hf. apply emits_for_kwargs; auto.
  apply Forall_map. apply Forall_forall. intros kv _. simpl.
  apply emits_call_bound_inject. intros; apply not_invoke_call.
Qed.

End W.

(** X1.  A call of a function decorated with [injects.ctx] or
    [composes.ctx] returns what its body ended in, as the releases
    settle it.  The body ended in the outcome [r1] of the function, which
    was invoked once, as the last step before the releases, or in an
    exception raised before the function was invoked.  If no release
    raised or returned a true value, the call returns or raises [r1]; if
    the last release that did was one that raised, the call raises what
    that release raised; if it returned a true value, an exception of the
    body is swallowed and the call returns [None]. *)
Theorem ctx_call_outcome
    (w : world) (decoration_args : list value)
    (decoration_kwargs : Dict.t value) (fn : pyfunc) (wr : wrapped)
    (args_ : list value) (kwargs_ : Dict.t value)
    (s s' : state) (r : result value) :
  injects_ctx w decoration_args decoration_kwargs fn = Ok wr \/
  composes_ctx w decoration_args decoration_kwargs fn = Ok wr ->
  wr args_ kwargs_ s = (r, s') ->
  exists evs xs r1,
    log s' = log s ++ evs ++ xs /\ Forall is_exit xs /\
    r = settle r1 (verdict xs None) /\
    ((exists pre env, evs = pre ++ [EvInvoke env r1] /\ Forall not_invoke pre) \/
     ((exists e, r1 = Raise e) /\ Forall not_invoke evs)).
Proof.
  intros [H|H] Hrun.
  - destruct (injects_ctx_shape _ _ _ _ H)
      as (bc & finish & walk & _ & -> & Hfw).
    apply with_exit_stack_inv in Hrun
      as (r1 & s1 & xs & Hbody & L & F & _ & _ & Hr).
    apply inject_body_invokes_last in Hbody.
    + destruct Hbody as (evs & L1 & Hc). simpl in L1.
      exists evs, xs, r1. rewrite L, L1, <- app_assoc. auto.
    + apply (@ctx_finish_quiet w). destruct Hfw as [[-> _]|[-> _]]; auto.
    + intros slots. destruct Hfw as [[_ ->]|[-> ->]].
      * apply injects_ctx_kwargs_quiet.
      * apply for_kwargs_quiet. apply (@ctx_finish_quiet w). auto.
  - destruct (composes_ctx_shape _ _ _ _ H) as (bc & finish & _ & -> & Hf).
    apply with_exit_stack_inv in Hrun
      as (r1 & s1 & xs & Hbody & L & F & _ & _ & Hr).
    apply compose_body_invokes_last in Hbody.
    + destruct Hbody as (evs & L1 & Hc). simpl in L1.
      exists evs, xs, r1. rewrite L, L1, <- app_assoc. auto.
    + apply (@ctx_finish_quiet w). destruct Hf as [->| ->]; auto.
Qed.

Import Examples.

Lemma ctx_call_outcome_witness :
  let wr := injects_ctx_fn ex_world foo1 [("arg1", One (_bindwrap ctx))] in
  let r := Ok (int 7) in
  let s' := mkState [EvCall ctx [] (Ok ctx_manager);
                     EvEnter true ctx_manager (Ok (int 7));
                     EvInvoke [("arg1", One (int 7))] (Ok (int 7));
                     EvExit true ctx_manager None (Ok false)] [] in
  (injects_ctx ex_world [ctx] [] foo1 = Ok wr \/
   composes_ctx ex_world [ctx] [] foo1 = Ok wr) /\
  wr [] [] start = (r, s') /\
  exists evs xs r1,
    log s' = log start ++ evs ++ xs /\ Forall is_exit xs /\
    r = settle r1 (verdict xs None) /\
    ((exists pre env, evs = pre ++ [EvInvoke env r1] /\ Forall not_invoke pre) \/
     ((exists e, r1 = Raise e) /\ Forall not_invoke evs)).
Proof.
  intros wr r s'.
  assert (H1 : injects_ctx ex_world [ctx] [] foo1 = Ok wr \/
               composes_ctx ex_world [ctx] [] foo1 = Ok wr)
    by (left; reflexivity).
  assert (H2 : wr [] [] start = (r, s')) by reflexivity.
  split; [exact H1|]. split; [exact H2|].
  exact (@ctx_call_outcome ex_world [ctx] [] foo1 wr [] [] start s' r H1 H2).
Defined.

End CtxOutcome.

(* ===================================================================== *)
(** ** injects and injects.ctx: what the function receives *)
(* ===================================================================== *)

Module Received.
Import Inspect Wf DictFacts BinderFacts Rebind BindSpec BindMore Natural Run
  RebindRelated InjectFacts InjectClaims InjectRun InjectReceives Steps
  ExitStack MismatchClaims CtxOutcome Examples.
Local Open Scope py_scope.

Section R.
Variable R : slot -> value -> Prop.

(** The entry of a parameter in a binding of values that stand for
    others. *)
Lemma related_one (Z : arguments (Related.t R)) k a :
  Dict.get (map_arguments (@Related.before _ _ R) Z) k = Some (One a) ->
  exists v,
    Dict.get (map_arguments (@Related.after _ _ R) Z) k = Some (One v) /\
    R a v.
Proof.
  rewrite !get_map_arguments.
  destruct (Dict.get Z k) as [[[[a' v] H]|ts|kts]|]; simpl; try discriminate.
  unfold Related.before, Related.after. simpl in *.
  intros [= ->]. eauto.
Qed.

Lemma related_none (Z : arguments (Related.t R)) k :
  Dict.get (map_arguments (@Related.before _ _ R) Z) k = None ->
  Dict.get (map_arguments (@Related.after _ _ R) Z) k = None.
Proof.
  rewrite !get_map_arguments. now destruct (Dict.get Z k).
Qed.

(** A value that stands for a value of the call is that value. *)
Lemma related_arg (Z : arguments (Related.t R)) k (x : argval value) :
  (forall u v, R (Arg u) v -> v = u) ->
  Dict.get (map_arguments (@Related.before _ _ R) Z) k
    = Some (map_argval Arg x) ->
  Dict.get (map_arguments (@Related.after _ _ R) Z) k = Some x.
Proof.
  intros HR. rewrite !get_map_arguments.
  destruct (Dict.get Z k) as [z|]; simpl; [|discriminate].
  intros [= E]. f_equal.
  assert (Hone : forall (t : Related.t R) u,
            Related.before t = Arg u -> Related.after t = u).
  { intros [[a v] H] u Ea. unfold Related.before, Related.after in *.
    simpl in *. subst a. now apply HR. }
  destruct z as [t|ts|kts], x as [u|us|kus]; simpl in *; try discriminate.
  - injection E as E. f_equal. auto.
  - injection E as E. f_equal. revert us E.
    induction ts as [|t ts IH]; intros [|u us] E; simpl in *;
      try discriminate; auto.
    injection E as E1 E2. f_equal; auto.
  - injection E as E. f_equal. revert kus E.
    induction kts as [|[k0 t] kts IH]; intros [|[k' u] kus] E; simpl in *;
      try discriminate; auto.
    injection E as E0 E1 E2. subst. f_equal; auto. f_equal. auto.
Qed.
End R.

(** The entry of a parameter in the merged binding. *)
Lemma merged_entry sig (bc : arguments slot) (ba : arguments value) kwargs_
    args_ p :
  wf_sig sig = true -> wf_kwargs kwargs_ = true ->
  bind_partial sig args_ kwargs_ = Ok ba -> In p sig ->
  Dict.get (restrict sig (Dict.update bc (map_arguments Arg ba))) (name p) =
  match Dict.get ba (name p) with
  | Some x => Some (map_argval Arg x)
  | None => Dict.get bc (name p)
  end.
Proof.
  intros Hwf Hkw Hba Ip.
  assert (Hnd : NoDup (map name sig)).
  { unfold wf_sig in Hwf. apply andb_true_iff in Hwf as [Hwf _].
    now apply nodupb_NoDup. }
  rewrite get_restrict by auto. rewrite get_update.
  - rewrite get_map_arguments. now destruct (Dict.get ba (name p)).
  - unfold map_arguments. rewrite keys_map_values.
    apply wf_kwargs_NoDup in Hkw.
    now destruct (@bind_ok _ true _ _ _ _ Hwf Hkw Hba) as (_ & ? & _).
Qed.

(** One call of a wrapper of [injects]. *)
Lemma injects_run_received w fn injector_args injector_kwargs wr bc
    args_ kwargs_ ba s r s' :
  let sig := signature fn in
  wf_sig sig = true -> wf_kwargs kwargs_ = true ->
  injects w injector_args injector_kwargs fn = Ok wr ->
  bind_injectors sig injector_args injector_kwargs = Ok bc ->
  bind_partial sig args_ kwargs_ = Ok ba ->
  wr args_ kwargs_ s = (r, s') ->
  exists evs, log s' = log s ++ evs /\
    ((exists e, r = Raise e /\ Forall not_invoke evs) \/
     (exists pre (Z : arguments (Related.t (received_from pre))),
        evs = pre ++ [EvInvoke
                        (apply_defaults sig
                           (map_arguments
                              (@Related.after _ _ (received_from pre)) Z))
                        r] /\
        Forall not_invoke pre /\
        restrict sig (Dict.update bc (map_arguments Arg ba)) =
          map_arguments (@Related.before _ _ (received_from pre)) Z)).
Proof.
  intros sig Hwf Hkw Hinj Hbc Hba Hrun.
  destruct (injects_cases _ _ _ _ Hinj) as (bc' & finish & Hbc' & -> & Hfin).
  fold sig in Hbc'. rewrite Hbc in Hbc'. injection Hbc' as <-.
  pose proof (bind_injectors_ok _ _ _ Hwf Hbc) as Hokbc.
  assert (He : forall x, emits not_invoke (finish x)).
  { intros [[v c] awt]. destruct Hfin as [->| ->].
    - apply emits_ret.
    - destruct (iscoroutine awt); [|apply emits_ret].
      apply emits_py_await. intros; apply not_invoke_await. }
  assert (Hitem : forall a s0 v s1,
            (x <- _call_bound_inject w a ;; finish x) s0 = (Ok v, s1) ->
            exists evs, log s1 = log s0 ++ evs /\ received_from evs a v).
  { intros a s0 v s1. now apply inject_item_received. }
  apply (@inject_body_received w received_from finish
           (fun items => for_kwargs items finish)
           received_from_mono Hitem He
           (@for_kwargs_received w received_from finish
              received_from_mono Hitem He)
           fn bc args_ kwargs_ ba s r s' Hwf Hkw Hokbc Hba Hrun).
Qed.

(** One call of the body of a wrapper of [injects_ctx]. *)
Lemma ctx_body_received w finish walk fn bc args_ kwargs_ ba s r s' :
  let sig := signature fn in
  (finish = (fun '(v, cld, _) =>
               if (cld : bool) then enter_context w v else ret v) /\
   walk = injects_ctx_kwargs) \/
  (finish = _enter w /\ walk = (fun items => for_kwargs items (_enter w))) ->
  wf_sig sig = true -> wf_kwargs kwargs_ = true -> ok sig bc ->
  bind_partial sig args_ kwargs_ = Ok ba ->
  inject_body w finish walk fn bc args_ kwargs_ s = (r, s') ->
  exists evs, log s' = log s ++ evs /\
    ((exists e, r = Raise e /\ Forall not_invoke evs) \/
     (exists pre (Z : arguments (Related.t (entered_from pre))),
        evs = pre ++ [EvInvoke
                        (apply_defaults sig
                           (map_arguments
                              (@Related.after _ _ (entered_from pre)) Z))
                        r] /\
        Forall not_invoke pre /\
        restrict sig (Dict.update bc (map_arguments Arg ba)) =
          map_arguments (@Related.before _ _ (entered_from pre)) Z)).
Proof.
  intros sig Hfw Hwf Hkw Hokbc Hba Hbody.
  assert (Hf : finish = (fun '(v, cld, _) =>
                           if (cld : bool) then enter_context w v else ret v) \/
               finish = _enter w)
    by (destruct Hfw as [[-> _]|[-> _]]; auto).
  assert (He : forall x, emits not_invoke (finish x)).
  { apply (@ctx_finish_quiet w). tauto. }
  assert (Hitem : forall a s0 v s2,
            (x <- _call_bound_inject w a ;; finish x) s0 = (Ok v, s2) ->
            exists evs, log s2 = log s0 ++ evs /\ entered_from evs a v).
  { intros a s0 v s2. now apply inject_ctx_item_entered. }
  assert (Hwalk : forall slots : Dict.t slot,
    let items := map (fun kv => (fst kv, _call_bound_inject w (snd kv))) slots in
    emits not_invoke (walk items) /\
    (NoDup (Dict.keys slots) -> forall s0 kvs s2,
       walk items s0 = (Ok kvs, s2) ->
       exists evs, log s2 = log s0 ++ evs /\
         Forall2 (fun kv kw => fst kv = fst kw /\
                    entered_from evs (snd kv) (snd kw)) slots kvs)).
  { destruct Hfw as [[_ ->]|[Ef ->]].
    - intros slots. apply injects_ctx_kwargs_received.
    - subst finish. intros slots.
      apply (@for_kwargs_received w entered_from (_enter w)
               entered_from_mono Hitem He). }
  exact (@inject_body_received w entered_from finish walk
           entered_from_mono Hitem He Hwalk
           fn bc args_ kwargs_ ba s r s' Hwf Hkw Hokbc Hba Hbody).
Qed.


(** X2.  A parameter that the call gives no value and for which the table
    of [injects] holds a callable: the function, if it is invoked,
    receives what a call of that callable, made without arguments before
    the function was invoked, returned. *)
Theorem injects_receives_injector_result
    (w : world) (fn : pyfunc) (injector_args : list value)
    (injector_kwargs : Dict.t value) (wr : wrapped) (bc : arguments slot)
    (args_ : list value) (kwargs_ : Dict.t value) (ba : arguments value)
    (p : Param) (val : value) (s s' : state) (r : result value) :
  wf_sig (signature fn) = true ->
  wf_kwargs kwargs_ = true ->
  injects w injector_args injector_kwargs fn = Ok wr ->
  bind_injectors (signature fn) injector_args injector_kwargs = Ok bc ->
  bind_partial (signature fn) args_ kwargs_ = Ok ba ->
  In p (signature fn) ->
  Dict.get ba (name p) = None ->
  Dict.get bc (name p) = Some (One (_bindwrap val)) ->
  callable val = true ->
  wr args_ kwargs_ s = (r, s') ->
  exists evs, log s' = log s ++ evs /\
    ((exists e, r = Raise e /\ Forall not_invoke evs) \/
     (exists pre env v,
        evs = pre ++ [EvInvoke env r] /\ Forall not_invoke pre /\
        In (EvCall val [] (Ok v)) pre /\
        Dict.get env (name p) = Some (One v))).
Proof.
  intros Hwf Hkw Hinj Hbc Hba Ip Ha Hc Hcal Hrun.
  destruct (@injects_run_received w fn injector_args injector_kwargs wr bc
              args_ kwargs_ ba s r s' Hwf Hkw Hinj Hbc Hba Hrun)
    as (evs & L & [Hr|(pre & Z & E & F & HZ)]).
  - exists evs. auto.
  - exists evs. split; auto. right.
    pose proof (@merged_entry (signature fn) bc ba kwargs_ args_ p
                  Hwf Hkw Hba Ip) as Hg.
    rewrite Ha, Hc, HZ in Hg.
    apply related_one in Hg as (v & Hv & Hrel).
    simpl in Hrel. rewrite Hcal in Hrel.
    exists pre. eexists. exists v. split; [exact E|]. repeat split; auto.
    assert (Hnd : NoDup (map name (signature fn))).
    { unfold wf_sig in Hwf. apply andb_true_iff in Hwf as [Hwf _].
      now apply nodupb_NoDup. }
    rewrite get_apply_defaults by auto. now rewrite Hv.
Qed.

(** X3.  A parameter that neither the call nor the table of [injects]
    gives a value: the function, if it is invoked, receives what its
    declaration alone gives the parameter (its default, the empty tuple
    for [*args], the empty dict for [**kwargs]). *)
Theorem injects_leaves_declared_default
    (w : world) (fn : pyfunc) (injector_args : list value)
    (injector_kwargs : Dict.t value) (wr : wrapped) (bc : arguments slot)
    (args_ : list value) (kwargs_ : Dict.t value) (ba : arguments value)
    (p : Param) (s s' : state) (r : result value) :
  wf_sig (signature fn) = true ->
  wf_kwargs kwargs_ = true ->
  injects w injector_args injector_kwargs fn = Ok wr ->
  bind_injectors (signature fn) injector_args injector_kwargs = Ok bc ->
  bind_partial (signature fn) args_ kwargs_ = Ok ba ->
  In p (signature fn) ->
  Dict.get ba (name p) = None ->
  Dict.get bc (name p) = None ->
  wr args_ kwargs_ s = (r, s') ->
  exists evs, log s' = log s ++ evs /\
    ((exists e, r = Raise e /\ Forall not_invoke evs) \/
     (exists pre env,
        evs = pre ++ [EvInvoke env r] /\ Forall not_invoke pre /\
        Dict.get env (name p) =
        Dict.get (apply_defaults (signature fn) []) (name p))).
Proof.
  intros Hwf Hkw Hinj Hbc Hba Ip Ha Hc Hrun.
  destruct (@injects_run_received w fn injector_args injector_kwargs wr bc
              args_ kwargs_ ba s r s' Hwf Hkw Hinj Hbc Hba Hrun)
    as (evs & L & [Hr|(pre & Z & E & F & HZ)]).
  - exists evs. auto.
  - exists evs. split; auto. right.
    pose proof (@merged_entry (signature fn) bc ba kwargs_ args_ p
                  Hwf Hkw Hba Ip) as Hg.
    rewrite Ha, Hc, HZ in Hg. apply related_none in Hg.
    exists pre. eexists. split; [exact E|]. split; auto.
    assert (Hnd : NoDup (map name (signature fn))).
    { unfold wf_sig in Hwf. apply andb_true_iff in Hwf as [Hwf _].
      now apply nodupb_NoDup. }
    rewrite !get_apply_defaults by auto. now rewrite Hg.
Qed.

(** X4.  In a call of a function decorated with [injects.ctx], whose
    steps are steps [evs] followed by the releases [xs]: the function, if
    it is invoked, receives for a parameter the value the call gives it,
    as it is; for a parameter left to the table, what entering the
    context manager that a call of the table's callable returned gave, or
    the table's value itself if it is not callable. *)
Theorem injects_ctx_receives
    (w : world) (fn : pyfunc) (injector_args : list value)
    (injector_kwargs : Dict.t value) (wr : wrapped) (bc : arguments slot)
    (args_ : list value) (kwargs_ : Dict.t value) (ba : arguments value)
    (p : Param) (s s' : state) (r : result value) :
  wf_sig (signature fn) = true ->
  wf_kwargs kwargs_ = true ->
  injects_ctx w injector_args injector_kwargs fn = Ok wr ->
  bind_injectors (signature fn) injector_args injector_kwargs = Ok bc ->
  bind_partial (signature fn) args_ kwargs_ = Ok ba ->
  In p (signature fn) ->
  wr args_ kwargs_ s = (r, s') ->
  exists evs xs, log s' = log s ++ evs ++ xs /\ Forall is_exit xs /\
    (Forall not_invoke evs \/
     (exists pre env r1,
        evs = pre ++ [EvInvoke env r1] /\ Forall not_invoke pre /\
        (forall x, Dict.get ba (name p) = Some x ->
           Dict.get env (name p) = Some x) /\
        (forall val, Dict.get ba (name p) = None ->
           Dict.get bc (name p) = Some (One (_bindwrap val)) ->
           exists v, Dict.get env (name p) = Some (One v) /\
             entered_from pre (_bindwrap val) v))).
Proof.
  intros Hwf Hkw Hinj Hbc Hba Ip Hrun.
  destruct (injects_ctx_shape _ _ _ _ Hinj)
    as (bc' & finish & walk & Hbc' & -> & Hfw).
  rewrite Hbc in Hbc'. injection Hbc' as <-.
  pose proof (bind_injectors_ok _ _ _ Hwf Hbc) as Hokbc.
  apply with_exit_stack_inv in Hrun
    as (r1 & s1 & xs & Hbody & L & F & _ & _ & Hr).
  destruct (@ctx_body_received w finish walk fn bc args_ kwargs_ ba _ r1 s1
              Hfw Hwf Hkw Hokbc Hba Hbody)
    as (evs & L1 & [(e & -> & Fe)|(pre & Z & E & Fp & HZ)]).
  - exists evs, xs. simpl in L1. rewrite L, L1, <- app_assoc. auto.
  - exists evs, xs. simpl in L1. rewrite L, L1, <- app_assoc.
    split; auto. split; auto. right.
    assert (Hnd : NoDup (map name (signature fn))).
    { unfold wf_sig in Hwf. apply andb_true_iff in Hwf as [Hwf' _].
      now apply nodupb_NoDup. }
    pose proof (@merged_entry (signature fn) bc ba kwargs_ args_ p
                  Hwf Hkw Hba Ip) as Hg.
    rewrite HZ in Hg.
    exists pre. eexists. exists r1. split; [exact E|]. split; auto. split.
    + intros x Hx. rewrite Hx in Hg.
      rewrite get_apply_defaults by auto.
      rewrite (@related_arg _ Z (name p) x); auto.
    + intros val Ha Hc. rewrite Ha, Hc in Hg.
      apply related_one in Hg as (v & Hv & Hrel).
      exists v. split; auto.
      rewrite get_apply_defaults by auto. now rewrite Hv.
Qed.

Import Examples.

Lemma injects_receives_injector_result_witness :
  let bc := [("arg1", One (_bindwrap lambda_7));
             ("arg2", One (_bindwrap (int 6)));
             ("arg3", One (_bindwrap (int 5)))] in
  let wr := injects_fn ex_world foo3 bc in
  let p := pok "arg1" None in
  let r := Ok (triple_of (int 7) (int 6) (int 5)) in
  let s' := mkState [EvCall lambda_7 [] (Ok (int 7));
                     EvInvoke [("arg1", One (int 7)); ("arg2", One (int 6));
                               ("arg3", One (int 5))] r] [] in
  wf_sig (signature foo3) = true /\
  wf_kwargs (V := value) [] = true /\
  injected_foo3 = Ok wr /\
  bind_injectors (signature foo3) []
    [("arg1", lambda_7); ("arg2", int 6); ("arg3", int 5)] = Ok bc /\
  bind_partial (V := value) (signature foo3) [] [] = Ok [] /\
  In p (signature foo3) /\
  Dict.get (V := argval value) [] (name p) = None /\
  Dict.get bc (name p) = Some (One (_bindwrap lambda_7)) /\
  callable lambda_7 = true /\
  wr [] [] start = (r, s') /\
  exists evs, log s' = log start ++ evs /\
    ((exists e, r = Raise e /\ Forall not_invoke evs) \/
     (exists pre env v,
        evs = pre ++ [EvInvoke env r] /\ Forall not_invoke pre /\
        In (EvCall lambda_7 [] (Ok v)) pre /\
        Dict.get env (name p) = Some (One v))).
Proof.
  intros bc wr p r s'.
  assert (Hwr : injected_foo3 = Ok wr) by reflexivity.
  assert (Hp : In p (signature foo3)) by (left; reflexivity).
  assert (Hrun : wr [] [] start = (r, s')) by reflexivity.
  repeat (split; [first [reflexivity | exact Hp | exact Hwr | exact Hrun]|]).
  exact (@injects_receives_injector_result ex_world foo3 []
           [("arg1", lambda_7); ("arg2", int 6); ("arg3", int 5)] wr bc
           [] [] [] p lambda_7 start s' r
           eq_refl eq_refl Hwr eq_refl eq_refl Hp eq_refl eq_refl eq_refl Hrun).
Defined.

Lemma injects_leaves_declared_default_witness :
  let bc := [("x", One (_bindwrap lambda_7))] in
  let wr := injects_fn ex_world foo2 bc in
  let p := pok "y" (Some (int 2)) in
  let r := Ok (pair_of (int 7) (int 2)) in
  let s' := mkState [EvCall lambda_7 [] (Ok (int 7));
                     EvInvoke [("x", One (int 7)); ("y", One (int 2))] r] [] in
  wf_sig (signature foo2) = true /\
  wf_kwargs (V := value) [] = true /\
  injects ex_world [lambda_7] [] foo2 = Ok wr /\
  bind_injectors (signature foo2) [lambda_7] [] = Ok bc /\
  bind_partial (V := value) (signature foo2) [] [] = Ok [] /\
  In p (signature foo2) /\
  Dict.get (V := argval value) [] (name p) = None /\
  Dict.get bc (name p) = None /\
  wr [] [] start = (r, s') /\
  exists evs, log s' = log start ++ evs /\
    ((exists e, r = Raise e /\ Forall not_invoke evs) \/
     (exists pre env,
        evs = pre ++ [EvInvoke env r] /\ Forall not_invoke pre /\
        Dict.get env (name p) =
        Dict.get (apply_defaults (signature foo2) []) (name p))).
Proof.
  intros bc wr p r s'.
  assert (Hwr : injects ex_world [lambda_7] [] foo2 = Ok wr) by reflexivity.
  assert (Hp : In p (signature foo2)) by (right; left; reflexivity).
  assert (Hrun : wr [] [] start = (r, s')) by reflexivity.
  repeat (split; [first [reflexivity | exact Hp | exact Hwr | exact Hrun]|]).
  exact (@injects_leaves_declared_default ex_world foo2 [lambda_7] [] wr bc
           [] [] [] p start s' r
           eq_refl eq_refl Hwr eq_refl eq_refl Hp eq_refl eq_refl Hrun).
Defined.

Lemma injects_ctx_receives_witness :
  let bc := [("arg1", One (_bindwrap ctx))] in
  let wr := injects_ctx_fn ex_world foo1 bc in
  let p := pok "arg1" None in
  let r := Ok (int 7) in
  let s' := mkState [EvCall ctx [] (Ok ctx_manager);
                     EvEnter true ctx_manager (Ok (int 7));
                     EvInvoke [("arg1", One (int 7))] (Ok (int 7));
                     EvExit true ctx_manager None (Ok false)] [] in
  wf_sig (signature foo1) = true /\
  wf_kwargs (V := value) [] = true /\
  injects_ctx ex_world [ctx] [] foo1 = Ok wr /\
  bind_injectors (signature foo1) [ctx] [] = Ok bc /\
  bind_partial (V := value) (signature foo1) [] [] = Ok [] /\
  In p (signature foo1) /\
  wr [] [] start = (r, s') /\
  exists evs xs, log s' = log start ++ evs ++ xs /\ Forall is_exit xs /\
    (Forall not_invoke evs \/
     (exists pre env r1,
        evs = pre ++ [EvInvoke env r1] /\ Forall not_invoke pre /\
        (forall x, Dict.get (V := argval value) [] (name p) = Some x ->
           Dict.get env (name p) = Some x) /\
        (forall val, Dict.get (V := argval value) [] (name p) = None ->
           Dict.get bc (name p) = Some (One (_bindwrap val)) ->
           exists v, Dict.get env (name p) = Some (One v) /\
             entered_from pre (_bindwrap val) v))).
Proof.
  intros bc wr p r s'.
  assert (Hwr : injects_ctx ex_world [ctx] [] foo1 = Ok wr) by reflexivity.
  assert (Hp : In p (signature foo1)) by (left; reflexivity).
  assert (Hrun : wr [] [] start = (r, s')) by reflexivity.
  repeat (split; [first [reflexivity | exact Hp | exact Hwr | exact Hrun]|]).
  exact (@injects_ctx_receives ex_world foo1 [ctx] [] wr bc
           [] [] [] p start s' r
           eq_refl eq_refl Hwr eq_refl eq_refl Hp Hrun).
Defined.

End Received.

(* ===================================================================== *)
(** ** injects and injects.ctx: the calls a call makes *)
(* ===================================================================== *)

Module Calls.
Import Inspect Wf DictFacts Natural Run InjectFacts ComposeFacts Steps
  ExitStack MismatchClaims CtxOutcome.
Local Open Scope py_scope.

Lemma called_app a b : called (a ++ b) = called a ++ called b.
Proof. apply flat_map_app. Qed.

Lemma called_exits xs : Forall is_exit xs -> called xs = [].
Proof.
  induction 1 as [|ev xs Hev _ IH]; simpl; auto.
  destruct ev; simpl in Hev; try contradiction. exact IH.
Qed.

(** The calls of a list of steps that all end well are those of each
    step, one step after the other. *)
Lemma sequence_called {A B} (step : B -> M A)
    (cf : B -> list (value * list value)) :
  (forall b s a s', step b s = (Ok a, s') ->
     exists evs, log s' = log s ++ evs /\ called evs = cf b) ->
  forall bs s xs s', sequence (map step bs) s = (Ok xs, s') ->
    exists evs, log s' = log s ++ evs /\ called evs = flat_map cf bs.
Proof.
  intros Hstep. induction bs as [|b bs IH]; simpl; intros s xs s' H.
  - inversion H; subst. exists []. now rewrite app_nil_r.
  - apply bindM_inv in H as [(e & _ & [=])|(a & s1 & Ha & H)].
    apply bindM_inv in H as [(e & _ & [=])|(rest & s2 & Hr & H)].
    inversion H; subst. clear H.
    destruct (Hstep _ _ _ _ Ha) as (ev1 & L1 & C1).
    destruct (IH _ _ _ Hr) as (ev2 & L2 & C2).
    exists (ev1 ++ ev2). split; [now rewrite L2, L1, app_assoc|].
    now rewrite called_app, C1, C2.
Qed.

Lemma called_not_call evs : Forall not_call evs -> called evs = [].
Proof.
  induction 1 as [|ev evs Hev _ IH]; simpl; auto.
  destruct ev; simpl in Hev; try contradiction; exact IH.
Qed.

Lemma injector_calls_flat (l : list slot) :
  flat_map (fun a => injector_calls [a]) l = injector_calls l.
Proof.
  induction l as [|a l IH]; [reflexivity|].
  change (injector_calls [a] ++ flat_map (fun a => injector_calls [a]) l
          = injector_calls (a :: l)).
  rewrite IH. unfold injector_calls. simpl. now rewrite app_nil_r.
Qed.

Lemma composer_calls_flat (l : list (value * value)) :
  flat_map (fun ca => composer_calls [ca]) l = composer_calls l.
Proof.
  induction l as [|a l IH]; [reflexivity|].
  change (composer_calls [a] ++ flat_map (fun ca => composer_calls [ca]) l
          = composer_calls (a :: l)).
  rewrite IH. unfold composer_calls. simpl. now rewrite app_nil_r.
Qed.

Lemma injector_calls_app l1 l2 :
  injector_calls (l1 ++ l2) = injector_calls l1 ++ injector_calls l2.
Proof. apply flat_map_app. Qed.

Lemma composer_calls_app l1 l2 :
  composer_calls (l1 ++ l2) = composer_calls l1 ++ composer_calls l2.
Proof. apply flat_map_app. Qed.

Section W.
Variable w : world.

(** The finishing steps of the wrappers make no call. *)
Lemma finish_not_call finish :
  finish = (fun '(v, _, _) => ret v) \/
  finish = (fun '(v, _, awt) =>
              if iscoroutine awt then py_await w v else ret v) \/
  finish = (fun '(v, cld, _) =>
              if (cld : bool) then enter_context w v else ret v) \/
  finish = _enter w \/ finish = composes_ctx__call w ->
  forall x, emits not_call (finish x) /\ emits not_invoke (finish x).
Proof.
  intros Hf [[v cld] c].
  assert (He : forall P, (forall b cm r, P (EvEnter b cm r)) ->
            emits P (enter_context w v) /\
            emits P (enter_async_context w v)).
  { intros P HP.
    split; [apply emits_enter_context|apply emits_enter_async_context];
      intros; apply HP. }
  destruct (He not_call) as [E1 E2]; [intros; exact I|].
  destruct (He not_invoke) as [E3 E4]; [intros; apply not_invoke_enter|].
  assert (Hr : forall P, emits P (ret v)) by (intros; apply emits_ret).
  destruct Hf as [->|[->|[->|[->| ->]]]]; simpl.
  - auto.
  - destruct (iscoroutine c); auto.
    split; apply emits_py_await; intros; [exact I|apply not_invoke_await].
  - destruct cld; auto.
  - destruct cld; simpl; auto. destruct (has_aenter v); simpl; auto.
  - destruct cld; simpl; auto. destruct (has_aenter v); simpl; auto.
Qed.

(** An item of a wrapper of [injects] or [injects_ctx] that ends well
    has made the call its element of the merge stands for. *)
Lemma inject_item_called (finish : triple -> M value) a s v s' :
  (forall x, emits not_call (finish x)) ->
  (x <- _call_bound_inject w a ;; finish x) s = (Ok v, s') ->
  exists evs, log s' = log s ++ evs /\ called evs = injector_calls [a].
Proof.
  intros Hf H.
  apply bindM_inv in H as [(e & _ & [=])|(x & s1 & Hx & H)].
  destruct (Hf _ _ _ _ H) as (ev2 & L2 & F2).
  apply called_not_call in F2.
  destruct a as [u|val]; simpl in Hx.
  - inversion Hx; subst. exists ev2. auto.
  - simpl. destruct (callable val) eqn:Hc; simpl in Hx.
    + unfold bindM, py_call in Hx. rewrite Hc in Hx.
      destruct (call_ w (log s) val []) as [y|e] eqn:Ecall; [|discriminate].
      inversion Hx; subst. simpl in L2.
      exists (EvCall val [] (Ok y) :: ev2).
      split; [rewrite L2, <- app_assoc; reflexivity|].
      simpl. now rewrite F2.
    + inversion Hx; subst. exists ev2. auto.
Qed.

(** An item of a wrapper of [composes] or [composes_ctx] likewise. *)
Lemma compose_item_called (finish : triple -> M value) c a s v s' :
  (forall x, emits not_call (finish x)) ->
  (x <- _call w c a ;; finish x) s = (Ok v, s') ->
  exists evs, log s' = log s ++ evs /\ called evs = composer_calls [(c, a)].
Proof.
  intros Hf H.
  apply bindM_inv in H as [(e & _ & [=])|(x & s1 & Hx & H)].
  destruct (Hf _ _ _ _ H) as (ev2 & L2 & F2).
  apply called_not_call in F2.
  unfold _call in Hx. unfold composer_calls. simpl.
  destruct (is_ c a || is_ c VNone).
  - inversion Hx; subst. exists ev2. auto.
  - unfold bindM, py_call in Hx.
    destruct (callable c); [|discriminate].
    destruct (call_ w (log s) c [a]) as [y|e] eqn:Ecall; [|discriminate].
    inversion Hx; subst. simpl in L2.
    exists (EvCall c [a] (Ok y) :: ev2).
    split; [rewrite L2, <- app_assoc; reflexivity|].
    simpl. now rewrite F2.
Qed.

(** The calls of a comprehension over items that all end well. *)
Lemma for_args_called {B} (mk : B -> M triple)
    (cf : B -> list (value * list value)) (finish : triple -> M value)
    bs s vs s' :
  (forall b s0 v s1, (x <- mk b ;; finish x) s0 = (Ok v, s1) ->
     exists evs, log s1 = log s0 ++ evs /\ called evs = cf b) ->
  for_args (map mk bs) finish s = (Ok vs, s') ->
  exists evs, log s' = log s ++ evs /\ called evs = flat_map cf bs.
Proof.
  intros Hitem H. unfold for_args in H. rewrite map_map in H.
  eapply sequence_called; [|exact H]. exact Hitem.
Qed.

Lemma for_kwargs_called {B} (mk : B -> string * M triple)
    (cf : B -> list (value * list value)) (finish : triple -> M value)
    bs s kvs s' :
  (forall b s0 v s1, (x <- snd (mk b) ;; finish x) s0 = (Ok v, s1) ->
     exists evs, log s1 = log s0 ++ evs /\ called evs = cf b) ->
  for_kwargs (map mk bs) finish s = (Ok kvs, s') ->
  exists evs, log s' = log s ++ evs /\ called evs = flat_map cf bs.
Proof.
  intros Hitem H. unfold for_kwargs in H. rewrite map_map in H.
  apply bindM_inv in H as [(e & _ & [=])|(its & s1 & H1 & H2)].
  inversion H2; subst. clear H2.
  eapply sequence_called; [|exact H1].
  intros b s0 [k v] s1 Hs. simpl in Hs.
  apply bindM_inv in Hs as [(e & _ & [=])|(x & s2 & Hx & Hs)].
  apply bindM_inv in Hs as [(e & _ & [=])|(v' & s3 & Hv & Hs)].
  inversion Hs; subst.
  apply (Hitem b s0 v s1). unfold bindM. now rewrite Hx.
Qed.

(** Binding the values again and calling the function takes no step
    but the call of the function. *)
Lemma rebind_invoke_step fn partial (vs : list value) (kvs : Dict.t value)
    s r s' :
  (ba <- try (_bind (signature fn) vs kvs partial) ;;
   invoke fn (args (signature fn) ba) (kwargs (signature fn) ba)) s = (r, s') ->
  ((exists e, r = Raise e) /\ s' = s) \/
  (exists env, log s' = log s ++ [EvInvoke env r] /\ exits s' = exits s).
Proof.
  unfold bindM, try, lift.
  destruct (_bind (signature fn) vs kvs partial) as [ba|e].
  - unfold invoke.
    destruct (bind (signature fn) (args (signature fn) ba)
                (kwargs (signature fn) ba)) as [a|e].
    + intros H. inversion H; subst. right. simpl. eauto.
    + intros H. inversion H; subst. left. eauto.
  - intros H. inversion H; subst. left. eauto.
Qed.

(** The body of the wrappers of [injects] and [injects_ctx]: if the
    function is invoked, the calls made before are those the merged
    binding stands for, positional part first. *)
Lemma inject_body_calls finish walk fn bc args_ kwargs_ ba s r s' :
  (forall x, emits not_call (finish x) /\ emits not_invoke (finish x)) ->
  walk = (fun items => for_kwargs items finish) \/ walk = injects_ctx_kwargs ->
  bind_partial (signature fn) args_ kwargs_ = Ok ba ->
  inject_body w finish walk fn bc args_ kwargs_ s = (r, s') ->
  let bb := Dict.update bc (map_arguments Arg ba) in
  exists evs, log s' = log s ++ evs /\
    (((exists e, r = Raise e) /\ Forall not_invoke evs) \/
     (exists pre env,
        evs = pre ++ [EvInvoke env r] /\
        called pre = injector_calls (args (signature fn) bb ++
                                     map snd (kwargs (signature fn) bb)))).
Proof.
  intros Hf Hwalk Hba H bb.
  assert (Hfc : forall x, emits not_call (finish x)) by (intros; apply Hf).
  assert (Hfi : forall x, emits not_invoke (finish x)) by (intros; apply Hf).
  assert (Hw : forall slots : Dict.t slot,
            emits not_invoke
              (walk (map (fun kv => (fst kv, _call_bound_inject w (snd kv)))
                       slots))).
  { intros slots. destruct Hwalk as [->| ->].
    - now apply for_kwargs_quiet.
    - apply injects_ctx_kwargs_quiet. }
  unfold inject_body in H.
  rewrite call_binding, Hba in H. simpl in H.
  unfold bindM at 1, try, lift in H. simpl in H.
  fold bb in H.
  apply bindM_inv in H as [(e & H & ->)|(vs & s1 & H1 & H)].
  { assert (Hem : emits not_invoke
              (for_args (map (_call_bound_inject w)
                           (args (signature fn) bb)) finish)).
    { apply emits_for_args; auto. apply Forall_map. apply Forall_forall.
      intros a _. apply emits_call_bound_inject.
      intros; apply not_invoke_call. }
    destruct (Hem _ _ _ H) as (evs & L & F). exists evs. split; eauto. }
  destruct (@for_args_called _ (_call_bound_inject w)
              (fun a => injector_calls [a]) finish _ _ _ _
              (fun b s0 v s2 => @inject_item_called finish b s0 v s2 Hfc) H1)
    as (ev1 & L1 & C1).
  rewrite injector_calls_flat in C1.
  apply bindM_inv in H as [(e & H & ->)|(kvs & s2 & H2 & H)].
  { destruct (Hw _ _ _ _ H) as (ev2 & L2 & F2).
    assert (Hem : emits not_invoke
              (for_args (map (_call_bound_inject w)
                           (args (signature fn) bb)) finish)).
    { apply emits_for_args; auto. apply Forall_map. apply Forall_forall.
      intros a _. apply emits_call_bound_inject.
      intros; apply not_invoke_call. }
    destruct (Hem _ _ _ H1) as (ev1' & L1' & F1).
    exists (ev1' ++ ev2). rewrite L2, L1', app_assoc. split; auto.
    left. split; eauto. apply Forall_app. auto. }
  assert (Hk : exists ev2, log s2 = log s1 ++ ev2 /\
            called ev2 = injector_calls (map snd (kwargs (signature fn) bb))).
  { destruct Hwalk as [->| ->].
    - destruct (@for_kwargs_called _
                  (fun kv : string * slot =>
                     (fst kv, _call_bound_inject w (snd kv)))
                  (fun kv => injector_calls [snd kv]) finish _ _ _ _
                  (fun b s0 v s3 =>
                     @inject_item_called finish (snd b) s0 v s3 Hfc) H2)
        as (ev2 & L2 & C2).
      exists ev2. split; auto. rewrite C2.
      rewrite <- injector_calls_flat.
      generalize (kwargs (signature fn) bb). clear. intros l.
      induction l as [|x l IH]; [reflexivity|].
      cbn [flat_map map]. now rewrite IH.
    - destruct (kwargs (signature fn) bb) as [|[k a] slots].
      + inversion H2; subst. exists []. now rewrite app_nil_r.
      + exfalso. simpl in H2. unfold injects_ctx_kwargs in H2. simpl in H2.
        unfold bindM at 1 2 3 in H2.
        destruct (_call_bound_inject w a s1) as [[x|e] s3]; discriminate. }
  destruct Hk as (ev2 & L2 & C2).
  apply rebind_invoke_step in H.
  destruct H as [[(e & ->) ->]|(env & L3 & _)].
  - destruct (Hw _ _ _ _ H2) as (ev2' & L2' & F2).
    assert (Hem : emits not_invoke
              (for_args (map (_call_bound_inject w)
                           (args (signature fn) bb)) finish)).
    { apply emits_for_args; auto. apply Forall_map. apply Forall_forall.
      intros a _. apply emits_call_bound_inject.
      intros; apply not_invoke_call. }
    destruct (Hem _ _ _ H1) as (ev1' & L1' & F1).
    exists (ev1' ++ ev2'). rewrite L2', L1', app_assoc. split; auto.
    left. split; eauto. apply Forall_app. auto.
  - exists ((ev1 ++ ev2) ++ [EvInvoke env r]).
    split; [now rewrite L3, L2, L1, !app_assoc|].
    right. exists (ev1 ++ ev2), env. split; auto.
    now rewrite called_app, injector_calls_app, C1, C2.
Qed.

(** The body of the wrappers of [composes] and [composes_ctx]: if the
    function is invoked, the calls made before are those of the
    composers on the values of the call, positional part first. *)
Lemma compose_body_calls finish fn bc args_ kwargs_ ba s r s' :
  (forall x, emits not_call (finish x) /\ emits not_invoke (finish x)) ->
  bind (signature fn) args_ kwargs_ = Ok ba ->
  compose_body w finish fn bc args_ kwargs_ s = (r, s') ->
  let sig := signature fn in
  let bb := Dict.update ba bc in
  exists evs, log s' = log s ++ evs /\
    (((exists e, r = Raise e) /\ Forall not_invoke evs) \/
     (exists pre env,
        evs = pre ++ [EvInvoke env r] /\
        called pre =
        composer_calls
          (combine (args sig bb) (args sig ba) ++
           map (fun ka => (get_or_None (kwargs sig bb) (fst ka), snd ka))
               (kwargs sig ba)))).
Proof.
  intros Hf Hba H sig bb.
  assert (Hfc : forall x, emits not_call (finish x)) by (intros; apply Hf).
  assert (Hfi : forall x, emits not_invoke (finish x)) by (intros; apply Hf).
  destruct (@compose_body_invokes_last w finish fn bc args_ kwargs_ s r s'
              Hfi H) as (evs & L & Hc).
  exists evs. split; auto.
  destruct Hc as [(pre & env & E & F)|Hc]; [|now left].
  right. exists pre, env. split; auto.
  (* the steps before the call of the function *)
  unfold compose_body, _compose in H. rewrite Hba in H. fold sig in H.
  rewrite (@bindM_ok _ _ _ _ s (_build_bound_compose w sig ba bc) s) in H
    by reflexivity.
  cbv beta iota zeta delta [_build_bound_compose fst snd] in H.
  fold bb in H.
  apply bindM_inv in H as [(e & H & ->)|(vs & s1 & H1 & H)].
  { exfalso.
    assert (Hem : emits not_invoke
              (for_args (map (fun ca => _call w (fst ca) (snd ca))
                           (combine (args sig bb) (args sig ba))) finish)).
    { apply emits_for_args; auto. apply Forall_map. apply Forall_forall.
      intros ca _. apply emits_call. intros; apply not_invoke_call. }
    destruct (Hem _ _ _ H) as (evs' & L' & F').
    rewrite L in L'. apply app_inv_head in L'. subst evs'.
    rewrite E in F'. apply Forall_app in F' as [_ F'].
    inversion F' as [|? ? Hn _]; subst. apply Hn. exact I. }
  destruct (@for_args_called _ (fun ca => _call w (fst ca) (snd ca))
              (fun ca => composer_calls [ca]) finish _ _ _ _
              (fun b s0 v s2 Hb =>
                 eq_ind _ (fun l => exists evs, log s2 = log s0 ++ evs /\
                                      called evs = composer_calls [l])
                   (@compose_item_called finish (fst b) (snd b) s0 v s2
                      Hfc Hb) _ (eq_sym (surjective_pairing b))) H1)
    as (ev1 & L1 & C1).
  rewrite composer_calls_flat in C1.
  apply bindM_inv in H as [(e & H & ->)|(kvs & s2 & H2 & H)].
  { exfalso.
    assert (Hem : emits not_invoke
              (for_kwargs
                 (map (fun ka => (fst ka,
                         _call w (get_or_None (kwargs sig bb) (fst ka))
                           (snd ka))) (kwargs sig ba)) finish)).
    { apply emits_for_kwargs; auto. apply Forall_map. apply Forall_forall.
      intros ka _. simpl. apply emits_call. intros; apply not_invoke_call. }
    destruct (Hem _ _ _ H) as (ev2 & L2 & F2).
    assert (Hem1 : emits not_invoke
              (for_args (map (fun ca => _call w (fst ca) (snd ca))
                           (combine (args sig bb) (args sig ba))) finish)).
    { apply emits_for_args; auto. apply Forall_map. apply Forall_forall.
      intros ca _. apply emits_call. intros; apply not_invoke_call. }
    destruct (Hem1 _ _ _ H1) as (ev1' & L1' & F1).
    rewrite L2, L1', <- app_assoc in L. apply app_inv_head in L.
    assert (Fa : Forall not_invoke evs)
      by (rewrite <- L; apply Forall_app; auto).
    rewrite E in Fa. apply Forall_app in Fa as [_ Fa].
    inversion Fa as [|? ? Hn _]; subst. apply Hn. exact I. }
  destruct (@for_kwargs_called _
              (fun ka : string * value =>
                 (fst ka, _call w (get_or_None (kwargs sig bb) (fst ka))
                            (snd ka)))
              (fun ka => composer_calls
                           [(get_or_None (kwargs sig bb) (fst ka), snd ka)])
              finish _ _ _ _
              (fun b s0 v s3 =>
                 @compose_item_called finish
                   (get_or_None (kwargs sig bb) (fst b)) (snd b) s0 v s3 Hfc)
              H2)
    as (ev2 & L2 & C2).
  apply rebind_invoke_step in H.
  destruct H as [[(e & ->) ->]|(env' & L3 & _)].
  - exfalso.
    rewrite L2, L1, <- app_assoc in L. apply app_inv_head in L.
    assert (Hnc : forall l, called l = called l) by reflexivity.
    assert (Hem1 : emits not_invoke
              (for_args (map (fun ca => _call w (fst ca) (snd ca))
                           (combine (args sig bb) (args sig ba))) finish)).
    { apply emits_for_args; auto. apply Forall_map. apply Forall_forall.
      intros ca _. apply emits_call. intros; apply not_invoke_call. }
    destruct (Hem1 _ _ _ H1) as (ev1' & L1' & F1).
    rewrite L1 in L1'. apply app_inv_head in L1'. subst ev1'.
    assert (Hem : emits not_invoke
              (for_kwargs
                 (map (fun ka => (fst ka,
                         _call w (get_or_None (kwargs sig bb) (fst ka))
                           (snd ka))) (kwargs sig ba)) finish)).
    { apply emits_for_kwargs; auto. apply Forall_map. apply Forall_forall.
      intros ka _. simpl. apply emits_call. intros; apply not_invoke_call. }
    destruct (Hem _ _ _ H2) as (ev2' & L2' & F2).
    rewrite L2 in L2'. apply app_inv_head in L2'. subst ev2'.
    assert (Fa : Forall not_invoke evs)
      by (rewrite <- L; apply Forall_app; auto).
    rewrite E in Fa. apply Forall_app in Fa as [_ Fa].
    inversion Fa as [|? ? Hn _]; subst. apply Hn. exact I.
  - rewrite L3, L2, L1, <- !app_assoc in L. apply app_inv_head in L.
    rewrite E in L. rewrite app_assoc in L. apply app_inj_tail in L as [L _].
    rewrite <- L, called_app, composer_calls_app, C1, C2.
    f_equal. rewrite <- composer_calls_flat.
    generalize (kwargs sig ba). clear. intros l.
    induction l as [|x l IH]; [reflexivity|].
    cbn [flat_map map]. now rewrite IH.
Qed.

(** The two [_fn] of [composes], by cases. *)
Lemma composes_cases composer_args composer_kwargs fn wr :
  composes w composer_args composer_kwargs fn = Ok wr ->
  exists bc finish,
    bind_partial (signature fn) composer_args composer_kwargs = Ok bc /\
    wr = compose_body w finish fn bc /\
    (finish = (fun '(v, _, _) => ret v) \/
     finish = (fun '(v, _, awt) =>
                 if iscoroutine awt then py_await w v else ret v)).
Proof.
  unfold composes. intros H.
  destruct (bind_partial (signature fn) composer_args composer_kwargs)
    as [bc|] eqn:Hbc; [|discriminate].
  exists bc. destruct (iscoroutinefunction fn); simpl in H; injection H as <-.
  - exists (fun '(v, _, awt) => if iscoroutine awt then py_await w v else ret v).
    auto.
  - exists (fun '(v, _, _) => ret v). auto.
Qed.

End W.

(** X5.  In a call of a function decorated with [injects] or
    [injects.ctx] in which the function is invoked, the calls made are
    exactly the calls, without arguments, of the callable decoration-time
    values that the merged binding holds, each once, in the order of the
    positional part and then the keyword part of the merged binding: a
    callable whose parameter the call gives a value is not called for
    that parameter. *)
Theorem injectors_called_once_in_order
    (w : world) (fn : pyfunc) (injector_args : list value)
    (injector_kwargs : Dict.t value) (wr : wrapped) (bc : arguments slot)
    (args_ : list value) (kwargs_ : Dict.t value) (ba : arguments value)
    (s s' : state) (r : result value) :
  injects w injector_args injector_kwargs fn = Ok wr \/
  injects_ctx w injector_args injector_kwargs fn = Ok wr ->
  bind_injectors (signature fn) injector_args injector_kwargs = Ok bc ->
  bind_partial (signature fn) args_ kwargs_ = Ok ba ->
  wr args_ kwargs_ s = (r, s') ->
  let bb := Dict.update bc (map_arguments Arg ba) in
  exists evs, log s' = log s ++ evs /\
    (Forall not_invoke evs \/
     called evs = injector_calls (args (signature fn) bb ++
                                  map snd (kwargs (signature fn) bb))).
Proof.
  intros [Hinj|Hinj] Hbc Hba Hrun bb.
  - destruct (injects_cases _ _ _ _ Hinj) as (bc' & finish & Hbc' & -> & Hfin).
    rewrite Hbc in Hbc'. injection Hbc' as <-.
    destruct (@inject_body_calls w finish _ fn bc args_ kwargs_ ba s r s'
                (@finish_not_call w finish ltac:(tauto))
                (or_introl eq_refl) Hba Hrun)
      as (evs & L & [[_ F]|(pre & env & E & C)]).
    + exists evs. auto.
    + exists evs. split; auto. right. subst evs.
      rewrite called_app. simpl. now rewrite app_nil_r.
  - destruct (injects_ctx_shape _ _ _ _ Hinj)
      as (bc' & finish & walk & Hbc' & -> & Hfw).
    rewrite Hbc in Hbc'. injection Hbc' as <-.
    apply with_exit_stack_inv in Hrun
      as (r1 & s1 & xs & Hbody & L & F & _ & _ & Hr).
    assert (Hf : forall x, emits not_call (finish x) /\
                           emits not_invoke (finish x)).
    { apply (@finish_not_call w). destruct Hfw as [[-> _]|[-> _]]; tauto. }
    assert (Hw : walk = (fun items => for_kwargs items finish) \/
                 walk = injects_ctx_kwargs).
    { destruct Hfw as [[_ ->]|[-> ->]]; auto. }
    destruct (@inject_body_calls w finish walk fn bc args_ kwargs_ ba _ r1 s1
                Hf Hw Hba Hbody)
      as (evs & L1 & [[_ Fn]|(pre & env & E & C)]); simpl in L1.
    + exists (evs ++ xs). split; [now rewrite L, L1, app_assoc|].
      left. apply Forall_app. split; auto.
      eapply Forall_impl; [|exact F]. intros ev Hx Hi.
      destruct ev; simpl in *; contradiction.
    + exists (evs ++ xs). split; [now rewrite L, L1, app_assoc|].
      right. subst evs. rewrite !called_app, (called_exits F). simpl.
      now rewrite !app_nil_r.
Qed.

(** X6.  In a call of a function decorated with [composes] or
    [composes.ctx] in which the function is invoked, the calls made are
    exactly the calls of a composer on the value of the call it is paired
    with, for the pairs whose composer is neither [None] nor the value
    itself, each once, positional pairs first: the positional values of
    the call are paired, in order, with the positional values of the
    merge, and a keyword value with what the keyword part of the merge
    holds under its name, [None] if it holds nothing. *)
Theorem composers_called_once_in_order
    (w : world) (fn : pyfunc) (composer_args : list value)
    (composer_kwargs : Dict.t value) (wr : wrapped) (bc : arguments value)
    (args_ : list value) (kwargs_ : Dict.t value) (ba : arguments value)
    (s s' : state) (r : result value) :
  composes w composer_args composer_kwargs fn = Ok wr \/
  composes_ctx w composer_args composer_kwargs fn = Ok wr ->
  bind_partial (signature fn) composer_args composer_kwargs = Ok bc ->
  bind (signature fn) args_ kwargs_ = Ok ba ->
  wr args_ kwargs_ s = (r, s') ->
  let sig := signature fn in
  let bb := Dict.update ba bc in
  exists evs, log s' = log s ++ evs /\
    (Forall not_invoke evs \/
     called evs =
     composer_calls
       (combine (args sig bb) (args sig ba) ++
        map (fun ka => (get_or_None (kwargs sig bb) (fst ka), snd ka))
            (kwargs sig ba))).
Proof.
  intros [Hc|Hc] Hbc Hba Hrun sig bb.
  - destruct (composes_cases _ _ _ _ Hc) as (bc' & finish & Hbc' & -> & Hfin).
    rewrite Hbc in Hbc'. injection Hbc' as <-.
    destruct (@compose_body_calls w finish fn bc args_ kwargs_ ba s r s'
                (@finish_not_call w finish ltac:(tauto)) Hba Hrun)
      as (evs & L & [[_ F]|(pre & env & E & C)]).
    + exists evs. auto.
    + exists evs. split; auto. right. subst evs.
      rewrite called_app. simpl. now rewrite app_nil_r.
  - destruct (composes_ctx_shape _ _ _ _ Hc) as (bc' & finish & Hbc' & -> & Hf).
    rewrite Hbc in Hbc'. injection Hbc' as <-.
    apply with_exit_stack_inv in Hrun
      as (r1 & s1 & xs & Hbody & L & F & _ & _ & Hr).
    destruct (@compose_body_calls w finish fn bc args_ kwargs_ ba _ r1 s1
                (@finish_not_call w finish ltac:(tauto)) Hba Hbody)
      as (evs & L1 & [[_ Fn]|(pre & env & E & C)]); simpl in L1.
    + exists (evs ++ xs). split; [now rewrite L, L1, app_assoc|].
      left. apply Forall_app. split; auto.
      eapply Forall_impl; [|exact F]. intros ev Hx Hi.
      destruct ev; simpl in *; contradiction.
    + exists (evs ++ xs). split; [now rewrite L, L1, app_assoc|].
      right. subst evs. rewrite !called_app, (called_exits F). simpl.
      now rewrite !app_nil_r.
Qed.

Import Examples.

Lemma injectors_called_once_in_order_witness :
  let bc := [("arg1", One (_bindwrap lambda_7));
             ("arg2", One (_bindwrap (int 6)));
             ("arg3", One (_bindwrap (int 5)))] in
  let wr := injects_fn ex_world foo3 bc in
  let r := Ok (triple_of (int 7) (int 6) (int 5)) in
  let s' := mkState [EvCall lambda_7 [] (Ok (int 7));
                     EvInvoke [("arg1", One (int 7)); ("arg2", One (int 6));
                               ("arg3", One (int 5))] r] [] in
  (injected_foo3 = Ok wr \/
   injects_ctx ex_world []
     [("arg1", lambda_7); ("arg2", int 6); ("arg3", int 5)] foo3 = Ok wr) /\
  bind_injectors (signature foo3) []
    [("arg1", lambda_7); ("arg2", int 6); ("arg3", int 5)] = Ok bc /\
  bind_partial (V := value) (signature foo3) [] [] = Ok [] /\
  wr [] [] start = (r, s') /\
  let bb := Dict.update bc (map_arguments Arg []) in
  exists evs, log s' = log start ++ evs /\
    (Forall not_invoke evs \/
     called evs = injector_calls (args (signature foo3) bb ++
                                  map snd (kwargs (signature foo3) bb))).
Proof.
  intros bc wr r s'.
  assert (Hwr : injected_foo3 = Ok wr \/
                injects_ctx ex_world []
                  [("arg1", lambda_7); ("arg2", int 6); ("arg3", int 5)] foo3
                = Ok wr) by (left; reflexivity).
  assert (Hrun : wr [] [] start = (r, s')) by reflexivity.
  repeat (split; [first [reflexivity | exact Hwr | exact Hrun]|]).
  exact (@injectors_called_once_in_order ex_world foo3 []
           [("arg1", lambda_7); ("arg2", int 6); ("arg3", int 5)] wr bc
           [] [] [] start s' r Hwr eq_refl eq_refl Hrun).
Defined.

Lemma composers_called_once_in_order_witness :
  let bc := [("x", One lambda_x_plus_1); ("y", One lambda_y_plus_2)] in
  let ba := [("x", One (int 1)); ("y", One (int 5))] in
  let wr := composes_fn ex_world foo2 bc in
  let kwargs_ := [("y", int 5)] in
  let r := Ok (pair_of (int 2) (int 7)) in
  let s' := mkState [EvCall lambda_x_plus_1 [int 1] (Ok (int 2));
                     EvCall lambda_y_plus_2 [int 5] (Ok (int 7));
                     EvInvoke [("x", One (int 2)); ("y", One (int 7))] r] [] in
  (composed_foo2 = Ok wr \/
   composes_ctx ex_world [lambda_x_plus_1] [("y", lambda_y_plus_2)] foo2
   = Ok wr) /\
  bind_partial (signature foo2) [lambda_x_plus_1] [("y", lambda_y_plus_2)]
  = Ok bc /\
  bind (signature foo2) [int 1] kwargs_ = Ok ba /\
  wr [int 1] kwargs_ start = (r, s') /\
  let sig := signature foo2 in
  let bb := Dict.update ba bc in
  exists evs, log s' = log start ++ evs /\
    (Forall not_invoke evs \/
     called evs =
     composer_calls
       (combine (args sig bb) (args sig ba) ++
        map (fun ka => (get_or_None (kwargs sig bb) (fst ka), snd ka))
            (kwargs sig ba))).
Proof.
  intros bc ba wr kwargs_ r s'.
  assert (Hwr : composed_foo2 = Ok wr \/
                composes_ctx ex_world [lambda_x_plus_1]
                  [("y", lambda_y_plus_2)] foo2 = Ok wr)
    by (left; reflexivity).
  assert (Hrun : wr [int 1] kwargs_ start = (r, s')) by reflexivity.
  repeat (split; [first [reflexivity | exact Hwr | exact Hrun]|]).
  exact (@composers_called_once_in_order ex_world foo2 [lambda_x_plus_1]
           [("y", lambda_y_plus_2)] wr bc [int 1] kwargs_ ba start s' r
           Hwr eq_refl eq_refl Hrun).
Defined.

End Calls.

(* ===================================================================== *)
(** ** Decorating with an empty table *)
(* ===================================================================== *)

Module Transparent.
Import Inspect Wf DictFacts BinderFacts Rebind BindSpec BindMore Natural Run
  InjectFacts Steps ExitStack CtxOutcome.
Local Open Scope py_scope.

Lemma is_refl a : is_ a a = true.
Proof. destruct a; simpl; auto. apply Nat.eqb_refl. Qed.

(** Binding nothing, partially, gives the empty binding. *)
Lemma bind_positional_nil {V} : forall params (acc : arguments V),
  exists rem, bind_positional true params [] [] acc = Ok (acc, rem).
Proof.
  intros [|p rest] acc; simpl; eauto.
  destruct (kind p), (default p); eauto.
Qed.

Lemma bind_keywords_nil {V} : forall params (acc : arguments V) kp,
  exists kp', bind_keywords true params [] acc kp = Ok (acc, [], kp').
Proof.
  induction params as [|p rest IH]; intros acc kp; simpl; eauto.
  destruct (kind p); auto.
Qed.

Lemma bind_partial_nil {V} sig : @bind_partial V sig [] [] = Ok [].
Proof.
  unfold bind_partial, _bind.
  destruct (@bind_positional_nil V sig []) as [rem ->].
  destruct (@bind_keywords_nil V rem [] None) as [kp' ->]. reflexivity.
Qed.

(** Steps that do nothing but return. *)
Lemma sequence_pure {A B} (step : B -> M A) (f : B -> A) bs s :
  (forall b, In b bs -> forall s0, step b s0 = (Ok (f b), s0)) ->
  sequence (map step bs) s = (Ok (map f bs), s).
Proof.
  induction bs as [|b bs IH]; intros H; simpl; [reflexivity|].
  unfold bindM at 1. rewrite (H b (or_introl eq_refl)).
  unfold bindM at 1. rewrite IH; [reflexivity|].
  intros b' Ib. apply H. now right.
Qed.

Lemma combine_diag {A} (l : list A) : combine l l = map (fun a => (a, a)) l.
Proof. induction l as [|a l IH]; simpl; congruence. Qed.

Lemma map_pair_id {A B} (l : list (A * B)) :
  map (fun ab => (fst ab, snd ab)) l = l.
Proof. induction l as [|[a b] l IH]; simpl; congruence. Qed.

(** Calling the function on the [args] and [kwargs] of the binding of a
    call is calling it on the arguments of the call. *)
Lemma invoke_rebound fn args_ kwargs_ (ba : arguments value) s :
  wf_sig (signature fn) = true -> wf_kwargs kwargs_ = true ->
  bind (signature fn) args_ kwargs_ = Ok ba ->
  invoke fn (args (signature fn) (restrict (signature fn) ba))
            (kwargs (signature fn) (restrict (signature fn) ba)) s
  = invoke fn args_ kwargs_ s.
Proof.
  intros Hwf Hkw Hba.
  assert (Hnd : NoDup (map name (signature fn))).
  { unfold wf_sig in Hwf. apply andb_true_iff in Hwf as [Hwf' _].
    now apply nodupb_NoDup. }
  apply wf_kwargs_NoDup in Hkw.
  destruct (@bind_ok _ false _ _ _ _ Hwf Hkw Hba) as (Hok & Hn & Hc).
  pose proof (@same_on_restrict _ (signature fn) ba Hnd) as Hs.
  rewrite <- (@args_same_on _ _ _ (signature fn) Hs).
  rewrite <- (@kwargs_same_on _ _ _ (signature fn) Hs).
  unfold invoke. unfold bind at 1.
  rewrite (@rebind _ false (signature fn) ba Hwf Hok) by auto.
  rewrite Hba.
  now rewrite <- (@apply_defaults_same_on _ _ (signature fn) Hs).
Qed.

Section W.
Variable w : world.

(** The body of the wrappers of [composes] and [composes_ctx], without
    composers. *)
Lemma compose_body_empty (finish : triple -> M value) fn args_ kwargs_ s :
  wf_sig (signature fn) = true -> wf_kwargs kwargs_ = true ->
  (forall u s0, finish (u, false, VFalse) s0 = (Ok u, s0)) ->
  compose_body w finish fn [] args_ kwargs_ s = invoke fn args_ kwargs_ s.
Proof.
  intros Hwf Hkw Hf.
  destruct (bind (signature fn) args_ kwargs_) as [ba|e] eqn:Hba.
  - pose proof (wf_kwargs_NoDup _ Hkw) as Hkw'.
    destruct (@bind_ok _ false _ _ _ _ Hwf Hkw' Hba) as (Hok & Hn & Hc).
    assert (Hargs : for_args
              (map (fun ca => _call w (fst ca) (snd ca))
                 (combine (args (signature fn) ba) (args (signature fn) ba))) finish s
            = (Ok (args (signature fn) ba), s)).
    { unfold for_args. rewrite combine_diag, !map_map.
      rewrite (@sequence_pure _ _ _ (fun a => a)); [now rewrite map_id|].
      intros a _ s0. simpl. unfold _call. rewrite is_refl. simpl.
      unfold bindM, ret. apply Hf. }
    assert (Hkwargs : for_kwargs
              (map (fun ka => (fst ka,
                      _call w (get_or_None (kwargs (signature fn) ba) (fst ka)) (snd ka)))
                 (kwargs (signature fn) ba)) finish s
            = (Ok (kwargs (signature fn) ba), s)).
    { unfold for_kwargs. rewrite map_map.
      erewrite bindM_ok.
      2:{ apply (@sequence_pure _ _ _ (fun ka => (fst ka, snd ka))).
          intros [k a] Ik s0. simpl. unfold get_or_None.
          rewrite (@In_get _ _ k a (kwargs_nodup Hwf Hok) Ik).
          unfold _call. rewrite is_refl. simpl.
          unfold bindM at 1 2, ret at 1. rewrite Hf. reflexivity. }
      rewrite map_pair_id. unfold ret. f_equal. f_equal.
      apply dict_of_fresh. simpl. apply (kwargs_nodup Hwf Hok). }
    unfold compose_body, _compose. rewrite Hba.
    rewrite (@bindM_ok _ _ _ _ s (_build_bound_compose w (signature fn) ba []) s)
      by reflexivity.
    cbv beta iota zeta delta [_build_bound_compose fst snd Dict.update].
    rewrite (@bindM_ok _ _ _ _ _ _ _ Hargs), (@bindM_ok _ _ _ _ _ _ _ Hkwargs).
    unfold bindM, try, lift, bind at 1.
    rewrite (@rebind _ false (signature fn) ba Hwf Hok) by auto.
    now apply invoke_rebound.
  - unfold compose_body, _compose, invoke, bindM, try, lift.
    now rewrite Hba.
Qed.

(** The body of the wrappers of [injects], with an empty table, on a
    call that gives every required parameter a value. *)
Lemma inject_body_empty (finish : triple -> M value) fn args_ kwargs_ ba s :
  wf_sig (signature fn) = true -> wf_kwargs kwargs_ = true ->
  (forall u s0, finish (u, false, VFalse) s0 = (Ok u, s0)) ->
  bind (signature fn) args_ kwargs_ = Ok ba ->
  inject_body w finish (fun items => for_kwargs items finish) fn []
    args_ kwargs_ s
  = invoke fn args_ kwargs_ s.
Proof.
  intros Hwf Hkw Hf Hba.
  pose proof (wf_kwargs_NoDup _ Hkw) as Hkw'.
  destruct (@bind_ok _ false _ _ _ _ Hwf Hkw' Hba) as (Hok & Hn & Hc).
  pose proof (@bind_full_partial _ _ _ _ _ Hba) as Hp.
  assert (Hbb : Dict.update [] (map_arguments Arg ba) = map_arguments Arg ba).
  { apply (@update_fresh _ (map_arguments Arg ba) []). simpl.
    unfold map_arguments. now rewrite keys_map_values. }
  assert (Hargs : for_args
            (map (_call_bound_inject w) (map Arg (args (signature fn) ba))) finish s
          = (Ok (args (signature fn) ba), s)).
  { unfold for_args. rewrite !map_map.
    rewrite (@sequence_pure _ _ _ (fun a => a)); [now rewrite map_id|].
    intros a _ s0. simpl. unfold bindM, ret. apply Hf. }
  assert (Hkwargs : for_kwargs
            (map (fun kv => (fst kv, _call_bound_inject w (snd kv)))
               (map_values Arg (kwargs (signature fn) ba))) finish s
          = (Ok (kwargs (signature fn) ba), s)).
  { unfold for_kwargs, map_values. rewrite !map_map.
    erewrite bindM_ok.
    2:{ apply (@sequence_pure _ _ _ (fun ka => (fst ka, snd ka))).
        intros [k a] Ik s0. simpl.
        unfold bindM at 1 2, ret at 1. rewrite Hf. reflexivity. }
    rewrite map_pair_id. unfold ret. f_equal. f_equal.
    apply dict_of_fresh. simpl. apply (kwargs_nodup Hwf Hok). }
  unfold inject_body.
  rewrite call_binding. unfold bind_partial at 1. rewrite Hp.
  simpl map_result.
  rewrite (@bindM_ok _ _ _ _ s (map_arguments Arg ba) s) by reflexivity.
  cbv beta iota zeta delta [_build_bound_inject].
  rewrite Hbb, args_natural, kwargs_natural.
  rewrite (@bindM_ok _ _ _ _ _ _ _ Hargs), (@bindM_ok _ _ _ _ _ _ _ Hkwargs).
  unfold bindM, try, lift, bind_partial.
  rewrite (@rebind _ true (signature fn) ba Hwf Hok) by discriminate.
  now apply invoke_rebound.
Qed.

(** An exit stack around the call of the function alone changes
    nothing. *)
Lemma with_exit_stack_invoke (m : M value) fn args_ kwargs_ s :
  (forall s0, m s0 = invoke fn args_ kwargs_ s0) ->
  with_exit_stack w m s = invoke fn args_ kwargs_ s.
Proof.
  intros Hb. unfold with_exit_stack. rewrite Hb. unfold invoke.
  destruct (bind (signature fn) args_ kwargs_) as [a|e]; simpl.
  - destruct (body fn (log s) (apply_defaults (signature fn) a));
      reflexivity.
  - now destruct s.
Qed.

End W.
(** X7.  Decorating with an empty table adds nothing to the call of the
    function on the bound arguments.  The wrappers that [composes()] and
    [composes.ctx()] make bind the arguments of a call with
    [Signature.bind]: if they bind, the body of the function runs once,
    on the bound arguments with the defaults filled in, that is the only
    step, and the wrapper ends as the body ends; if they do not, the
    wrapper raises the binder's [TypeError] and nothing has happened.  The
    wrapper that [injects()] makes does the same on every call that
    [Signature.bind] binds. *)
Theorem empty_table_adds_nothing
    (w : world) (fn : pyfunc) (args_ : list value) (kwargs_ : Dict.t value)
    (s : state) :
  wf_sig (signature fn) = true ->
  wf_kwargs kwargs_ = true ->
  exists injected composed composed_ctx,
    injects w [] [] fn = Ok injected /\
    composes w [] [] fn = Ok composed /\
    composes_ctx w [] [] fn = Ok composed_ctx /\
    match bind (signature fn) args_ kwargs_ with
    | Ok ba =>
        let env := apply_defaults (signature fn) ba in
        let r := body fn (log s) env in
        let s' := mkState (log s ++ [EvInvoke env r]) (exits s) in
        composed args_ kwargs_ s = (r, s') /\
        composed_ctx args_ kwargs_ s = (r, s') /\
        injected args_ kwargs_ s = (r, s')
    | Raise e =>
        composed args_ kwargs_ s = (Raise e, s) /\
        composed_ctx args_ kwargs_ s = (Raise e, s)
    end.
Proof.
  intros Hwf Hkw.
  assert (Hinv : invoke fn args_ kwargs_ s =
                 match bind (signature fn) args_ kwargs_ with
                 | Ok ba =>
                     let env := apply_defaults (signature fn) ba in
                     let r := body fn (log s) env in
                     (r, mkState (log s ++ [EvInvoke env r]) (exits s))
                 | Raise e => (Raise e, s)
                 end).
  { unfold invoke. now destruct (bind (signature fn) args_ kwargs_). }
  assert (Hc : forall finish : triple -> M value,
            (forall u s0, finish (u, false, VFalse) s0 = (Ok u, s0)) ->
            compose_body w finish fn [] args_ kwargs_ s
            = invoke fn args_ kwargs_ s).
  { intros finish Hf. now apply (@compose_body_empty w). }
  assert (Hx : forall finish : triple -> M value,
            (forall u s0, finish (u, false, VFalse) s0 = (Ok u, s0)) ->
            with_exit_stack w (compose_body w finish fn [] args_ kwargs_) s
            = invoke fn args_ kwargs_ s).
  { intros finish Hf. apply with_exit_stack_invoke. intros s0.
    now apply (@compose_body_empty w). }
  assert (Hi : forall finish : triple -> M value,
            (forall u s0, finish (u, false, VFalse) s0 = (Ok u, s0)) ->
            forall ba, bind (signature fn) args_ kwargs_ = Ok ba ->
            inject_body w finish (fun items => for_kwargs items finish) fn []
              args_ kwargs_ s
            = invoke fn args_ kwargs_ s).
  { intros finish Hf ba Hba. now apply (@inject_body_empty w) with (ba := ba). }
  unfold injects, composes, composes_ctx, bind_injectors. simpl.
  rewrite !bind_partial_nil.
  destruct (iscoroutinefunction fn); simpl; do 3 eexists;
    (split; [reflexivity|]); (split; [reflexivity|]);
    (split; [reflexivity|]);
    destruct (bind (signature fn) args_ kwargs_) as [ba|e] eqn:Hba;
    cbv zeta in Hinv |- *; rewrite <- Hinv;
    repeat split;
    first [ apply Hc; intros; reflexivity
          | apply Hx; intros; reflexivity
          | apply (fun finish Hf => Hi finish Hf ba eq_refl);
            intros; reflexivity ].
Qed.

Import Examples.

Lemma empty_table_adds_nothing_witness :
  let env := [("x", One (int 1)); ("y", One (int 2))] in
  let r := Ok (pair_of (int 1) (int 2)) in
  let s' := mkState [EvInvoke env r] [] in
  wf_sig (signature foo2) = true /\
  wf_kwargs (V := value) [] = true /\
  exists injected composed composed_ctx,
    injects ex_world [] [] foo2 = Ok injected /\
    composes ex_world [] [] foo2 = Ok composed /\
    composes_ctx ex_world [] [] foo2 = Ok composed_ctx /\
    composed [int 1] [] start = (r, s') /\
    composed_ctx [int 1] [] start = (r, s') /\
    injected [int 1] [] start = (r, s').
Proof.
  intros env r s'.
  split; [reflexivity|]. split; [reflexivity|].
  exact (@empty_table_adds_nothing ex_world foo2 [int 1] [] start
           eq_refl eq_refl).
Defined.

End Transparent.

(* ===================================================================== *)
(** ** What the wrappers of injects and composes do not do *)
(* ===================================================================== *)

Module NoAwait.
Import Inspect Wf DictFacts Natural Run InjectFacts ComposeFacts Steps
  ExitStack MismatchClaims CtxOutcome Calls.
Local Open Scope py_scope.

Lemma emits_ext {A} P (m m' : M A) :
  (forall s, m s = m' s) -> emits P m -> emits P m'.
Proof. intros E H s r s' Hr. rewrite <- E in Hr. eauto. Qed.

Lemma emits_invoke P fn args_ kwargs_ :
  (forall env r, P (EvInvoke env r)) -> emits P (invoke fn args_ kwargs_).
Proof.
  intros HP s r s' H. unfold invoke in H.
  destruct (bind (signature fn) args_ kwargs_) as [a|e].
  - inversion H; subst. simpl. eexists. split; [reflexivity|].
    constructor; auto.
  - inversion H; subst. exists []. now rewrite app_nil_r.
Qed.

Lemma emits_for_args_items P (items : list (M triple))
    (finish : triple -> M value) :
  Forall (fun item => emits P (x <- item ;; finish x)) items ->
  emits P (for_args items finish).
Proof.
  intros H. unfold for_args. apply emits_sequence. now apply Forall_map.
Qed.

Lemma emits_for_kwargs_items P (items : list (string * M triple))
    (finish : triple -> M value) :
  Forall (fun ki => emits P (x <- snd ki ;; finish x)) items ->
  emits P (for_kwargs items finish).
Proof.
  intros H. unfold for_kwargs. apply emits_bind; [|intros; apply emits_ret].
  apply emits_sequence. apply Forall_map.
  eapply Forall_impl; [|exact H]. intros [k item] Hi. simpl in *.
  apply (@emits_ext _ P (v <- (x <- item ;; finish x) ;; ret (k, v))).
  - intros s. apply bindM_assoc.
  - apply emits_bind; auto. intros v. apply emits_ret.
Qed.

Section W.
Variable w : world.
Variable P : event -> Prop.
Hypothesis Pinvoke : forall env r, P (EvInvoke env r).

(** The body of the wrappers of [composes] and [composes_ctx], item by
    item. *)
Lemma emits_compose_body (finish : triple -> M value) fn bc args_ kwargs_ :
  (forall c a, emits P (x <- _call w c a ;; finish x)) ->
  emits P (compose_body w finish fn bc args_ kwargs_).
Proof.
  intros Hitem.
  destruct (bind (signature fn) args_ kwargs_) as [ba|e] eqn:Hba.
  - apply (@emits_ext _ P
      (args_0 <- for_args
                   (fst (_build_bound_compose w (signature fn) ba bc))
                   finish ;;
       kwargs_0 <- for_kwargs
                     (snd (_build_bound_compose w (signature fn) ba bc))
                     finish ;;
       ba0 <- try (bind (signature fn) args_0 kwargs_0) ;;
       invoke fn (args (signature fn) ba0) (kwargs (signature fn) ba0))).
    + intros s. unfold compose_body, _compose. rewrite Hba.
      now rewrite (@bindM_ok _ _ _ _ s
                     (_build_bound_compose w (signature fn) ba bc) s)
        by reflexivity.
    + unfold _build_bound_compose. simpl.
      apply emits_bind.
      { apply emits_for_args_items. apply Forall_map. apply Forall_forall.
        intros ca _. apply Hitem. }
      intros vs. apply emits_bind.
      { apply emits_for_kwargs_items. apply Forall_map.
        apply Forall_forall. intros ka _. simpl. apply Hitem. }
      intros kvs. apply emits_bind; [apply emits_lift|].
      intros ba0. now apply emits_invoke.
  - apply (@emits_ext _ P (raise e)).
    + intros s. unfold compose_body, _compose, bindM, try, lift.
      now rewrite Hba.
    + apply emits_raise.
Qed.

(** That of the wrappers of [injects] and [injects_ctx]. *)
Lemma emits_inject_body (finish : triple -> M value) walk fn bc
    args_ kwargs_ :
  (forall a, emits P (x <- _call_bound_inject w a ;; finish x)) ->
  (forall slots : Dict.t slot,
     emits P (walk (map (fun kv => (fst kv, _call_bound_inject w (snd kv)))
                      slots))) ->
  emits P (inject_body w finish walk fn bc args_ kwargs_).
Proof.
  intros Hitem Hwalk.
  destruct (bind_partial (signature fn) (call_args args_) (call_kwargs kwargs_))
    as [ba|e] eqn:Hba.
  - apply (@emits_ext _ P
      (args_0 <- for_args
                   (map (_call_bound_inject w)
                      (args (signature fn) (Dict.update bc ba))) finish ;;
       kwargs_0 <- walk
                     (map (fun kv => (fst kv, _call_bound_inject w (snd kv)))
                        (kwargs (signature fn) (Dict.update bc ba))) ;;
       ba0 <- try (bind_partial (signature fn) args_0 kwargs_0) ;;
       invoke fn (args (signature fn) ba0) (kwargs (signature fn) ba0))).
    + intros s. unfold inject_body. rewrite Hba.
      now rewrite (@bindM_ok _ _ _ _ s ba s) by reflexivity.
    + apply emits_bind.
      { apply emits_for_args_items. apply Forall_map. apply Forall_forall.
        intros a _. apply Hitem. }
      intros vs. apply emits_bind; [apply Hwalk|].
      intros kvs. apply emits_bind; [apply emits_lift|].
      intros ba0. now apply emits_invoke.
  - apply (@emits_ext _ P (raise e)).
    + intros s. unfold inject_body, bindM, try, lift. now rewrite Hba.
    + apply emits_raise.
Qed.

End W.

Lemma call_or_invoke_call f a r : call_or_invoke (EvCall f a r).
Proof. exact I. Qed.

Lemma call_or_invoke_invoke env r : call_or_invoke (EvInvoke env r).
Proof. exact I. Qed.

Section Dead.
Variable w : world.
Variable finish : triple -> M value.
Hypothesis Hfin :
  finish = (fun '(v, _, _) => ret v) \/
  finish = (fun '(v, _, awt) =>
              if iscoroutine awt then py_await w v else ret v).

Lemma finish_passed u : emits call_or_invoke (finish (u, false, VFalse)).
Proof. destruct Hfin as [->| ->]; apply emits_ret. Qed.

Lemma finish_called r c :
  callable c = true -> emits call_or_invoke (finish (r, true, c)).
Proof.
  intros Hc. destruct Hfin as [->| ->]; [apply emits_ret|].
  rewrite (callable_not_coroutine _ Hc). apply emits_ret.
Qed.

Lemma called_item f a :
  emits call_or_invoke
    (x <- (r <- py_call w f a ;; ret (r, true, f)) ;; finish x).
Proof.
  destruct (callable f) eqn:Hc.
  - apply (@emits_ext _ call_or_invoke
             (r <- py_call w f a ;; finish (r, true, f))).
    + intros s. unfold bindM, ret.
      destruct (py_call w f a s) as [[r|e] s1]; reflexivity.
    + apply emits_bind.
      * apply emits_py_call. intros; apply call_or_invoke_call.
      * intros r. now apply finish_called.
  - apply (@emits_ext _ call_or_invoke
             (raise (TypeError "object is not callable"))).
    + intros s. unfold bindM, py_call. now rewrite Hc.
    + apply emits_raise.
Qed.

Lemma inject_item_never_awaits a :
  emits call_or_invoke (x <- _call_bound_inject w a ;; finish x).
Proof.
  destruct a as [u|val]; simpl.
  - apply (@emits_ext _ call_or_invoke (finish (u, false, VFalse)));
      [reflexivity|apply finish_passed].
  - destruct (callable val); simpl.
    + apply called_item.
    + apply (@emits_ext _ call_or_invoke (finish (val, false, VFalse)));
        [reflexivity|apply finish_passed].
Qed.

Lemma compose_item_never_awaits c a :
  emits call_or_invoke (x <- _call w c a ;; finish x).
Proof.
  unfold _call. destruct (is_ c a || is_ c VNone).
  - apply (@emits_ext _ call_or_invoke (finish (a, false, VFalse)));
      [reflexivity|apply finish_passed].
  - apply called_item.
Qed.

End Dead.

(** X8.  The [await v] of the asynchronous wrappers of [injects] and
    [composes] is never reached: whatever the table, the function and the
    call, every step of a call of a wrapper is a call of a table entry or
    the call of the function; nothing that an injector or a composer
    returned is awaited (and no context is entered or released).  The
    branch is guarded by [inspect.iscoroutine(awt)], and [awt] is the table
    entry itself, which was just called, and not what the call
    returned. *)
Theorem results_are_never_awaited (w : world)
    (decoration_args : list value) (decoration_kwargs : Dict.t value)
    (fn : pyfunc) (wr : wrapped) (args_ : list value)
    (kwargs_ : Dict.t value) (s s' : state) (r : result value) :
  injects w decoration_args decoration_kwargs fn = Ok wr \/
  composes w decoration_args decoration_kwargs fn = Ok wr ->
  wr args_ kwargs_ s = (r, s') ->
  exists evs, log s' = log s ++ evs /\ Forall call_or_invoke evs.
Proof.
  intros [H|H] Hrun.
  - destruct (@injects_cases w _ _ _ _ H) as (bc & finish & _ & -> & Hf).
    revert Hrun. apply (@emits_inject_body w call_or_invoke call_or_invoke_invoke).
    + apply (@inject_item_never_awaits w finish Hf).
    + intros slots. apply emits_for_kwargs_items. apply Forall_map.
      apply Forall_forall. intros kv _. simpl.
      apply (@inject_item_never_awaits w finish Hf).
  - destruct (@composes_cases w _ _ _ _ H) as (bc & finish & _ & -> & Hf).
    revert Hrun. apply (@emits_compose_body w call_or_invoke call_or_invoke_invoke).
    apply (@compose_item_never_awaits w finish Hf).
Qed.

Import Examples.

Lemma results_are_never_awaited_witness :
  let wr := injects_async_fn ex_world afoo
              [("arg", One (_bindwrap async_answer))] in
  let r := Ok pending_answer in
  let s' := mkState [EvCall async_answer [] (Ok pending_answer);
                     EvInvoke [("arg", One pending_answer)] r] [] in
  (injects ex_world [async_answer] [] afoo = Ok wr \/
   composes ex_world [async_answer] [] afoo = Ok wr) /\
  wr [] [] start = (r, s') /\
  exists evs, log s' = log start ++ evs /\ Forall call_or_invoke evs.
Proof.
  intros wr r s'.
  assert (H1 : injects ex_world [async_answer] [] afoo = Ok wr \/
               composes ex_world [async_answer] [] afoo = Ok wr)
    by (left; reflexivity).
  assert (H2 : wr [] [] start = (r, s')) by reflexivity.
  split; [exact H1|]. split; [exact H2|].
  exact (@results_are_never_awaited ex_world [async_answer] [] afoo wr [] []
           start s' r H1 H2).
Defined.

End NoAwait.

(* ===================================================================== *)
(** ** Where the exceptions of a call come from *)
(* ===================================================================== *)

Module Blame.
Import Inspect Wf DictFacts Natural Run InjectFacts ComposeFacts Steps
  ExitStack MismatchClaims Calls.
Local Open Scope py_scope.

Ltac blame :=
  repeat match goal with |- forall _, _ => intro end;
  first [ exact I
        | apply blamed_TypeError
        | apply blamed_raised; assumption
        | apply blamed_app; assumption
        | idtac ].

(** The wrappers of [composes]. *)
Lemma composes_blamed w finish fn bc args_ kwargs_ :
  finish = (fun '(v, _, _) => ret v) \/
  finish = (fun '(v, _, awt) =>
              if iscoroutine awt then py_await w v else ret v) ->
  runs (fun _ => True) blamed (compose_body w finish fn bc args_ kwargs_).
Proof.
  intros Hf.
  apply (@runs_compose_body (fun _ => True) (fun _ => True) blamed); blame.
  destruct x as [[v c] awt]. destruct Hf as [->| ->].
  - apply runs_ret; blame.
  - destruct (iscoroutine awt); [|apply runs_ret; blame].
    apply (@runs_py_await (fun _ => True)); blame.
Qed.

(** X9.  The wrappers of [injects] and [composes] catch nothing and raise
    nothing of their own but [TypeError]: an exception that leaves a call of
    one of them is a [TypeError], or it is the exception that the last
    thing the call did (a call of a table entry, or the invocation of the
    decorated function) raised, and then nothing was called after the
    failure. *)
Theorem exception_is_of_last_step (w : world)
    (decoration_args : list value) (decoration_kwargs : Dict.t value)
    (fn : pyfunc) (wr : wrapped) (args_ : list value)
    (kwargs_ : Dict.t value) (s s' : state) (e : exn) :
  injects w decoration_args decoration_kwargs fn = Ok wr \/
  composes w decoration_args decoration_kwargs fn = Ok wr ->
  wr args_ kwargs_ s = (Raise e, s') ->
  exists evs, log s' = log s ++ evs /\
    ((exists msg, e = TypeError msg) \/
     (exists pre ev, evs = pre ++ [ev] /\ raised e ev)).
Proof.
  intros [H|H] Hrun.
  - destruct (@injects_cases w _ _ _ _ H) as (bc & finish & _ & -> & Hf).
    destruct (@injects_blamed w finish fn bc args_ kwargs_ Hf _ _ _ Hrun)
      as (evs & L & _ & _ & Hb).
    exists evs. split; auto. now apply Hb.
  - destruct (@composes_cases w _ _ _ _ H) as (bc & finish & _ & -> & Hf).
    destruct (@composes_blamed w finish fn bc args_ kwargs_ Hf _ _ _ Hrun)
      as (evs & L & _ & _ & Hb).
    exists evs. split; auto. now apply Hb.
Qed.

Import Examples MoreExamples.

Lemma exception_is_of_last_step_witness :
  let wr := injects_fn ex_world foo_raising [("x", One (_bindwrap lambda_7))] in
  let e := UserError 2 in
  let s' := mkState [EvCall lambda_7 [] (Ok (int 7));
                     EvInvoke [("x", One (int 7))] (Raise e)] [] in
  (injects ex_world [lambda_7] [] foo_raising = Ok wr \/
   composes ex_world [lambda_7] [] foo_raising = Ok wr) /\
  wr [] [] start = (Raise e, s') /\
  exists evs, log s' = log start ++ evs /\
    ((exists msg, e = TypeError msg) \/
     (exists pre ev, evs = pre ++ [ev] /\ raised e ev)).
Proof.
  intros wr e s'.
  assert (H1 : injects ex_world [lambda_7] [] foo_raising = Ok wr \/
               composes ex_world [lambda_7] [] foo_raising = Ok wr)
    by (left; reflexivity).
  assert (H2 : wr [] [] start = (Raise e, s')) by reflexivity.
  split; [exact H1|]. split; [exact H2|].
  exact (@exception_is_of_last_step ex_world [lambda_7] [] foo_raising wr
           [] [] start s' e H1 H2).
Defined.

End Blame.

(* ===================================================================== *)
(** ** composes: what the function receives for a composed value *)
(* ===================================================================== *)

Module Leading.
Import Inspect Wf DictFacts BinderFacts Rebind BindSpec.

Section V.
Variable V : Type.
Implicit Types (a acc : arguments V) (lead post : list Param).

Lemma nth_error_combine {A B} (l : list A) (m : list B) : forall i x y,
  nth_error l i = Some x -> nth_error m i = Some y ->
  nth_error (combine l m) i = Some (x, y).
Proof.
  revert m. induction l as [|x0 l IH]; intros m i x y Hl Hm.
  - destruct i; discriminate.
  - destruct m as [|y0 m]; [destruct i; discriminate|].
    destruct i as [|i]; simpl in *.
    + congruence.
    + now apply IH.
Qed.

Lemma Forall2_nth_error {A B} (R : A -> B -> Prop) l m :
  Forall2 R l m -> forall i x, nth_error l i = Some x ->
  exists y, nth_error m i = Some y /\ R x y.
Proof.
  induction 1 as [|x0 y0 l m Hxy _ IH]; intros i x Hi.
  - destruct i; discriminate.
  - destruct i as [|i]; simpl in *.
    + injection Hi as <-. eauto.
    + now apply IH.
Qed.

(** The positional loop gives the leading ordinary parameters the
    leading values, one each, and leaves none of them to the keyword
    loop. *)
Lemma bind_positional_leading partial kw post : forall lead vs acc acc' rem,
  NoDup (map name (lead ++ post)) ->
  (forall q, In q (lead ++ post) -> ~ In (name q) (Dict.keys acc)) ->
  Forall (fun q => ordinary q = true) lead ->
  bind_positional partial (lead ++ post) vs kw acc = Ok (acc', rem) ->
  forall i q v, nth_error lead i = Some q -> nth_error vs i = Some v ->
    Dict.get acc' (name q) = Some (One v) /\ ~ In (name q) (map name rem).
Proof.
  induction lead as [|q0 lead IH]; intros vs acc acc' rem Hnd Hf Ho H i q v Hi Hv.
  - destruct i; discriminate.
  - destruct vs as [|v0 more]; [destruct i; discriminate|].
    assert (Hq0 : ordinary q0 = true) by (now inversion Ho).
    assert (Ho' : Forall (fun q => ordinary q = true) lead) by (now inversion Ho).
    assert (Hnd' : NoDup (map name (lead ++ post))) by (now inversion Hnd).
    assert (Hset : Dict.set acc (name q0) (One v0) = acc ++ [(name q0, One v0)]).
    { apply set_fresh. apply Hf. now left. }
    assert (Hf' : forall q, In q (lead ++ post) ->
              ~ In (name q) (Dict.keys (Dict.set acc (name q0) (One v0)))).
    { rewrite Hset. eapply fresh_tail; eauto. }
    assert (H' : bind_positional partial (lead ++ post) more kw
                   (Dict.set acc (name q0) (One v0)) = Ok (acc', rem)).
    { unfold ordinary in Hq0. simpl in H.
      destruct (kind q0); try discriminate; simpl in H.
      - now rewrite andb_false_r in H.
      - rewrite andb_true_r in H.
        destruct (Dict.mem kw (name q0)); [discriminate|exact H]. }
    destruct i as [|i]; simpl in Hi, Hv.
    + injection Hi as <-. injection Hv as <-.
      destruct (@bp_spec V partial kw _ _ _ _ _ Hnd' Hf' H')
        as (bs & Hp & Ha & _).
      split.
      * rewrite Ha, get_app, get_set_eq. reflexivity.
      * intros I. apply in_map_iff in I as (q' & E & I).
        apply (@NoDup_name_neq q0 (lead ++ post) Hnd q'); auto.
        destruct Hp as [Hp|(vp & _ & Hp)]; rewrite Hp; apply in_or_app;
          right; auto. now right.
    + eapply IH; eauto.
Qed.

(** The keyword loop touches the entries of the parameters it iterates
    only. *)
Lemma bind_keywords_keeps partial k : forall params kw acc kp acc' kw' kp',
  bind_keywords partial params kw acc kp = Ok (acc', kw', kp') ->
  ~ In k (map name params) ->
  Dict.get acc' k = Dict.get acc k.
Proof.
  induction params as [|p rest IH]; intros kw acc kp acc' kw' kp' H Hk.
  - simpl in H. now inversion H; subst.
  - assert (Hk' : ~ In k (map name rest)) by (intros I; apply Hk; now right).
    assert (Hne : name p <> k) by (intros E; apply Hk; now left).
    assert (Hskip : forall kp0,
              bind_keywords partial rest kw acc kp0 = Ok (acc', kw', kp') ->
              Dict.get acc' k = Dict.get acc k).
    { intros kp0 H0. exact (IH _ _ _ _ _ _ H0 Hk'). }
    assert (Hset : forall x,
              bind_keywords partial rest (Dict.pop kw (name p))
                (Dict.set acc (name p) (One x)) kp = Ok (acc', kw', kp') ->
              Dict.get acc' k = Dict.get acc k).
    { intros x H0. rewrite (IH _ _ _ _ _ _ H0 Hk').
      now apply get_set_neq. }
    simpl in H. destruct (kind p) eqn:Hkind.
    + destruct (Dict.get kw (name p)); [discriminate|].
      destruct partial, (default p); try discriminate; eauto.
    + destruct (Dict.get kw (name p)) as [x|]; [now apply (Hset x)|].
      destruct partial, (default p); try discriminate; eauto.
    + eauto.
    + destruct (Dict.get kw (name p)) as [x|]; [now apply (Hset x)|].
      destruct partial, (default p); try discriminate; eauto.
    + eauto.
Qed.

(** The parameter it keeps for the surplus keywords is a [**kwargs] it
    has iterated. *)
Lemma bind_keywords_kp partial : forall params kw acc kp acc' kw' kp',
  bind_keywords partial params kw acc kp = Ok (acc', kw', kp') ->
  kp' = kp \/
  exists vk, In vk params /\ kind vk = VAR_KEYWORD /\ kp' = Some vk.
Proof.
  induction params as [|p rest IH]; intros kw acc kp acc' kw' kp' H.
  - simpl in H. inversion H; subst. auto.
  - assert (Hrec : forall kw0 acc0,
              bind_keywords partial rest kw0 acc0 kp = Ok (acc', kw', kp') ->
              kp' = kp \/
              exists vk, In vk (p :: rest) /\ kind vk = VAR_KEYWORD /\
                         kp' = Some vk).
    { intros kw0 acc0 H0.
      destruct (IH _ _ _ _ _ _ H0) as [E|(vk & I & K & E)]; auto.
      right. exists vk. repeat split; auto. now right. }
    simpl in H. destruct (kind p) eqn:Hkind.
    + destruct (Dict.get kw (name p)); [discriminate|].
      destruct partial, (default p); try discriminate; eauto.
    + destruct (Dict.get kw (name p)) as [x|]; [eauto|].
      destruct partial, (default p); try discriminate; eauto.
    + eauto.
    + destruct (Dict.get kw (name p)) as [x|]; [eauto|].
      destruct partial, (default p); try discriminate; eauto.
    + right. destruct (IH _ _ _ _ _ _ H) as [E|(vk & I & K & E)].
      * exists p. repeat split; auto. now left.
      * exists vk. repeat split; auto. now right.
Qed.

(** [Signature._bind] gives the leading ordinary parameters the leading
    positional values. *)
Lemma bind_leading partial lead post (vs : list V) (kw : Dict.t V) A :
  NoDup (map name (lead ++ post)) ->
  Forall (fun q => ordinary q = true) lead ->
  _bind (lead ++ post) vs kw partial = Ok A ->
  forall i q v, nth_error lead i = Some q -> nth_error vs i = Some v ->
    Dict.get A (name q) = Some (One v).
Proof.
  intros Hnd Ho H i q v Hi Hv. unfold _bind in H.
  destruct (bind_positional partial (lead ++ post) vs kw [])
    as [[acc1 rem]|] eqn:H1; [|discriminate].
  destruct (bind_keywords partial rem kw acc1 None)
    as [[[acc2 kw'] kp']|] eqn:H2; [|discriminate].
  destruct (@bind_positional_leading partial kw post lead vs [] acc1 rem
              Hnd ltac:(intros ? ? []) Ho H1 i q v Hi Hv) as [G Hrem].
  pose proof (@bind_keywords_keeps partial (name q) _ _ _ _ _ _ _ H2 Hrem)
    as G2.
  pose proof (@bind_keywords_kp partial _ _ _ _ _ _ _ H2) as Hkp.
  rewrite G in G2.
  destruct kw' as [|kv kw']; [now inversion H; subst|].
  destruct kp' as [vk|]; [|discriminate].
  inversion H; subst. rewrite get_set_neq; auto.
  destruct Hkp as [[=]|(vk' & I & _ & [= <-])].
  intros E. apply Hrem. rewrite <- E. now apply in_map.
Qed.

(** [BoundArguments.args] starts with the values of the leading ordinary
    parameters, when they all have one. *)
Lemma args_leading a post : forall lead,
  (forall q, In q lead ->
     ordinary q = true /\ exists y, Dict.get a (name q) = Some (One y)) ->
  forall i q v, nth_error lead i = Some q ->
    Dict.get a (name q) = Some (One v) ->
    nth_error (args (lead ++ post) a) i = Some v.
Proof.
  induction lead as [|q0 lead IH]; intros Hall i q v Hi Hg.
  - destruct i; discriminate.
  - destruct (Hall q0 (or_introl eq_refl)) as (Ho & y & Hy).
    assert (E : args ((q0 :: lead) ++ post) a = y :: args (lead ++ post) a).
    { simpl. unfold ordinary in Ho. rewrite Hy.
      destruct (kind q0); try discriminate; reflexivity. }
    rewrite E. destruct i as [|i]; simpl in *.
    + injection Hi as <-. congruence.
    + apply (IH (fun q' I => Hall q' (or_intror I)) i q v Hi Hg).
Qed.

(** *** Keyword-only parameters *)

Lemma Forall2_In_l {A B} (R : A -> B -> Prop) l m x :
  Forall2 R l m -> In x l -> exists y, In y m /\ R x y.
Proof.
  induction 1 as [|x0 y0 l m Hxy _ IH]; intros I; [contradiction|].
  destruct I as [<-|I].
  - exists y0. split; auto. now left.
  - destruct (IH I) as (y & Iy & Hy). exists y. split; auto. now right.
Qed.

(** A keyword-only parameter is left to the keyword part of a
    binding. *)
Lemma pos_split_keyword_only a p : forall params,
  In p params -> kind p = KEYWORD_ONLY -> In p (snd (pos_split params a)).
Proof.
  induction params as [|q rest IH]; intros I Hk; [contradiction|].
  simpl. destruct I as [->|I].
  - rewrite Hk. now left.
  - destruct (kind q); try (now right);
      (destruct (Dict.get a (name q));
       [ specialize (IH I Hk); destruct (pos_split rest a); exact IH
       | simpl; auto ]).
Qed.

(** [BoundArguments.kwargs] holds the value of a keyword-only
    parameter under its name. *)
Lemma kwargs_keyword_only sig a p v :
  wf_sig sig = true -> ok sig a -> In p sig -> kind p = KEYWORD_ONLY ->
  Dict.get a (name p) = Some (One v) ->
  Dict.get (kwargs sig a) (name p) = Some v.
Proof.
  intros Hwf Hok I Hk Hg.
  apply In_get; [now apply kwargs_nodup|].
  unfold wf_sig in Hwf.
  apply andb_true_iff in Hwf as [Hnd Hord]. apply nodupb_NoDup in Hnd.
  rewrite (@kwargs_closed _ sig a 0 Hord Hnd Hok).
  unfold kw_entries. apply in_flat_map. exists p.
  split; [now apply pos_split_keyword_only|].
  unfold kw_entry. rewrite Hg, Hk. now left.
Qed.

(** The keyword loop gives a keyword-only parameter the value passed
    under its name. *)
Lemma bind_keywords_keyword_only partial p v :
  forall params kw acc kp acc' kw' kp',
  NoDup (map name params) -> In p params -> kind p = KEYWORD_ONLY ->
  Dict.get kw (name p) = Some v ->
  bind_keywords partial params kw acc kp = Ok (acc', kw', kp') ->
  Dict.get acc' (name p) = Some (One v).
Proof.
  induction params as [|q rest IH]; intros kw acc kp acc' kw' kp' Hnd I Hk Hg H;
    [contradiction|].
  assert (Hnd' : NoDup (map name rest)) by (now inversion Hnd).
  destruct I as [->|I].
  - simpl in H. rewrite Hk, Hg in H.
    rewrite (@bind_keywords_keeps partial (name p) _ _ _ _ _ _ _ H).
    + apply get_set_eq.
    + now inversion Hnd.
  - assert (Hne : name q <> name p).
    { intros E. inversion Hnd; subst. apply H2. rewrite E. now apply in_map. }
    assert (Hpop : Dict.get (Dict.pop kw (name q)) (name p) = Some v)
      by (now rewrite get_pop_neq).
    simpl in H. destruct (kind q) eqn:Hkind.
    + destruct (Dict.get kw (name q)); [discriminate|].
      destruct partial, (default q); try discriminate; eauto.
    + destruct (Dict.get kw (name q)) as [x|]; [eauto|].
      destruct partial, (default q); try discriminate; eauto.
    + eauto.
    + destruct (Dict.get kw (name q)) as [x|]; [eauto|].
      destruct partial, (default q); try discriminate; eauto.
    + eauto.
Qed.

(** [Signature._bind] gives a keyword-only parameter the value passed
    under its name. *)
Lemma bind_keyword_only partial sig (vs : list V) (kw : Dict.t V) A p v :
  NoDup (map name sig) -> In p sig -> kind p = KEYWORD_ONLY ->
  Dict.get kw (name p) = Some v ->
  _bind sig vs kw partial = Ok A ->
  Dict.get A (name p) = Some (One v).
Proof.
  intros Hnd I Hk Hg H. unfold _bind in H.
  destruct (bind_positional partial sig vs kw [])
    as [[acc1 rem]|] eqn:H1; [|discriminate].
  destruct (bind_keywords partial rem kw acc1 None)
    as [[[acc2 kw'] kp']|] eqn:H2; [|discriminate].
  destruct (@bp_spec V partial kw sig vs [] acc1 rem Hnd
              ltac:(intros ? ? []) H1) as (bs & Hp & _ & Hb & _).
  rewrite Forall_forall in Hb.
  assert (Hsig : exists mid, sig = map fst bs ++ mid ++ rem /\
            forall q, In q mid -> kind q = VAR_POSITIONAL).
  { destruct Hp as [->|(vp & Hv & ->)].
    - exists []. split; auto. intros q [].
    - exists [vp]. split; auto. intros q [<-|[]]. auto. }
  destruct Hsig as (mid & Hsig & Hmid).
  assert (Irem : In p rem).
  { rewrite Hsig in I. apply in_app_or in I as [I|I];
      [|apply in_app_or in I as [I|I]]; auto.
    - apply in_map_iff in I as (b & <- & Ib).
      destruct (Hb _ Ib) as (_ & N & _). congruence.
    - apply Hmid in I. congruence. }
  assert (Hrem : incl rem sig).
  { intros q Iq. rewrite Hsig. apply in_or_app. right.
    apply in_or_app. now right. }
  assert (Hndr : NoDup (map name rem)).
  { rewrite Hsig, !map_app in Hnd.
    apply NoDup_app_remove_l in Hnd. now apply NoDup_app_remove_l in Hnd. }
  pose proof (@bind_keywords_keyword_only partial p v _ _ _ _ _ _ _
                Hndr Irem Hk Hg H2) as G.
  pose proof (@bind_keywords_kp partial _ _ _ _ _ _ _ H2) as Hkp.
  destruct kw' as [|kv kw']; [now inversion H; subst|].
  destruct kp' as [vk|]; [|discriminate].
  inversion H; subst. rewrite get_set_neq; auto.
  destruct Hkp as [[=]|(vk' & Ivk & Kvk & [= <-])].
  intros E.
  assert (vk = p) by (apply (@name_inj rem vk p Hndr); auto).
  subst. congruence.
Qed.

End V.
End Leading.

Module Composed.
Import Inspect Wf DictFacts BinderFacts Rebind BindSpec BindMore Natural Run
  InjectFacts ComposeFacts Steps ExitStack MismatchClaims InjectRun
  CtxOutcome Calls Leading.
Local Open Scope py_scope.

Lemma composed_from_mono l t r ca v :
  composed_from t ca v -> composed_from (l ++ t ++ r) ca v.
Proof.
  unfold composed_from.
  destruct (is_ (fst ca) (snd ca) || is_ (fst ca) VNone); auto.
  intros I. apply in_or_app. right. apply in_or_app. now left.
Qed.


Section W.
Variable w : world.

(** An item of a wrapper of [composes]. *)
Lemma compose_item_composed finish c a s v s' :
  finish = (fun '(v, _, _) => ret v) \/
  finish = (fun '(v, _, awt) =>
              if iscoroutine awt then py_await w v else ret v) ->
  (x <- _call w c a ;; finish x) s = (Ok v, s') ->
  exists evs, log s' = log s ++ evs /\ composed_from evs (c, a) v.
Proof.
  intros Hf H.
  assert (Hfin : forall u c0, iscoroutine c0 = false -> forall b s0,
            finish (u, b, c0) s0 = (Ok u, s0)).
  { intros u c0 Hc b s0. destruct Hf as [->| ->]; simpl; [reflexivity|].
    now rewrite Hc. }
  unfold composed_from, _call in *. simpl.
  destruct (is_ c a || is_ c VNone).
  - unfold bindM, ret in H. rewrite Hfin in H by reflexivity.
    inversion H; subst. exists []. now rewrite app_nil_r.
  - unfold bindM, ret, py_call in H.
    destruct (callable c) eqn:Hc; [|discriminate].
    destruct (call_ w (log s) c [a]) as [x|e] eqn:Ecall; [|discriminate].
    rewrite Hfin in H by (now apply callable_not_coroutine).
    inversion H; subst. exists [EvCall c [a] (Ok v)]. simpl. auto.
Qed.


Section Body.
Variable R : trace -> value * value -> value -> Prop.
Variable finish : triple -> M value.
Hypothesis Rmono : forall l t r ca v, R t ca v -> R (l ++ t ++ r) ca v.
Hypothesis Hitem : forall c a s v s',
  (x <- _call w c a ;; finish x) s = (Ok v, s') ->
  exists evs, log s' = log s ++ evs /\ R evs (c, a) v.
Hypothesis Hquiet : forall x, emits not_invoke (finish x).

(** The keyword items: each value of the call with the composer that
    was looked up for its key. *)
Lemma for_kwargs_composed (look : string -> value) (d : Dict.t value)
    s kvs s' :
  NoDup (Dict.keys d) ->
  for_kwargs (map (fun ka => (fst ka, _call w (look (fst ka)) (snd ka))) d)
    finish s = (Ok kvs, s') ->
  exists evs, log s' = log s ++ evs /\
    Forall2 (fun ka kv => fst ka = fst kv /\
                          R evs (look (fst ka), snd ka) (snd kv)) d kvs.
Proof.
  intros Hnd H. unfold for_kwargs in H. rewrite map_map in H.
  apply bindM_inv in H as [(e & _ & [=])|(its & s1 & H1 & H2)].
  inversion H2; subst. clear H2.
  destruct (@sequence_Forall2_events _ _
              (fun evs ka (kv : string * value) =>
                 fst ka = fst kv /\ R evs (look (fst ka), snd ka) (snd kv))
              (fun ka : string * value =>
                 x <- _call w (look (fst ka)) (snd ka) ;;
                 v <- finish x ;; ret (fst ka, v))) with
    (bs := d) (s := s) (xs := its) (s' := s')
    as (evs & L & Hq); auto.
  - intros l t r ka kv [E Hr]. split; auto.
  - intros ka s0 [k v] s0' Hs.
    apply bindM_inv in Hs as [(e & _ & [=])|(x & s2 & Hx & Hs)].
    apply bindM_inv in Hs as [(e & _ & [=])|(v' & s3 & Hv & Hs)].
    assert (Hrun : (x <- _call w (look (fst ka)) (snd ka) ;; finish x) s0
                   = (Ok v', s3))
      by (unfold bindM; rewrite Hx; exact Hv).
    destruct (Hitem _ _ _ Hrun) as (evs & L & Hr).
    inversion Hs; subst. exists evs. simpl. auto.
  - exists evs. split; auto.
    rewrite dict_of_fresh; auto. simpl.
    replace (map fst its) with (Dict.keys d); auto.
    clear -Hq. induction Hq as [|x y l l' [E _] _ IH]; simpl; congruence.
Qed.

(** One call of a wrapper of [composes], up to what it does with an
    item: it raises without having invoked the function, or it invokes
    it once, last, on the binding of the values that the steps before
    made of the pairs of a composer and a value of the call. *)
Lemma compose_body_composed fn bc args_ kwargs_ ba s r s' :
  let sig := signature fn in
  let bb := Dict.update ba bc in
  wf_sig sig = true -> wf_kwargs kwargs_ = true ->
  bind sig args_ kwargs_ = Ok ba ->
  compose_body w finish fn bc args_ kwargs_ s = (r, s') ->
  exists evs, log s' = log s ++ evs /\
    ((exists e, r = Raise e /\ Forall not_invoke evs) \/
     (exists pre vs kvs ba',
        evs = pre ++ [EvInvoke (apply_defaults sig ba') r] /\
        Forall not_invoke pre /\
        Forall2 (R pre) (combine (args sig bb) (args sig ba)) vs /\
        Forall2 (fun ka kv =>
                   fst ka = fst kv /\
                   R pre (get_or_None (kwargs sig bb) (fst ka), snd ka)
                     (snd kv)) (kwargs sig ba) kvs /\
        NoDup (Dict.keys kvs) /\
        bind sig vs kvs = Ok ba')).
Proof.
  intros sig bb Hwf Hkw Hba H.
  apply wf_kwargs_NoDup in Hkw.
  destruct (@bind_ok _ false sig args_ kwargs_ ba Hwf Hkw Hba)
    as (Hoa & Hna & _).
  unfold compose_body, _compose in H. fold sig in H. rewrite Hba in H.
  rewrite (@bindM_ok _ _ _ _ s (_build_bound_compose w sig ba bc) s) in H
    by reflexivity.
  cbv beta iota zeta delta [_build_bound_compose fst snd] in H.
  fold bb in H.
  assert (Hem1 : emits not_invoke
            (for_args (map (fun ca => _call w (fst ca) (snd ca))
                         (combine (args sig bb) (args sig ba))) finish)).
  { apply emits_for_args; auto. apply Forall_map. apply Forall_forall.
    intros ca _. apply emits_call. intros; apply not_invoke_call. }
  assert (Hem2 : emits not_invoke
            (for_kwargs
               (map (fun ka => (fst ka,
                       _call w (get_or_None (kwargs sig bb) (fst ka))
                         (snd ka))) (kwargs sig ba)) finish)).
  { apply emits_for_kwargs; auto. apply Forall_map. apply Forall_forall.
    intros ka _. simpl. apply emits_call. intros; apply not_invoke_call. }
  apply bindM_inv in H as [(e & H & ->)|(vs & s1 & H1 & H)].
  { destruct (Hem1 _ _ _ H) as (evs & L & F). exists evs. split; eauto. }
  destruct (Hem1 _ _ _ H1) as (ev1 & L1 & F1).
  assert (Hvs : Forall2 (R ev1) (combine (args sig bb) (args sig ba)) vs).
  { unfold for_args in H1. rewrite map_map in H1.
    destruct (@sequence_Forall2_events _ _ R
                (fun ca => x <- _call w (fst ca) (snd ca) ;; finish x)
                Rmono
                (fun b s0 v0 s2 Hb =>
                   eq_ind _ (fun l => exists evs, log s2 = log s0 ++ evs /\
                                        R evs l v0)
                     (@Hitem (fst b) (snd b) s0 v0 s2 Hb) _
                     (eq_sym (surjective_pairing b)))
                _ _ _ _ H1) as (ev1' & L1' & Hq).
    rewrite L1 in L1'. apply app_inv_head in L1'. now subst ev1'. }
  apply bindM_inv in H as [(e & H & ->)|(kvs & s2 & H2 & H)].
  { destruct (Hem2 _ _ _ H) as (ev2 & L2 & F2).
    exists (ev1 ++ ev2). rewrite L2, L1, app_assoc. split; auto.
    left. eexists. split; eauto. apply Forall_app. auto. }
  destruct (Hem2 _ _ _ H2) as (ev2 & L2 & F2).
  destruct (@for_kwargs_composed (get_or_None (kwargs sig bb))
              (kwargs sig ba) _ _ _ (kwargs_nodup Hwf Hoa) H2)
    as (ev2' & L2' & Hkvs).
  rewrite L2 in L2'. apply app_inv_head in L2'. subst ev2'.
  assert (Hvs' : Forall2 (R (ev1 ++ ev2))
                   (combine (args sig bb) (args sig ba)) vs).
  { eapply Forall2_impl; [|exact Hvs]. intros ca v Hq.
    exact (@Rmono [] ev1 ev2 _ _ Hq). }
  assert (Hkvs' : Forall2 (fun ka kv =>
                     fst ka = fst kv /\
                     R (ev1 ++ ev2)
                       (get_or_None (kwargs sig bb) (fst ka), snd ka)
                       (snd kv)) (kwargs sig ba) kvs).
  { eapply Forall2_impl; [|exact Hkvs]. intros ka kv [E Hq]. split; auto.
    pose proof (@Rmono ev1 ev2 [] _ _ Hq) as Hq'.
    now rewrite app_nil_r in Hq'. }
  assert (L : log s2 = log s ++ (ev1 ++ ev2))
    by (now rewrite L2, L1, app_assoc).
  assert (F : Forall not_invoke (ev1 ++ ev2)) by (apply Forall_app; auto).
  destruct (bind sig vs kvs) as [ba'|e] eqn:Hb.
  - rewrite (@bindM_ok _ _ _ _ s2 ba' s2) in H by reflexivity.
    assert (Hkk : NoDup (Dict.keys kvs)).
    { replace (Dict.keys kvs) with (Dict.keys (kwargs sig ba)).
      - now apply kwargs_nodup.
      - clear -Hkvs. unfold Dict.keys.
        induction Hkvs as [|x y l l' [E _] _ IH]; simpl; congruence. }
    destruct (@bind_ok _ false sig vs kvs ba' Hwf Hkk Hb) as (Hok' & _ & _).
    apply invoke_run in H; auto.
    destruct H as [(Hc & Hr & Hl & _)|(Hc & (msg & ->) & ->)].
    + eexists. split; [rewrite Hl, L, <- app_assoc; reflexivity|].
      right. exists (ev1 ++ ev2), vs, kvs, ba'. repeat split; auto.
    + exists (ev1 ++ ev2). split; auto. left. eauto.
  - unfold bindM, try, lift in H. inversion H; subst.
    exists (ev1 ++ ev2). split; auto. left. eauto.
Qed.

(** A value passed by position to one of the leading parameters. *)
Lemma compose_body_leading fn composer_args composer_kwargs bc
    args_ kwargs_ pre post p c a s r s' :
  let sig := signature fn in
  wf_sig sig = true -> wf_kwargs composer_kwargs = true ->
  wf_kwargs kwargs_ = true ->
  bind_partial sig composer_args composer_kwargs = Ok bc ->
  sig = pre ++ p :: post ->
  Forall (fun q => ordinary q = true) (pre ++ [p]) ->
  nth_error args_ (List.length pre) = Some a ->
  Dict.get bc (name p) = Some (One c) ->
  compose_body w finish fn bc args_ kwargs_ s = (r, s') ->
  exists evs, log s' = log s ++ evs /\
    ((exists e, r = Raise e /\ Forall not_invoke evs) \/
     (exists before env v,
        evs = before ++ [EvInvoke env r] /\ Forall not_invoke before /\
        R before (c, a) v /\
        Dict.get env (name p) = Some (One v))).
Proof.
  intros sig Hwf Hckw Hkw Hbc Hsig Hord Ha Hg Hrun. subst sig.
  destruct (bind (signature fn) args_ kwargs_) as [ba|e] eqn:Hba.
  2:{ rewrite (@compose_body_bind_failure w finish fn bc args_ kwargs_ e s
                 Hba) in Hrun.
      inversion Hrun; subst. exists []. rewrite app_nil_r. split; auto.
      left. eauto. }
  destruct (@compose_body_composed fn bc args_ kwargs_ ba s r s'
              Hwf Hkw Hba Hrun)
    as (evs & L & [Hr|(before & vs & kvs & ba' & E & F & Hvs & _ & _ & Hb')]).
  { exists evs. auto. }
  exists evs. split; auto. right.
  assert (Hnd : NoDup (map name (signature fn))).
  { unfold wf_sig in Hwf. apply andb_true_iff in Hwf as [Hwf' _].
    now apply nodupb_NoDup. }
  set (lead := pre ++ [p]) in *.
  assert (Hsig' : (signature fn) = lead ++ post).
  { unfold lead. rewrite <- app_assoc. exact Hsig. }
  assert (Hp : nth_error lead (List.length pre) = Some p).
  { unfold lead. rewrite nth_error_app2 by lia. now rewrite Nat.sub_diag. }
  assert (Hlen : List.length lead <= List.length args_).
  { unfold lead. rewrite length_app. simpl.
    assert (List.length pre < List.length args_)
      by (apply nth_error_Some; congruence). lia. }
  (* the binding of the call *)
  assert (Hall : forall q, In q lead ->
            ordinary q = true /\
            exists y, Dict.get ba (name q) = Some (One y)).
  { intros q I. split; [now apply (proj1 (Forall_forall _ _) Hord)|].
    apply In_nth_error in I as (i & Hi).
    assert (Hlt : i < List.length args_).
    { assert (i < List.length lead) by (apply nth_error_Some; congruence).
      lia. }
    destruct (nth_error args_ i) as [y|] eqn:Hy;
      [|apply nth_error_None in Hy; lia].
    exists y. unfold bind in Hba. rewrite Hsig' in Hba, Hnd.
    exact (@bind_leading _ false lead post args_ kwargs_ ba Hnd Hord Hba
             i q y Hi Hy). }
  assert (Hpa : Dict.get ba (name p) = Some (One a)).
  { unfold bind in Hba. rewrite Hsig' in Hba, Hnd.
    exact (@bind_leading _ false lead post args_ kwargs_ ba Hnd Hord Hba
             _ p a Hp Ha). }
  (* the merge *)
  apply wf_kwargs_NoDup in Hckw.
  destruct (@bind_ok _ true (signature fn) composer_args composer_kwargs bc
              Hwf Hckw Hbc) as (Hokc & Hnc & _).
  assert (Hbb : forall k, Dict.get (Dict.update ba bc) k =
                  match Dict.get bc k with
                  | Some x => Some x
                  | None => Dict.get ba k
                  end).
  { intros k. now apply get_update. }
  assert (Hallb : forall q, In q lead ->
            ordinary q = true /\
            exists y, Dict.get (Dict.update ba bc) (name q) = Some (One y)).
  { intros q I. destruct (Hall q I) as (Hoq & y & Hy). split; auto.
    rewrite Hbb. destruct (Dict.get bc (name q)) as [x|] eqn:Hx; eauto.
    assert (Iq : In q (signature fn)).
    { rewrite Hsig'. apply in_or_app. now left. }
    pose proof (@ok_shape _ _ _ Hokc q x Iq Hx) as Hs.
    unfold ordinary in Hoq. unfold shape in Hs.
    destruct (kind q); try discriminate; destruct Hs as (y' & ->); eauto. }
  assert (Hpb : Dict.get (Dict.update ba bc) (name p) = Some (One c)).
  { now rewrite Hbb, Hg. }
  (* the pair of [c] and [a] *)
  assert (Hpair : nth_error (combine (args (signature fn) (Dict.update ba bc))
                               (args (signature fn) ba)) (List.length pre)
                  = Some (c, a)).
  { rewrite Hsig'. apply nth_error_combine.
    - exact (@args_leading _ _ post lead Hallb _ p c Hp Hpb).
    - exact (@args_leading _ _ post lead Hall _ p a Hp Hpa). }
  destruct (Forall2_nth_error Hvs _ Hpair) as (v & Hv & Hcomp).
  exists before, (apply_defaults (signature fn) ba'), v.
  split; [exact E|]. split; auto. split; auto.
  assert (Ip : In p (signature fn)).
  { rewrite Hsig. apply in_or_app. right. now left. }
  rewrite (@get_apply_defaults ba' (signature fn) p Hnd Ip).
  unfold bind in Hb'. rewrite Hsig' in Hb', Hnd.
  now rewrite (@bind_leading _ false lead post vs kvs ba' Hnd Hord Hb'
                 _ p v Hp Hv).
Qed.

(** A value passed by name to a keyword-only parameter. *)
Lemma compose_body_keyword_only fn composer_args composer_kwargs bc
    args_ kwargs_ p c a s r s' :
  let sig := signature fn in
  wf_sig sig = true -> wf_kwargs composer_kwargs = true ->
  wf_kwargs kwargs_ = true ->
  bind_partial sig composer_args composer_kwargs = Ok bc ->
  In p sig -> kind p = KEYWORD_ONLY ->
  Dict.get kwargs_ (name p) = Some a ->
  Dict.get bc (name p) = Some (One c) ->
  compose_body w finish fn bc args_ kwargs_ s = (r, s') ->
  exists evs, log s' = log s ++ evs /\
    ((exists e, r = Raise e /\ Forall not_invoke evs) \/
     (exists before env v,
        evs = before ++ [EvInvoke env r] /\ Forall not_invoke before /\
        R before (c, a) v /\
        Dict.get env (name p) = Some (One v))).
Proof.
  intros sig Hwf Hckw Hkw Hbc Ip Hk Ha Hg Hrun. subst sig.
  destruct (bind (signature fn) args_ kwargs_) as [ba|e] eqn:Hba.
  2:{ rewrite (@compose_body_bind_failure w finish fn bc args_ kwargs_ e s
                 Hba) in Hrun.
      inversion Hrun; subst. exists []. rewrite app_nil_r. split; auto.
      left. eauto. }
  destruct (@compose_body_composed fn bc args_ kwargs_ ba s r s'
              Hwf Hkw Hba Hrun)
    as (evs & L &
        [Hr|(before & vs & kvs & ba' & E & F & _ & Hkvs & Hnk & Hb')]).
  { exists evs. auto. }
  exists evs. split; auto. right.
  assert (Hnd : NoDup (map name (signature fn))).
  { unfold wf_sig in Hwf. apply andb_true_iff in Hwf as [Hwf' _].
    now apply nodupb_NoDup. }
  apply wf_kwargs_NoDup in Hkw. apply wf_kwargs_NoDup in Hckw.
  destruct (@bind_ok _ false (signature fn) args_ kwargs_ ba Hwf Hkw Hba)
    as (Hoa & Hna & _).
  destruct (@bind_ok _ true (signature fn) composer_args composer_kwargs bc
              Hwf Hckw Hbc) as (Hokc & Hnc & _).
  assert (Hpa : Dict.get ba (name p) = Some (One a)).
  { exact (@bind_keyword_only _ false (signature fn) args_ kwargs_ ba p a
             Hnd Ip Hk Ha Hba). }
  assert (Hpb : Dict.get (Dict.update ba bc) (name p) = Some (One c)).
  { rewrite get_update by auto. now rewrite Hg. }
  assert (Hokb : ok (signature fn) (Dict.update ba bc))
    by (now apply ok_update).
  pose proof (@kwargs_keyword_only _ (signature fn) ba p a
                Hwf Hoa Ip Hk Hpa) as Hka.
  pose proof (@kwargs_keyword_only _ (signature fn) _ p c
                Hwf Hokb Ip Hk Hpb) as Hkb.
  apply get_Some_In in Hka.
  destruct (@Forall2_In_l _ _ _ _ _ _ Hkvs Hka) as ([k v] & Ikv & Ek & Hcomp).
  simpl in Ek, Hcomp. subst k.
  unfold get_or_None in Hcomp. rewrite Hkb in Hcomp.
  exists before, (apply_defaults (signature fn) ba'), v.
  split; [exact E|]. split; auto. split; auto.
  rewrite (@get_apply_defaults ba' (signature fn) p Hnd Ip).
  now rewrite (@bind_keyword_only _ false (signature fn) vs kvs ba' p v
                 Hnd Ip Hk (@In_get _ _ _ _ Hnk Ikv) Hb').
Qed.

End Body.

Lemma composes_finish_quiet (finish : triple -> M value) :
  finish = (fun '(v, _, _) => ret v) \/
  finish = (fun '(v, _, awt) =>
              if iscoroutine awt then py_await w v else ret v) ->
  forall x, emits not_invoke (finish x).
Proof.
  intros Hfin [[v0 c0] awt]. destruct Hfin as [->| ->].
  - apply emits_ret.
  - destruct (iscoroutine awt); [|apply emits_ret].
    apply emits_py_await. intros; apply not_invoke_await.
Qed.

End W.

(** X10.  A function decorated with [composes] is called with at least
    [n + 1] positional values, its first [n + 1] parameters take one
    positional value each, and the table holds a composer [c] for the last
    of them, [p], that is neither [None] nor the value [a] passed for [p]:
    the function, if it is invoked, receives for [p] what the call [c(a)]
    returned before. *)
Theorem composes_applies_composer_to_positional
    (w : world) (fn : pyfunc) (composer_args : list value)
    (composer_kwargs : Dict.t value) (wr : wrapped) (bc : arguments value)
    (args_ : list value) (kwargs_ : Dict.t value)
    (pre post : list Param) (p : Param) (c a : value)
    (s s' : state) (r : result value) :
  wf_sig (signature fn) = true ->
  wf_kwargs composer_kwargs = true ->
  wf_kwargs kwargs_ = true ->
  composes w composer_args composer_kwargs fn = Ok wr ->
  bind_partial (signature fn) composer_args composer_kwargs = Ok bc ->
  signature fn = pre ++ p :: post ->
  Forall (fun q => ordinary q = true) (pre ++ [p]) ->
  nth_error args_ (List.length pre) = Some a ->
  Dict.get bc (name p) = Some (One c) ->
  is_ c a = false -> is_ c VNone = false ->
  wr args_ kwargs_ s = (r, s') ->
  exists evs, log s' = log s ++ evs /\
    ((exists e, r = Raise e /\ Forall not_invoke evs) \/
     (exists before env v,
        evs = before ++ [EvInvoke env r] /\ Forall not_invoke before /\
        In (EvCall c [a] (Ok v)) before /\
        Dict.get env (name p) = Some (One v))).
Proof.
  intros Hwf Hckw Hkw Hc Hbc Hsig Hord Ha Hg Hca Hcn Hrun.
  destruct (@composes_cases w _ _ _ _ Hc) as (bc' & finish & Hbc' & -> & Hfin).
  rewrite Hbc in Hbc'. injection Hbc' as <-.
  destruct (@compose_body_leading w composed_from finish composed_from_mono
              (fun c0 a0 s0 v0 s1 =>
                 @compose_item_composed w finish c0 a0 s0 v0 s1 Hfin)
              (@composes_finish_quiet w finish Hfin)
              fn composer_args composer_kwargs bc args_ kwargs_ pre post p c a
              s r s' Hwf Hckw Hkw Hbc Hsig Hord Ha Hg Hrun)
    as (evs & L & [Hr|(before & env & v & E & F & Hcomp & Hv)]);
    exists evs; split; auto.
  right. exists before, env, v. repeat split; auto.
  unfold composed_from in Hcomp. simpl in Hcomp.
  now rewrite Hca, Hcn in Hcomp.
Qed.

(** X11.  A function decorated with [composes] is called with the value
    [a] passed by name to a keyword-only parameter [p], for which the table
    holds a composer [c] that is neither [None] nor [a]: the function, if
    it is invoked, receives for [p] what the call [c(a)] returned
    before. *)
Theorem composes_applies_composer_to_keyword_only
    (w : world) (fn : pyfunc) (composer_args : list value)
    (composer_kwargs : Dict.t value) (wr : wrapped) (bc : arguments value)
    (args_ : list value) (kwargs_ : Dict.t value)
    (p : Param) (c a : value) (s s' : state) (r : result value) :
  wf_sig (signature fn) = true ->
  wf_kwargs composer_kwargs = true ->
  wf_kwargs kwargs_ = true ->
  composes w composer_args composer_kwargs fn = Ok wr ->
  bind_partial (signature fn) composer_args composer_kwargs = Ok bc ->
  In p (signature fn) -> kind p = KEYWORD_ONLY ->
  Dict.get kwargs_ (name p) = Some a ->
  Dict.get bc (name p) = Some (One c) ->
  is_ c a = false -> is_ c VNone = false ->
  wr args_ kwargs_ s = (r, s') ->
  exists evs, log s' = log s ++ evs /\
    ((exists e, r = Raise e /\ Forall not_invoke evs) \/
     (exists before env v,
        evs = before ++ [EvInvoke env r] /\ Forall not_invoke before /\
        In (EvCall c [a] (Ok v)) before /\
        Dict.get env (name p) = Some (One v))).
Proof.
  intros Hwf Hckw Hkw Hc Hbc Ip Hk Ha Hg Hca Hcn Hrun.
  destruct (@composes_cases w _ _ _ _ Hc) as (bc' & finish & Hbc' & -> & Hfin).
  rewrite Hbc in Hbc'. injection Hbc' as <-.
  destruct (@compose_body_keyword_only w composed_from finish
              composed_from_mono
              (fun c0 a0 s0 v0 s1 =>
                 @compose_item_composed w finish c0 a0 s0 v0 s1 Hfin)
              (@composes_finish_quiet w finish Hfin)
              fn composer_args composer_kwargs bc args_ kwargs_ p c a
              s r s' Hwf Hckw Hkw Hbc Ip Hk Ha Hg Hrun)
    as (evs & L & [Hr|(before & env & v & E & F & Hcomp & Hv)]);
    exists evs; split; auto.
  right. exists before, env, v. repeat split; auto.
  unfold composed_from in Hcomp. simpl in Hcomp.
  now rewrite Hca, Hcn in Hcomp.
Qed.




Import Examples MoreExamples.

Lemma composes_applies_composer_to_positional_witness :
  let bc := [("x", One lambda_x_plus_1); ("y", One lambda_y_plus_2)] in
  let wr := composes_fn ex_world foo2 bc in
  let composer_kwargs := [("y", lambda_y_plus_2)] in
  let args_ := [int 1; int 5] in
  let kwargs_ : Dict.t value := [] in
  let pre := [pok "x" None] in
  let p := pok "y" (Some (int 2)) in
  let post : list Param := [] in
  let c := lambda_y_plus_2 in
  let a := int 5 in
  let r := Ok (pair_of (int 2) (int 7)) in
  let s' := mkState [EvCall lambda_x_plus_1 [int 1] (Ok (int 2));
                     EvCall lambda_y_plus_2 [int 5] (Ok (int 7));
                     EvInvoke [("x", One (int 2)); ("y", One (int 7))] r] [] in
  wf_sig (signature foo2) = true /\
  wf_kwargs composer_kwargs = true /\
  wf_kwargs kwargs_ = true /\
  composed_foo2 = Ok wr /\
  bind_partial (signature foo2) [lambda_x_plus_1] composer_kwargs = Ok bc /\
  signature foo2 = pre ++ p :: post /\
  Forall (fun q => ordinary q = true) (pre ++ [p]) /\
  nth_error args_ (List.length pre) = Some a /\
  Dict.get bc (name p) = Some (One c) /\
  is_ c a = false /\ is_ c VNone = false /\
  wr args_ kwargs_ start = (r, s') /\
  exists evs, log s' = log start ++ evs /\
    ((exists e, r = Raise e /\ Forall not_invoke evs) \/
     (exists before env v,
        evs = before ++ [EvInvoke env r] /\ Forall not_invoke before /\
        In (EvCall c [a] (Ok v)) before /\
        Dict.get env (name p) = Some (One v))).
Proof.
  intros bc wr composer_kwargs args_ kwargs_ pre p post c a r s'.
  assert (Hwr : composed_foo2 = Ok wr) by reflexivity.
  assert (Hord : Forall (fun q => ordinary q = true) (pre ++ [p]))
    by (repeat constructor).
  assert (Hrun : wr args_ kwargs_ start = (r, s')) by reflexivity.
  repeat (split; [first [reflexivity | exact Hord | exact Hwr | exact Hrun]|]).
  exact (@composes_applies_composer_to_positional ex_world foo2
           [lambda_x_plus_1] composer_kwargs wr bc args_ kwargs_ pre post p
           c a start s' r eq_refl eq_refl eq_refl Hwr eq_refl eq_refl Hord
           eq_refl eq_refl eq_refl eq_refl Hrun).
Defined.

Lemma composes_applies_composer_to_keyword_only_witness :
  let bc := [("arg1", One lambda_x_plus_1)] in
  let wr := composes_fn ex_world foo_kwonly bc in
  let composer_kwargs := [("arg1", lambda_x_plus_1)] in
  let kwargs_ := [("arg1", int 1)] in
  let p := mkParam "arg1" KEYWORD_ONLY None in
  let c := lambda_x_plus_1 in
  let a := int 1 in
  let r := Ok (int 2) in
  let s' := mkState [EvCall lambda_x_plus_1 [int 1] (Ok (int 2));
                     EvInvoke [("arg1", One (int 2))] r] [] in
  wf_sig (signature foo_kwonly) = true /\
  wf_kwargs composer_kwargs = true /\
  wf_kwargs kwargs_ = true /\
  composes ex_world [] composer_kwargs foo_kwonly = Ok wr /\
  bind_partial (signature foo_kwonly) [] composer_kwargs = Ok bc /\
  In p (signature foo_kwonly) /\ kind p = KEYWORD_ONLY /\
  Dict.get kwargs_ (name p) = Some a /\
  Dict.get bc (name p) = Some (One c) /\
  is_ c a = false /\ is_ c VNone = false /\
  wr [] kwargs_ start = (r, s') /\
  exists evs, log s' = log start ++ evs /\
    ((exists e, r = Raise e /\ Forall not_invoke evs) \/
     (exists before env v,
        evs = before ++ [EvInvoke env r] /\ Forall not_invoke before /\
        In (EvCall c [a] (Ok v)) before /\
        Dict.get env (name p) = Some (One v))).
Proof.
  intros bc wr composer_kwargs kwargs_ p c a r s'.
  assert (Hwr : composes ex_world [] composer_kwargs foo_kwonly = Ok wr)
    by reflexivity.
  assert (Hp : In p (signature foo_kwonly)) by (left; reflexivity).
  assert (Hrun : wr [] kwargs_ start = (r, s')) by reflexivity.
  repeat (split; [first [reflexivity | exact Hp | exact Hwr | exact Hrun]|]).
  exact (@composes_applies_composer_to_keyword_only ex_world foo_kwonly
           [] composer_kwargs wr bc [] kwargs_ p c a start s' r
           eq_refl eq_refl eq_refl Hwr eq_refl Hp eq_refl
           eq_refl eq_refl eq_refl eq_refl Hrun).
Defined.



End Composed.

(* ===================================================================== *)
(** ** injects.ctx and composes.ctx: how a context is entered *)
(* ===================================================================== *)

Module Protocol.
Import Inspect Wf DictFacts BinderFacts Rebind BindSpec BindMore Natural Run
  InjectFacts InjectClaims ComposeFacts Evaluated Steps ExitStack CtxOutcome
  NoAwait Leading.
Local Open Scope py_scope.

Section W.
Variable w : world.

Lemma entered_as_exits async xs :
  Forall is_exit xs -> Forall (entered_as async) xs.
Proof.
  intros H. eapply Forall_impl; [|exact H].
  intros [] Hx; simpl in *; auto; contradiction.
Qed.

(** The two ways an item ends in the synchronous [_fn]. *)
Lemma sync_step_entered_as (x : triple) :
  emits (entered_as false)
    ((fun '(v, cld, _) =>
        if (cld : bool) then enter_context w v else ret v) x).
Proof.
  destruct x as [[v cld] c]. destruct cld; [|apply emits_ret].
  apply emits_enter_context. intros r. reflexivity.
Qed.

(** [_enter] and the inner [_call] of the asynchronous [_fn]. *)
Lemma async_step_entered_as (finish : triple -> M value) x :
  finish = _enter w \/ finish = composes_ctx__call w ->
  emits (entered_as true) (finish x).
Proof.
  intros Hf. destruct x as [[v cld] c].
  assert (E : finish (v, cld, c) =
              if negb cld then ret v
              else if negb (has_aenter v) then enter_context w v
                   else enter_async_context w v)
    by (destruct Hf as [->| ->]; reflexivity).
  rewrite E. destruct cld; simpl; [|apply emits_ret].
  destruct (has_aenter v) eqn:Ha; simpl.
  - apply emits_enter_async_context. intros r. simpl. now rewrite Ha.
  - apply emits_enter_context. intros r. simpl. now rewrite Ha.
Qed.

Lemma inject_item_entered_as async (finish : triple -> M value) a :
  (forall x, emits (entered_as async) (finish x)) ->
  emits (entered_as async) (x <- _call_bound_inject w a ;; finish x).
Proof.
  intros Hf. apply emits_bind; auto.
  apply emits_call_bound_inject. intros; exact I.
Qed.

Lemma compose_item_entered_as async (finish : triple -> M value) c a :
  (forall x, emits (entered_as async) (finish x)) ->
  emits (entered_as async) (x <- _call w c a ;; finish x).
Proof.
  intros Hf. apply emits_bind; auto.
  apply emits_call. intros; exact I.
Qed.

(** The keyword comprehension of the synchronous [_fn] of [injects_ctx]
    enters nothing. *)
Lemma injects_ctx_kwargs_entered_as async (slots : Dict.t slot) :
  emits (entered_as async)
    (injects_ctx_kwargs
       (map (fun kv => (fst kv, _call_bound_inject w (snd kv))) slots)).
Proof.
  unfold injects_ctx_kwargs. apply emits_bind; [|intros; apply emits_ret].
  apply emits_sequence. rewrite map_map.
  apply Forall_forall. intros m Im.
  apply in_map_iff in Im as (kv & <- & _). simpl.
  apply emits_bind; [apply emits_call_bound_inject; intros; exact I|].
  intros x. apply emits_raise.
Qed.

Lemma in_exit_stack_entered_as async (body : M value) s r s' :
  emits (entered_as async) body ->
  with_exit_stack w body s = (r, s') ->
  exists evs, log s' = log s ++ evs /\ Forall (entered_as async) evs.
Proof.
  intros Hb Hrun.
  apply with_exit_stack_inv in Hrun
    as (r1 & s1 & xs & Hbody & L & F & _ & _ & _).
  destruct (Hb _ _ _ Hbody) as (evs & L1 & F1). simpl in L1.
  exists (evs ++ xs). rewrite L, L1, <- app_assoc. split; auto.
  apply Forall_app. split; auto. now apply entered_as_exits.
Qed.

End W.

(** X14.  The wrappers of [injects_ctx] and [composes_ctx] of a function
    that is not a coroutine function enter every context manager with the
    synchronous protocol ([__enter__]), also one that has [__aenter__];
    those of a coroutine function enter it with the asynchronous protocol
    exactly when it has [__aenter__], and with the synchronous one
    otherwise. *)
Theorem ctx_enters_by_protocol (w : world)
    (decoration_args : list value) (decoration_kwargs : Dict.t value)
    (fn : pyfunc) (wr : wrapped) (args_ : list value)
    (kwargs_ : Dict.t value) (s s' : state) (r : result value) :
  injects_ctx w decoration_args decoration_kwargs fn = Ok wr \/
  composes_ctx w decoration_args decoration_kwargs fn = Ok wr ->
  wr args_ kwargs_ s = (r, s') ->
  exists evs, log s' = log s ++ evs /\
    Forall (entered_as (iscoroutinefunction fn)) evs.
Proof.
  intros [H|H] Hrun.
  - unfold injects_ctx in H.
    destruct (bind_injectors (signature fn) decoration_args decoration_kwargs)
      as [bc|] eqn:Hbc; [|discriminate].
    destruct (iscoroutinefunction fn); simpl in H; injection H as <-.
    + change (with_exit_stack w
                (inject_body w (_enter w)
                   (fun items => for_kwargs items (_enter w)) fn bc
                   args_ kwargs_) s = (r, s')) in Hrun.
      revert Hrun. apply in_exit_stack_entered_as.
      assert (Hf : forall x, emits (entered_as true) (_enter w x))
        by (intros x; apply (@async_step_entered_as w); auto).
      apply emits_inject_body; [intros; exact I| |].
      * intros a. now apply inject_item_entered_as.
      * intros slots. apply emits_for_kwargs_items. apply Forall_map.
        apply Forall_forall. intros kv _. simpl.
        now apply inject_item_entered_as.
    + change (with_exit_stack w
                (inject_body w
                   (fun '(v, cld, _) =>
                      if (cld : bool) then enter_context w v else ret v)
                   injects_ctx_kwargs fn bc args_ kwargs_) s = (r, s')) in Hrun.
      revert Hrun. apply in_exit_stack_entered_as.
      apply emits_inject_body; [intros; exact I| |].
      * intros a. apply inject_item_entered_as. apply sync_step_entered_as.
      * intros slots. apply injects_ctx_kwargs_entered_as.
  - unfold composes_ctx in H.
    destruct (bind_partial (signature fn) decoration_args decoration_kwargs)
      as [bc|] eqn:Hbc; [|discriminate].
    destruct (iscoroutinefunction fn); simpl in H; injection H as <-.
    + change (with_exit_stack w
                (compose_body w (composes_ctx__call w) fn bc args_ kwargs_) s
              = (r, s')) in Hrun.
      revert Hrun. apply in_exit_stack_entered_as.
      apply emits_compose_body; [intros; exact I|].
      intros c a. apply compose_item_entered_as.
      intros x. apply (@async_step_entered_as w). auto.
    + change (with_exit_stack w
                (compose_body w
                   (fun '(v, ctx, _) =>
                      if (ctx : bool) then enter_context w v else ret v)
                   fn bc args_ kwargs_) s = (r, s')) in Hrun.
      revert Hrun. apply in_exit_stack_entered_as.
      apply emits_compose_body; [intros; exact I|].
      intros c a. apply compose_item_entered_as. apply sync_step_entered_as.
Qed.

Import Examples.

Lemma ctx_enters_by_protocol_witness :
  let wr := injects_ctx_fn ex_world foo1 [("arg1", One (_bindwrap ctx))] in
  let r := Ok (int 7) in
  let s' := mkState [EvCall ctx [] (Ok ctx_manager);
                     EvEnter true ctx_manager (Ok (int 7));
                     EvInvoke [("arg1", One (int 7))] (Ok (int 7));
                     EvExit true ctx_manager None (Ok false)] [] in
  (injects_ctx ex_world [ctx] [] foo1 = Ok wr \/
   composes_ctx ex_world [ctx] [] foo1 = Ok wr) /\
  wr [] [] start = (r, s') /\
  exists evs, log s' = log start ++ evs /\
    Forall (entered_as (iscoroutinefunction foo1)) evs.
Proof.
  intros wr r s'.
  assert (H1 : injects_ctx ex_world [ctx] [] foo1 = Ok wr \/
               composes_ctx ex_world [ctx] [] foo1 = Ok wr)
    by (left; reflexivity).
  assert (H2 : wr [] [] start = (r, s')) by reflexivity.
  split; [exact H1|]. split; [exact H2|].
  exact (@ctx_enters_by_protocol ex_world [ctx] [] foo1 wr [] [] start s' r
           H1 H2).
Defined.

End Protocol.

(* ===================================================================== *)
(** ** injects.ctx on a function that is not a coroutine function *)
(* ===================================================================== *)

Module SyncCtx.
Import Inspect Wf DictFacts BinderFacts Rebind BindSpec BindMore Natural Run
  InjectFacts InjectClaims ComposeFacts Evaluated Steps ExitStack CtxOutcome
  Leading.
Local Open Scope py_scope.

Section W.
Variable w : world.

(** The body of the synchronous [_fn] of [injects_ctx], when the merged
    binding has a value for a keyword-only parameter: the keyword
    comprehension fails, at the latest on unpacking its first item. *)
Lemma sync_body_fails fn bc args_ kwargs_ p s r s' :
  let sig := signature fn in
  wf_sig sig = true -> wf_kwargs kwargs_ = true -> ok sig bc ->
  In p sig -> kind p = KEYWORD_ONLY ->
  Dict.get bc (name p) <> None \/ Dict.get kwargs_ (name p) <> None ->
  inject_body w
    (fun '(v, cld, _) => if (cld : bool) then enter_context w v else ret v)
    injects_ctx_kwargs fn bc args_ kwargs_ s = (r, s') ->
  exists e evs, r = Raise e /\ log s' = log s ++ evs /\
                Forall not_invoke evs.
Proof.
  intros sig Hwf Hkw Hbc Ip Hk Hval H. subst sig.
  assert (Hnd : NoDup (map name (signature fn))).
  { unfold wf_sig in Hwf. apply andb_true_iff in Hwf as [Hwf' _].
    now apply nodupb_NoDup. }
  apply wf_kwargs_NoDup in Hkw.
  unfold inject_body in H. rewrite call_binding in H.
  destruct (bind_partial (signature fn) args_ kwargs_) as [ba|e] eqn:Hba.
  2:{ unfold bindM, try, lift in H. simpl in H. inversion H; subst.
      exists e, []. rewrite app_nil_r. auto. }
  simpl in H. unfold bindM at 1, try, lift in H. simpl in H.
  destruct (@bind_ok _ true (signature fn) args_ kwargs_ ba Hwf Hkw Hba)
    as (Hoa & Hna & _).
  set (bb := Dict.update bc (map_arguments Arg ba)) in *.
  assert (Hnm : NoDup (Dict.keys (map_arguments Arg ba))).
  { unfold map_arguments. now rewrite keys_map_values. }
  assert (Hbb : ok (signature fn) bb).
  { apply ok_update; auto. now apply ok_map_arguments. }
  (* the keyword part of the merge is not empty *)
  assert (Hg : exists v, Dict.get bb (name p) = Some (One v)).
  { assert (Hsome : Dict.get bb (name p) <> None).
    { unfold bb. rewrite get_update by auto. rewrite get_map_arguments.
      destruct (Dict.get ba (name p)) as [x|] eqn:Hx; [discriminate|].
      simpl. destruct Hval as [Hv|Hv]; auto.
      destruct (Dict.get kwargs_ (name p)) as [a|] eqn:Ha; [|congruence].
      unfold bind_partial in Hba.
      rewrite (@bind_keyword_only _ true (signature fn) args_ kwargs_ ba p a
                 Hnd Ip Hk Ha Hba) in Hx. discriminate. }
    destruct (Dict.get bb (name p)) as [x|] eqn:Hx; [|congruence].
    pose proof (@ok_shape _ _ _ Hbb p x Ip Hx) as Hs.
    rewrite Hk in Hs. destruct Hs as (v & ->). eauto. }
  destruct Hg as (v & Hg).
  pose proof (@kwargs_keyword_only _ (signature fn) bb p v Hwf Hbb Ip Hk Hg)
    as Hkv.
  destruct (kwargs (signature fn) bb) as [|[k a0] rest] eqn:Hkwargs;
    [discriminate|].
  (* the positional items, then the first keyword item *)
  assert (Hem : emits not_invoke
            (for_args (map (_call_bound_inject w) (args (signature fn) bb))
               (fun '(v, cld, _) =>
                  if (cld : bool) then enter_context w v else ret v))).
  { apply emits_for_args.
    - apply Forall_map. apply Forall_forall. intros a _.
      apply emits_call_bound_inject. intros; apply not_invoke_call.
    - apply (@ctx_finish_quiet w). auto. }
  apply bindM_inv in H as [(e & H & ->)|(vs & s1 & H1 & H)].
  { destruct (Hem _ _ _ H) as (evs & L & F). exists e, evs. auto. }
  destruct (Hem _ _ _ H1) as (ev1 & L1 & F1).
  apply bindM_inv in H as [(e & H & ->)|(kvs & s2 & H2 & H)].
  - destruct (@injects_ctx_kwargs_quiet w ((k, a0) :: rest) _ _ _ H)
      as (ev2 & L2 & F2).
    exists e, (ev1 ++ ev2). rewrite L2, L1, app_assoc.
    repeat split; auto. apply Forall_app. auto.
  - exfalso. simpl in H2.
    destruct (injects_ctx_kwargs_raises _ _ _ _ H2) as (e & [=] & _).
Qed.

End W.

(** X15.  A function that is not a coroutine function, decorated with
    [injects_ctx], for which the call or the table has a value for one of
    its keyword-only parameters, is never invoked: the body of the wrapper
    ends in an exception, whatever the table entries do, and the call ends
    as the releases of what was entered before make this exception end
    (the keyword comprehension of the synchronous [_fn] unpacks the pairs
    of [b_kwargs] into three names). *)
Theorem sync_injects_ctx_never_invokes_with_keyword_only
    (w : world) (fn : pyfunc) (injector_args : list value)
    (injector_kwargs : Dict.t value) (wr : wrapped) (bc : arguments slot)
    (args_ : list value) (kwargs_ : Dict.t value) (p : Param)
    (s s' : state) (r : result value) :
  wf_sig (signature fn) = true ->
  wf_kwargs kwargs_ = true ->
  iscoroutinefunction fn = false ->
  injects_ctx w injector_args injector_kwargs fn = Ok wr ->
  bind_injectors (signature fn) injector_args injector_kwargs = Ok bc ->
  In p (signature fn) -> kind p = KEYWORD_ONLY ->
  Dict.mem bc (name p) || Dict.mem kwargs_ (name p) = true ->
  wr args_ kwargs_ s = (r, s') ->
  exists evs xs e,
    log s' = log s ++ evs ++ xs /\ Forall not_invoke evs /\
    Forall is_exit xs /\ r = settle (Raise e) (verdict xs None).
Proof.
  intros Hwf Hkw Hsync Hinj Hbc Ip Hk Hmem Hrun.
  assert (Hval : Dict.get bc (name p) <> None \/
                 Dict.get kwargs_ (name p) <> None).
  { unfold Dict.mem in Hmem.
    destruct (Dict.get bc (name p)); [left; discriminate|].
    destruct (Dict.get kwargs_ (name p)); [right; discriminate|].
    discriminate. }
  unfold injects_ctx in Hinj. rewrite Hbc, Hsync in Hinj. simpl in Hinj.
  injection Hinj as <-.
  change (with_exit_stack w
            (inject_body w
               (fun '(v, cld, _) =>
                  if (cld : bool) then enter_context w v else ret v)
               injects_ctx_kwargs fn bc args_ kwargs_) s = (r, s')) in Hrun.
  apply with_exit_stack_inv in Hrun
    as (r1 & s1 & xs & Hbody & L & F & _ & _ & Hr).
  destruct (@sync_body_fails w fn bc args_ kwargs_ p _ _ _ Hwf Hkw
              (bind_injectors_ok _ _ _ Hwf Hbc) Ip Hk Hval Hbody)
    as (e & evs & -> & L1 & F1).
  simpl in L1. exists evs, xs, e. rewrite L, L1, <- app_assoc. auto.
Qed.

Import Examples.

Lemma sync_injects_ctx_never_invokes_with_keyword_only_witness :
  let bc := [("arg1", One (_bindwrap ctx))] in
  let wr := injects_ctx_fn ex_world foo_kwonly bc in
  let kwargs_ : Dict.t value := [] in
  let p := mkParam "arg1" KEYWORD_ONLY None in
  let r := Raise (ValueError "not enough values to unpack (expected 3, got 2)") in
  let s' := mkState [EvCall ctx [] (Ok ctx_manager)] [] in
  wf_sig (signature foo_kwonly) = true /\
  wf_kwargs kwargs_ = true /\
  iscoroutinefunction foo_kwonly = false /\
  injects_ctx ex_world [] [("arg1", ctx)] foo_kwonly = Ok wr /\
  bind_injectors (signature foo_kwonly) [] [("arg1", ctx)] = Ok bc /\
  In p (signature foo_kwonly) /\ kind p = KEYWORD_ONLY /\
  Dict.mem bc (name p) || Dict.mem kwargs_ (name p) = true /\
  wr [] kwargs_ start = (r, s') /\
  exists evs xs e,
    log s' = log start ++ evs ++ xs /\ Forall not_invoke evs /\
    Forall is_exit xs /\ r = settle (Raise e) (verdict xs None).
Proof.
  intros bc wr kwargs_ p r s'.
  assert (Hwr : injects_ctx ex_world [] [("arg1", ctx)] foo_kwonly = Ok wr)
    by reflexivity.
  assert (Hp : In p (signature foo_kwonly)) by (left; reflexivity).
  assert (Hrun : wr [] kwargs_ start = (r, s')) by reflexivity.
  repeat (split; [first [reflexivity | exact Hp | exact Hwr | exact Hrun]|]).
  exact (@sync_injects_ctx_never_invokes_with_keyword_only ex_world foo_kwonly
           [] [("arg1", ctx)] wr bc [] kwargs_ p start s' r
           eq_refl eq_refl eq_refl Hwr eq_refl Hp eq_refl eq_refl Hrun).
Defined.

End SyncCtx.

(* ===================================================================== *)
(** ** injects: when the function is called *)
(* ===================================================================== *)

Module Progress.
Import Inspect Wf DictFacts BinderFacts Rebind BindSpec BindMore Natural Run
  RebindRelated InjectFacts InjectClaims Steps MismatchClaims Origin
  Justified InjectRun InjectReceives CtxOutcome Received.
Local Open Scope py_scope.

(** A list of steps that all return, returns. *)
Lemma sequence_returns {A B} (good : B -> Prop) (step : B -> M A) :
  (forall b s, good b -> exists a s', step b s = (Ok a, s')) ->
  forall bs, Forall good bs ->
  forall s, exists xs s', sequence (map step bs) s = (Ok xs, s').
Proof.
  intros Hstep bs. induction 1 as [|b bs Hb _ IH]; intros s; simpl.
  - exists [], s. reflexivity.
  - destruct (Hstep b s Hb) as (a & s1 & Ha).
    destruct (IH s1) as (xs & s2 & Hx).
    exists (a :: xs), s2.
    rewrite (@bindM_ok _ _ _ _ _ _ _ Ha).
    now rewrite (@bindM_ok _ _ _ _ _ _ _ Hx).
Qed.

(** A body that ran to the call of the function did not stop before
    it. *)
Lemma invoked_not_quiet (t pre evs : trace) env r :
  t ++ pre ++ [EvInvoke env r] = t ++ evs -> Forall not_invoke evs -> False.
Proof.
  intros E F. apply app_inv_head in E. subst evs.
  apply Forall_app in F as [_ F]. inversion F as [|? ? Hn _]; subst.
  apply Hn. exact I.
Qed.

Section Returns.
Variable w : world.
Variable finish : triple -> M value.
Variable good : slot -> Prop.
Hypothesis Hquiet : forall x, emits not_invoke (finish x).
Hypothesis Hgood : forall a s, good a ->
  exists v s', (x <- _call_bound_inject w a ;; finish x) s = (Ok v, s').

Lemma for_args_reach slots s :
  Forall good slots ->
  exists vs s',
    for_args (map (_call_bound_inject w) slots) finish s = (Ok vs, s').
Proof.
  intros H. unfold for_args. rewrite map_map.
  apply (@sequence_returns _ _ good
           (fun a => x <- _call_bound_inject w a ;; finish x)); auto.
Qed.

Lemma for_kwargs_reach (slots : Dict.t slot) s :
  Forall good (map snd slots) ->
  exists kvs s',
    for_kwargs (map (fun kv => (fst kv, _call_bound_inject w (snd kv))) slots)
      finish s = (Ok kvs, s').
Proof.
  intros H. unfold for_kwargs. rewrite map_map.
  destruct (@sequence_returns _ _ (fun kv => good (snd kv))
              (fun kv : string * slot =>
                 x <- _call_bound_inject w (snd kv) ;;
                 v <- finish x ;; ret (fst kv, v))) with
    (bs := slots) (s := s) as (its & s1 & Hs).
  - intros [k a] s0 Hg. simpl in *.
    destruct (@Hgood a s0 Hg) as (v & s2 & Hv).
    exists (k, v), s2. unfold bindM in *.
    destruct (_call_bound_inject w a s0) as [[x|e] s3]; [|discriminate].
    now rewrite Hv.
  - rewrite Forall_forall in *. intros kv Ikv. apply H. now apply in_map.
  - exists (dict_of its []), s1.
    now rewrite (@bindM_ok _ _ _ _ _ _ _ Hs).
Qed.

(** The body of a wrapper of [injects] or [injects_ctx] comes to the
    call of the function, on a binding [A] that has a value for the
    parameters for which the merge has one, when every item of the
    merge returns. *)
Lemma inject_body_to_invoke fn bc args_ kwargs_ ba s :
  let sig := signature fn in
  wf_sig sig = true -> wf_kwargs kwargs_ = true -> ok sig bc ->
  bind_partial sig args_ kwargs_ = Ok ba ->
  Forall good (merged sig bc ba) ->
  exists pre (A : arguments value) s2,
    inject_body w finish (fun items => for_kwargs items finish) fn bc
      args_ kwargs_ s = invoke fn (args sig A) (kwargs sig A) s2 /\
    log s2 = log s ++ pre /\ Forall not_invoke pre /\ ok sig A /\
    forall p, In p sig ->
      (Dict.get A (name p) = None <->
       Dict.get ba (name p) = None /\ Dict.get bc (name p) = None).
Proof.
  intros sig Hwf Hkw Hokbc Hba Hall. subst sig.
  assert (Hnd : NoDup (map name (signature fn))).
  { unfold wf_sig in Hwf. apply andb_true_iff in Hwf as [Hn _].
    now apply nodupb_NoDup. }
  pose proof Hkw as Hkw'.
  apply wf_kwargs_NoDup in Hkw.
  destruct (@bind_ok _ true (signature fn) args_ kwargs_ ba Hwf Hkw Hba)
    as (Hoa & Hna & _).
  unfold merged in Hall.
  set (bb := Dict.update bc (map_arguments Arg ba)) in *.
  apply Forall_app in Hall as [Hall1 Hall2].
  assert (Hnm : NoDup (Dict.keys (map_arguments Arg ba))).
  { unfold map_arguments. now rewrite keys_map_values. }
  assert (Hbb : ok (signature fn) bb).
  { apply ok_update; auto. now apply ok_map_arguments. }
  assert (Hcb : bind_partial (signature fn) (call_args args_)
                  (call_kwargs kwargs_) = Ok (map_arguments Arg ba)).
  { now rewrite call_binding, Hba. }
  (* the items return *)
  destruct (@for_args_reach (args (signature fn) bb) s Hall1)
    as (vs & s1 & H1).
  destruct (@for_kwargs_reach (kwargs (signature fn) bb) s1 Hall2)
    as (kvs & s2 & H2).
  (* what they return binds again *)
  assert (Hi : forall a, emits not_invoke
                 (x <- _call_bound_inject w a ;; finish x)).
  { intros a. apply emits_bind; auto.
    apply emits_call_bound_inject; intros; apply not_invoke_call. }
  assert (Hitem : forall a s0 v s3,
            (x <- _call_bound_inject w a ;; finish x) s0 = (Ok v, s3) ->
            exists evs, log s3 = log s0 ++ evs /\ True).
  { intros a s0 v s3 Hr. destruct (Hi a _ _ _ Hr) as (evs & L & _). eauto. }
  assert (Hem : emits not_invoke
            (for_args (map (_call_bound_inject w) (args (signature fn) bb))
               finish)).
  { unfold for_args. apply emits_sequence. rewrite map_map.
    apply Forall_forall. intros m Im.
    apply in_map_iff in Im as (a & <- & _). apply Hi. }
  destruct (Hem _ _ _ H1) as (ev1 & L1 & F1).
  assert (Hvs : Forall2 (fun _ _ => True) (args (signature fn) bb) vs).
  { pose proof H1 as H1'. unfold for_args in H1'. rewrite map_map in H1'.
    now apply (sequence_Forall2 (fun (_ : slot) (_ : value) => True))
      in H1'. }
  destruct (@for_kwargs_received w (fun _ _ _ => True) finish
              (fun _ _ _ _ _ H => H) Hitem Hquiet
              (kwargs (signature fn) bb)) as [Hwe Hwp].
  destruct (Hwe _ _ _ H2) as (ev2 & L2 & F2).
  destruct (Hwp (kwargs_nodup Hwf Hbb) _ _ _ H2) as (ev2' & _ & Hkvs).
  destruct (rebind_related Hwf Hbb Hvs Hkvs) as (Z & HZ & HR).
  set (A := map_arguments
              (@Related.after _ _ (fun (_ : slot) (_ : value) => True)) Z)
    in *.
  assert (HokA : ok (signature fn) A).
  { assert (Hkk : NoDup (Dict.keys kvs)).
    { replace (Dict.keys kvs) with (Dict.keys (kwargs (signature fn) bb)).
      - now apply kwargs_nodup.
      - clear -Hkvs. unfold Dict.keys.
        induction Hkvs as [|x y l l' [E _] _ IH]; simpl; congruence. }
    now destruct (@bind_ok _ true (signature fn) vs kvs _ Hwf Hkk HZ). }
  exists (ev1 ++ ev2), A, s2. split; [|split; [|split; [|split]]]; auto.
  - unfold inject_body. rewrite Hcb.
    rewrite (@bindM_ok _ _ _ _ s (map_arguments Arg ba) s) by reflexivity.
    cbv beta iota zeta delta [_build_bound_inject]. fold bb.
    rewrite (@bindM_ok _ _ _ _ _ _ _ H1).
    rewrite (@bindM_ok _ _ _ _ _ _ _ H2).
    rewrite HZ.
    now rewrite (@bindM_ok _ _ _ _ s2 A s2) by reflexivity.
  - now rewrite L2, L1, app_assoc.
  - apply Forall_app. auto.
  - intros p Ip.
    pose proof (@merged_entry (signature fn) bc ba kwargs_ args_ p
                  Hwf Hkw' Hba Ip) as Hg.
    fold bb in Hg. rewrite HR, get_map_arguments in Hg.
    unfold A. rewrite get_map_arguments.
    destruct (Dict.get Z (name p)); simpl in *;
      destruct (Dict.get ba (name p)); simpl in *;
      try destruct (Dict.get bc (name p)); simpl in *;
      split; try discriminate; auto; intros [? ?]; discriminate.
Qed.

(** It calls the function, when moreover the call and the table
    together give every required parameter a value. *)
Lemma inject_body_reaches fn bc args_ kwargs_ ba s :
  let sig := signature fn in
  wf_sig sig = true -> wf_kwargs kwargs_ = true -> ok sig bc ->
  bind_partial sig args_ kwargs_ = Ok ba ->
  covered sig ba bc ->
  Forall good (merged sig bc ba) ->
  exists pre env s',
    inject_body w finish (fun items => for_kwargs items finish) fn bc
      args_ kwargs_ s = (body fn (log s ++ pre) env, s') /\
    log s' = log s ++ pre ++ [EvInvoke env (body fn (log s ++ pre) env)] /\
    Forall not_invoke pre.
Proof.
  intros sig Hwf Hkw Hokbc Hba Hreq Hall. subst sig.
  destruct (@inject_body_to_invoke fn bc args_ kwargs_ ba s
              Hwf Hkw Hokbc Hba Hall)
    as (pre & A & s2 & Hrun & L & F & HokA & HA).
  assert (Hcomp : complete (signature fn) A).
  { intros p Ip Hr Hn. specialize (Hreq p Ip Hr).
    apply (HA p Ip) in Hn as [Ha Hc]. unfold Dict.mem in Hreq.
    now rewrite Ha, Hc in Hreq. }
  destruct (invoke fn (args (signature fn) A) (kwargs (signature fn) A) s2)
    as [r s'] eqn:Hinv.
  pose proof Hinv as Hinv'.
  apply invoke_run in Hinv' as [(_ & Hr & Hl & _)|(Hc & _)];
    auto; [|contradiction].
  exists pre, (apply_defaults (signature fn) A), s'.
  rewrite <- L, <- Hr. split; [|split]; auto.
  rewrite Hl, L, <- app_assoc. reflexivity.
Qed.


End Returns.

(** What a wrapper of [injects] does with an item is not the call of the
    function. *)
Lemma injects_finish_quiet w (finish : triple -> M value) :
  finish = (fun '(v, _, _) => ret v) \/
  finish = (fun '(v, _, awt) =>
              if iscoroutine awt then py_await w v else ret v) ->
  forall x, emits not_invoke (finish x).
Proof.
  intros Hfin [[v c] awt]. destruct Hfin as [->| ->].
  - apply emits_ret.
  - destruct (iscoroutine awt); [|apply emits_ret].
    apply emits_py_await. intros; apply not_invoke_await.
Qed.

Section W.
Variable w : world.
Variable table : list value.
Variable finish : triple -> M value.
Hypothesis Hfin :
  finish = (fun '(v, _, _) => ret v) \/
  finish = (fun '(v, _, awt) =>
              if iscoroutine awt then py_await w v else ret v).
Hypothesis Hcalls : forall t val, In val table -> callable val = true ->
  exists v, call_ w t val [] = Ok v.

(** An item of a wrapper of [injects] returns, when the calls of the
    table entries do. *)
Lemma inject_item_returns a s :
  from_table table a ->
  exists v s', (x <- _call_bound_inject w a ;; finish x) s = (Ok v, s').
Proof.
  intros Ha.
  assert (Hf : forall u c, iscoroutine c = false -> forall b s0,
            finish (u, b, c) s0 = (Ok u, s0)).
  { intros u c Hc b s0. destruct Hfin as [->| ->]; simpl; [reflexivity|].
    now rewrite Hc. }
  destruct a as [u|val]; simpl in *.
  - exists u, s. unfold bindM, ret. now apply Hf.
  - destruct (callable val) eqn:Hc; simpl.
    + destruct (Hcalls (log s) val Ha Hc) as (v & Hv).
      exists v, (mkState (log s ++ [EvCall val [] (Ok v)]) (exits s)).
      unfold bindM, ret, py_call. rewrite Hc, Hv.
      apply Hf. now apply callable_not_coroutine.
    + exists val, s. unfold bindM, ret. now apply Hf.
Qed.

(** The body of the wrappers of [injects] calls the function, when the
    call and the table together give every required parameter a value
    and the calls of the table entries return. *)
Lemma inject_body_returns fn injector_args injector_kwargs bc
    args_ kwargs_ ba s :
  let sig := signature fn in
  wf_sig sig = true -> wf_kwargs kwargs_ = true ->
  table = injector_args ++ map snd injector_kwargs ->
  bind_injectors sig injector_args injector_kwargs = Ok bc ->
  bind_partial sig args_ kwargs_ = Ok ba ->
  (forall p, In p sig -> required p = true ->
     Dict.mem ba (name p) || Dict.mem bc (name p) = true) ->
  exists pre env s',
    inject_body w finish (fun items => for_kwargs items finish) fn bc
      args_ kwargs_ s = (body fn (log s ++ pre) env, s') /\
    log s' = log s ++ pre ++ [EvInvoke env (body fn (log s ++ pre) env)] /\
    Forall not_invoke pre.
Proof.
  intros sig Hwf Hkw Htab Hbc Hba Hreq. subst sig.
  pose proof (bind_injectors_ok _ _ _ Hwf Hbc) as Hokbc.
  assert (Hcb : bind_partial (signature fn) (call_args args_)
                  (call_kwargs kwargs_) = Ok (map_arguments Arg ba)).
  { now rewrite call_binding, Hba. }
  apply (@inject_body_reaches w finish (from_table table)
           (@injects_finish_quiet w finish Hfin) inject_item_returns
           fn bc args_ kwargs_ ba s Hwf Hkw Hokbc Hba Hreq).
  apply Forall_forall. intros a Ia.
  apply (@merged_from_table table (signature fn) injector_args
           injector_kwargs bc args_ kwargs_ _ a Htab Hbc Hcb).
  unfold merged in Ia. apply in_app_or in Ia as [Ia|Ia].
  - now apply (@args_values _ _ (signature fn)).
  - now apply (@kwargs_values _ (signature fn)).
Qed.

End W.

(** The same with what the merge holds: a table entry that the call
    overrides need not return. *)
Lemma injects_reaches w fn injector_args injector_kwargs wr bc
    args_ kwargs_ ba s :
  wf_sig (signature fn) = true -> wf_kwargs kwargs_ = true ->
  injects w injector_args injector_kwargs fn = Ok wr ->
  bind_injectors (signature fn) injector_args injector_kwargs = Ok bc ->
  bind_partial (signature fn) args_ kwargs_ = Ok ba ->
  covered (signature fn) ba bc ->
  injectors_return w (merged (signature fn) bc ba) ->
  exists pre env s',
    wr args_ kwargs_ s = (body fn (log s ++ pre) env, s') /\
    log s' = log s ++ pre ++ [EvInvoke env (body fn (log s ++ pre) env)] /\
    Forall not_invoke pre.
Proof.
  intros Hwf Hkw Hinj Hbc Hba Hreq Hcalls.
  destruct (@injects_cases w _ _ _ _ Hinj) as (bc' & finish & Hbc' & -> & Hfin).
  rewrite Hbc in Hbc'. injection Hbc' as <-.
  pose proof (bind_injectors_ok _ _ _ Hwf Hbc) as Hokbc.
  set (table := flat_map (fun a => match a with
                                   | _bindwrap val => [val]
                                   | Arg _ => []
                                   end) (merged (signature fn) bc ba)).
  assert (Hin : forall val, In val table <->
                  In (_bindwrap val) (merged (signature fn) bc ba)).
  { intros val. unfold table. rewrite in_flat_map. split.
    - intros ([u|val'] & I & E); simpl in E; [contradiction|].
      destruct E as [E|[]]. now subst.
    - intros I. exists (_bindwrap val). split; auto. now left. }
  apply (@inject_body_reaches w finish (from_table table)
           (@injects_finish_quiet w finish Hfin)
           (@inject_item_returns w table finish Hfin
              (fun t val I => Hcalls t val (proj1 (Hin val) I)))
           fn bc args_ kwargs_ ba s Hwf Hkw Hokbc Hba Hreq).
  apply Forall_forall. intros [u|val] Ia; simpl; auto. now apply Hin.
Qed.


Section Ctx.
Variable w : world.
Variable async : bool.
Variable finish : triple -> M value.
Hypothesis Hfin :
  (async = false /\
   finish = (fun '(v, cld, _) =>
               if (cld : bool) then enter_context w v else ret v)) \/
  (async = true /\ finish = _enter w).



End Ctx.



(** X16.  A function decorated with [injects] is called whenever the call
    binds (partially) to its signature, the call and the table together
    give every required parameter a value, and the calls of the callable
    table entries return: the wrapper then adds no failure of its own, and
    the call ends as the function ends. *)
Theorem injects_calls_the_function
    (w : world) (fn : pyfunc) (injector_args : list value)
    (injector_kwargs : Dict.t value) (wr : wrapped) (bc : arguments slot)
    (args_ : list value) (kwargs_ : Dict.t value) (ba : arguments value)
    (s : state) :
  wf_sig (signature fn) = true ->
  wf_kwargs kwargs_ = true ->
  injects w injector_args injector_kwargs fn = Ok wr ->
  bind_injectors (signature fn) injector_args injector_kwargs = Ok bc ->
  bind_partial (signature fn) args_ kwargs_ = Ok ba ->
  (forall p, In p (signature fn) -> required p = true ->
     Dict.mem ba (name p) || Dict.mem bc (name p) = true) ->
  (forall t val, In val (injector_args ++ map snd injector_kwargs) ->
     callable val = true -> exists v, call_ w t val [] = Ok v) ->
  exists pre env s',
    wr args_ kwargs_ s = (body fn (log s ++ pre) env, s') /\
    log s' = log s ++ pre ++ [EvInvoke env (body fn (log s ++ pre) env)] /\
    Forall not_invoke pre.
Proof.
  intros Hwf Hkw Hinj Hbc Hba Hreq Hcalls.
  destruct (@injects_cases w _ _ _ _ Hinj) as (bc' & finish & Hbc' & -> & Hfin).
  rewrite Hbc in Hbc'. injection Hbc' as <-.
  exact (@inject_body_returns w _ finish Hfin Hcalls fn injector_args
           injector_kwargs bc args_ kwargs_ ba s Hwf Hkw eq_refl Hbc Hba Hreq).
Qed.

Import Examples.

Lemma injects_calls_the_function_witness :
  let injector_kwargs := [("arg1", lambda_7); ("arg2", int 6); ("arg3", int 5)] in
  let bc := [("arg1", One (_bindwrap lambda_7));
             ("arg2", One (_bindwrap (int 6)));
             ("arg3", One (_bindwrap (int 5)))] in
  let wr := injects_fn ex_world foo3 bc in
  let args_ : list value := [] in
  let kwargs_ : Dict.t value := [] in
  let ba : arguments value := [] in
  wf_sig (signature foo3) = true /\
  wf_kwargs kwargs_ = true /\
  injected_foo3 = Ok wr /\
  bind_injectors (signature foo3) [] injector_kwargs = Ok bc /\
  bind_partial (signature foo3) args_ kwargs_ = Ok ba /\
  (forall p, In p (signature foo3) -> required p = true ->
     Dict.mem ba (name p) || Dict.mem bc (name p) = true) /\
  (forall t val, In val ([] ++ map snd injector_kwargs) ->
     callable val = true -> exists v, call_ ex_world t val [] = Ok v) /\
  exists pre env s',
    wr args_ kwargs_ start = (body foo3 (log start ++ pre) env, s') /\
    log s' = log start ++ pre ++
               [EvInvoke env (body foo3 (log start ++ pre) env)] /\
    Forall not_invoke pre.
Proof.
  intros injector_kwargs bc wr args_ kwargs_ ba.
  assert (Hwr : injected_foo3 = Ok wr) by reflexivity.
  assert (Hreq : forall p, In p (signature foo3) -> required p = true ->
            Dict.mem ba (name p) || Dict.mem bc (name p) = true).
  { intros p [<-|[<-|[<-|[]]]] _; reflexivity. }
  assert (Hcalls : forall t val, In val ([] ++ map snd injector_kwargs) ->
            callable val = true -> exists v, call_ ex_world t val [] = Ok v).
  { intros t val [<-|[<-|[<-|[]]]] Hc; try discriminate.
    eexists. reflexivity. }
  repeat (split; [first [reflexivity | exact Hwr | exact Hreq | exact Hcalls]|]).
  exact (@injects_calls_the_function ex_world foo3 [] injector_kwargs wr bc
           args_ kwargs_ ba start eq_refl eq_refl Hwr eq_refl eq_refl
           Hreq Hcalls).
Defined.

End Progress.

(* ===================================================================== *)
(** ** injects: a value of the call takes precedence *)
(* ===================================================================== *)

Module Override.
Import Inspect Wf DictFacts BinderFacts Rebind BindSpec BindMore Natural Run
  RebindRelated InjectFacts InjectClaims Steps MismatchClaims Progress.
Local Open Scope py_scope.

(** C1.  For every function decorated with [injects] and every parameter
    [p], a value [x] that the call gives for [p] (by position or by
    keyword, [None] included) is what the function receives for [p],
    whatever the injector table holds for [p].  Every call of the wrapper
    either raises without having invoked the function, or invokes it
    once, as its last step, on arguments in which [p] has the value [x],
    and ends as the function ends.  And it does invoke the function
    whenever the call and the table together give every required
    parameter a value and the callable table entries that are left in
    the merge return; the entry that the call overrides is not among
    them. *)
Theorem injects_passes_call_time_value
    (w : world) (fn : pyfunc) (injector_args : list value)
    (injector_kwargs : Dict.t value) (wr : wrapped) (bc : arguments slot)
    (args_ : list value) (kwargs_ : Dict.t value) (ba : arguments value)
    (p : Param) (x : argval value) (s s' : state) (r : result value) :
  wf_sig (signature fn) = true ->
  wf_kwargs kwargs_ = true ->
  injects w injector_args injector_kwargs fn = Ok wr ->
  bind_injectors (signature fn) injector_args injector_kwargs = Ok bc ->
  bind_partial (signature fn) args_ kwargs_ = Ok ba ->
  In p (signature fn) ->
  Dict.get ba (name p) = Some x ->
  wr args_ kwargs_ s = (r, s') ->
  let received :=
    exists pre env,
      log s' = log s ++ pre ++ [EvInvoke env r] /\ Forall not_invoke pre /\
      r = body fn (log s ++ pre) env /\
      Dict.get env (name p) = Some x in
  ((exists e evs, r = Raise e /\ log s' = log s ++ evs /\
      Forall not_invoke evs) \/ received) /\
  (covered (signature fn) ba bc ->
   injectors_return w (merged (signature fn) bc ba) ->
   received).
Proof.
  intros Hwf Hkw Hinj Hbc Hba Ip Hx Hrun received.
  assert (Hsafe : (exists e evs, r = Raise e /\ log s' = log s ++ evs /\
                     Forall not_invoke evs) \/ received).
  { destruct (@call_time_value_if_invoked w fn injector_args injector_kwargs
                wr args_ kwargs_ ba p x s s' r Hwf Hkw Hinj Hba Ip Hx Hrun)
      as (evs & L & [(e & -> & F)|(pre & env & -> & F & Hr & Hg)]).
    - left. eauto.
    - right. exists pre, env. auto. }
  split; [exact Hsafe|].
  intros Hcov Hret.
  destruct (@injects_reaches w fn injector_args injector_kwargs wr bc
              args_ kwargs_ ba s Hwf Hkw Hinj Hbc Hba Hcov Hret)
    as (pre & env & s1 & Hrun' & L & _).
  rewrite Hrun in Hrun'. injection Hrun' as Hr <-.
  destruct Hsafe as [(e & evs & _ & L' & F)|Hrec]; [|exact Hrec].
  exfalso. rewrite L in L'.
  exact (@invoked_not_quiet _ _ _ _ _ L' F).
Qed.

Import Examples.

Lemma injects_passes_call_time_value_witness :
  let injector_kwargs :=
    [("arg1", lambda_x_plus_1); ("arg2", int 6); ("arg3", int 5)] in
  let bc := [("arg1", One (_bindwrap lambda_x_plus_1));
             ("arg2", One (_bindwrap (int 6)));
             ("arg3", One (_bindwrap (int 5)))] in
  let wr := injects_fn ex_world foo3 bc in
  let kwargs_ := [("arg1", VNone)] in
  let ba := [("arg1", One VNone)] in
  let p := pok "arg1" None in
  let r := Ok (triple_of VNone (int 6) (int 5)) in
  let s' := mkState [EvInvoke [("arg1", One VNone); ("arg2", One (int 6));
                               ("arg3", One (int 5))] r] [] in
  wf_sig (signature foo3) = true /\
  wf_kwargs kwargs_ = true /\
  injects ex_world [] injector_kwargs foo3 = Ok wr /\
  bind_injectors (signature foo3) [] injector_kwargs = Ok bc /\
  bind_partial (signature foo3) [] kwargs_ = Ok ba /\
  In p (signature foo3) /\
  Dict.get ba (name p) = Some (One VNone) /\
  wr [] kwargs_ start = (r, s') /\
  covered (signature foo3) ba bc /\
  injectors_return ex_world (merged (signature foo3) bc ba) /\
  exists pre env,
    log s' = log start ++ pre ++ [EvInvoke env r] /\ Forall not_invoke pre /\
    r = body foo3 (log start ++ pre) env /\
    Dict.get env (name p) = Some (One VNone).
Proof.
  intros injector_kwargs bc wr kwargs_ ba p r s'.
  assert (Hwr : injects ex_world [] injector_kwargs foo3 = Ok wr)
    by reflexivity.
  assert (Hp : In p (signature foo3)) by (left; reflexivity).
  assert (Hrun : wr [] kwargs_ start = (r, s')) by reflexivity.
  assert (Hcov : covered (signature foo3) ba bc).
  { intros q [<-|[<-|[<-|[]]]] _; reflexivity. }
  assert (Hret : injectors_return ex_world (merged (signature foo3) bc ba)).
  { intros t val [E|[E|[E|[]]]] Hc; try discriminate;
      injection E as <-; discriminate. }
  repeat (split; [first [reflexivity | exact Hp | exact Hwr | exact Hrun
                        | exact Hcov | exact Hret]|]).
  exact (proj2 (@injects_passes_call_time_value ex_world foo3 []
                  injector_kwargs wr bc [] kwargs_ ba p (One VNone)
                  start s' r
                  eq_refl eq_refl Hwr eq_refl eq_refl Hp eq_refl Hrun)
           Hcov Hret).
Defined.

End Override.

(* ===================================================================== *)
(** ** Where a mismatch surfaces, and where it does not *)
(* ===================================================================== *)

Module Surfaces.
Import Inspect Wf DictFacts BinderFacts Rebind BindSpec BindMore Natural Run
  RebindRelated InjectFacts InjectClaims ComposeClaims Steps ExitStack Mismatch
  MismatchClaims Origin Justified TableClaims CtxOutcome Received Progress.
Local Open Scope py_scope.





Import Examples Swallowing.



End Surfaces.

(* ===================================================================== *)
(** ** injects and injects.ctx: what becomes of the table entries *)
(* ===================================================================== *)

Module Entries.
Import Inspect Wf DictFacts BinderFacts Rebind BindSpec BindMore Natural Run
  RebindRelated InjectFacts InjectClaims Steps ExitStack Origin Justified
  MismatchClaims TableClaims InjectRun InjectReceives CtxOutcome Received
  Calls Progress.
Local Open Scope py_scope.



Import Examples.


End Entries.
